(** * Word Association Challenge: cycling selector and progress store

  A shallow embedding of [js/storage.js] (class [StorageManager]),
  [js/words.js] (class [WordManager]) and of the game object of
  [js/game.js] without what it does to the page, followed by the
  properties of the word cycle, of the statistics ledger and of a round of
  the game.

  Conventions of the embedding.
  - JavaScript numbers that the code uses as counters are integers ([Z]),
    exact up to [2^53].  The quotient and the product inside [Math.round]
    are rounded to double precision as JavaScript rounds them ([double]).
  - An object used as a dictionary is the [gmap string _] of its own
    properties.  Where the name of a property comes from data, a read also
    finds the members that every object inherits from [Object.prototype]
    ([get]), and an assignment to [__proto__] adds no property ([assign]).
    A [Set] of strings is a [gset string]; an array is a [list].
  - A call of [localStorage] that may throw returns an [option]; [None] is
    the exception and every [try]/[catch] of the source is a [match] on it.
  - The updates of the ledger return an [option] as well: [None] where a
    stored value does not have the shape the ledger gives it.
  - [Math.random] and [fetch] are the environment: a sequence of draws from
    the unit interval, read through a counter, and a table of responses.
    [async] functions run to completion; the only suspension of the source
    is the fetch inside [loadWords]. *)

From Stdlib Require Import ZArith QArith Qround Qabs Qpower SpecFloat Lia Lqa.
From stdpp Require Import gmap strings list fin_maps pretty.

(** ** JavaScript values and built-ins *)

Module JS.

(** Values that survive [JSON.stringify]/[JSON.parse]. *)
#[warnings="-register-all"] Inductive JValue : Type :=
| JNull
| JBool (b : bool)
| JNum (n : Z)
| JStr (s : string)
| JArr (l : list JValue)
| JObj (m : gmap string JValue).

(** [!!v]: what [if (v)], [!v] and [v || d] test. *)
Definition truthy (v : JValue) : bool :=
  match v with
  | JNull => false
  | JBool b => b
  | JNum n => negb (n =? 0)%Z
  | JStr s => negb (String.eqb s "")
  | JArr _ | JObj _ => true
  end.

(** [v === word] for a string [word]. *)
Definition is_string (word : string) (v : JValue) : bool :=
  match v with
  | JStr s => String.eqb s word
  | _ => false
  end.

(** [array.includes(word)] *)
Definition includes (word : string) (array : list JValue) : bool :=
  existsb (is_string word) array.

(** [Math.round], on the value of a double: the nearest integer, halves
    going up. *)
Definition Math_round (x : Q) : Z := Qfloor (x + (1 # 2)).

(** [floor(log2 x)] for a positive [x]. *)
Definition Qlog2 (x : Q) : Z :=
  let k := (Z.log2 (Qnum x) - Z.log2 (Zpos (Qden x)))%Z in
  if Qle_bool (2 ^ k) x then k else (k - 1)%Z.

(** The integer nearest to [y]; the even one of the two when [y] lies
    half-way between them. *)
Definition nearest_even (y : Q) : Z :=
  let n := Qfloor y in
  match (y - inject_Z n ?= 1 # 2)%Q with
  | Lt => n
  | Gt => (n + 1)%Z
  | Eq => if Z.even n then n else (n + 1)%Z
  end.

(** The result of an arithmetic operation whose exact value is [x]: the
    nearest number of IEEE 754 binary64, a multiple of [2^e] with a
    significand of 53 bits, where [e] is at least [-1074] (the subnormal
    numbers); halves go to the even significand.  Overflow is left out: the
    values here are quotients and products of counters. *)
Definition double (x : Q) : Q :=
  if Qeq_bool x 0 then 0%Q
  else
    let e := Z.max (-1074) (Qlog2 (Qabs x) - 52) in
    (inject_Z (nearest_even (x / 2 ^ e)) * 2 ^ e)%Q.

(** [Math.round((correct / total) * 100)]: the quotient is rounded, then
    the product.  Every call has a [total] that is not [0]. *)
Definition percentage (correct total : Z) : Z :=
  Math_round (double (double (inject_Z correct / inject_Z total) * 100)).
Arguments double : simpl never.
Arguments percentage : simpl never.

(** The same product with the binary64 division and multiplication of the
    Standard Library ([SpecFloat], precision 53 and maximal exponent 1024),
    for comparison; [None] is an infinity or a [NaN]. *)
Definition binary64_of_Z (n : Z) : spec_float := binary_normalize 53 1024 n 0 false.

Definition value (x : spec_float) : option Q :=
  match x with
  | S754_zero _ => Some 0%Q
  | S754_finite s m e => Some (inject_Z (if s then Z.neg m else Z.pos m) * 2 ^ e)%Q
  | S754_infinity _ | S754_nan => None
  end.

Definition rate_SpecFloat (correct total : Z) : option Q :=
  value (SFmul 53 1024
           (SFdiv 53 1024 (binary64_of_Z correct) (binary64_of_Z total))
           (binary64_of_Z 100)).

(** [key.startsWith(prefix)] *)
Definition startsWith (key prefix : string) : bool := String.prefix prefix key.

(** [key.substring(n)]: [key] without its first [n] characters. *)
Fixpoint substring (n : nat) (key : string) : string :=
  match n, key with
  | S n', String _ rest => substring n' rest
  | _, _ => key
  end.

(** One result of [Math.random()]: a rational [num/den] of [[0, 1)]. *)
Record Draw : Type := { num : nat; den : nat; below_one : num < den }.

(** [Math.floor(r * n)] *)
Definition floor_times (r : Draw) (n : nat) : nat := (num r * n) / den r.

(** [[a[i], a[j]] = [a[j], a[i]]]: both reads happen before the writes.
    An index past the end would read [undefined]; the loop of
    [shuffleArray] never produces one (see [floor_times_lt]), and the
    embedding leaves the array alone there. *)
Definition swap {A : Type} (i j : nat) (a : list A) : list A :=
  match a !! i, a !! j with
  | Some x, Some y => <[j:=x]> (<[i:=y]> a)
  | _, _ => a
  end.

(** A string kept by [localStorage], seen through [JSON.parse]: [Json v] is
    the text [JSON.stringify(v)], which parses back to [v]; [Raw s] is a
    text [s] that [JSON.parse] refuses.  The code reads stored strings only
    through [JSON.parse] and, in the availability probe, by comparing with
    the literal ['test']. *)
Inductive Item : Type :=
| Json (v : JValue)
| Raw (s : string).

Definition JSON_stringify (v : JValue) : Item := Json v.

(** [None]: [JSON.parse] throws a [SyntaxError]. *)
Definition JSON_parse (item : Item) : option JValue :=
  match item with
  | Json v => Some v
  | Raw _ => None
  end.

(** [retrieved === 'literal'] for a string literal that is not JSON. *)
Definition is_raw (literal : string) (retrieved : option Item) : bool :=
  match retrieved with
  | Some (Raw s) => String.eqb s literal
  | _ => false
  end.

(** The names every object inherits from [Object.prototype].  For them
    [o[key]] is a function (an object for [__proto__]) even when [o] has no
    such property of its own, where it is [undefined] for any other missing
    key. *)
Definition Object_prototype : list string :=
  [ "constructor"; "hasOwnProperty"; "isPrototypeOf"; "propertyIsEnumerable";
    "toLocaleString"; "toString"; "valueOf"; "__proto__";
    "__defineGetter__"; "__defineSetter__"; "__lookupGetter__"; "__lookupSetter__" ].

Definition inherited (key : string) : bool := bool_decide (key ∈ Object_prototype).

(** What [o[key]] finds in an object [o] made by a literal or by
    [JSON.parse], whose own properties are the map: a property of its own;
    else, for an inherited name, the member of [Object.prototype] (always
    truthy, never a number or an array); else [undefined]. *)
Inductive Property (A : Type) : Type :=
| Own (a : A)
| Inherited
| Undefined.
Arguments Own {A} a.
Arguments Inherited {A}.
Arguments Undefined {A}.

Definition get {A : Type} (key : string) (o : gmap string A) : Property A :=
  match o !! key with
  | Some a => Own a
  | None => if inherited key then Inherited else Undefined
  end.

(** [!!o[key]] *)
Definition has (key : string) (o : gmap string JValue) : bool :=
  match get key o with
  | Own v => truthy v
  | Inherited => true
  | Undefined => false
  end.

(** [o[key] = a].  On an object without a property [__proto__] of its own
    (which only [JSON.parse] creates) the assignment to that name runs the
    setter of [Object.prototype]: the prototype of [o] is replaced when [a]
    is an object or [null], and [o] gets no property.  The prototype is not
    part of the map; the objects assigned to in this way are read by
    [Object.entries] and [JSON.stringify] only, which do not look at it. *)
Definition assign {A : Type} (key : string) (a : A) (o : gmap string A) : gmap string A :=
  match o !! key with
  | Some _ => <[key := a]> o
  | None => if String.eqb key "__proto__" then o else <[key := a]> o
  end.

End JS.
Import JS.

(** ** The browser's [localStorage] *)

Module LocalStorage.

(** How the medium behaves: it works; it refuses every write (a full or
    zero quota); or every access throws (storage blocked). *)
Inductive Fault : Type := Healthy | QuotaExceeded | Blocked.

Record t : Type := { fault : Fault; items : gmap string Item }.

Definition setItem (key : string) (value : Item) (ls : t) : option t :=
  match fault ls with
  | Healthy => Some {| fault := Healthy; items := <[key:=value]> (items ls) |}
  | _ => None
  end.

(** [Some None] is JavaScript's [null]: no such key. *)
Definition getItem (key : string) (ls : t) : option (option Item) :=
  match fault ls with
  | Blocked => None
  | _ => Some (items ls !! key)
  end.

Definition removeItem (key : string) (ls : t) : option t :=
  match fault ls with
  | Blocked => None
  | f => Some {| fault := f; items := delete key (items ls) |}
  end.

(** [localStorage.key(i)] for [i] from [0] to [localStorage.length - 1]. *)
Definition keys (ls : t) : option (list string) :=
  match fault ls with
  | Blocked => None
  | _ => Some (map_to_list (items ls)).*1
  end.

End LocalStorage.

(** ** [js/storage.js]: class [StorageManager] *)

Module StorageManager.

(** The object's one field, and the [localStorage] it reads and writes. *)
Record t : Type := {
  storageAvailable : bool;
  localStorage : LocalStorage.t
}.

Definition storagePrefix : string := "wordchallenge_".

(** The names the class defines, in the order of the source. *)
Definition methods : list string :=
  [ "constructor"; "init"; "checkStorageSupport"; "setData"; "getData";
    "getStats"; "updateStats"; "getPreferences"; "updatePreferences";
    "getCompletedWords"; "addCompletedWord"; "getMissedWords";
    "addMissedWord"; "removeMissedWord"; "getWordAccuracy";
    "updateWordAccuracy"; "getDifficultyStats"; "updateDifficultyAccuracy";
    "getAverageAccuracy"; "getWordWeights"; "resetProgress"; "exportData";
    "importData"; "clearAll"; "getStorageInfo"; "formatBytes";
    "getPrivacyNotice"; "getCompletedCategories"; "markCategoryCompleted";
    "isCategoryCompleted"; "getCategoryCompletionStats";
    "getCategoryCompletionDate"; "resetCategoryCompletion" ].

Definition checkStorageSupport (ls : LocalStorage.t) : bool * LocalStorage.t :=
  let testKey := "storage_test" in
  let testValue := "test" in
  match LocalStorage.setItem testKey (Raw testValue) ls with
  | None => (false, ls)
  | Some ls1 =>
      match LocalStorage.getItem testKey ls1 with
      | None => (false, ls1)
      | Some retrieved =>
          match LocalStorage.removeItem testKey ls1 with
          | None => (false, ls1)
          | Some ls2 => (is_raw testValue retrieved, ls2)
          end
      end
  end.

Definition setData (key : string) (value : JValue) (this : t) : bool * t :=
  if negb (storageAvailable this) then (false, this)
  else
    let fullKey := storagePrefix +:+ key in
    let serializedValue := JSON_stringify value in
    match LocalStorage.setItem fullKey serializedValue (localStorage this) with
    | Some ls => (true, {| storageAvailable := storageAvailable this; localStorage := ls |})
    | None => (false, this)
    end.

Definition getData (key : string) (defaultValue : JValue) (this : t) : JValue :=
  if negb (storageAvailable this) then defaultValue
  else
    let fullKey := storagePrefix +:+ key in
    match LocalStorage.getItem fullKey (localStorage this) with
    | None => defaultValue
    | Some None => defaultValue
    | Some (Some item) =>
        match JSON_parse item with
        | Some value => value
        | None => defaultValue
        end
    end.

(** [Object.entries(o).forEach(([key, value]) => this.setData(key, value))] *)
Definition setAll (entries : list (string * JValue)) (this : t) : t :=
  foldl (fun this entry => (setData entry.1 entry.2 this).2) this entries.

Definition defaultData : list (string * JValue) :=
  [ ("totalScore", JNum 0); ("currentStreak", JNum 0); ("bestStreak", JNum 0);
    ("level", JNum 1); ("totalWords", JNum 0); ("correctAnswers", JNum 0);
    ("completedWords", JArr []); ("missedWords", JObj ∅);
    ("wordAccuracy", JObj ∅); ("difficultyStats", JObj ∅);
    ("difficulty", JStr "easy"); ("category", JStr "general");
    ("initialized", JBool true) ].

Definition resetProgress (this : t) : t := setAll defaultData this.

Definition init (this : t) : t :=
  if negb (truthy (getData "initialized" JNull this))
  then (setData "initialized" (JBool true) (resetProgress this)).2
  else this.

(** [new StorageManager()] in a browser whose storage is [ls]. *)
Definition constructor (ls : LocalStorage.t) : t :=
  let (available, ls') := checkStorageSupport ls in
  init {| storageAvailable := available; localStorage := ls' |}.

(** A stored value read as a number.  On another operand [+], [/] and [>]
    coerce or concatenate; the embedding stops there ([None]). *)
Definition asNumber (v : JValue) : option Z :=
  match v with
  | JNum n => Some n
  | _ => None
  end.

(** [object[key]] when a number is expected; [undefined] is no number. *)
Definition field (key : string) (object : gmap string JValue) : option Z :=
  object !! key ≫= asNumber.

Definition getCompletedWords (this : t) : JValue := getData "completedWords" (JArr []) this.
Definition getMissedWords (this : t) : JValue := getData "missedWords" (JObj ∅) this.
Definition getWordAccuracy (this : t) : JValue := getData "wordAccuracy" (JObj ∅) this.
Definition getDifficultyStats (this : t) : JValue := getData "difficultyStats" (JObj ∅) this.

(** The updates below return [None] where the stored value does not have the
    ledger's shape (an array of terms, an object of counters): JavaScript
    then throws a [TypeError] or coerces, and the embedding stops. *)

Definition addCompletedWord (word : string) (this : t) : option t :=
  match getCompletedWords this with
  | JArr completed =>
      if negb (includes word completed)
      then Some (setData "completedWords" (JArr (completed ++ [JStr word])) this).2
      else Some this
  | _ => None
  end.

(** [missed[word] || 0] as a number.  An inherited member is truthy and
    [+ 1] makes a string of it; the embedding stops there as for any other
    value that is no number. *)
Definition or_zero (v : Property JValue) : option Z :=
  match v with
  | Own v => if truthy v then asNumber v else Some 0%Z
  | Inherited => None
  | Undefined => Some 0%Z
  end.

Definition addMissedWord (word : string) (this : t) : option t :=
  match getMissedWords this with
  | JObj missed =>
      count ← or_zero (get word missed);
      Some (setData "missedWords" (JObj (assign word (JNum (count + 1)) missed)) this).2
  | _ => None
  end.

(** [delete] removes a property of the object's own, or nothing. *)
Definition removeMissedWord (word : string) (this : t) : option t :=
  match getMissedWords this with
  | JObj missed =>
      if has word missed
      then Some (setData "missedWords" (JObj (delete word missed)) this).2
      else Some this
  | _ => None
  end.

(** [if (!o[key]) o[key] = fresh], then [o[key]] as an object of counters.
    The assignment is made for a name that is [undefined] or holds a falsy
    value of the object's own, so it sets that property.  An inherited
    member is truthy: no entry is made and the increments go to the member
    itself; the embedding stops there. *)
Definition entry_or (fresh : gmap string JValue) (v : Property JValue)
  : option (gmap string JValue) :=
  match v with
  | Own v =>
      if truthy v then match v with JObj e => Some e | _ => None end
      else Some fresh
  | Inherited => None
  | Undefined => Some fresh
  end.

(** [e.total++; if (correct) e.correct++] *)
Definition tally (correct : bool) (e : gmap string JValue)
  : option (gmap string JValue) :=
  total ← field "total" e;
  let e := <["total" := JNum (total + 1)]> e in
  if correct
  then c ← field "correct" e; Some (<["correct" := JNum (c + 1)]> e)
  else Some e.

Definition updateWordAccuracy (word : string) (correct : bool) (this : t) : option t :=
  match getWordAccuracy this with
  | JObj accuracy =>
      e ← entry_or {[ "correct" := JNum 0; "total" := JNum 0 ]} (get word accuracy);
      e ← tally correct e;
      Some (setData "wordAccuracy" (JObj (<[word := JObj e]> accuracy)) this).2
  | _ => None
  end.

Definition updateDifficultyAccuracy (difficulty : string) (correct : bool) (this : t)
  : option t :=
  match getDifficultyStats this with
  | JObj difficultyStats =>
      stats ← entry_or {[ "correct" := JNum 0; "total" := JNum 0; "accuracy" := JNum 0 ]}
                (get difficulty difficultyStats);
      stats ← tally correct stats;
      total ← field "total" stats;
      accuracy ← (if (0 <? total)%Z
                   then c ← field "correct" stats; Some (percentage c total)
                   else Some 0%Z);
      let stats := <["accuracy" := JNum accuracy]> stats in
      Some (setData "difficultyStats" (JObj (<[difficulty := JObj stats]> difficultyStats)) this).2
  | _ => None
  end.

Definition getAverageAccuracy (this : t) : option Z :=
  let totalWords := getData "totalWords" (JNum 0) this in
  let correctAnswers := getData "correctAnswers" (JNum 0) this in
  match totalWords with
  | JNum 0 => Some 0%Z
  | _ =>
      c ← asNumber correctAnswers;
      t ← asNumber totalWords;
      Some (percentage c t)
  end.

Record Stats : Type := {
  totalScore : JValue;
  currentStreak : JValue;
  bestStreak : JValue;
  level : JValue;
  totalWords : JValue;
  correctAnswers : JValue;
  averageAccuracy : option Z
}.

Definition getStats (this : t) : Stats :=
  {| totalScore := getData "totalScore" (JNum 0) this;
     currentStreak := getData "currentStreak" (JNum 0) this;
     bestStreak := getData "bestStreak" (JNum 0) this;
     level := getData "level" (JNum 1) this;
     totalWords := getData "totalWords" (JNum 0) this;
     correctAnswers := getData "correctAnswers" (JNum 0) this;
     averageAccuracy := getAverageAccuracy this |}.

(** The argument of [updateStats]; an absent field fails its [typeof] test. *)
Record Updates : Type := {
  scoreIncrease : option Z;
  streak : option Z;
  newLevel : option Z;
  wordCompleted : bool;
  correctAnswer : option bool
}.

Definition updateStats (updates : Updates) (this : t) : option t :=
  let current := getStats this in
  this ← match scoreIncrease updates with
         | Some points =>
             score ← asNumber (totalScore current);
             Some (setData "totalScore" (JNum (score + points)) this).2
         | None => Some this
         end;
  this ← match streak updates with
         | Some n =>
             let this := (setData "currentStreak" (JNum n) this).2 in
             best ← asNumber (bestStreak current);
             if (best <? n)%Z then Some (setData "bestStreak" (JNum n) this).2
             else Some this
         | None => Some this
         end;
  this ← match newLevel updates with
         | Some n => Some (setData "level" (JNum n) this).2
         | None => Some this
         end;
  this ← (if wordCompleted updates
          then n ← asNumber (totalWords current);
               Some (setData "totalWords" (JNum (n + 1)) this).2
          else Some this);
  match correctAnswer updates with
  | Some true =>
      n ← asNumber (correctAnswers current);
      Some (setData "correctAnswers" (JNum (n + 1)) this).2
  | _ => Some this
  end.

(** [weights[word] = Math.min(missCount + 1, 5)] for every entry of
    [missedWords]. *)
Definition getWordWeights (this : t) : option (gmap string Z) :=
  match getMissedWords this with
  | JObj missed =>
      map_fold (fun word missCount weights =>
                  weights ← weights;
                  missCount ← asNumber missCount;
                  Some (assign word (Z.min (missCount + 1) 5) weights))
               (Some ∅) missed
  | _ => None
  end.

(** The value [exportData] records for a key: the parsed item, the raw text
    where the parse fails, [null] where [getItem] finds nothing. *)
Definition exported (item : option Item) : JValue :=
  match item with
  | Some (Json v) => v
  | Some (Raw s) => JStr s
  | None => JNull
  end.

Definition exportData (this : t) : gmap string JValue :=
  if negb (storageAvailable this) then ∅
  else
    match LocalStorage.keys (localStorage this) with
    | None => ∅
    | Some keys =>
        foldl (fun data key =>
                 if startsWith key storagePrefix
                 then
                   let shortKey := substring (String.length storagePrefix) key in
                   assign shortKey (exported (LocalStorage.items (localStorage this) !! key)) data
                 else data)
              ∅ keys
    end.

(** [Object.entries(data)], for the values whose [typeof] is ['object']:
    the properties of an object, the indices of an array. *)
Definition Object_entries (data : JValue) : option (list (string * JValue)) :=
  match data with
  | JObj m => Some (map_to_list m)
  | JArr l => Some (imap (fun i v => (pretty i, v)) l)
  | _ => None
  end.

Definition importData (data : JValue) (this : t) : bool * t :=
  if negb (storageAvailable this) then (false, this)
  else
    match Object_entries data with
    | Some entries => (true, setAll entries this)
    | None => (false, this)
    end.

(** [keysToRemove.forEach(key => localStorage.removeItem(key))]; a call that
    throws ends the loop with what was removed so far. *)
Fixpoint removeAll (keysToRemove : list string) (ls : LocalStorage.t)
  : bool * LocalStorage.t :=
  match keysToRemove with
  | [] => (true, ls)
  | key :: rest =>
      match LocalStorage.removeItem key ls with
      | Some ls' => removeAll rest ls'
      | None => (false, ls)
      end
  end.

Definition clearAll (this : t) : bool * t :=
  if negb (storageAvailable this) then (false, this)
  else
    match LocalStorage.keys (localStorage this) with
    | None => (false, this)
    | Some keys =>
        let keysToRemove := List.filter (fun key => startsWith key storagePrefix) keys in
        let (ok, ls) := removeAll keysToRemove (localStorage this) in
        (ok, {| storageAvailable := storageAvailable this; localStorage := ls |})
    end.

(** *** Preferences *)

Record Preferences : Type := {
  pref_difficulty : JValue;
  pref_category : JValue
}.

Definition getPreferences (this : t) : Preferences :=
  {| pref_difficulty := getData "difficulty" (JStr "easy") this;
     pref_category := getData "category" (JStr "general") this |}.

(** The argument is an object; each of its properties is written. *)
Definition updatePreferences (preferences : gmap string JValue) (this : t) : t :=
  setAll (map_to_list preferences) this.

(** *** Category completion

    As for the ledger, [None] is where a stored list of categories is no
    array and the embedding stops. *)

Definition getCompletedCategories (difficulty : string) (this : t) : JValue :=
  let completedKey := "completedCategories_" +:+ difficulty in
  getData completedKey (JArr []) this.

(** [now] is [new Date().toISOString()] at the time of the call. *)
Definition markCategoryCompleted (now : string) (difficulty category : string) (this : t)
  : option t :=
  let completedKey := "completedCategories_" +:+ difficulty in
  match getCompletedCategories difficulty this with
  | JArr completed =>
      if negb (includes category completed)
      then
        let this := (setData completedKey (JArr (completed ++ [JStr category])) this).2 in
        let timestampKey := "categoryCompleted_" +:+ difficulty +:+ "_" +:+ category in
        Some (setData timestampKey (JStr now) this).2
      else Some this
  | _ => None
  end.

Definition isCategoryCompleted (difficulty category : string) (this : t) : option bool :=
  match getCompletedCategories difficulty this with
  | JArr completed => Some (includes category completed)
  | _ => None
  end.

(** [stats.byDifficulty[difficulty]] *)
Record DifficultyCompletion : Type := {
  dc_total : Z;
  dc_completed : Z;
  dc_categories : list JValue;
  dc_percentage : Z
}.

Record CompletionStats : Type := {
  totalCategories : Z;
  completedCategories : Z;
  byDifficulty : gmap string DifficultyCompletion;
  completionPercentage : Z
}.

Definition getCategoryCompletionStats (this : t) : option CompletionStats :=
  let difficulties := ["easy"; "medium"; "hard"] in
  let categories := ["general"; "academic"; "business"] in
  let stats :=
    {| totalCategories := Z.of_nat (length difficulties * length categories);
       completedCategories := 0;
       byDifficulty := ∅;
       completionPercentage := 0 |} in
  stats ←
    foldl (fun stats difficulty =>
             stats ← stats;
             match getCompletedCategories difficulty this with
             | JArr completed =>
                 Some {| totalCategories := totalCategories stats;
                         completedCategories :=
                           completedCategories stats + Z.of_nat (length completed);
                         byDifficulty :=
                           <[difficulty :=
                               {| dc_total := Z.of_nat (length categories);
                                  dc_completed := Z.of_nat (length completed);
                                  dc_categories := completed;
                                  dc_percentage :=
                                    percentage (Z.of_nat (length completed))
                                      (Z.of_nat (length categories)) |}]>
                             (byDifficulty stats);
                         completionPercentage := completionPercentage stats |}
             | _ => None
             end)
          (Some stats) difficulties;
  Some {| totalCategories := totalCategories stats;
          completedCategories := completedCategories stats;
          byDifficulty := byDifficulty stats;
          completionPercentage :=
            percentage (completedCategories stats) (totalCategories stats) |}.

Definition getCategoryCompletionDate (difficulty category : string) (this : t) : JValue :=
  let timestampKey := "categoryCompleted_" +:+ difficulty +:+ "_" +:+ category in
  getData timestampKey JNull this.

(** The branch of [resetCategoryCompletion] for one difficulty. *)
Definition resetDifficultyCompletion (difficulty : string) (this : t) : t :=
  let completedKey := "completedCategories_" +:+ difficulty in
  let this := (setData completedKey (JArr []) this).2 in
  let categories := ["general"; "academic"; "business"] in
  foldl (fun this category =>
           let timestampKey := "categoryCompleted_" +:+ difficulty +:+ "_" +:+ category in
           (setData timestampKey JNull this).2)
        this categories.

(** [difficulty] is [None] for [null]; the empty string is falsy as well.
    The recursive calls are on three non-empty names. *)
Definition resetCategoryCompletion (difficulty : option string) (this : t) : t :=
  match difficulty with
  | Some d =>
      if negb (String.eqb d "") then resetDifficultyCompletion d this
      else foldl (fun this diff => resetDifficultyCompletion diff this) this
             ["easy"; "medium"; "hard"]
  | None =>
      foldl (fun this diff => resetDifficultyCompletion diff this) this
        ["easy"; "medium"; "hard"]
  end.

End StorageManager.

(** ** [js/words.js]: class [WordManager] *)

Module WordManager.

(** An entry of a word bank. *)
Record WordEntry : Type := {
  word : string;
  pronunciation : string;
  correct_definition : string;
  incorrect_options : list string
}.

(** An entry of a fetched document, before validation: each property may be
    missing; one that is present has the type the data files give it. *)
Record RawWord : Type := {
  raw_word : option string;
  raw_pronunciation : option string;
  raw_correct_definition : option string;
  raw_incorrect_options : option (list string)
}.

(** What [fetch] followed by [response.json()] comes to: the request fails,
    the response is not [ok], its body is no JSON, or it is a document.  In
    [Body data], [data] is [None] when the document is [null] or its [words]
    property is not an array. *)
Inductive Response : Type :=
| NetworkError
| HttpError (status : nat)
| InvalidJson
| Body (data : option (list RawWord)).

(** [this.cycleState[cacheKey]] *)
Record CycleState : Type := {
  queue : list nat;
  visited : gset string
}.

(** What a [getCycleState] hook hands back; [saved_queue] is [None] when
    [saved.queue] is not an array, [saved_visited] when [saved.visited] is
    falsy. *)
Record Saved : Type := {
  saved_queue : option (list nat);
  saved_visited : option (list string)
}.

(** The [storageManager] handed to the constructor: a [StorageManager] and
    the two optional methods that [this.storage?.getCycleState] and
    [this.storage?.setCycleState] look for. *)
Record Storage : Type := {
  manager : StorageManager.t;
  getCycleState : option (string -> StorageManager.t -> option Saved);
  setCycleState :
    option (string -> list nat -> list string -> StorageManager.t -> StorageManager.t)
}.

(** The object that [new StorageManager()] is: neither name is among
    [StorageManager.methods]. *)
Definition shipped (sm : StorageManager.t) : Storage :=
  {| manager := sm; getCycleState := None; setCycleState := None |}.

Record t : Type := {
  storage : option Storage;
  words : gmap string (list WordEntry);
  availableDifficulties : list string;
  availableCategories : list string;
  currentWordList : list WordEntry;
  usedWords : gset string;
  cycleState : gmap string CycleState
}.

Definition constructor (storageManager : option Storage) : t :=
  {| storage := storageManager;
     words := ∅;
     availableDifficulties := ["easy"; "medium"; "hard"];
     availableCategories := ["general"; "academic"; "business"];
     currentWordList := [];
     usedWords := ∅;
     cycleState := ∅ |}.

(** Assignments to one field of [this]. *)
Definition set_storage (s : option Storage) (this : t) : t :=
  {| storage := s; words := words this;
     availableDifficulties := availableDifficulties this;
     availableCategories := availableCategories this;
     currentWordList := currentWordList this;
     usedWords := usedWords this; cycleState := cycleState this |}.

Definition set_words (w : gmap string (list WordEntry)) (this : t) : t :=
  {| storage := storage this; words := w;
     availableDifficulties := availableDifficulties this;
     availableCategories := availableCategories this;
     currentWordList := currentWordList this;
     usedWords := usedWords this; cycleState := cycleState this |}.

Definition set_usedWords (u : gset string) (this : t) : t :=
  {| storage := storage this; words := words this;
     availableDifficulties := availableDifficulties this;
     availableCategories := availableCategories this;
     currentWordList := currentWordList this;
     usedWords := u; cycleState := cycleState this |}.

Definition set_cycleState (c : gmap string CycleState) (this : t) : t :=
  {| storage := storage this; words := words this;
     availableDifficulties := availableDifficulties this;
     availableCategories := availableCategories this;
     currentWordList := currentWordList this;
     usedWords := usedWords this; cycleState := c |}.

(** [`${difficulty}_${category}`] *)
Definition cacheKey (difficulty category : string) : string :=
  difficulty +:+ "_" +:+ category.

(** [if (this.storage?.setCycleState) this.storage.setCycleState(key, ...)] *)
Definition persist (key : string) (queue : list nat) (visited : list string) (this : t) : t :=
  match storage this with
  | Some s =>
      match setCycleState s with
      | Some hook =>
          set_storage
            (Some {| manager := hook key queue visited (manager s);
                     getCycleState := getCycleState s;
                     setCycleState := setCycleState s |})
            this
      | None => this
      end
  | None => this
  end.

(** A word of a document is kept as it is; after [validateWordData] every
    property read here is present. *)
Definition decode (w : RawWord) : WordEntry :=
  {| word := default "" (raw_word w);
     pronunciation := default "" (raw_pronunciation w);
     correct_definition := default "" (raw_correct_definition w);
     incorrect_options := default [] (raw_incorrect_options w) |}.

(** Truthiness of a string property: present and not empty. *)
Definition present (s : option string) : bool :=
  match s with
  | Some s => negb (String.eqb s "")
  | None => false
  end.

Definition validWord (w : RawWord) : bool :=
  present (raw_word w) &&
  present (raw_pronunciation w) &&
  present (raw_correct_definition w) &&
  match raw_incorrect_options w with
  | Some options => 3 <=? length options
  | None => false
  end.

Definition validateWordData (data : option (list RawWord)) : bool :=
  match data with
  | None => false
  | Some words => forallb validWord words
  end.

Definition sampleWords : gmap string (list WordEntry) :=
  {[ "easy_general" :=
       [ {| word := "Happy";
            pronunciation := "/ˈhæp.i/";
            correct_definition := "Feeling joy or pleasure";
            incorrect_options :=
              [ "Feeling tired and sleepy";
                "Feeling angry or upset";
                "Feeling confused or lost" ] |};
         {| word := "Brave";
            pronunciation := "/breɪv/";
            correct_definition := "Showing courage in dangerous situations";
            incorrect_options :=
              [ "Being very tall and strong";
                "Moving slowly and carefully";
                "Eating food very quickly" ] |} ];
     "medium_general" :=
       [ {| word := "Serendipity";
            pronunciation := "/ˌser·ən·dɪp·ɪ·ti/";
            correct_definition := "A pleasant surprise; finding something good unexpectedly";
            incorrect_options :=
              [ "A feeling of deep sadness or melancholy";
                "The ability to speak multiple languages fluently";
                "A state of complete chaos or disorder" ] |} ];
     "hard_general" :=
       [ {| word := "Ubiquitous";
            pronunciation := "/juːˈbɪk.wɪ.təs/";
            correct_definition := "Present everywhere at the same time";
            incorrect_options :=
              [ "Extremely rare and valuable";
                "Moving in circular motions";
                "Related to ancient history" ] |} ] ]}.

(** [sampleWords[key] || sampleWords['easy_general']].  [None]: the key is
    an inherited name, and what is returned is that member of
    [Object.prototype], not a bank. *)
Definition getSampleWords (difficulty category : string) : option (list WordEntry) :=
  let key := cacheKey difficulty category in
  match get key sampleWords with
  | Own bank => Some bank
  | Inherited => None
  | Undefined => sampleWords !! "easy_general"
  end.

(** The built-in bank for easy/general. *)
Definition sample_bank : list WordEntry := default [] (sampleWords !! "easy_general").

(** What [getNextWord] resolves to. *)
Record PreparedWord : Type := {
  p_word : string;
  p_pronunciation : string;
  options : list string;
  correctAnswer : string
}.

Record Meta : Type := {
  m_difficulty : string;
  m_category : string;
  remaining : nat;
  total : nat;
  isLastWord : bool
}.

Inductive NextWord : Type :=
| Null
| EndOfCategory (message : string) (total visitedCount : nat)
| Word (prepared : PreparedWord) (meta : Meta).

Section Environment.

(** The [k]-th result of [Math.random()] since the page was loaded; the
    functions that draw take the number of draws made so far and return it
    advanced. *)
Variable random : nat -> Draw.

(** The response to [fetch(url)]. *)
Variable fetch : string -> Response.

(** [for (let i = shuffled.length - 1; i > 0; i--)] *)
Fixpoint shuffleFrom {A : Type} (i : nat) (shuffled : list A) (drawn : nat)
  : list A * nat :=
  match i with
  | O => (shuffled, drawn)
  | S i' =>
      let j := floor_times (random drawn) (i + 1) in
      shuffleFrom i' (swap i j shuffled) (S drawn)
  end.

Definition shuffleArray {A : Type} (array : list A) (drawn : nat) : list A * nat :=
  shuffleFrom (length array - 1) array drawn.

Definition initCycle (key : string) (words : list WordEntry) (reshuffle : bool)
    (this : t) (drawn : nat) : t * nat :=
  let indices := seq 0 (length words) in
  let (order, drawn) :=
    if reshuffle then shuffleArray indices drawn else (indices, drawn) in
  let this :=
    set_cycleState (<[key := {| queue := order; visited := ∅ |}]> (cycleState this)) this in
  (persist key order [] this, drawn).

(** [this.words[cacheKey] || []].  [None]: under an inherited name the
    value is a member of [Object.prototype], which has no [map], and
    [initCycle] throws a [TypeError]. *)
Definition resetCycle (difficulty category : string) (reshuffle : bool)
    (this : t) (drawn : nat) : option (t * nat) :=
  let key := cacheKey difficulty category in
  match get key (words this) with
  | Own words => Some (initCycle key words reshuffle this drawn)
  | Inherited => None
  | Undefined => Some (initCycle key [] reshuffle this drawn)
  end.

(** [if (this.words[cacheKey]) return true]: a cached bank is truthy, and
    so is an inherited member.  Past this test the key is no inherited
    name, and [this.words[cacheKey] = ...] sets a property of the object;
    the fallback takes the bank that [getSampleWords] has for such a key. *)
Definition loadWords (difficulty category : string) (this : t) : bool * t :=
  let key := cacheKey difficulty category in
  match get key (words this) with
  | Own _ | Inherited => (true, this)
  | Undefined =>
      let fallback :=
        (false,
         match getSampleWords difficulty category with
         | Some bank => set_words (<[key := bank]> (words this)) this
         | None => this
         end) in
      match fetch ("./data/" +:+ difficulty +:+ "/" +:+ category +:+ ".json") with
      | Body data =>
          if validateWordData data
          then (true, set_words (<[key := decode <$> default [] data]> (words this)) this)
          else fallback
      | NetworkError | HttpError _ | InvalidJson => fallback
      end
  end.

Definition prepareWordForGame (wordObj : WordEntry) (drawn : nat) : PreparedWord * nat :=
  let allOptions := correct_definition wordObj :: incorrect_options wordObj in
  let (shuffledOptions, drawn) := shuffleArray allOptions drawn in
  ({| p_word := word wordObj;
      p_pronunciation := pronunciation wordObj;
      options := shuffledOptions;
      correctAnswer := correct_definition wordObj |}, drawn).

(** The restore step of [getNextWord]. *)
Definition restore (key : string) (this : t) : t :=
  match storage this with
  | Some s =>
      match getCycleState s with
      | Some hook =>
          match hook key (manager s) with
          | Some saved =>
              match saved_queue saved with
              | Some q =>
                  set_cycleState
                    (<[key := {| queue := q;
                                 visited := list_to_set (default [] (saved_visited saved)) |}]>
                       (cycleState this))
                    this
              | None => this
              end
          | None => this
          end
      | None => this
      end
  | None => this
  end.

(** [this.words[cacheKey]] is an array only as a property of the object;
    an inherited member is truthy, so nothing is loaded, and is no array,
    so the result is [null].  [this.cycleState[cacheKey]] is read and
    written once the bank is an array, under the same key: the keys of
    [this.words] are never inherited names ([loadWords] returns before it
    stores one, see [keys_plain_kept]), and for the others the property is
    the object's own. *)
Definition getNextWord (difficulty category : string) (this : t) (drawn : nat)
  : NextWord * t * nat :=
  let key := cacheKey difficulty category in
  let (loaded, this) :=
    match get key (words this) with
    | Own _ | Inherited => (true, this)
    | Undefined => loadWords difficulty category this
    end in
  if negb loaded then (Null, this, drawn)
  else
    match get key (words this) with
    | Inherited | Undefined | Own [] => (Null, this, drawn)
    | Own words =>
        let (this, drawn) :=
          match cycleState this !! key with
          | Some _ => (this, drawn)
          | None =>
              let this := restore key this in
              match cycleState this !! key with
              | Some _ => (this, drawn)
              | None => initCycle key words true this drawn
              end
          end in
        match cycleState this !! key with
        | None => (Null, this, drawn)
        | Some state =>
            match queue state with
            | [] =>
                (EndOfCategory
                   ("All " +:+ pretty (length words) +:+ " words completed for "
                      +:+ difficulty +:+ "/" +:+ category +:+ ".")
                   (length words) (size (visited state)),
                 this, drawn)
            | nextIdx :: rest =>
                let shifted := {| queue := rest; visited := visited state |} in
                match words !! nextIdx with
                | None =>
                    (Null, set_cycleState (<[key := shifted]> (cycleState this)) this, drawn)
                | Some selectedWord =>
                    let state :=
                      {| queue := rest;
                         visited := visited state ∪ {[ word selectedWord ]} |} in
                    let this := set_cycleState (<[key := state]> (cycleState this)) this in
                    let this := persist key (queue state) (elements (visited state)) this in
                    let (prepared, drawn) := prepareWordForGame selectedWord drawn in
                    let remaining := length (queue state) in
                    (Word prepared
                       {| m_difficulty := difficulty;
                          m_category := category;
                          remaining := remaining;
                          total := length words;
                          isLastWord := remaining =? 0 |},
                     this, drawn)
                end
            end
        end
    end.

Definition getDifficulties (this : t) : list string := availableDifficulties this.

Definition getCategories (this : t) : list string := availableCategories this.

(** [wordAccuracy] is the parsed ledger, an object of tallies.  A term that
    it does not hold is skipped, unless the name is inherited: the value is
    then a function whose [total] is [undefined], the sum is no number any
    more, and the embedding stops as it does for a tally whose counters are
    not numbers. *)
Definition calculateCategoryAccuracy (words : list WordEntry)
    (wordAccuracy : gmap string JValue) : option Z :=
  let categoryWords := word <$> words in
  attempts ←
    foldl (fun attempts word =>
             attempts ← attempts;
             match wordAccuracy !! word with
             | Some entry =>
                 if truthy entry
                 then
                   match entry with
                   | JObj entry =>
                       total ← StorageManager.field "total" entry;
                       correct ← StorageManager.field "correct" entry;
                       Some (attempts.1 + total, attempts.2 + correct)%Z
                   | _ => None
                   end
                 else Some attempts
             | None => if inherited word then None else Some attempts
             end)
          (Some (0, 0)%Z) categoryWords;
  let totalAttempts := attempts.1 in
  let correctAttempts := attempts.2 in
  Some (if (0 <? totalAttempts)%Z then percentage correctAttempts totalAttempts else 0%Z).

(** What [getProgress] resolves to.  [progressPercentage] is [None] for the
    [NaN] that [0 / 0] gives on an empty bank. *)
Record Progress : Type := {
  totalWords : nat;
  completedWords : nat;
  remainingWords : Z;
  accuracy : Z;
  progressPercentage : option Z
}.

(** [None]: the promise is rejected ([this.storage] is [null], or the key
    is an inherited name and [words] is no array), or a stored value does
    not have the ledger's shape. *)
Definition getProgress (difficulty category : string) (this : t) : option Progress * t :=
  let key := cacheKey difficulty category in
  let this :=
    match get key (words this) with
    | Own _ | Inherited => this
    | Undefined => (loadWords difficulty category this).2
    end in
  (match get key (words this), storage this with
   | Own words, Some storage =>
       match StorageManager.getCompletedWords (manager storage),
             StorageManager.getWordAccuracy (manager storage) with
       | JArr completedWords, JObj wordAccuracy =>
           let totalWords := length words in
           let completed :=
             length (List.filter
                       (fun term => existsb (fun w => is_string (word w) term) words)
                       completedWords) in
           accuracy ← calculateCategoryAccuracy words wordAccuracy;
           Some {| totalWords := totalWords;
                   completedWords := completed;
                   remainingWords := Z.of_nat totalWords - Z.of_nat completed;
                   accuracy := accuracy;
                   progressPercentage :=
                     if totalWords =? 0 then None
                     else Some (percentage (Z.of_nat completed) (Z.of_nat totalWords)) |}
       | _, _ => None
       end
   | _, _ => None
   end, this).

(** [loadWords] as it goes on after its fetch, for a call that began when
    the object was [started]: the cache was looked up then, the result is
    stored in the object as it is when the response arrives. *)
Definition loadWordsFrom (started : t) (difficulty category : string) (this : t)
  : bool * t :=
  let key := cacheKey difficulty category in
  match get key (words started) with
  | Own _ | Inherited => (true, this)
  | Undefined =>
      let fallback :=
        (false,
         match getSampleWords difficulty category with
         | Some bank => set_words (<[key := bank]> (words this)) this
         | None => this
         end) in
      match fetch ("./data/" +:+ difficulty +:+ "/" +:+ category +:+ ".json") with
      | Body data =>
          if validateWordData data
          then (true, set_words (<[key := decode <$> default [] data]> (words this)) this)
          else fallback
      | NetworkError | HttpError _ | InvalidJson => fallback
      end
  end.

(** An element of [loadResults]. *)
Record LoadResult : Type := {
  r_difficulty : string;
  r_category : string;
  r_success : bool
}.

Record PreloadResults : Type := {
  success : nat;
  failed : nat;
  details : list LoadResult
}.

(** The loads that [preloadAllWords] starts, in the order of its two
    [forEach] loops. *)
Definition preloadPairs (this : t) : list (string * string) :=
  flat_map (fun difficulty => (fun category => (difficulty, category)) <$> availableCategories this)
    (availableDifficulties this).

(** All the loads are started before any response arrives, so each looks the
    cache up in the object as [preloadAllWords] found it; [completion] lists
    them in the order in which they complete, which is the order of
    [loadResults].  The progress callback is left out: the game's only
    logs. *)
Definition preloadAllWords (completion : list (string * string)) (this : t)
  : PreloadResults * t :=
  let started := this in
  let (loadResults, this) :=
    foldl (fun (state : list LoadResult * t) (load : string * string) =>
             let (success, this) := loadWordsFrom started load.1 load.2 state.2 in
             (state.1 ++ [{| r_difficulty := load.1; r_category := load.2;
                             r_success := success |}],
              this))
          ([], this) completion in
  ({| success := length (List.filter r_success loadResults);
      failed := length (List.filter (fun r => negb (r_success r)) loadResults);
      details := loadResults |}, this).

(** [words ? words.length : 0]; [loadWords] does not throw.  [None]: under
    an inherited name [words] is a member of [Object.prototype] and the
    result is its [length], no number of words ([undefined] for
    [__proto__]). *)
Definition getWordCount (difficulty category : string) (this : t) : option nat * t :=
  let key := cacheKey difficulty category in
  let this :=
    match get key (words this) with
    | Own _ | Inherited => this
    | Undefined => (loadWords difficulty category this).2
    end in
  (match get key (words this) with
   | Own words => Some (length words)
   | Inherited => None
   | Undefined => Some 0
   end, this).

End Environment.

Definition resetUsedWords (this : t) : t := set_usedWords ∅ this.

End WordManager.

(** ** [js/game.js]: [trackWordProgress] *)

Module Game.

(** [this.currentWord] is the word last served, or [null]; the method reads
    its [word] and [this.settings.difficulty], and writes through
    [this.storage]. *)
Definition trackWordProgress (currentWord : option WordManager.PreparedWord)
    (difficulty : string) (isCorrect : bool) (storage : StorageManager.t)
  : option StorageManager.t :=
  match currentWord with
  | None => Some storage
  | Some current =>
      let word := WordManager.p_word current in
      storage ← StorageManager.updateWordAccuracy word isCorrect storage;
      storage ← StorageManager.updateDifficultyAccuracy difficulty isCorrect storage;
      storage ← StorageManager.addCompletedWord word storage;
      if isCorrect
      then StorageManager.removeMissedWord word storage
      else StorageManager.addMissedWord word storage
  end.

(** *** The game object

    The methods below leave out what they do to the page (the DOM, the
    notifications, the log); what is left is the state of the object, the
    word manager and the store. *)

(** [this.settings] *)
Record Settings : Type := {
  difficulty : string;
  category : string
}.

(** [timer] tells whether an interval is running ([this.timer] is not
    [null]).  [this.storage] and [this.wordManager.storage] name one
    object, the [StorageManager] that the constructor makes; the embedding
    keeps it in the word manager. *)
Record t : Type := {
  wordManager : WordManager.t;
  currentWord : option WordManager.PreparedWord;
  gameActive : bool;
  score : Z;
  streak : Z;
  level : Z;
  timer : bool;
  timeLeft : Z;
  timerDuration : Z;
  settings : Settings
}.

(** Assignments to one field of [this]. *)
Definition set_wordManager (wm : WordManager.t) (this : t) : t :=
  {| wordManager := wm; currentWord := currentWord this; gameActive := gameActive this;
     score := score this; streak := streak this; level := level this;
     timer := timer this; timeLeft := timeLeft this; timerDuration := timerDuration this;
     settings := settings this |}.

Definition set_currentWord (w : option WordManager.PreparedWord) (this : t) : t :=
  {| wordManager := wordManager this; currentWord := w; gameActive := gameActive this;
     score := score this; streak := streak this; level := level this;
     timer := timer this; timeLeft := timeLeft this; timerDuration := timerDuration this;
     settings := settings this |}.

Definition set_gameActive (b : bool) (this : t) : t :=
  {| wordManager := wordManager this; currentWord := currentWord this; gameActive := b;
     score := score this; streak := streak this; level := level this;
     timer := timer this; timeLeft := timeLeft this; timerDuration := timerDuration this;
     settings := settings this |}.

Definition set_score (n : Z) (this : t) : t :=
  {| wordManager := wordManager this; currentWord := currentWord this;
     gameActive := gameActive this;
     score := n; streak := streak this; level := level this;
     timer := timer this; timeLeft := timeLeft this; timerDuration := timerDuration this;
     settings := settings this |}.

Definition set_streak (n : Z) (this : t) : t :=
  {| wordManager := wordManager this; currentWord := currentWord this;
     gameActive := gameActive this;
     score := score this; streak := n; level := level this;
     timer := timer this; timeLeft := timeLeft this; timerDuration := timerDuration this;
     settings := settings this |}.

Definition set_level (n : Z) (this : t) : t :=
  {| wordManager := wordManager this; currentWord := currentWord this;
     gameActive := gameActive this;
     score := score this; streak := streak this; level := n;
     timer := timer this; timeLeft := timeLeft this; timerDuration := timerDuration this;
     settings := settings this |}.

Definition set_timer (b : bool) (this : t) : t :=
  {| wordManager := wordManager this; currentWord := currentWord this;
     gameActive := gameActive this;
     score := score this; streak := streak this; level := level this;
     timer := b; timeLeft := timeLeft this; timerDuration := timerDuration this;
     settings := settings this |}.

Definition set_timeLeft (n : Z) (this : t) : t :=
  {| wordManager := wordManager this; currentWord := currentWord this;
     gameActive := gameActive this;
     score := score this; streak := streak this; level := level this;
     timer := timer this; timeLeft := n; timerDuration := timerDuration this;
     settings := settings this |}.

Definition set_settings (s : Settings) (this : t) : t :=
  {| wordManager := wordManager this; currentWord := currentWord this;
     gameActive := gameActive this;
     score := score this; streak := streak this; level := level this;
     timer := timer this; timeLeft := timeLeft this; timerDuration := timerDuration this;
     settings := s |}.

(** [this.storage] *)
Definition storage (this : t) : option StorageManager.t :=
  WordManager.manager <$> WordManager.storage (wordManager this).

(** The store after one of its methods has run. *)
Definition put_storage (sm : StorageManager.t) (this : t) : t :=
  match WordManager.storage (wordManager this) with
  | Some s =>
      set_wordManager
        (WordManager.set_storage
           (Some {| WordManager.manager := sm;
                    WordManager.getCycleState := WordManager.getCycleState s;
                    WordManager.setCycleState := WordManager.setCycleState s |})
           (wordManager this))
        this
  | None => this
  end.

(** A stored preference read as a string; [None] where it is none and the
    embedding stops. *)
Definition asString (v : JValue) : option string :=
  match v with
  | JStr s => Some s
  | _ => None
  end.

(** [v || d] for a stored counter. *)
Definition number_or (d : Z) (v : JValue) : option Z :=
  if truthy v then StorageManager.asNumber v else Some d.

(** [new WordAssociationGame()] in a browser whose storage is [ls], before
    [init] runs. *)
Definition constructor (ls : LocalStorage.t) : option t :=
  let storage := StorageManager.constructor ls in
  let preferences := StorageManager.getPreferences storage in
  difficulty ← asString (StorageManager.pref_difficulty preferences);
  category ← asString (StorageManager.pref_category preferences);
  Some {| wordManager := WordManager.constructor (Some (WordManager.shipped storage));
          currentWord := None;
          gameActive := false;
          score := 0;
          streak := 0;
          level := 1;
          timer := false;
          timeLeft := 30;
          timerDuration := 30;
          settings := {| difficulty := difficulty; category := category |} |}.

Definition loadGameState (this : t) : option t :=
  storage ← storage this;
  let stats := StorageManager.getStats storage in
  score ← number_or 0 (StorageManager.totalScore stats);
  streak ← number_or 0 (StorageManager.currentStreak stats);
  level ← number_or 1 (StorageManager.level stats);
  Some (set_level level (set_streak streak (set_score score this))).

Definition clearTimer (this : t) : t := set_timer false this.

Definition startTimer (this : t) : t :=
  let this := clearTimer this in
  let this := set_timeLeft (timerDuration this) this in
  set_timer true this.

(** [basePoints[difficulty] || 5]: an inherited name finds a function, and
    the sum is no number any more. *)
Definition calculatePoints (this : t) : option Z :=
  let basePoints : gmap string Z := {[ "easy" := 5; "medium" := 10; "hard" := 15 ]}%Z in
  base ← match basePoints !! difficulty (settings this) with
         | Some points => Some points
         | None => if inherited (difficulty (settings this)) then None else Some 5%Z
         end;
  let streakBonus := (streak this / 3 * 2)%Z in
  let timeBonus :=
    if (20 <? timeLeft this)%Z then 5%Z else if (10 <? timeLeft this)%Z then 2%Z else 0%Z in
  Some (base + streakBonus + timeBonus)%Z.

Definition updateGameStats (isCorrect : bool) (this : t) : option t :=
  storage ← storage this;
  if isCorrect
  then
    points ← calculatePoints this;
    let this := set_score (score this + points) this in
    let this := set_streak (streak this + 1) this in
    let this :=
      if (0 <? streak this)%Z && (Z.rem (streak this) 5 =? 0)%Z
      then set_level (level this + 1) this
      else this in
    storage ←
      StorageManager.updateStats
        {| StorageManager.scoreIncrease := Some points;
           StorageManager.streak := Some (streak this);
           StorageManager.newLevel := Some (level this);
           StorageManager.wordCompleted := true;
           StorageManager.correctAnswer := Some true |}
        storage;
    Some (put_storage storage this)
  else
    let this := set_streak 0 this in
    storage ←
      StorageManager.updateStats
        {| StorageManager.scoreIncrease := None;
           StorageManager.streak := Some (streak this);
           StorageManager.newLevel := None;
           StorageManager.wordCompleted := true;
           StorageManager.correctAnswer := Some false |}
        storage;
    Some (put_storage storage this).

(** [trackWordProgress] as a method of the object. *)
Definition recordProgress (isCorrect : bool) (this : t) : option t :=
  storage ← storage this;
  storage ← trackWordProgress (currentWord this) (difficulty (settings this)) isCorrect
              storage;
  Some (put_storage storage this).

Definition handleTimeOut (this : t) : option t :=
  if negb (gameActive this) then Some this
  else
    let this := set_gameActive false this in
    let this := clearTimer this in
    this ← updateGameStats false this;
    recordProgress false this.

(** [selectedOption] is the [data-option] of the element that was
    clicked. *)
Definition handleAnswer (selectedOption : string) (this : t) : option t :=
  match gameActive this, currentWord this with
  | true, Some current =>
      let this := set_gameActive false this in
      let this := clearTimer this in
      let isCorrect := String.eqb selectedOption (WordManager.correctAnswer current) in
      this ← updateGameStats isCorrect this;
      recordProgress isCorrect this
  | _, _ => Some this
  end.

(** The callback of the interval that [startTimer] sets, once a second
    while the interval runs. *)
Definition tick (this : t) : option t :=
  if timer this
  then
    let this := set_timeLeft (timeLeft this - 1) this in
    if (timeLeft this <=? 0)%Z then handleTimeOut this else Some this
  else Some this.

Section Environment.

Variable random : nat -> Draw.
Variable fetch : string -> WordManager.Response.

(** The count that the panel shows is read with [getWordCount]. *)
Definition showGameEnd (this : t) : t :=
  let (wordCount, wm) :=
    WordManager.getWordCount fetch (difficulty (settings this)) (category (settings this))
      (wordManager this) in
  clearTimer (set_wordManager wm this).

Definition loadNextWord (this : t) (drawn : nat) : t * nat :=
  let '(nextWord, wm, drawn) :=
    WordManager.getNextWord random fetch (difficulty (settings this))
      (category (settings this)) (wordManager this) drawn in
  let this := set_wordManager wm this in
  match nextWord with
  | WordManager.EndOfCategory _ _ _ => (showGameEnd this, drawn)
  | WordManager.Null => (showGameEnd this, drawn)
  | WordManager.Word prepared _ =>
      let this := set_currentWord (Some prepared) this in
      let this := set_gameActive true this in
      (startTimer this, drawn)
  end.

Definition startNewGame (this : t) (drawn : nat) : t * nat :=
  let this := set_gameActive false this in
  let this := clearTimer this in
  loadNextWord this drawn.

(** [completion]: the order in which the loads of [preloadAllWords]
    complete. *)
Definition preloadWords (completion : list (string * string)) (this : t) : t :=
  set_wordManager (WordManager.preloadAllWords fetch completion (wordManager this)).2 this.

(** [init], when nothing in it throws. *)
Definition init (completion : list (string * string)) (this : t) (drawn : nat)
  : option (t * nat) :=
  this ← loadGameState this;
  let this := preloadWords completion this in
  Some (startNewGame this drawn).

Definition playAgain (this : t) (drawn : nat) : t * nat :=
  let this := set_wordManager (WordManager.resetUsedWords (wordManager this)) this in
  startNewGame this drawn.

Definition nextWord (this : t) (drawn : nat) : t * nat := loadNextWord this drawn.

Definition changeDifficulty (newDifficulty : string) (this : t) (drawn : nat)
  : option (t * nat) :=
  if String.eqb (difficulty (settings this)) newDifficulty || String.eqb newDifficulty ""
  then Some (this, drawn)
  else
    let this := clearTimer this in
    let this :=
      set_settings {| difficulty := newDifficulty; category := category (settings this) |}
        this in
    storage ← storage this;
    let this :=
      put_storage
        (StorageManager.updatePreferences {[ "difficulty" := JStr newDifficulty ]} storage)
        this in
    let this := set_wordManager (WordManager.resetUsedWords (wordManager this)) this in
    Some (loadNextWord this drawn).

Definition changeCategory (newCategory : string) (this : t) (drawn : nat)
  : option (t * nat) :=
  if String.eqb (category (settings this)) newCategory || String.eqb newCategory ""
  then Some (this, drawn)
  else
    let this := clearTimer this in
    let this :=
      set_settings {| difficulty := difficulty (settings this); category := newCategory |}
        this in
    storage ← storage this;
    let this :=
      put_storage
        (StorageManager.updatePreferences {[ "category" := JStr newCategory ]} storage)
        this in
    let this := set_wordManager (WordManager.resetUsedWords (wordManager this)) this in
    Some (loadNextWord this drawn).

Definition resetProgress (this : t) (drawn : nat) : option (t * nat) :=
  storage ← storage this;
  let this := put_storage (StorageManager.resetProgress storage) this in
  let this := set_score 0 this in
  let this := set_streak 0 this in
  let this := set_level 1 this in
  let this := set_wordManager (WordManager.resetUsedWords (wordManager this)) this in
  let this := clearTimer this in
  Some (loadNextWord this drawn).

End Environment.

End Game.

Module SM := StorageManager.
Module WM := WordManager.

(** * Definitions used by the statements *)

(** ** The store *)

(** The medium works and the probe has seen it work. *)
Definition working (this : SM.t) : Prop :=
  SM.storageAvailable this = true ∧
  LocalStorage.fault (SM.localStorage this) = LocalStorage.Healthy.

(** Every item under the prefix is the text of a JSON value. *)
Definition well_stored (items : gmap string Item) : Prop :=
  ∀ key raw, startsWith key SM.storagePrefix = true → items !! key ≠ Some (Raw raw).

(** The states of the store that the operations of [StorageManager] produce:
    a first visit (nothing under the prefix yet), then any sequence of
    writes, all of which go through [setData], of [clearAll], of
    [importData], and of page reloads, which construct a new manager on the
    storage left by the previous one. *)
Inductive reachable : SM.t -> Prop :=
| reach_new ls :
    (∀ key, startsWith key SM.storagePrefix = true → LocalStorage.items ls !! key = None) →
    reachable (SM.constructor ls)
| reach_reload this :
    reachable this → reachable (SM.constructor (SM.localStorage this))
| reach_setData key value this :
    reachable this → reachable (SM.setData key value this).2
| reach_clearAll this :
    reachable this → reachable (SM.clearAll this).2
| reach_importData data this :
    reachable this → reachable (SM.importData data this).2.

(** What holds of every reachable store: everything under the prefix is
    JSON, and if the probe succeeded the medium is healthy. *)
Definition store_invariant (this : SM.t) : Prop :=
  well_stored (LocalStorage.items (SM.localStorage this)) ∧
  (SM.storageAvailable this = true →
   LocalStorage.fault (SM.localStorage this) = LocalStorage.Healthy).

(** [round(100 * correct / total)], computed in this order. *)
Definition round_percent (correct total : Z) : Z :=
  Qfloor (100 * inject_Z correct / inject_Z total + (1 # 2)).

(** ** Concrete states *)

(** A browser with working, empty storage, and one whose storage is blocked. *)
Definition empty_storage : LocalStorage.t :=
  {| LocalStorage.fault := LocalStorage.Healthy; LocalStorage.items := ∅ |}.

Definition blocked_storage : LocalStorage.t :=
  {| LocalStorage.fault := LocalStorage.Blocked; LocalStorage.items := ∅ |}.

(** A store whose [totalScore] was overwritten by hand with a text that is
    not JSON. *)
Definition corrupt_store : SM.t :=
  {| SM.storageAvailable := true;
     SM.localStorage :=
       {| LocalStorage.fault := LocalStorage.Healthy;
          LocalStorage.items := {[ "wordchallenge_totalScore" := Raw "{oops" ]} |} |}.

(** A store after the import of an object that [JSON.parse] made with a
    property [__proto__]. *)
Definition proto_item_store : SM.t :=
  (SM.importData (JObj {[ "__proto__" := JNum 1 ]}) (SM.constructor empty_storage)).2.

(** Seven correct answers out of nine words. *)
Definition seven_of_nine : SM.t :=
  (SM.setData "correctAnswers" (JNum 7)
     (SM.setData "totalWords" (JNum 9) (SM.constructor empty_storage)).2).2.

(** Twenty-three correct answers out of forty words. *)
Definition twenty_three_of_forty : SM.t :=
  (SM.setData "correctAnswers" (JNum 23)
     (SM.setData "totalWords" (JNum 40) (SM.constructor empty_storage)).2).2.

(** A fresh store, and one where "Happy" was missed three times and "Brave"
    ten times. *)
Definition fresh_store : SM.t := SM.constructor empty_storage.

Definition missed_counts : gmap string Z := {[ "Happy" := 3%Z; "Brave" := 10%Z ]}.

Definition missed_store : SM.t :=
  (SM.setData "missedWords" (JObj (JNum <$> missed_counts)) fresh_store).2.

(** A store after the import of a ledger that lists a miss count under the
    name [__proto__], which [JSON.parse] makes a property like any other. *)
Definition proto_store : SM.t :=
  (SM.importData
     (JObj {[ "missedWords" := JObj {[ "__proto__" := JNum 3; "Happy" := JNum 3 ]} ]})
     fresh_store).2.

(** ** The ledger of the specification *)

Module Spec.

(** [wordAccuracy[term]] *)
Record Tally : Type := { correct : Z; total : Z }.

(** [difficultyStats[difficulty]] *)
Record DifficultyTally : Type := { d_correct : Z; d_total : Z; accuracyPercent : Z }.

Record Ledger : Type := {
  completedWords : list string;
  missedWords : gmap string Z;
  wordAccuracy : gmap string Tally;
  difficultyStats : gmap string DifficultyTally
}.

(** [recordAnswer(term, difficulty, correct)], written from the words of the
    specification. *)
Definition recordAnswer (term difficulty : string) (isCorrect : bool) (l : Ledger) : Ledger :=
  let bump := if isCorrect then 1%Z else 0%Z in
  let w := default {| correct := 0; total := 0 |} (wordAccuracy l !! term) in
  let d := default {| d_correct := 0; d_total := 0; accuracyPercent := 0 |}
             (difficultyStats l !! difficulty) in
  {| completedWords :=
       if bool_decide (term ∈ completedWords l) then completedWords l
       else completedWords l ++ [term];
     missedWords :=
       if isCorrect then delete term (missedWords l)
       else <[term := (default 0%Z (missedWords l !! term) + 1)%Z]> (missedWords l);
     wordAccuracy :=
       <[term := {| correct := correct w + bump; total := total w + 1 |}]> (wordAccuracy l);
     difficultyStats :=
       <[difficulty := {| d_correct := d_correct d + bump;
                          d_total := d_total d + 1;
                          accuracyPercent :=
                            round_percent (d_correct d + bump) (d_total d + 1) |}]>
         (difficultyStats l) |}.

(** What the operations of the ledger keep true of it: a stored miss count
    is positive, a stored total is not negative, no completed term is listed
    twice. *)
Definition consistent (l : Ledger) : Prop :=
  (∀ term n, missedWords l !! term = Some n → (0 < n)%Z) ∧
  (∀ difficulty d, difficultyStats l !! difficulty = Some d → (0 ≤ d_total d)%Z) ∧
  NoDup (completedWords l).

Definition empty : Ledger :=
  {| completedWords := []; missedWords := ∅; wordAccuracy := ∅; difficultyStats := ∅ |}.

End Spec.

(** The JSON that the store keeps for a ledger. *)
Definition json_of_tally (w : Spec.Tally) : JValue :=
  JObj {[ "correct" := JNum (Spec.correct w); "total" := JNum (Spec.total w) ]}.

Definition json_of_difficulty (d : Spec.DifficultyTally) : JValue :=
  JObj {[ "correct" := JNum (Spec.d_correct d); "total" := JNum (Spec.d_total d);
          "accuracy" := JNum (Spec.accuracyPercent d) ]}.

(** The store reads as the ledger [l]. *)
Definition represents (this : SM.t) (l : Spec.Ledger) : Prop :=
  SM.getCompletedWords this = JArr (JStr <$> Spec.completedWords l) ∧
  SM.getMissedWords this = JObj (JNum <$> Spec.missedWords l) ∧
  SM.getWordAccuracy this = JObj (json_of_tally <$> Spec.wordAccuracy l) ∧
  SM.getDifficultyStats this = JObj (json_of_difficulty <$> Spec.difficultyStats l).

(** The correct answers and the attempts that a difficulty counts after one
    more answer. *)
Definition counted (difficulty : string) (isCorrect : bool) (l : Spec.Ledger) : Z * Z :=
  let d := default {| Spec.d_correct := 0; Spec.d_total := 0; Spec.accuracyPercent := 0 |}
             (Spec.difficultyStats l !! difficulty) in
  ((Spec.d_correct d + (if isCorrect then 1 else 0))%Z, (Spec.d_total d + 1)%Z).

(** The ledger as [trackWordProgress] leaves it: that of
    [Spec.recordAnswer], with the accuracy of the difficulty as the code
    computes it. *)
Definition recorded (term difficulty : string) (isCorrect : bool) (l : Spec.Ledger)
  : Spec.Ledger :=
  let spec := Spec.recordAnswer term difficulty isCorrect l in
  let count := counted difficulty isCorrect l in
  {| Spec.completedWords := Spec.completedWords spec;
     Spec.missedWords := Spec.missedWords spec;
     Spec.wordAccuracy := Spec.wordAccuracy spec;
     Spec.difficultyStats :=
       <[difficulty := {| Spec.d_correct := count.1;
                          Spec.d_total := count.2;
                          Spec.accuracyPercent := percentage count.1 count.2 |}]>
         (Spec.difficultyStats l) |}.

(** A ledger where 22 of 39 answers at the easy level were correct, and the
    store that keeps it. *)
Definition close_ledger : Spec.Ledger :=
  {| Spec.completedWords := [];
     Spec.missedWords := ∅;
     Spec.wordAccuracy := ∅;
     Spec.difficultyStats :=
       {[ "easy" := {| Spec.d_correct := 22; Spec.d_total := 39;
                       Spec.accuracyPercent := 56 |} ]} |}.

Definition close_store : SM.t :=
  (SM.setData "difficultyStats"
     (JObj (json_of_difficulty <$> Spec.difficultyStats close_ledger)) fresh_store).2.

(** The word "Happy" as [getNextWord] serves it. *)
Definition happy : WM.PreparedWord :=
  {| WM.p_word := "Happy";
     WM.p_pronunciation := "/ˈhæp.i/";
     WM.options :=
       [ "Feeling joy or pleasure"; "Feeling tired and sleepy";
         "Feeling angry or upset"; "Feeling confused or lost" ];
     WM.correctAnswer := "Feeling joy or pleasure" |}.

(** ** The word cycle *)

(** [k] calls of [getNextWord] in a row for one key, nothing in between:
    the results in order, the object afterwards, the draws made. *)
Fixpoint calls (random : nat -> Draw) (fetch : string -> WM.Response) (k : nat)
    (difficulty category : string) (this : WM.t) (drawn : nat)
  : list WM.NextWord * WM.t * nat :=
  match k with
  | O => ([], this, drawn)
  | S k' =>
      let '(result, this, drawn) := WM.getNextWord random fetch difficulty category this drawn in
      let '(results, this, drawn) := calls random fetch k' difficulty category this drawn in
      (result :: results, this, drawn)
  end.

(** The term of a served word. *)
Definition term_of (result : WM.NextWord) : option string :=
  match result with
  | WM.Word prepared _ => Some (WM.p_word prepared)
  | _ => None
  end.

(** [result] is the entry at [index] of [bank], prepared for the game with
    [remaining] entries still to come. *)
Definition serves (difficulty category : string) (bank : list WM.WordEntry)
    (index remaining : nat) (result : WM.NextWord) : Prop :=
  ∃ entry prepared,
    bank !! index = Some entry ∧
    result = WM.Word prepared
               {| WM.m_difficulty := difficulty;
                  WM.m_category := category;
                  WM.remaining := remaining;
                  WM.total := length bank;
                  WM.isLastWord := remaining =? 0 |} ∧
    WM.p_word prepared = WM.word entry ∧
    WM.p_pronunciation prepared = WM.pronunciation entry ∧
    WM.correctAnswer prepared = WM.correct_definition entry ∧
    WM.options prepared ≡ₚ WM.correct_definition entry :: WM.incorrect_options entry.

(** The results serve the entries at [indices], in this order, counting the
    remaining entries down to [0]. *)
Fixpoint serves_all (difficulty category : string) (bank : list WM.WordEntry)
    (indices : list nat) (results : list WM.NextWord) : Prop :=
  match indices, results with
  | [], [] => True
  | index :: indices, result :: results =>
      serves difficulty category bank index (length indices) result ∧
      serves_all difficulty category bank indices results
  | _, _ => False
  end.

(** The end-of-category signal for a bank. *)
Definition endOfCategory (difficulty category : string) (bank : list WM.WordEntry)
    (visited : gset string) : WM.NextWord :=
  WM.EndOfCategory
    ("All " +:+ pretty (length bank) +:+ " words completed for "
       +:+ difficulty +:+ "/" +:+ category +:+ ".")
    (length bank) (size visited).

(** An entry of a document lacks a non-empty term, pronunciation or correct
    definition, or has fewer than three incorrect options. *)
Definition incomplete (w : WM.RawWord) : Prop :=
  WM.raw_word w = None ∨ WM.raw_word w = Some "" ∨
  WM.raw_pronunciation w = None ∨ WM.raw_pronunciation w = Some "" ∨
  WM.raw_correct_definition w = None ∨ WM.raw_correct_definition w = Some "" ∨
  WM.raw_incorrect_options w = None ∨
  ∃ options, WM.raw_incorrect_options w = Some options ∧ length options < 3.

(** ** Concrete environments *)

(** [Math.random()] returning 0 every time. *)
Definition zero : Draw := {| num := 0; den := 1; below_one := le_n 1 |}.
Definition always_zero : nat -> Draw := fun _ => zero.

(** No network; a server that answers every request with an empty word
    list; one whose only entry has two incorrect options. *)
Definition offline : string -> WM.Response := fun _ => WM.NetworkError.
Definition empty_document : string -> WM.Response := fun _ => WM.Body (Some []).
Definition short_document : string -> WM.Response :=
  fun _ =>
    WM.Body (Some [ {| WM.raw_word := Some "Calm";
                       WM.raw_pronunciation := Some "/kɑːm/";
                       WM.raw_correct_definition := Some "Free from agitation";
                       WM.raw_incorrect_options := Some ["Very loud"; "Quite tall"] |} ]).

(** The game's [WordManager] right after the page has loaded. *)
Definition new_manager : WM.t := WM.constructor (Some (WM.shipped fresh_store)).

(** The manager after a first call that found no network (the built-in
    sample bank is now cached) and the two calls that serve its entries. *)
Definition exhausted_manager : WM.t :=
  (calls always_zero offline 3 "easy" "general" new_manager 0).1.2.

(** A manager whose cached bank for easy/general is an empty word list. *)
Definition empty_bank_manager : WM.t :=
  (WM.loadWords empty_document "easy" "general" new_manager).2.

(** The manager once the sample bank for easy/general is cached and before
    any word was asked for. *)
Definition loaded_manager : WM.t :=
  (WM.loadWords offline "easy" "general" new_manager).2.

(** ** The counters of the ledger *)

(** The six scalar counters, read as numbers. *)
Record Counters : Type := {
  c_totalScore : Z;
  c_currentStreak : Z;
  c_bestStreak : Z;
  c_level : Z;
  c_totalWords : Z;
  c_correctAnswers : Z
}.

(** [getStats] returns the counters [c]. *)
Definition reads_counters (this : SM.t) (c : Counters) : Prop :=
  SM.totalScore (SM.getStats this) = JNum (c_totalScore c) ∧
  SM.currentStreak (SM.getStats this) = JNum (c_currentStreak c) ∧
  SM.bestStreak (SM.getStats this) = JNum (c_bestStreak c) ∧
  SM.level (SM.getStats this) = JNum (c_level c) ∧
  SM.totalWords (SM.getStats this) = JNum (c_totalWords c) ∧
  SM.correctAnswers (SM.getStats this) = JNum (c_correctAnswers c).

(** The counters that [resetProgress] writes. *)
Definition default_counters : Counters :=
  {| c_totalScore := 0; c_currentStreak := 0; c_bestStreak := 0; c_level := 1;
     c_totalWords := 0; c_correctAnswers := 0 |}.

(** A streak of three on a fresh store. *)
Definition streak_of_three : SM.Updates :=
  {| SM.scoreIncrease := Some 7%Z; SM.streak := Some 3%Z; SM.newLevel := Some 1%Z;
     SM.wordCompleted := true; SM.correctAnswer := Some true |}.


(** ** Page loads *)

(** The manager as the probe leaves it, before [init]. *)
Definition probed (ls : LocalStorage.t) : SM.t :=
  {| SM.storageAvailable := true;
     SM.localStorage :=
       {| LocalStorage.fault := LocalStorage.Healthy;
          LocalStorage.items := delete "storage_test" (LocalStorage.items ls) |} |}.


(** A manager whose probe succeeded on a medium that has since filled up:
    every write is refused. *)
Definition full_store : SM.t :=
  {| SM.storageAvailable := true;
     SM.localStorage :=
       {| LocalStorage.fault := LocalStorage.QuotaExceeded;
          LocalStorage.items := LocalStorage.items (SM.localStorage missed_store) |} |}.

(** ** Category completion *)

(** A list of completed categories as the game produces it: no category
    twice, and only the three categories of the game. *)
Definition standard_categories (completed : list JValue) : Prop :=
  NoDup completed ∧
  ∀ v, v ∈ completed → v ∈ [JStr "general"; JStr "academic"; JStr "business"].

(** What [getCategoryCompletionStats] records for one difficulty. *)
Definition completion_of (completed : list JValue) : SM.DifficultyCompletion :=
  {| SM.dc_total := 3;
     SM.dc_completed := Z.of_nat (length completed);
     SM.dc_categories := completed;
     SM.dc_percentage := percentage (Z.of_nat (length completed)) 3 |}.

(** A store where two of the easy categories are completed. *)
Definition two_easy_store : SM.t :=
  (SM.setData "completedCategories_easy" (JArr [JStr "general"; JStr "business"])
     fresh_store).2.

(** ** The word manager *)

(** [this'] differs from [this] at most in the bank and the cycle of [key],
    and in what a storage with hooks holds: the storage that the game
    ships is as before. *)
Definition same_but (key : string) (this this' : WM.t) : Prop :=
  (∀ other, other ≠ key → WM.words this' !! other = WM.words this !! other) ∧
  (∀ other, other ≠ key → WM.cycleState this' !! other = WM.cycleState this !! other) ∧
  WM.usedWords this' = WM.usedWords this ∧
  WM.availableDifficulties this' = WM.availableDifficulties this ∧
  WM.availableCategories this' = WM.availableCategories this ∧
  (∀ sm, WM.storage this = Some (WM.shipped sm) → WM.storage this' = Some (WM.shipped sm)).

(** What the result of [getNextWord] says about the bank of its key. *)
Definition drawn_from (random : nat -> Draw) (bank : list WM.WordEntry)
    (result : WM.NextWord) : Prop :=
  match result with
  | WM.Word prepared meta =>
      ∃ index entry drawn,
        bank !! index = Some entry ∧
        prepared = (WM.prepareWordForGame random entry drawn).1 ∧
        WM.total meta = length bank
  | WM.EndOfCategory _ total _ => total = length bank ∧ bank ≠ []
  | WM.Null => True
  end.

(** No bank is cached under a name that every object inherits.  For the
    key of a cached bank a read of [this.words] or of [this.cycleState]
    then finds the own property of the object or none. *)
Definition keys_plain (this : WM.t) : Prop :=
  ∀ key, is_Some (WM.words this !! key) → inherited key = false.

(** An entry as [validateWordData] accepts it. *)
Definition well_formed (entry : WM.WordEntry) : bool :=
  negb (String.eqb (WM.word entry) "") &&
  negb (String.eqb (WM.pronunciation entry) "") &&
  negb (String.eqb (WM.correct_definition entry) "") &&
  (3 <=? length (WM.incorrect_options entry)).

(** Every cached bank holds such entries only. *)
Definition banks_valid (this : WM.t) : Prop :=
  ∀ key bank, WM.words this !! key = Some bank → forallb well_formed bank = true.

(** A server that has one complete entry for every bank. *)
Definition calm_document : string -> WM.Response :=
  fun _ =>
    WM.Body (Some [ {| WM.raw_word := Some "Calm";
                       WM.raw_pronunciation := Some "/kɑːm/";
                       WM.raw_correct_definition := Some "Free from agitation";
                       WM.raw_incorrect_options :=
                         Some ["Very loud"; "Quite tall"; "Rather cold"] |} ]).

(** The attempts that the tallies record for the entries of a bank, summed
    entry by entry: [f] is [Spec.total] or [Spec.correct]. *)
Definition attempts (f : Spec.Tally -> Z) (tallies : gmap string Spec.Tally)
    (bank : list WM.WordEntry) : Z :=
  foldr (fun entry sum => (from_option f 0 (tallies !! WM.word entry) + sum)%Z) 0%Z bank.

(** Every term of the bank can be looked up in a parsed object: it is a
    property of the object or no inherited name. *)
Definition plain_terms (tallies : gmap string Spec.Tally) (bank : list WM.WordEntry) : Prop :=
  ∀ entry, entry ∈ bank →
           is_Some (tallies !! WM.word entry) ∨ inherited (WM.word entry) = false.

(** No tally counts more correct answers than attempts. *)
Definition sane (tallies : gmap string Spec.Tally) : Prop :=
  ∀ term w, tallies !! term = Some w → (0 ≤ Spec.correct w ≤ Spec.total w)%Z.

(** "Happy" answered twice, once correctly. *)
Definition happy_tallies : gmap string Spec.Tally :=
  {[ "Happy" := {| Spec.correct := 1; Spec.total := 2 |} ]}.

(** The game's manager with the sample bank cached, on a store where "Happy"
    is completed with one correct answer out of two. *)
Definition progress_manager : WM.t :=
  (WM.loadWords offline "easy" "general"
     (WM.constructor
        (Some (WM.shipped
                 (SM.setData "wordAccuracy" (JObj (json_of_tally <$> happy_tallies))
                    (SM.setData "completedWords" (JArr [JStr "Happy"]) fresh_store).2).2)))).2.

(** ** The game *)

(** The game shows what the store holds: its store is the working
    [StorageManager] [sm] as the constructor makes it, and its score, streak
    and level are the counters [c] that [sm] reads. *)
Definition in_sync (this : Game.t) (sm : SM.t) (c : Counters) : Prop :=
  WM.storage (Game.wordManager this) = Some (WM.shipped sm) ∧ working sm ∧
  reads_counters sm c ∧
  Game.score this = c_totalScore c ∧
  Game.streak this = c_currentStreak c ∧
  Game.level this = c_level c.

(** The fields of the game that the statistics do not concern. *)
Definition same_round (this this' : Game.t) : Prop :=
  Game.currentWord this' = Game.currentWord this ∧
  Game.gameActive this' = Game.gameActive this ∧
  Game.timer this' = Game.timer this ∧
  Game.timeLeft this' = Game.timeLeft this ∧
  Game.timerDuration this' = Game.timerDuration this ∧
  Game.settings this' = Game.settings this ∧
  WM.words (Game.wordManager this') = WM.words (Game.wordManager this) ∧
  WM.cycleState (Game.wordManager this') = WM.cycleState (Game.wordManager this).

(** The game as the page shows it after loading on an empty storage, before
    the first word: nothing scored yet. *)
Definition new_game : Game.t :=
  {| Game.wordManager := new_manager;
     Game.currentWord := None;
     Game.gameActive := false;
     Game.score := 0;
     Game.streak := 0;
     Game.level := 1;
     Game.timer := false;
     Game.timeLeft := 30;
     Game.timerDuration := 30;
     Game.settings := {| Game.difficulty := "easy"; Game.category := "general" |} |}.

(** The same game with a streak of four and "Happy" on the screen, the
    timer running at 25 seconds. *)
Definition happy_round : Game.t :=
  Game.set_timer true
    (Game.set_timeLeft 25
       (Game.set_gameActive true
          (Game.set_currentWord (Some happy)
             (Game.set_streak 4
                (Game.put_storage
                   (SM.setData "bestStreak" (JNum 4)
                      (SM.setData "currentStreak" (JNum 4) fresh_store).2).2
                   new_game))))).

(** The counters of the store of [happy_round]. *)
Definition streak_of_four : Counters :=
  {| c_totalScore := 0; c_currentStreak := 4; c_bestStreak := 4; c_level := 1;
     c_totalWords := 0; c_correctAnswers := 0 |}.

(** The base points of a difficulty: 10 for medium, 15 for hard, 5 for
    easy and for every other name. *)
Definition base_points (difficulty : string) : Z :=
  if decide (difficulty = "medium") then 10
  else if decide (difficulty = "hard") then 15
  else 5.

(** The time bonus for the seconds left. *)
Definition time_bonus (timeLeft : Z) : Z :=
  if (20 <? timeLeft)%Z then 5 else if (10 <? timeLeft)%Z then 2 else 0.

(** The counters after an answer: [points] are the points of a correct
    one. *)
Definition answered (isCorrect : bool) (points : Z) (c : Counters) : Counters :=
  let streak := if isCorrect then (c_currentStreak c + 1)%Z else 0%Z in
  {| c_totalScore := if isCorrect then (c_totalScore c + points)%Z else c_totalScore c;
     c_currentStreak := streak;
     c_bestStreak := Z.max (c_bestStreak c) streak;
     c_level :=
       if isCorrect && (0 <? streak)%Z && (Z.rem streak 5 =? 0)%Z
       then (c_level c + 1)%Z else c_level c;
     c_totalWords := (c_totalWords c + 1)%Z;
     c_correctAnswers := if isCorrect then (c_correctAnswers c + 1)%Z else c_correctAnswers c |}.

(** [k] callbacks of the timer in a row. *)
Fixpoint ticks (k : nat) (this : Game.t) : option Game.t :=
  match k with
  | O => Some this
  | S k' => this ← Game.tick this; ticks k' this
  end.

(** The round is over: no answer is awaited and no interval runs. *)
Definition round_over (this : Game.t) : Prop :=
  Game.gameActive this = false ∧ Game.timer this = false.

(** A game on a store that remembers hard/business and a score of 40. *)
Definition seasoned_store : SM.t :=
  SM.updatePreferences {[ "difficulty" := JStr "hard"; "category" := JStr "business" ]}
    (SM.setData "totalScore" (JNum 40) fresh_store).2.

Definition seasoned_counters : Counters :=
  {| c_totalScore := 40; c_currentStreak := 0; c_bestStreak := 0; c_level := 1;
     c_totalWords := 0; c_correctAnswers := 0 |}.

Definition seasoned_game : Game.t :=
  Game.set_settings {| Game.difficulty := "hard"; Game.category := "business" |}
    (Game.set_score 40 (Game.put_storage seasoned_store new_game)).

(** The game at the end of the sample category easy/general. *)
Definition finished_game : Game.t :=
  Game.set_wordManager exhausted_manager new_game.
(** * Properties *)

(* stdpp's solvers clear hypotheses by name; silence their notices. *)
Set Warnings "-clear-no-such-hyp".

(** ** Built-ins *)

Lemma prefix_app (p k : string) : String.prefix p (p +:+ k) = true.
Proof.
  induction p as [|a p IH]; simpl; [by destruct k|].
  destruct (Ascii.ascii_dec a a); [exact IH | congruence].
Qed.

Lemma startsWith_app (p k : string) : startsWith (p +:+ k) p = true.
Proof. apply prefix_app. Qed.

Lemma substring_app (p k : string) : substring (String.length p) (p +:+ k) = k.
Proof. induction p as [|a p IH]; simpl; [by destruct k | exact IH]. Qed.

Lemma startsWith_split (key p : string) :
  startsWith key p = true → key = p +:+ substring (String.length p) key.
Proof.
  unfold startsWith. revert key.
  induction p as [|a p IH]; intros key H; simpl in *.
  - by destruct key.
  - destruct key as [|b key]; [by destruct p|]. simpl in H.
    destruct (Ascii.ascii_dec a b) as [->|]; [|done].
    change (String b key = String b (p +:+ substring (String.length p) key)).
    f_equal. by apply IH.
Qed.

Lemma startsWith_iff (key p : string) :
  startsWith key p = true ↔ ∃ short, key = p +:+ short.
Proof.
  split.
  - intros H. eexists. by apply startsWith_split.
  - intros [short ->]. apply startsWith_app.
Qed.

Lemma floor_times_lt (r : Draw) (n : nat) : 0 < n → floor_times r n < n.
Proof.
  intros Hn. unfold floor_times.
  pose proof (below_one r) as Hr.
  apply Nat.Div0.div_lt_upper_bound. nia.
Qed.

Lemma swap_length {A : Type} (i j : nat) (a : list A) : length (swap i j a) = length a.
Proof.
  unfold swap. destruct (a !! i), (a !! j); try done.
  by rewrite !length_insert.
Qed.

Lemma swap_Permutation {A : Type} (i j : nat) (a : list A) : swap i j a ≡ₚ a.
Proof.
  unfold swap.
  destruct (a !! i) as [x|] eqn:Hi; [|done].
  destruct (a !! j) as [y|] eqn:Hj; [|done].
  by apply Permutation_insert_swap.
Qed.

(** Within the array the swap exchanges the two cells and nothing else. *)
Lemma swap_lookup {A : Type} (i j : nat) (a : list A) (x y : A) :
  a !! i = Some x → a !! j = Some y →
  swap i j a !! i = Some y ∧ swap i j a !! j = Some x.
Proof.
  intros Hi Hj. unfold swap. rewrite Hi, Hj.
  pose proof (lookup_lt_Some _ _ _ Hi). pose proof (lookup_lt_Some _ _ _ Hj).
  destruct (decide (i = j)) as [->|Hne].
  - assert (x = y) as -> by congruence.
    rewrite list_lookup_insert_eq; [done | by rewrite length_insert].
  - split.
    + rewrite list_lookup_insert_ne by done. by rewrite list_lookup_insert_eq.
    + rewrite list_lookup_insert_eq; [done | by rewrite length_insert].
Qed.

(** ** Objects as dictionaries *)

Lemma get_Some {A : Type} (key : string) (o : gmap string A) (a : A) :
  o !! key = Some a → get key o = Own a.
Proof. intros H. unfold get. by rewrite H. Qed.

Lemma get_None {A : Type} (key : string) (o : gmap string A) :
  o !! key = None → inherited key = false → get key o = Undefined.
Proof. intros H Hi. unfold get. by rewrite H, Hi. Qed.

Lemma get_inherited {A : Type} (key : string) (o : gmap string A) :
  o !! key = None → inherited key = true → get key o = Inherited.
Proof. intros H Hi. unfold get. by rewrite H, Hi. Qed.

(** For a name that is not inherited the read is the lookup in the map. *)
Lemma get_plain {A : Type} (key : string) (o : gmap string A) :
  inherited key = false →
  get key o = match o !! key with Some a => Own a | None => Undefined end.
Proof. intros Hi. unfold get. rewrite Hi. by destruct (o !! key). Qed.

Lemma inherited_proto (key : string) : inherited key = false → key ≠ "__proto__".
Proof. intros Hi ->. vm_compute in Hi. discriminate. Qed.

Lemma assign_plain {A : Type} (key : string) (a : A) (o : gmap string A) :
  key ≠ "__proto__" → assign key a o = <[key := a]> o.
Proof.
  intros Hne. unfold assign. destruct (o !! key); [done|].
  by destruct (String.eqb_spec key "__proto__").
Qed.

Lemma assign_own {A : Type} (key : string) (a : A) (o : gmap string A) :
  is_Some (o !! key) → assign key a o = <[key := a]> o.
Proof. intros [b Hb]. unfold assign. by rewrite Hb. Qed.

(** The setter of [__proto__] adds no property. *)
Lemma assign_proto {A : Type} (a : A) (o : gmap string A) :
  o !! "__proto__" = None → assign "__proto__" a o = o.
Proof. intros Hnone. unfold assign. by rewrite Hnone. Qed.

Lemma JObj_inj (m1 m2 : gmap string JValue) : JObj m1 = JObj m2 → m1 = m2.
Proof. congruence. Qed.

(** ** Rounding to double precision *)

Section Rounding.

Local Open Scope Q_scope.

Lemma nearest_even_spec (y : Q) :
  inject_Z (nearest_even y) - (1 # 2) <= y /\ y <= inject_Z (nearest_even y) + (1 # 2).
Proof.
  unfold nearest_even.
  pose proof (Qfloor_le y) as Hlo. pose proof (Qlt_floor y) as Hhi.
  rewrite inject_Z_plus in Hhi. change (inject_Z 1) with 1 in Hhi.
  destruct (Qcompare_spec (y - inject_Z (Qfloor y)) (1 # 2)) as [He|Hl|Hg].
  - destruct (Z.even (Qfloor y)).
    + lra.
    + rewrite inject_Z_plus. change (inject_Z 1) with 1. lra.
  - lra.
  - rewrite inject_Z_plus. change (inject_Z 1) with 1. lra.
Qed.

Lemma nearest_even_le (y : Q) (n : Z) : y <= inject_Z n -> (nearest_even y <= n)%Z.
Proof.
  intros Hy. destruct (nearest_even_spec y) as [Hlo _].
  destruct (Z_le_gt_dec (nearest_even y) n) as [|Hgt]; [done|]. exfalso.
  assert (inject_Z n + 1 <= inject_Z (nearest_even y)).
  { change 1 with (inject_Z 1). rewrite <- inject_Z_plus, <- Zle_Qle. lia. }
  lra.
Qed.

Lemma nearest_even_ge (y : Q) (n : Z) : inject_Z n <= y -> (n <= nearest_even y)%Z.
Proof.
  intros Hy. destruct (nearest_even_spec y) as [_ Hhi].
  destruct (Z_le_gt_dec n (nearest_even y)) as [|Hgt]; [done|]. exfalso.
  assert (inject_Z (nearest_even y) + 1 <= inject_Z n).
  { change 1 with (inject_Z 1). rewrite <- inject_Z_plus, <- Zle_Qle. lia. }
  lra.
Qed.

Lemma pow2_pos (e : Z) : 0 < 2 ^ e.
Proof. by apply Qpower_0_lt. Qed.

Lemma pow2_add (a b : Z) : 2 ^ (a + b) == 2 ^ a * 2 ^ b.
Proof. by apply Qpower_plus. Qed.

Lemma pow2_le (a b : Z) : (a <= b)%Z -> 2 ^ a <= 2 ^ b.
Proof. intros H. by apply Qpower_le_compat_l. Qed.

Lemma pow2_lt_inv (a b : Z) : 2 ^ a < 2 ^ b -> (a < b)%Z.
Proof. intros H. by apply (Qpower_lt_compat_l_inv 2). Qed.

Lemma pow2_inject (a : Z) : (0 <= a)%Z -> inject_Z (2 ^ a) == 2 ^ a.
Proof. intros H. by rewrite Zpower_Qpower. Qed.

Lemma Qlog2_spec (x : Q) :
  0 < x -> 2 ^ Qlog2 x <= x /\ x < 2 ^ (Qlog2 x + 1).
Proof.
  intros Hx. unfold Qlog2.
  destruct x as [n d]. cbn [Qnum Qden].
  assert (Hn : (0 < n)%Z) by (unfold Qlt in Hx; simpl in Hx; lia).
  pose proof (Z.log2_spec n Hn) as [Hn1 Hn2].
  pose proof (Z.log2_spec (Zpos d) ltac:(lia)) as [Hd1 Hd2].
  pose proof (Z.log2_nonneg n) as Hln. pose proof (Z.log2_nonneg (Zpos d)) as Hld.
  set (ln := Z.log2 n) in *. set (ld := Z.log2 (Zpos d)) in *.
  assert (Hnd : (n # d) * inject_Z (Zpos d) == inject_Z n).
  { unfold Qeq, Qmult, inject_Z. simpl. lia. }
  assert (Hdpos : 0 < inject_Z (Zpos d)) by (unfold Qlt; simpl; lia).
  assert (Qn1 : 2 ^ ln <= inject_Z n)
    by (rewrite <- pow2_inject by done; rewrite <- Zle_Qle; exact Hn1).
  assert (Qn2 : inject_Z n < 2 ^ (ln + 1))
    by (rewrite <- pow2_inject by lia; rewrite <- Zlt_Qlt, Z.add_1_r; exact Hn2).
  assert (Qd1 : 2 ^ ld <= inject_Z (Zpos d))
    by (rewrite <- pow2_inject by done; rewrite <- Zle_Qle; exact Hd1).
  assert (Qd2 : inject_Z (Zpos d) < 2 ^ (ld + 1))
    by (rewrite <- pow2_inject by lia; rewrite <- Zlt_Qlt, Z.add_1_r; exact Hd2).
  destruct (Qle_bool (2 ^ (ln - ld)) (n # d)) eqn:Hcmp.
  - apply Qle_bool_iff in Hcmp. split; [exact Hcmp|].
    apply (Qmult_lt_r _ _ (inject_Z (Zpos d))); [exact Hdpos|].
    rewrite Hnd.
    apply Qlt_le_trans with (2 ^ (ln + 1)); [exact Qn2|].
    replace (ln + 1)%Z with ((ln - ld + 1) + ld)%Z by lia.
    rewrite pow2_add.
    apply Qmult_le_l; [apply pow2_pos | exact Qd1].
  - assert (Hlt : (n # d) < 2 ^ (ln - ld)).
    { apply Qnot_le_lt. intros Hle. apply Qle_bool_iff in Hle. congruence. }
    split.
    + apply (Qmult_le_r _ _ (inject_Z (Zpos d))); [exact Hdpos|].
      rewrite Hnd.
      apply Qle_trans with (2 ^ ln); [|exact Qn1].
      replace ln with ((ln - ld - 1) + (ld + 1))%Z at 2 by lia.
      rewrite pow2_add.
      apply Qmult_le_l; [apply pow2_pos | by apply Qlt_le_weak].
    + by replace (ln - ld - 1 + 1)%Z with (ln - ld)%Z by lia.
Qed.

Lemma Qabs_positive (x : Q) : 0 < x -> Qabs x = x.
Proof.
  destruct x as [n d]. unfold Qlt. simpl. intros Hn.
  unfold Qabs. f_equal. apply Z.abs_eq. lia.
Qed.

(** A positive number is rounded within its binade. *)
Lemma double_positive (x : Q) :
  0 < x ->
  double x = inject_Z (nearest_even (x / 2 ^ Z.max (-1074) (Qlog2 x - 52)))
             * 2 ^ Z.max (-1074) (Qlog2 x - 52).
Proof.
  intros Hx. unfold double.
  destruct (Qeq_bool x 0) eqn:Hz.
  - apply Qeq_bool_iff in Hz. rewrite Hz in Hx. by apply Qlt_irrefl in Hx.
  - by rewrite Qabs_positive.
Qed.

Lemma double_zero (x : Q) : x == 0 -> double x = 0.
Proof. intros Hz. unfold double. apply Qeq_bool_iff in Hz. by rewrite Hz. Qed.

Lemma double_nonneg (x : Q) : 0 <= x -> 0 <= double x.
Proof.
  intros Hx. destruct (Qle_lt_or_eq _ _ Hx) as [Hpos|Hz].
  - rewrite double_positive by done.
    set (e := Z.max (-1074) (Qlog2 x - 52)).
    apply Qmult_le_0_compat; [|apply Qlt_le_weak, pow2_pos].
    change 0 with (inject_Z 0). rewrite <- Zle_Qle.
    apply nearest_even_ge. change (inject_Z 0) with 0.
    apply Qle_shift_div_l; [apply pow2_pos|]. lra.
  - rewrite double_zero by (by symmetry). lra.
Qed.

(** Rounding does not cross an integer below [2^53]: integers of that size
    are binary64 numbers. *)
Lemma double_le_Z (x : Q) (n : Z) :
  0 <= x -> x <= inject_Z n -> (n < 2 ^ 53)%Z -> double x <= inject_Z n.
Proof.
  intros Hx Hn Hsmall. destruct (Qle_lt_or_eq _ _ Hx) as [Hpos|Hz].
  2: { rewrite double_zero by (by symmetry). lra. }
  rewrite double_positive by done.
  destruct (Qlog2_spec x Hpos) as [Hlo _].
  assert (He : (Z.max (-1074) (Qlog2 x - 52) <= 0)%Z).
  { assert (2 ^ Qlog2 x < 2 ^ 53) as Hlt%pow2_lt_inv; [|lia].
    apply Qle_lt_trans with x; [exact Hlo|].
    apply Qle_lt_trans with (inject_Z n); [exact Hn|].
    rewrite <- pow2_inject by lia. by rewrite <- Zlt_Qlt. }
  set (e := Z.max (-1074) (Qlog2 x - 52)) in *.
  assert (Hscale : inject_Z (n * 2 ^ (- e)) * 2 ^ e == inject_Z n).
  { rewrite inject_Z_mult, pow2_inject by lia.
    rewrite <- Qmult_assoc, <- pow2_add.
    replace (- e + e)%Z with 0%Z by lia. change (2 ^ 0) with 1. ring. }
  rewrite <- Hscale.
  apply Qmult_le_compat_r; [|apply Qlt_le_weak, pow2_pos].
  rewrite <- Zle_Qle. apply nearest_even_le.
  apply Qle_shift_div_r; [apply pow2_pos|]. by rewrite Hscale.
Qed.

(** In the normal range the relative error of rounding is at most
    [2^-53]. *)
Lemma double_error (x : Q) :
  2 ^ (-1022) <= x ->
  x * (1 - 2 ^ (-53)) <= double x /\ double x <= x * (1 + 2 ^ (-53)).
Proof.
  intros Hnormal.
  assert (Hpos : 0 < x) by (apply Qlt_le_trans with (2 ^ (-1022)); [apply pow2_pos | done]).
  rewrite double_positive by done.
  destruct (Qlog2_spec x Hpos) as [Hlo Hhi].
  assert (He : Z.max (-1074) (Qlog2 x - 52) = (Qlog2 x - 52)%Z).
  { assert (2 ^ (-1022) < 2 ^ (Qlog2 x + 1)) as Hlt%pow2_lt_inv; [|lia].
    by apply Qle_lt_trans with x. }
  rewrite He. set (e := (Qlog2 x - 52)%Z).
  pose proof (pow2_pos e) as Hu.
  destruct (nearest_even_spec (x / 2 ^ e)) as [Hm1 Hm2].
  set (m := inject_Z (nearest_even (x / 2 ^ e))) in *.
  assert (Hx : x / 2 ^ e * 2 ^ e == x) by (field; lra).
  assert (Hhalf : 2 ^ e * (1 # 2) <= x * 2 ^ (-53)).
  { assert (2 ^ e * (1 # 2) == 2 ^ Qlog2 x * 2 ^ (-53)) as ->.
    { replace (Qlog2 x) with (e + 52)%Z at 1 by (unfold e; lia).
      rewrite pow2_add. change (2 ^ 52) with (inject_Z 4503599627370496).
      change (2 ^ (-53)) with (1 # 9007199254740992). field. }
    apply Qmult_le_compat_r; [exact Hlo | apply Qlt_le_weak, pow2_pos]. }
  assert (H1 : (m - (1 # 2)) * 2 ^ e <= x / 2 ^ e * 2 ^ e)
    by (apply Qmult_le_compat_r; [exact Hm1 | lra]).
  assert (H2 : x / 2 ^ e * 2 ^ e <= (m + (1 # 2)) * 2 ^ e)
    by (apply Qmult_le_compat_r; [exact Hm2 | lra]).
  rewrite Hx in H1, H2.
  split; lra.
Qed.

Lemma round_percent_div (correct total : Z) :
  (0 < total)%Z -> round_percent correct total = ((200 * correct + total) / (2 * total))%Z.
Proof.
  intros Ht. rewrite Zdiv_Qdiv. unfold round_percent.
  apply Qfloor_comp.
  unfold Qeq, Qdiv, Qmult, Qplus, Qinv, inject_Z; simpl.
  destruct total as [|t|t]; try lia. simpl.
  destruct correct; simpl; lia.
Qed.

Lemma Math_round_bounds (x : Q) (k : Z) :
  inject_Z k - (1 # 2) <= x -> x < inject_Z k + (1 # 2) -> Math_round x = k.
Proof.
  intros Hlo Hhi. unfold Math_round.
  assert (Hk : (k <= Qfloor (x + (1 # 2)))%Z).
  { rewrite <- (Qfloor_Z k). apply Qfloor_resp_le. lra. }
  assert (Hk' : (Qfloor (x + (1 # 2)) < k + 1)%Z).
  { rewrite Zlt_Qlt. apply Qle_lt_trans with (x + (1 # 2)); [apply Qfloor_le|].
    rewrite inject_Z_plus. change (inject_Z 1) with 1. lra. }
  lia.
Qed.

(** A rate between 0 and 1 gives a percentage between 0 and 100. *)
Lemma percentage_range (correct total : Z) :
  (0 <= correct <= total)%Z -> (0 < total)%Z -> (0 <= percentage correct total <= 100)%Z.
Proof.
  intros [Hc Hct] Ht. unfold percentage.
  set (x := inject_Z correct / inject_Z total).
  assert (Htq : 0 < inject_Z total) by (change 0 with (inject_Z 0); by rewrite <- Zlt_Qlt).
  assert (Hx0 : 0 <= x).
  { apply Qle_shift_div_l; [done|]. rewrite Qmult_0_l.
    change 0 with (inject_Z 0). by rewrite <- Zle_Qle. }
  assert (Hx1 : x <= inject_Z 1).
  { apply Qle_shift_div_r; [done|]. change (inject_Z 1) with 1. rewrite Qmult_1_l.
    by rewrite <- Zle_Qle. }
  pose proof (double_nonneg x Hx0) as Hq0.
  pose proof (double_le_Z x 1 Hx0 Hx1 ltac:(done)) as Hq1.
  change (inject_Z 1) with 1 in Hq1.
  set (q := double x) in *.
  assert (Hy0 : 0 <= q * 100) by lra.
  assert (Hy1 : q * 100 <= inject_Z 100) by (change (inject_Z 100) with 100; lra).
  pose proof (double_nonneg _ Hy0) as Hp0.
  pose proof (double_le_Z _ 100 Hy0 Hy1 ltac:(done)) as Hp1.
  change (inject_Z 100) with 100 in Hp1.
  set (p := double (q * 100)) in *.
  unfold Math_round. split.
  - rewrite <- (Qfloor_Z 0). apply Qfloor_resp_le. change (inject_Z 0) with 0. lra.
  - change 100%Z with (Qfloor (100 + (1 # 2))). apply Qfloor_resp_le. lra.
Qed.

(** Where [100 * correct / total] is not half-way between two integers, the
    two roundings of the quotient and of the product do not show in the
    result; where it is, they may bring it down by one. *)
Lemma percentage_round_percent (correct total : Z) :
  (0 <= correct <= 2 ^ 44)%Z -> (0 < total <= 2 ^ 53)%Z ->
  (round_percent correct total - 1 <= percentage correct total
     <= round_percent correct total)%Z /\
  ((forall k : Z, 200 * correct <> (2 * k + 1) * total)%Z ->
   percentage correct total = round_percent correct total).
Proof.
  intros [Hc0 Hc] [Ht0 Ht].
  set (k := round_percent correct total).
  assert (Hk : k = ((200 * correct + total) / (2 * total))%Z) by (by apply round_percent_div).
  assert (Hdiv : (2 * total * k <= 200 * correct + total < 2 * total * (k + 1))%Z).
  { pose proof (Z.div_mod (200 * correct + total) (2 * total) ltac:(lia)) as Heq.
    pose proof (Z.mod_pos_bound (200 * correct + total) (2 * total) ltac:(lia)) as Hmod.
    rewrite <- Hk in Heq. lia. }
  assert (Htq : 0 < inject_Z total) by (change 0 with (inject_Z 0); by rewrite <- Zlt_Qlt).
  assert (Hcq : 0 <= inject_Z correct) by (change 0 with (inject_Z 0); by rewrite <- Zle_Qle).
  assert (Hcq' : inject_Z correct <= 17592186044416).
  { change 17592186044416 with (inject_Z (2 ^ 44)). by rewrite <- Zle_Qle. }
  assert (Htq' : inject_Z total <= 9007199254740992).
  { change 9007199254740992 with (inject_Z (2 ^ 53)). by rewrite <- Zle_Qle. }
  set (c := inject_Z correct) in *. set (t := inject_Z total) in *. set (kq := inject_Z k).
  assert (Hlo : 2 * t * kq <= 200 * c + t).
  { change 2 with (inject_Z 2). change 200 with (inject_Z 200).
    unfold t, kq, c. rewrite <- !inject_Z_mult, <- inject_Z_plus, <- Zle_Qle. lia. }
  assert (Hhi : 200 * c + t + 1 <= 2 * t * (kq + 1)).
  { change 2 with (inject_Z 2). change 200 with (inject_Z 200). change 1 with (inject_Z 1).
    unfold t, kq, c.
    rewrite <- !inject_Z_plus, <- !inject_Z_mult, <- !inject_Z_plus, <- Zle_Qle. lia. }
  destruct (Z.eq_dec correct 0%Z) as [->|Hcne].
  { (* nothing is rounded *)
    assert (Hzero : percentage 0%Z total = 0%Z).
    { unfold percentage.
      rewrite (double_zero (inject_Z 0 / inject_Z total)) by (unfold Qdiv; ring).
      rewrite (double_zero (0 * 100)) by ring. reflexivity. }
    assert (k = 0%Z) as Hk0.
    { rewrite Hk. apply Z.div_small. lia. }
    fold k. rewrite Hzero, Hk0. split; [lia | done]. }
  assert (Hc1 : 1 <= c).
  { change 1 with (inject_Z 1). unfold c. rewrite <- Zle_Qle. lia. }
  (* the quotient and its rounding *)
  set (x := c / t).
  assert (Hxt : x * t == c) by (unfold x; field; lra).
  assert (Hx : 2 ^ (-53) <= x).
  { apply Qle_shift_div_l; [done|]. change (2 ^ (-53)) with (1 # 9007199254740992). lra. }
  assert (Hx0 : 0 < x) by (apply Qlt_le_trans with (2 ^ (-53)); [apply pow2_pos | done]).
  destruct (double_error x) as [Hq1 Hq2].
  { apply Qle_trans with (2 ^ (-53)); [by apply pow2_le | done]. }
  set (q := double x) in *.
  change (2 ^ (-53)) with (1 # 9007199254740992) in Hq1, Hq2, Hx.
  (* the product and its rounding *)
  destruct (double_error (q * 100)) as [Hp1 Hp2].
  { apply Qle_trans with (2 ^ (-53)); [by apply pow2_le|].
    change (2 ^ (-53)) with (1 # 9007199254740992). lra. }
  change (2 ^ (-53)) with (1 # 9007199254740992) in Hp1, Hp2.
  set (p := double (q * 100)) in *.
  assert (Hpx1 : x * (100 * (1 - (1 # 9007199254740992)) * (1 - (1 # 9007199254740992))) <= p)
    by lra.
  assert (Hpx2 : p <= x * (100 * (1 + (1 # 9007199254740992)) * (1 + (1 # 9007199254740992))))
    by lra.
  (* scaled by the total *)
  assert (Hpt1 : x * (100 * (1 - (1 # 9007199254740992)) * (1 - (1 # 9007199254740992))) * t
                 <= p * t)
    by (apply Qmult_le_compat_r; [exact Hpx1 | lra]).
  assert (Hpt2 : p * t
                 <= x * (100 * (1 + (1 # 9007199254740992)) * (1 + (1 # 9007199254740992))) * t)
    by (apply Qmult_le_compat_r; [exact Hpx2 | lra]).
  assert (Hpc1 : c * (100 * (1 - (1 # 9007199254740992)) * (1 - (1 # 9007199254740992)))
                 <= p * t).
  { rewrite <- Hxt. lra. }
  assert (Hpc2 : p * t
                 <= c * (100 * (1 + (1 # 9007199254740992)) * (1 + (1 # 9007199254740992)))).
  { rewrite <- Hxt. lra. }
  assert (Hfrom : forall a b : Q, a * t <= b * t -> a <= b)
    by (intros a b; by apply Qmult_le_r).
  assert (Hfrom' : forall a b : Q, a * t < b * t -> a < b)
    by (intros a b; by apply Qmult_lt_r).
  change (percentage correct total) with (Math_round p).
  assert (Hup : p < kq + (1 # 2)).
  { apply Hfrom'. lra. }
  split.
  - assert (Hdown : kq - 1 - (1 # 2) <= p).
    { apply Hfrom. lra. }
    assert (Hfloor : (k - 1 <= Math_round p)%Z).
    { unfold Math_round. rewrite <- (Qfloor_Z (k - 1)). apply Qfloor_resp_le.
      replace (k - 1)%Z with (k + -1)%Z by lia.
      rewrite inject_Z_plus. change (inject_Z (-1)) with (-1). fold kq. lra. }
    assert (Hceil : (Math_round p < k + 1)%Z).
    { unfold Math_round. rewrite Zlt_Qlt.
      apply Qle_lt_trans with (p + (1 # 2)); [apply Qfloor_le|].
      rewrite inject_Z_plus. change (inject_Z 1) with 1. fold kq. lra. }
    lia.
  - intros Htie. apply Math_round_bounds; [|exact Hup].
    assert (Hstrict : 2 * t * kq + 1 <= 200 * c + t).
    { change 2 with (inject_Z 2). change 200 with (inject_Z 200). change 1 with (inject_Z 1).
      unfold t, kq, c.
      rewrite <- !inject_Z_mult, <- !inject_Z_plus, <- Zle_Qle.
      specialize (Htie (k - 1)%Z). lia. }
    fold kq. apply Hfrom. lra.
Qed.

(** On the rates of up to 100 attempts the product is the one that the
    binary64 operations of the Standard Library compute. *)
Lemma double_as_SpecFloat (correct total : Z) :
  (0 <= correct <= total)%Z -> (0 < total <= 100)%Z ->
  exists q, (rate_SpecFloat correct total = Some q) /\
            (q == double (double (inject_Z correct / inject_Z total) * 100)).
Proof.
  intros Hc Ht.
  set (agree := fun c t : Z =>
         match rate_SpecFloat c t with
         | Some q => Qeq_bool q (double (double (inject_Z c / inject_Z t) * 100))
         | None => false
         end).
  assert (Hgrid : forallb (fun t => forallb (fun c => agree (Z.of_nat c) (Z.of_nat t))
                                      (seq 0 (S t)))
                    (seq 1 100) = true) by (vm_compute; reflexivity).
  rewrite forallb_forall in Hgrid.
  specialize (Hgrid (Z.to_nat total)). rewrite forallb_forall in Hgrid.
  assert (Hagree : agree correct total = true).
  { rewrite <- (Z2Nat.id correct), <- (Z2Nat.id total) by lia.
    apply Hgrid; apply in_seq; lia. }
  unfold agree in Hagree.
  destruct (rate_SpecFloat correct total) as [q|]; [|done].
  exists q. split; [done|]. by apply Qeq_bool_iff.
Qed.

End Rounding.

(** ** The store: [setData] and [getData] *)

Lemma setData_degraded (key : string) (value : JValue) (this : SM.t) :
  SM.storageAvailable this = false → SM.setData key value this = (false, this).
Proof. intros H. unfold SM.setData. by rewrite H. Qed.

Lemma getData_degraded (key : string) (d : JValue) (this : SM.t) :
  SM.storageAvailable this = false → SM.getData key d this = d.
Proof. intros H. unfold SM.getData. by rewrite H. Qed.

Lemma setData_working (key : string) (value : JValue) (this : SM.t) :
  working this →
  SM.setData key value this =
    (true, {| SM.storageAvailable := true;
              SM.localStorage :=
                {| LocalStorage.fault := LocalStorage.Healthy;
                   LocalStorage.items :=
                     <[SM.storagePrefix +:+ key := Json value]>
                       (LocalStorage.items (SM.localStorage this)) |} |}).
Proof.
  intros [Ha Hf]. unfold SM.setData, LocalStorage.setItem. by rewrite Ha, Hf.
Qed.

Lemma setData_keeps_working (key : string) (value : JValue) (this : SM.t) :
  working this → working (SM.setData key value this).2.
Proof. intros H. by rewrite setData_working. Qed.

Lemma getData_working (key : string) (d : JValue) (this : SM.t) :
  working this →
  SM.getData key d this =
    match LocalStorage.items (SM.localStorage this) !! (SM.storagePrefix +:+ key) with
    | Some (Json v) => v
    | _ => d
    end.
Proof.
  intros [Ha Hf]. unfold SM.getData, LocalStorage.getItem. rewrite Ha, Hf. simpl.
  by destruct (_ !! _) as [[]|].
Qed.

Lemma getData_setData_eq (key : string) (value d : JValue) (this : SM.t) :
  working this → SM.getData key d (SM.setData key value this).2 = value.
Proof.
  intros H. rewrite getData_working by by apply setData_keeps_working.
  rewrite setData_working by done. simpl. by rewrite lookup_insert_eq.
Qed.

Lemma getData_setData_ne (key key' : string) (value d : JValue) (this : SM.t) :
  key ≠ key' → SM.getData key' d (SM.setData key value this).2 = SM.getData key' d this.
Proof.
  intros Hne. unfold SM.setData.
  destruct (SM.storageAvailable this) eqn:Ha; simpl; [|done].
  unfold LocalStorage.setItem.
  destruct (LocalStorage.fault (SM.localStorage this)) eqn:Hf; simpl; try done.
  unfold SM.getData, LocalStorage.getItem. simpl. rewrite Ha, Hf. simpl.
  rewrite lookup_insert_ne; [done|].
  intros Heq. by apply String.app_inj in Heq.
Qed.

(** The probe succeeds exactly on a healthy medium, and leaves the items
    under the prefix as they were. *)
Lemma checkStorageSupport_spec (ls : LocalStorage.t) :
  (SM.checkStorageSupport ls).1 = true ↔ LocalStorage.fault ls = LocalStorage.Healthy.
Proof.
  unfold SM.checkStorageSupport, LocalStorage.setItem.
  destruct (LocalStorage.fault ls) eqn:Hf; simpl; [|done..].
  unfold LocalStorage.getItem, LocalStorage.removeItem; simpl.
  by rewrite lookup_insert_eq.
Qed.

Lemma init_available (this : SM.t) :
  SM.storageAvailable (SM.init this) = SM.storageAvailable this.
Proof.
  assert (Hset : ∀ key value s,
             SM.storageAvailable (SM.setData key value s).2 = SM.storageAvailable s).
  { intros key value s. unfold SM.setData.
    destruct (SM.storageAvailable s) eqn:Ha; simpl; [|done].
    by destruct (LocalStorage.setItem _ _ _). }
  assert (Hall : ∀ entries s,
             SM.storageAvailable (SM.setAll entries s) = SM.storageAvailable s).
  { induction entries as [|e entries IH]; intros s; [done|].
    unfold SM.setAll in *. simpl. by rewrite IH, Hset. }
  unfold SM.init. destruct (negb _); [|done].
  rewrite Hset. apply Hall.
Qed.

Lemma constructor_available (ls : LocalStorage.t) :
  SM.storageAvailable (SM.constructor ls) = (SM.checkStorageSupport ls).1.
Proof.
  unfold SM.constructor. destruct (SM.checkStorageSupport ls) as [a ls'].
  by rewrite init_available.
Qed.

(** C6. When the availability probe fails, every [setData] returns [false]
    (and changes nothing) and every [getData] returns the caller's default;
    and whatever the state of the store, [getData] on a key whose stored text
    is not JSON returns the caller's default: the function is total, the
    [SyntaxError] of [JSON.parse] is caught. *)
Theorem store_degrades_to_defaults :
  (∀ (ls : LocalStorage.t) (key : string) (value d : JValue),
      (SM.checkStorageSupport ls).1 = false →
      SM.setData key value (SM.constructor ls) = (false, SM.constructor ls) ∧
      SM.getData key d (SM.constructor ls) = d) ∧
  (∀ (this : SM.t) (key raw : string) (d : JValue),
      LocalStorage.items (SM.localStorage this) !! (SM.storagePrefix +:+ key) = Some (Raw raw) →
      SM.getData key d this = d).
Proof.
  split.
  - intros ls key value d Hprobe.
    pose proof (constructor_available ls) as Ha. rewrite Hprobe in Ha.
    split; [by apply setData_degraded | by apply getData_degraded].
  - intros this key raw d Hraw. unfold SM.getData, LocalStorage.getItem.
    destruct (SM.storageAvailable this); simpl; [|done].
    destruct (LocalStorage.fault _); by rewrite ?Hraw.
Qed.

Lemma store_degrades_to_defaults_witness :
  ((SM.checkStorageSupport blocked_storage).1 = false ∧
   SM.setData "totalScore" (JNum 5) (SM.constructor blocked_storage)
     = (false, SM.constructor blocked_storage) ∧
   SM.getData "totalScore" (JNum 0) (SM.constructor blocked_storage) = JNum 0) ∧
  SM.getData "totalScore" (JNum 0) corrupt_store = JNum 0.
Proof.
  split.
  - split; [vm_compute; reflexivity|].
    apply (proj1 store_degrades_to_defaults blocked_storage "totalScore" (JNum 5) (JNum 0)).
    vm_compute; reflexivity.
  - apply (proj2 store_degrades_to_defaults corrupt_store "totalScore" "{oops" (JNum 0)).
    vm_compute; reflexivity.
Defined.

(** ** The ledger: accuracy *)

(** C7, as the code has it.  [getAverageAccuracy] is [0] when [totalWords]
    reads [0] (also when nothing was stored yet, or the store is degraded),
    and otherwise [Math.round] of the product [(correctAnswers / totalWords)
    * 100] as double-precision arithmetic computes it.  For counters within
    the range where the arithmetic is exact up to its two roundings, that
    is [round(100 * correctAnswers / totalWords)] whenever the exact
    percentage is not half-way between two integers, and otherwise that or
    one less; 7 correct of 9 gives 78. *)
Theorem average_accuracy_rounds (this : SM.t) (t c : Z) :
  SM.getData "totalWords" (JNum 0) this = JNum t →
  SM.getData "correctAnswers" (JNum 0) this = JNum c →
  ∃ a,
    SM.getAverageAccuracy this = Some a ∧
    (t = 0%Z → a = 0%Z) ∧
    (t ≠ 0%Z →
     a = percentage c t ∧
     ((0 ≤ c ≤ 2 ^ 44)%Z → (0 ≤ t ≤ 2 ^ 53)%Z →
      (round_percent c t - 1 ≤ a ≤ round_percent c t)%Z ∧
      ((∀ k, 200 * c ≠ (2 * k + 1) * t)%Z → a = round_percent c t))) ∧
    (t = 9%Z → c = 7%Z → a = 78%Z).
Proof.
  intros Ht Hc.
  exists (if (t =? 0)%Z then 0%Z else percentage c t).
  split.
  { unfold SM.getAverageAccuracy. rewrite Ht, Hc. by destruct t. }
  split; [by intros ->|]. split.
  - intros Hne. replace (t =? 0)%Z with false by (symmetry; by apply Z.eqb_neq).
    split; [done|]. intros Hcr Htr. apply percentage_round_percent; lia.
  - intros -> ->. vm_compute. reflexivity.
Qed.

Lemma average_accuracy_rounds_witness :
  SM.getData "totalWords" (JNum 0) seven_of_nine = JNum 9 ∧
  SM.getData "correctAnswers" (JNum 0) seven_of_nine = JNum 7 ∧
  SM.getAverageAccuracy seven_of_nine = Some 78%Z.
Proof.
  assert (Ht : SM.getData "totalWords" (JNum 0) seven_of_nine = JNum 9)
    by (vm_compute; reflexivity).
  assert (Hc : SM.getData "correctAnswers" (JNum 0) seven_of_nine = JNum 7)
    by (vm_compute; reflexivity).
  split; [exact Ht|]. split; [exact Hc|].
  destruct (average_accuracy_rounds seven_of_nine 9 7 Ht Hc) as (a & Ha & _ & _ & H78).
  by rewrite Ha, H78.
Defined.

(** C7, as the specification states it, fails where the exact percentage is
    half-way between two integers: for 23 correct of 40 it is 57.5, which
    rounds to 58; the quotient [23 / 40] as a double lies below 0.575, the
    product below 57.5, and [getAverageAccuracy] returns 57. *)
Lemma average_accuracy_misses_a_half :
  SM.getData "totalWords" (JNum 0) twenty_three_of_forty = JNum 40 ∧
  SM.getData "correctAnswers" (JNum 0) twenty_three_of_forty = JNum 23 ∧
  SM.getAverageAccuracy twenty_three_of_forty = Some 57%Z ∧
  round_percent 23 40 = 58%Z ∧
  SM.getAverageAccuracy twenty_three_of_forty ≠ Some (round_percent 23 40).
Proof.
  assert (Ha : SM.getAverageAccuracy twenty_three_of_forty = Some 57%Z)
    by (vm_compute; reflexivity).
  assert (Hr : round_percent 23 40 = 58%Z) by (vm_compute; reflexivity).
  split; [vm_compute; reflexivity|]. split; [vm_compute; reflexivity|].
  split; [exact Ha|]. split; [exact Hr|].
  rewrite Ha, Hr. discriminate.
Qed.

(** ** The ledger: weights *)

Lemma assign_assign_ne {A : Type} (j1 j2 : string) (a b : A) (o : gmap string A) :
  j1 ≠ j2 → assign j1 a (assign j2 b o) = assign j2 b (assign j1 a o).
Proof.
  intros Hne. unfold assign.
  destruct (o !! j1) as [x|] eqn:H1, (o !! j2) as [y|] eqn:H2;
    repeat first
      [ rewrite lookup_insert_ne by done
      | rewrite H1 | rewrite H2
      | match goal with
        | |- context [String.eqb ?k "__proto__"] => destruct (String.eqb k "__proto__")
        end ];
    try done; by rewrite insert_insert_ne.
Qed.

Lemma getWordWeights_fold (counts : gmap string Z) :
  map_fold (fun word missCount weights =>
              weights ← weights;
              missCount ← SM.asNumber missCount;
              Some (assign word (Z.min (missCount + 1) 5) weights))
           (Some ∅) (JNum <$> counts)
  = Some ((fun missCount => Z.min (missCount + 1) 5) <$> delete "__proto__" counts).
Proof.
  induction counts as [|word c counts Hnone Hfold] using map_ind.
  - by rewrite delete_empty, !fmap_empty, map_fold_empty.
  - rewrite fmap_insert, map_fold_insert_L.
    + rewrite Hfold. simpl. f_equal.
      destruct (decide (word = "__proto__")) as [->|Hne].
      * rewrite assign_proto by (by rewrite lookup_fmap, lookup_delete_eq).
        by rewrite delete_insert_eq.
      * rewrite assign_plain by done.
        by rewrite delete_insert_ne, fmap_insert.
    + intros j1 j2 z1 z2 [w|] Hne _ _; simpl; [|done].
      destruct (SM.asNumber z1), (SM.asNumber z2); simpl; try done.
      by rewrite assign_assign_ne.
    + by rewrite lookup_fmap, Hnone.
Qed.

(** C3, as the code has it.  [getWordWeights] reports a weight for the terms
    that have an entry in [missedWords], and for those only: a term with
    stored miss count [n] weighs [min(n + 1, 5)], so never more than 5 (a
    count of 0 gives 1, 3 gives 4, 10 gives 5), and a term without an entry
    has no weight.  The name [__proto__] is no property of the result even
    when it is one of the stored object: the assignment to it does not make
    one. *)
Theorem word_weights_of_missed (this : SM.t) (counts : gmap string Z) :
  SM.getMissedWords this = JObj (JNum <$> counts) →
  ∃ weights,
    SM.getWordWeights this = Some weights ∧
    (∀ term, term ≠ "__proto__" →
             weights !! term = (fun missCount => Z.min (missCount + 1) 5) <$> counts !! term) ∧
    weights !! "__proto__" = None ∧
    (∀ term w, weights !! term = Some w → (w ≤ 5)%Z) ∧
    (∀ term, counts !! term = None → weights !! term = None) ∧
    (∀ term, term ≠ "__proto__" → counts !! term = Some 0%Z → weights !! term = Some 1%Z) ∧
    (∀ term, term ≠ "__proto__" → counts !! term = Some 3%Z → weights !! term = Some 4%Z) ∧
    (∀ term, term ≠ "__proto__" → counts !! term = Some 10%Z → weights !! term = Some 5%Z).
Proof.
  intros Hmissed. eexists. split.
  { unfold SM.getWordWeights. rewrite Hmissed. apply getWordWeights_fold. }
  assert (Hlookup : ∀ term, term ≠ "__proto__" →
             ((fun missCount => Z.min (missCount + 1) 5) <$> delete "__proto__" counts) !! term
             = (fun missCount => Z.min (missCount + 1) 5) <$> counts !! term).
  { intros term Hne. by rewrite lookup_fmap, lookup_delete_ne. }
  assert (Hproto : ((fun missCount => Z.min (missCount + 1) 5) <$> delete "__proto__" counts)
                     !! "__proto__" = None)
    by (by rewrite lookup_fmap, lookup_delete_eq).
  split; [exact Hlookup|]. split; [exact Hproto|].
  split.
  { intros term w. destruct (decide (term = "__proto__")) as [->|Hne]; [by rewrite Hproto|].
    rewrite Hlookup by done. destruct (counts !! term); simpl; [|done].
    intros [= <-]. lia. }
  split.
  { intros term Hc. destruct (decide (term = "__proto__")) as [->|Hne]; [done|].
    by rewrite Hlookup, Hc. }
  repeat split; intros term Hne Hc; by rewrite Hlookup, Hc.
Qed.

Lemma word_weights_of_missed_witness :
  SM.getMissedWords missed_store = JObj (JNum <$> missed_counts) ∧
  ∃ weights,
    SM.getWordWeights missed_store = Some weights ∧
    weights !! "Happy" = Some 4%Z ∧ weights !! "Brave" = Some 5%Z ∧
    weights !! "Serendipity" = None.
Proof.
  assert (SM.getMissedWords missed_store = JObj (JNum <$> missed_counts)) as Hmissed
    by (vm_compute; reflexivity).
  split; [exact Hmissed|].
  destruct (word_weights_of_missed missed_store missed_counts Hmissed)
    as (weights & Hw & Hlookup & _).
  exists weights. split; [exact Hw|].
  rewrite !Hlookup by done. repeat split.
Defined.

(** C3, as the specification states it, fails on a term that was never
    missed: on a fresh store [missedWords] is empty, [getWordWeights]
    returns the empty object, and "Happy" has no weight, not the weight 1. *)
Lemma never_missed_has_no_weight :
  SM.getMissedWords fresh_store = JObj ∅ ∧
  SM.getWordWeights fresh_store = Some ∅ ∧
  ¬ (∃ weights, SM.getWordWeights fresh_store = Some weights ∧
                weights !! "Happy" = Some 1%Z).
Proof.
  assert (SM.getWordWeights fresh_store = Some ∅) as Hempty
    by (vm_compute; reflexivity).
  split; [vm_compute; reflexivity|]. split; [exact Hempty|].
  intros (weights & Hw & Hhappy).
  rewrite Hempty in Hw. injection Hw as <-. by rewrite lookup_empty in Hhappy.
Qed.

(** A ledger that was imported with a miss count under the name
    [__proto__]: the count is stored and read back, and has no weight. *)
Example proto_has_no_weight :
  SM.getMissedWords proto_store = JObj {[ "__proto__" := JNum 3; "Happy" := JNum 3 ]} ∧
  SM.getWordWeights proto_store = Some {[ "Happy" := 4%Z ]}.
Proof. split; vm_compute; reflexivity. Qed.

(** ** The ledger: recording an answer *)

Lemma tally_word (isCorrect : bool) (c t : Z) :
  SM.tally isCorrect {[ "correct" := JNum c; "total" := JNum t ]}
  = Some {[ "correct" := JNum (c + (if isCorrect then 1 else 0));
            "total" := JNum (t + 1) ]}.
Proof.
  unfold SM.tally, SM.field.
  rewrite lookup_insert_ne by done. rewrite lookup_singleton_eq. simpl.
  rewrite (insert_insert_ne _ "total" "correct") by done.
  rewrite insert_singleton_eq.
  destruct isCorrect.
  - rewrite lookup_insert_eq. simpl. rewrite insert_insert_eq. done.
  - by rewrite Z.add_0_r.
Qed.

Lemma tally_difficulty (isCorrect : bool) (c t a : Z) :
  SM.tally isCorrect {[ "correct" := JNum c; "total" := JNum t; "accuracy" := JNum a ]}
  = Some {[ "correct" := JNum (c + (if isCorrect then 1 else 0));
            "total" := JNum (t + 1); "accuracy" := JNum a ]}.
Proof.
  unfold SM.tally, SM.field.
  rewrite lookup_insert_ne by done. rewrite lookup_insert_eq. simpl.
  rewrite (insert_insert_ne _ "total" "correct") by done.
  rewrite insert_insert_eq.
  destruct isCorrect.
  - rewrite lookup_insert_eq. simpl. by rewrite insert_insert_eq.
  - by rewrite Z.add_0_r.
Qed.

Lemma includes_terms (word : string) (completed : list string) :
  includes word (JStr <$> completed) = bool_decide (word ∈ completed).
Proof.
  unfold includes. induction completed as [|w completed IH]; [done|].
  rewrite fmap_cons. simpl. rewrite IH.
  destruct (String.eqb_spec w word) as [->|Hne]; simpl.
  - symmetry. apply bool_decide_eq_true. by left.
  - destruct (decide (word ∈ completed)) as [Hin|Hnin].
    + rewrite !bool_decide_eq_true_2; [done | by right | done].
    + rewrite !bool_decide_eq_false_2; [done | | done].
      rewrite elem_of_cons. intros [->|]; done.
Qed.

(** Reading the four records of the ledger after a write to one of them. *)
Ltac read_ledger :=
  unfold SM.getCompletedWords, SM.getMissedWords, SM.getWordAccuracy,
    SM.getDifficultyStats in *;
  repeat first
    [ rewrite getData_setData_eq by done
    | rewrite getData_setData_ne by done ].

Lemma updateWordAccuracy_represents (word : string) (isCorrect : bool)
    (this : SM.t) (l : Spec.Ledger) :
  working this → represents this l → inherited word = false →
  ∃ this',
    SM.updateWordAccuracy word isCorrect this = Some this' ∧ working this' ∧
    represents this'
      {| Spec.completedWords := Spec.completedWords l;
         Spec.missedWords := Spec.missedWords l;
         Spec.wordAccuracy := Spec.wordAccuracy (Spec.recordAnswer word "" isCorrect l);
         Spec.difficultyStats := Spec.difficultyStats l |}.
Proof.
  intros Hw (Hc & Hm & Ha & Hd) Hplain.
  exists (SM.setData "wordAccuracy"
            (JObj (json_of_tally <$>
                     Spec.wordAccuracy (Spec.recordAnswer word "" isCorrect l))) this).2.
  split; [|split; [by apply setData_keeps_working|]].
  - unfold SM.updateWordAccuracy. rewrite Ha, get_plain, lookup_fmap by done. simpl.
    rewrite fmap_insert.
    destruct (Spec.wordAccuracy l !! word) as [[c t]|]; simpl.
    + by rewrite tally_word.
    + by rewrite tally_word.
  - unfold represents. read_ledger. done.
Qed.

Lemma updateDifficultyAccuracy_represents (difficulty : string) (isCorrect : bool)
    (this : SM.t) (l : Spec.Ledger) :
  working this → represents this l → Spec.consistent l → inherited difficulty = false →
  ∃ this',
    SM.updateDifficultyAccuracy difficulty isCorrect this = Some this' ∧ working this' ∧
    represents this'
      {| Spec.completedWords := Spec.completedWords l;
         Spec.missedWords := Spec.missedWords l;
         Spec.wordAccuracy := Spec.wordAccuracy l;
         Spec.difficultyStats := Spec.difficultyStats (recorded "" difficulty isCorrect l) |}.
Proof.
  intros Hw (Hc & Hm & Ha & Hd) (_ & Htotal & _) Hplain.
  exists (SM.setData "difficultyStats"
            (JObj (json_of_difficulty <$>
                     Spec.difficultyStats (recorded "" difficulty isCorrect l)))
            this).2.
  split; [|split; [by apply setData_keeps_working|]].
  - unfold SM.updateDifficultyAccuracy. rewrite Hd, get_plain, lookup_fmap by done.
    cbn [recorded Spec.difficultyStats]. rewrite fmap_insert.
    assert (Hstep : ∀ c t a, (0 ≤ t)%Z →
      (stats ← SM.tally isCorrect
                 {[ "correct" := JNum c; "total" := JNum t; "accuracy" := JNum a ]};
       total ← SM.field "total" stats;
       accuracy ← (if (0 <? total)%Z
                    then c' ← SM.field "correct" stats; Some (percentage c' total)
                    else Some 0%Z);
       Some (<["accuracy" := JNum accuracy]> stats))
      = Some {[ "correct" := JNum (c + (if isCorrect then 1 else 0));
                "total" := JNum (t + 1);
                "accuracy" :=
                  JNum (percentage (c + (if isCorrect then 1 else 0)) (t + 1)) ]}).
    { intros c t a Ht. rewrite tally_difficulty. simpl. unfold SM.field.
      rewrite (lookup_insert_ne _ "correct" "total") by done.
      rewrite (lookup_insert_eq _ "total"). simpl.
      replace (0 <? t + 1)%Z with true by (symmetry; apply Z.ltb_lt; lia).
      rewrite lookup_insert_eq. simpl.
      rewrite (insert_insert_ne _ "accuracy" "correct") by done.
      rewrite (insert_insert_ne _ "accuracy" "total") by done.
      by rewrite insert_singleton_eq. }
    unfold counted.
    destruct (Spec.difficultyStats l !! difficulty) as [[c t a]|] eqn:Hl; simpl.
    + specialize (Htotal _ _ Hl). simpl in Htotal.
      specialize (Hstep c t a Htotal). simpl in Hstep.
      destruct (SM.tally isCorrect _) as [stats|]; simpl in *; [|done].
      destruct (SM.field "total" stats) as [total|]; simpl in *; [|done].
      destruct (if (0 <? total)%Z then _ else _) as [accuracy|]; simpl in *; [|done].
      by injection Hstep as ->.
    + specialize (Hstep 0%Z 0%Z 0%Z ltac:(lia)). simpl in Hstep.
      destruct (SM.tally isCorrect _) as [stats|]; simpl in *; [|done].
      destruct (SM.field "total" stats) as [total|]; simpl in *; [|done].
      destruct (if (0 <? total)%Z then _ else _) as [accuracy|]; simpl in *; [|done].
      by injection Hstep as ->.
  - unfold represents. read_ledger. done.
Qed.

Lemma addCompletedWord_represents (word : string) (this : SM.t) (l : Spec.Ledger) :
  working this → represents this l →
  ∃ this',
    SM.addCompletedWord word this = Some this' ∧ working this' ∧
    represents this'
      {| Spec.completedWords := Spec.completedWords (Spec.recordAnswer word "" true l);
         Spec.missedWords := Spec.missedWords l;
         Spec.wordAccuracy := Spec.wordAccuracy l;
         Spec.difficultyStats := Spec.difficultyStats l |}.
Proof.
  intros Hw (Hc & Hm & Ha & Hd).
  unfold SM.addCompletedWord. rewrite Hc, includes_terms. simpl.
  destruct (bool_decide (word ∈ Spec.completedWords l)); simpl.
  - exists this. split; [done|]. split; [done|]. by unfold represents.
  - eexists. split; [done|]. split; [by apply setData_keeps_working|].
    unfold represents. read_ledger. simpl. repeat split; try done.
    by rewrite fmap_app.
Qed.

Lemma removeMissedWord_represents (word : string) (this : SM.t) (l : Spec.Ledger) :
  working this → represents this l → Spec.consistent l → inherited word = false →
  ∃ this',
    SM.removeMissedWord word this = Some this' ∧ working this' ∧
    represents this'
      {| Spec.completedWords := Spec.completedWords l;
         Spec.missedWords := Spec.missedWords (Spec.recordAnswer word "" true l);
         Spec.wordAccuracy := Spec.wordAccuracy l;
         Spec.difficultyStats := Spec.difficultyStats l |}.
Proof.
  intros Hw (Hc & Hm & Ha & Hd) (Hpos & _) Hplain.
  unfold SM.removeMissedWord, has. rewrite Hm, get_plain, lookup_fmap by done. simpl.
  destruct (Spec.missedWords l !! word) as [n|] eqn:Hl; simpl.
  - specialize (Hpos _ _ Hl).
    replace (n =? 0)%Z with false by (symmetry; apply Z.eqb_neq; lia). simpl.
    eexists. split; [done|]. split; [by apply setData_keeps_working|].
    unfold represents. read_ledger. simpl. repeat split; try done.
    by rewrite fmap_delete.
  - exists this. split; [done|]. split; [done|].
    unfold represents. simpl. rewrite delete_id by done. by repeat split.
Qed.

Lemma addMissedWord_represents (word : string) (this : SM.t) (l : Spec.Ledger) :
  working this → represents this l → Spec.consistent l → inherited word = false →
  ∃ this',
    SM.addMissedWord word this = Some this' ∧ working this' ∧
    represents this'
      {| Spec.completedWords := Spec.completedWords l;
         Spec.missedWords := Spec.missedWords (Spec.recordAnswer word "" false l);
         Spec.wordAccuracy := Spec.wordAccuracy l;
         Spec.difficultyStats := Spec.difficultyStats l |}.
Proof.
  intros Hw (Hc & Hm & Ha & Hd) (Hpos & _) Hplain.
  unfold SM.addMissedWord. rewrite Hm, get_plain, lookup_fmap by done.
  assert (Hcount : SM.or_zero (match JNum <$> Spec.missedWords l !! word with
                               | Some a => Own a
                               | None => Undefined
                               end)
                   = Some (default 0%Z (Spec.missedWords l !! word))).
  { destruct (Spec.missedWords l !! word) as [n|] eqn:Hl; simpl; [|done].
    specialize (Hpos _ _ Hl).
    by replace (n =? 0)%Z with false by (symmetry; apply Z.eqb_neq; lia). }
  rewrite Hcount. simpl. rewrite assign_plain by (by apply inherited_proto).
  eexists. split; [done|]. split; [by apply setData_keeps_working|].
  unfold represents. read_ledger. simpl. repeat split; try done.
  by rewrite fmap_insert.
Qed.

Lemma recordAnswer_consistent (term difficulty : string) (isCorrect : bool)
    (l : Spec.Ledger) :
  Spec.consistent l → Spec.consistent (Spec.recordAnswer term difficulty isCorrect l).
Proof.
  intros (Hpos & Htotal & Hnodup). repeat split; simpl.
  - intros w n. destruct isCorrect.
    + rewrite lookup_delete. case_decide; [done|]. apply Hpos.
    + rewrite lookup_insert. case_decide; [|apply Hpos].
      intros [= <-]. destruct (Spec.missedWords l !! term) as [m|] eqn:Hl; simpl; [|lia].
      specialize (Hpos _ _ Hl). lia.
  - intros d s. rewrite lookup_insert. case_decide; [|apply Htotal].
    intros [= <-]. simpl.
    destruct (Spec.difficultyStats l !! difficulty) as [s|] eqn:Hl; simpl; [|lia].
    specialize (Htotal _ _ Hl). lia.
  - case_bool_decide as Hin; [done|].
    apply NoDup_app. split; [done|]. split; [|apply NoDup_singleton].
    intros w Hw ->%list_elem_of_singleton. done.
Qed.

(** One more answer makes a positive number of attempts. *)
Lemma counted_positive (difficulty : string) (isCorrect : bool) (l : Spec.Ledger) :
  Spec.consistent l → (0 < (counted difficulty isCorrect l).2)%Z.
Proof.
  intros (_ & Htotal & _). unfold counted.
  destruct (Spec.difficultyStats l !! difficulty) as [d|] eqn:Hl; simpl; [|lia].
  specialize (Htotal _ _ Hl). lia.
Qed.

Lemma recorded_consistent (term difficulty : string) (isCorrect : bool)
    (l : Spec.Ledger) :
  Spec.consistent l → Spec.consistent (recorded term difficulty isCorrect l).
Proof.
  intros Hc.
  destruct (recordAnswer_consistent term difficulty isCorrect l Hc) as (Hpos & _ & Hnodup).
  split; [exact Hpos|]. split; [|exact Hnodup].
  intros d s. cbn [recorded Spec.difficultyStats].
  rewrite lookup_insert. case_decide; [|apply Hc].
  intros [= <-].
  exact (Z.lt_le_incl _ _ (counted_positive difficulty isCorrect l Hc)).
Qed.

(** Where the two roundings do not show, the ledger is the one of the
    specification. *)
Lemma recorded_as_specified (term difficulty : string) (isCorrect : bool)
    (l : Spec.Ledger) :
  percentage (counted difficulty isCorrect l).1 (counted difficulty isCorrect l).2
  = round_percent (counted difficulty isCorrect l).1 (counted difficulty isCorrect l).2 →
  recorded term difficulty isCorrect l = Spec.recordAnswer term difficulty isCorrect l.
Proof.
  intros Heq. unfold recorded. rewrite Heq. unfold Spec.recordAnswer, counted.
  by destruct isCorrect.
Qed.

(** C4, as the code has it.  On a working store that reads as a consistent
    ledger [l], for a term and a difficulty that are no names inherited
    from [Object.prototype], [trackWordProgress] succeeds and leaves a
    working store that reads as [recorded term difficulty correct l]: the
    term's tally and the difficulty's tally are incremented ([correct] only
    for a correct answer), the term is among the completed words once, a
    correct answer deletes the term from the missed words and an incorrect
    one increments its count from a default of 0, and the difficulty's
    accuracy is [Math.round((correct / total) * 100)] in double precision.
    For counts in range that accuracy is [round(100 * correct / total)] or
    one less, and the ledger is [Spec.recordAnswer term difficulty correct
    l] whenever the exact percentage is not half-way between two integers.
    The ledger stays consistent. *)
Theorem trackWordProgress_records (this : SM.t) (l : Spec.Ledger)
    (current : WM.PreparedWord) (difficulty : string) (isCorrect : bool) :
  working this → represents this l → Spec.consistent l →
  inherited (WM.p_word current) = false → inherited difficulty = false →
  ∃ this',
    Game.trackWordProgress (Some current) difficulty isCorrect this = Some this' ∧
    working this' ∧
    represents this' (recorded (WM.p_word current) difficulty isCorrect l) ∧
    Spec.consistent (recorded (WM.p_word current) difficulty isCorrect l) ∧
    ((0 ≤ (counted difficulty isCorrect l).1 ≤ 2 ^ 44)%Z →
     ((counted difficulty isCorrect l).2 ≤ 2 ^ 53)%Z →
     (round_percent (counted difficulty isCorrect l).1 (counted difficulty isCorrect l).2 - 1
      ≤ percentage (counted difficulty isCorrect l).1 (counted difficulty isCorrect l).2
      ≤ round_percent (counted difficulty isCorrect l).1 (counted difficulty isCorrect l).2)%Z ∧
     ((∀ k, 200 * (counted difficulty isCorrect l).1
            ≠ (2 * k + 1) * (counted difficulty isCorrect l).2)%Z →
      recorded (WM.p_word current) difficulty isCorrect l
      = Spec.recordAnswer (WM.p_word current) difficulty isCorrect l)).
Proof.
  intros Hw Hr Hc Hterm Hdifficulty. set (term := WM.p_word current) in *.
  destruct (updateWordAccuracy_represents term isCorrect this l Hw Hr Hterm)
    as (this1 & E1 & Hw1 & Hr1).
  destruct (updateDifficultyAccuracy_represents difficulty isCorrect this1 _ Hw1 Hr1 Hc
              Hdifficulty)
    as (this2 & E2 & Hw2 & Hr2).
  destruct (addCompletedWord_represents term this2 _ Hw2 Hr2)
    as (this3 & E3 & Hw3 & Hr3).
  assert (Hround :
    (0 ≤ (counted difficulty isCorrect l).1 ≤ 2 ^ 44)%Z →
    ((counted difficulty isCorrect l).2 ≤ 2 ^ 53)%Z →
    (round_percent (counted difficulty isCorrect l).1 (counted difficulty isCorrect l).2 - 1
     ≤ percentage (counted difficulty isCorrect l).1 (counted difficulty isCorrect l).2
     ≤ round_percent (counted difficulty isCorrect l).1 (counted difficulty isCorrect l).2)%Z ∧
    ((∀ k, 200 * (counted difficulty isCorrect l).1
           ≠ (2 * k + 1) * (counted difficulty isCorrect l).2)%Z →
     recorded term difficulty isCorrect l = Spec.recordAnswer term difficulty isCorrect l)).
  { intros Hcount Htotal.
    pose proof (counted_positive difficulty isCorrect l Hc) as Hpos.
    destruct (percentage_round_percent (counted difficulty isCorrect l).1
                (counted difficulty isCorrect l).2 Hcount ltac:(lia)) as [Hnear Hexact].
    split; [exact Hnear|]. intros Htie. by apply recorded_as_specified, Hexact. }
  unfold Game.trackWordProgress. fold term. rewrite E1. simpl. rewrite E2. simpl.
  rewrite E3. simpl.
  destruct isCorrect.
  - destruct (removeMissedWord_represents term this3 _ Hw3 Hr3)
      as (this4 & E4 & Hw4 & Hr4); [|exact Hterm|].
    { destruct (recorded_consistent term difficulty true l Hc) as (_ & Ht' & Hn').
      destruct Hc as (Hp & _ & _).
      split; [exact Hp | split; [exact Ht' | exact Hn']]. }
    exists this4. split; [exact E4|]. split; [exact Hw4|].
    split; [exact Hr4|]. split; [by apply recorded_consistent | exact Hround].
  - destruct (addMissedWord_represents term this3 _ Hw3 Hr3)
      as (this4 & E4 & Hw4 & Hr4); [|exact Hterm|].
    { destruct (recorded_consistent term difficulty false l Hc) as (_ & Ht' & Hn').
      destruct Hc as (Hp & _ & _).
      split; [exact Hp | split; [exact Ht' | exact Hn']]. }
    exists this4. split; [exact E4|]. split; [exact Hw4|].
    split; [exact Hr4|]. split; [by apply recorded_consistent | exact Hround].
Qed.

Lemma fresh_store_working : working fresh_store.
Proof. split; vm_compute; reflexivity. Qed.

Lemma fresh_store_represents_empty : represents fresh_store Spec.empty.
Proof. repeat split; vm_compute; reflexivity. Qed.

Lemma empty_consistent : Spec.consistent Spec.empty.
Proof. repeat split; simpl; [intros ? ?; by rewrite lookup_empty..|constructor]. Qed.

Lemma trackWordProgress_records_witness :
  working fresh_store ∧ represents fresh_store Spec.empty ∧ Spec.consistent Spec.empty ∧
  inherited "Happy" = false ∧ inherited "easy" = false ∧
  ∃ this',
    Game.trackWordProgress (Some happy) "easy" false fresh_store = Some this' ∧
    working this' ∧
    represents this' (Spec.recordAnswer "Happy" "easy" false Spec.empty) ∧
    Spec.consistent (Spec.recordAnswer "Happy" "easy" false Spec.empty).
Proof.
  split; [exact fresh_store_working|].
  split; [exact fresh_store_represents_empty|].
  split; [exact empty_consistent|].
  split; [reflexivity|]. split; [reflexivity|].
  destruct (trackWordProgress_records fresh_store Spec.empty happy "easy" false
              fresh_store_working fresh_store_represents_empty empty_consistent
              eq_refl eq_refl)
    as (this' & Htrack & Hw & Hr & Hc & Hround).
  assert (Hsame : recorded "Happy" "easy" false Spec.empty
                  = Spec.recordAnswer "Happy" "easy" false Spec.empty).
  { apply Hround; [vm_compute; split; discriminate | vm_compute; discriminate |].
    intros k. change (200 * 0 ≠ (2 * k + 1) * 1)%Z. lia. }
  change (WM.p_word happy) with "Happy" in Hr, Hc, Htrack.
  rewrite Hsame in Hr, Hc.
  exists this'. split; [exact Htrack|]. split; [exact Hw|]. split; [exact Hr | exact Hc].
Defined.

(** C4, as the specification states it, fails on the accuracy: with 22 of
    39 answers correct at the easy level, a correct answer makes 23 of 40,
    an exact percentage of 57.5, which rounds to 58; the quotient as a
    double lies below 0.575, and the code stores 57. *)
Lemma recorded_accuracy_misses_a_half :
  working close_store ∧ represents close_store close_ledger ∧
  Spec.consistent close_ledger ∧
  ∃ this',
    Game.trackWordProgress (Some happy) "easy" true close_store = Some this' ∧
    SM.getDifficultyStats this'
      = JObj {[ "easy" := JObj {[ "correct" := JNum 23; "total" := JNum 40;
                                  "accuracy" := JNum 57 ]} ]} ∧
    Spec.difficultyStats (Spec.recordAnswer "Happy" "easy" true close_ledger) !! "easy"
      = Some {| Spec.d_correct := 23; Spec.d_total := 40; Spec.accuracyPercent := 58 |} ∧
    ¬ represents this' (Spec.recordAnswer "Happy" "easy" true close_ledger).
Proof.
  split; [split; vm_compute; reflexivity|].
  split; [repeat split; vm_compute; reflexivity|].
  split.
  { repeat split; simpl.
    - intros ? ?. by rewrite lookup_empty.
    - intros d s [<- <-]%lookup_singleton_Some. simpl. lia.
    - constructor. }
  destruct (Game.trackWordProgress (Some happy) "easy" true close_store) as [this'|] eqn:Htrack;
    [|vm_compute in Htrack; discriminate].
  assert (Hstats : SM.getDifficultyStats this'
                   = JObj {[ "easy" := JObj {[ "correct" := JNum 23; "total" := JNum 40;
                                               "accuracy" := JNum 57 ]} ]}).
  { assert (SM.getDifficultyStats <$> Game.trackWordProgress (Some happy) "easy" true close_store
            = Some (JObj {[ "easy" := JObj {[ "correct" := JNum 23; "total" := JNum 40;
                                              "accuracy" := JNum 57 ]} ]})) as Hrun
      by (vm_compute; reflexivity).
    rewrite Htrack in Hrun. by injection Hrun. }
  exists this'. split; [done|]. split; [exact Hstats|].
  assert (Hspec : Spec.difficultyStats (Spec.recordAnswer "Happy" "easy" true close_ledger)
                    !! "easy"
                  = Some {| Spec.d_correct := 23; Spec.d_total := 40;
                            Spec.accuracyPercent := 58 |})
    by (vm_compute; reflexivity).
  split; [exact Hspec|].
  intros (_ & _ & _ & Hd). rewrite Hstats in Hd. apply JObj_inj in Hd.
  apply (f_equal (fun m => m !! "easy")) in Hd.
  rewrite lookup_singleton_eq, lookup_fmap, Hspec in Hd.
  assert (Heasy : ({[ "correct" := JNum 23; "total" := JNum 40; "accuracy" := JNum 57 ]}
                     : gmap string JValue)
                  = {[ "correct" := JNum 23; "total" := JNum 40; "accuracy" := JNum 58 ]}).
  { apply JObj_inj.
    change (Some (JObj {[ "correct" := JNum 23; "total" := JNum 40; "accuracy" := JNum 57 ]})
            = Some (JObj {[ "correct" := JNum 23; "total" := JNum 40;
                            "accuracy" := JNum 58 ]})) in Hd.
    congruence. }
  apply (f_equal (fun m => m !! "accuracy")) in Heasy.
  vm_compute in Heasy. discriminate.
Qed.

(** A correct answer and then an incorrect one for "Happy" leave its tally
    at 1 of 2 and its miss count at 1. *)
Example happy_right_then_wrong :
  (fun this => (SM.getWordAccuracy this, SM.getMissedWords this,
                SM.getDifficultyStats this, SM.getCompletedWords this))
    <$> (Game.trackWordProgress (Some happy) "easy" true fresh_store
           ≫= Game.trackWordProgress (Some happy) "easy" false)
  = Some (JObj {[ "Happy" := JObj {[ "correct" := JNum 1; "total" := JNum 2 ]} ]},
          JObj {[ "Happy" := JNum 1 ]},
          JObj {[ "easy" := JObj {[ "correct" := JNum 1; "total" := JNum 2;
                                    "accuracy" := JNum 50 ]} ]},
          JArr [JStr "Happy"]).
Proof. vm_compute. reflexivity. Qed.

(** ** The store: export, clear, import *)

Lemma setData_invariant (key : string) (value : JValue) (this : SM.t) :
  store_invariant this → store_invariant (SM.setData key value this).2.
Proof.
  intros Hinv. unfold SM.setData.
  destruct (SM.storageAvailable this) eqn:Ha; simpl; [|done].
  destruct Hinv as [Hws Hf].
  unfold LocalStorage.setItem. rewrite (Hf Ha). simpl.
  split; [|done]. simpl.
  intros k raw Hk. rewrite lookup_insert. case_decide; [done|]. by apply Hws.
Qed.

Lemma setAll_invariant (entries : list (string * JValue)) (this : SM.t) :
  store_invariant this → store_invariant (SM.setAll entries this).
Proof.
  revert this. induction entries as [|e entries IH]; intros this Hinv; [done|].
  unfold SM.setAll. simpl. apply IH. by apply setData_invariant.
Qed.

Lemma init_invariant (this : SM.t) : store_invariant this → store_invariant (SM.init this).
Proof.
  intros Hinv. unfold SM.init. destruct (negb _); [|done].
  apply setData_invariant. by apply setAll_invariant.
Qed.

(** The probe leaves the items under the prefix alone. *)
Lemma constructor_invariant (ls : LocalStorage.t) :
  well_stored (LocalStorage.items ls) → store_invariant (SM.constructor ls).
Proof.
  intros Hws. unfold SM.constructor.
  destruct (SM.checkStorageSupport ls) as [available ls'] eqn:Hprobe.
  apply init_invariant.
  unfold SM.checkStorageSupport, LocalStorage.setItem in Hprobe.
  destruct (LocalStorage.fault ls) eqn:Hf; simpl in Hprobe.
  - unfold LocalStorage.getItem, LocalStorage.removeItem in Hprobe; simpl in Hprobe.
    injection Hprobe as _ <-. split; [|done]. simpl.
    intros key raw Hkey.
    rewrite lookup_delete. case_decide; [done|].
    rewrite lookup_insert. case_decide; [done|].
    by apply Hws.
  - injection Hprobe as <- <-. by split.
  - injection Hprobe as <- <-. by split.
Qed.

(** The loop of [clearAll]. *)
Lemma removeAll_lookup (keysToRemove : list string) (ls : LocalStorage.t) :
  LocalStorage.fault ls = LocalStorage.Healthy →
  ∃ items',
    SM.removeAll keysToRemove ls
      = (true, {| LocalStorage.fault := LocalStorage.Healthy; LocalStorage.items := items' |}) ∧
    ∀ key, items' !! key
           = if decide (key ∈ keysToRemove) then None else LocalStorage.items ls !! key.
Proof.
  revert ls. induction keysToRemove as [|k ks IH]; intros ls Hf.
  - exists (LocalStorage.items ls). split.
    + simpl. destruct ls as [f m]. simpl in Hf. by subst.
    + intros key. by rewrite decide_False by set_solver.
  - simpl. unfold LocalStorage.removeItem. rewrite Hf.
    destruct (IH {| LocalStorage.fault := LocalStorage.Healthy;
                    LocalStorage.items := delete k (LocalStorage.items ls) |} eq_refl)
      as (items' & Heq & Hlook).
    exists items'. split; [exact Heq|].
    intros key. rewrite Hlook. simpl. rewrite lookup_delete.
    destruct (decide (k = key)) as [->|Hne].
    + rewrite (decide_True (P := key ∈ key :: ks)) by set_solver. by case_decide.
    + destruct (decide (key ∈ ks)).
      * by rewrite decide_True by set_solver.
      * rewrite decide_False; [done|].
        rewrite elem_of_cons. intros [?|?]; congruence.
Qed.

Lemma keys_elem_of (items : gmap string Item) (key : string) :
  key ∈ (map_to_list items).*1 ↔ is_Some (items !! key).
Proof.
  rewrite list_elem_of_fmap. split.
  - intros ([k item] & -> & Hin). apply elem_of_map_to_list in Hin. by exists item.
  - intros [item Hitem]. exists (key, item). split; [done|].
    by apply elem_of_map_to_list.
Qed.

Lemma clearAll_working (this : SM.t) :
  working this →
  ∃ items',
    SM.clearAll this
      = (true, {| SM.storageAvailable := true;
                  SM.localStorage :=
                    {| LocalStorage.fault := LocalStorage.Healthy;
                       LocalStorage.items := items' |} |}) ∧
    ∀ key, items' !! key
           = if startsWith key SM.storagePrefix then None
             else LocalStorage.items (SM.localStorage this) !! key.
Proof.
  intros [Ha Hf]. unfold SM.clearAll, LocalStorage.keys. rewrite Ha, Hf. simpl.
  destruct (removeAll_lookup
              (List.filter (fun key => startsWith key SM.storagePrefix)
                 (map_to_list (LocalStorage.items (SM.localStorage this))).*1)
              (SM.localStorage this) Hf) as (items' & Heq & Hlook).
  exists items'. rewrite Heq. split; [done|].
  intros key. rewrite Hlook.
  destruct (startsWith key SM.storagePrefix) eqn:Hp.
  - case_decide as Hin; [done|].
    destruct (LocalStorage.items (SM.localStorage this) !! key) as [item|] eqn:Hitem; [|done].
    exfalso. apply Hin. apply list_elem_of_In, filter_In. split; [|done].
    apply list_elem_of_In, keys_elem_of. by exists item.
  - case_decide as Hin; [|done].
    apply list_elem_of_In, filter_In in Hin. destruct Hin as [_ Hin]. congruence.
Qed.

Lemma assign_lookup_ne {A : Type} (key k : string) (a : A) (o : gmap string A) :
  key ≠ k → assign key a o !! k = o !! k.
Proof.
  intros Hne. unfold assign.
  destruct (o !! key); [by rewrite lookup_insert_ne|].
  destruct (String.eqb key "__proto__"); [done | by rewrite lookup_insert_ne].
Qed.

(** The loop of [exportData]. *)
Lemma exportData_fold (items : gmap string Item) (keys : list string)
    (data : gmap string JValue) (short : string) :
  short ≠ "__proto__" →
  foldl (fun data key =>
           if startsWith key SM.storagePrefix
           then assign (substring (String.length SM.storagePrefix) key)
                  (SM.exported (items !! key)) data
           else data)
        data keys !! short
  = if decide (SM.storagePrefix +:+ short ∈ keys)
    then Some (SM.exported (items !! (SM.storagePrefix +:+ short)))
    else data !! short.
Proof.
  intros Hshort. revert data. induction keys as [|k keys IH]; intros data.
  - by rewrite decide_False by set_solver.
  - cbn [foldl]. rewrite IH.
    destruct (decide (SM.storagePrefix +:+ short ∈ keys)) as [Hin|Hnin].
    + rewrite decide_True; [done | set_solver].
    + destruct (decide (k = SM.storagePrefix +:+ short)) as [->|Hne].
      * rewrite decide_True by set_solver.
        rewrite startsWith_app, substring_app, assign_plain by done.
        by rewrite lookup_insert_eq.
      * rewrite decide_False by (rewrite elem_of_cons; intros [?|?]; congruence).
        destruct (startsWith k SM.storagePrefix) eqn:Hp; [|done].
        rewrite assign_lookup_ne; [done|].
        intros Heq. apply Hne. apply startsWith_split in Hp. by rewrite Hp, Heq.
Qed.

(** The export has no property [__proto__], whatever the storage holds. *)
Lemma exportData_fold_proto (items : gmap string Item) (keys : list string)
    (data : gmap string JValue) :
  data !! "__proto__" = None →
  foldl (fun data key =>
           if startsWith key SM.storagePrefix
           then assign (substring (String.length SM.storagePrefix) key)
                  (SM.exported (items !! key)) data
           else data)
        data keys !! "__proto__" = None.
Proof.
  revert data. induction keys as [|k keys IH]; intros data Hnone; [done|].
  cbn [foldl]. apply IH.
  destruct (startsWith k SM.storagePrefix); [|done].
  destruct (decide (substring (String.length SM.storagePrefix) k = "__proto__")) as [->|Hne].
  - by rewrite assign_proto.
  - by rewrite assign_lookup_ne.
Qed.

Lemma exportData_working (this : SM.t) (short : string) :
  working this →
  SM.exportData this !! short
  = if decide (short = "__proto__") then None
    else (fun item => SM.exported (Some item))
           <$> LocalStorage.items (SM.localStorage this) !! (SM.storagePrefix +:+ short).
Proof.
  intros [Ha Hf]. unfold SM.exportData, LocalStorage.keys. rewrite Ha, Hf. simpl.
  case_decide as Hshort.
  - subst short. by apply exportData_fold_proto.
  - rewrite exportData_fold by done.
    destruct (LocalStorage.items (SM.localStorage this) !! (SM.storagePrefix +:+ short))
      as [item|] eqn:Hitem.
    + rewrite decide_True; [done|]. apply keys_elem_of. by exists item.
    + rewrite decide_False; [by rewrite lookup_empty|].
      rewrite keys_elem_of, Hitem. by intros [? ?].
Qed.

(** The loop of [importData] and of [resetProgress]. *)
Lemma setAll_working (entries : list (string * JValue)) (this : SM.t) :
  working this → NoDup entries.*1 →
  ∃ items',
    SM.setAll entries this
      = {| SM.storageAvailable := true;
           SM.localStorage :=
             {| LocalStorage.fault := LocalStorage.Healthy;
                LocalStorage.items := items' |} |} ∧
    (∀ short, items' !! (SM.storagePrefix +:+ short)
              = match (list_to_map entries : gmap string JValue) !! short with
                | Some v => Some (Json v)
                | None => LocalStorage.items (SM.localStorage this) !! (SM.storagePrefix +:+ short)
                end) ∧
    (∀ key, startsWith key SM.storagePrefix = false →
            items' !! key = LocalStorage.items (SM.localStorage this) !! key).
Proof.
  revert this. induction entries as [|[k v] entries IH]; intros this Hw Hnodup.
  - exists (LocalStorage.items (SM.localStorage this)). split; [|split].
    + destruct Hw as [Ha Hf]. destruct this as [a [f m]]. simpl in *. by subst.
    + intros short. simpl. by rewrite lookup_empty.
    + done.
  - apply NoDup_cons in Hnodup as [Hk Hnodup].
    destruct (IH (SM.setData k v this).2 (setData_keeps_working _ _ _ Hw) Hnodup)
      as (items' & Heq & Hin & Hout).
    exists items'. split; [exact Heq|].
    rewrite setData_working in Hin, Hout by done. simpl in Hin, Hout.
    split.
    + intros short. rewrite Hin. simpl.
      destruct (decide (k = short)) as [->|Hne].
      * rewrite lookup_insert_eq.
        rewrite (not_elem_of_list_to_map_1 entries short Hk).
        by rewrite lookup_insert_eq.
      * rewrite (lookup_insert_ne _ k short) by done.
        destruct (list_to_map entries !! short); [done|].
        rewrite lookup_insert_ne; [done|].
        intros Heq'. by apply String.app_inj in Heq'.
    + intros key Hkey. rewrite Hout by done.
      rewrite lookup_insert_ne; [done|].
      intros <-. by rewrite startsWith_app in Hkey.
Qed.

Lemma invariant_working (this : SM.t) :
  store_invariant this → SM.storageAvailable this = true → working this.
Proof. intros [_ Hinv] Ha. split; [done | by apply Hinv]. Qed.

Lemma clearAll_invariant (this : SM.t) :
  store_invariant this → store_invariant (SM.clearAll this).2.
Proof.
  intros Hinv. destruct (SM.storageAvailable this) eqn:Ha.
  - destruct (clearAll_working this (invariant_working _ Hinv Ha)) as (items' & -> & Hlook).
    split; [|done]. simpl.
    intros key raw Hkey. by rewrite Hlook, Hkey.
  - unfold SM.clearAll. by rewrite Ha.
Qed.

Lemma importData_invariant (data : JValue) (this : SM.t) :
  store_invariant this → store_invariant (SM.importData data this).2.
Proof.
  intros Hinv. unfold SM.importData.
  destruct (negb _); [done|].
  destruct (SM.Object_entries data); [|done].
  by apply setAll_invariant.
Qed.

Lemma reachable_invariant (this : SM.t) : reachable this → store_invariant this.
Proof.
  induction 1 as [ls Hnew|this _ [Hws _]| | |].
  - apply constructor_invariant. intros key raw Hkey. by rewrite Hnew.
  - by apply constructor_invariant.
  - by apply setData_invariant.
  - by apply clearAll_invariant.
  - by apply importData_invariant.
Qed.

(** The round trip on any store that satisfies the invariant: the items
    come back, but for the one whose key is the prefix followed by
    [__proto__], which the export does not hold. *)
Lemma export_clear_import (this : SM.t) :
  store_invariant this →
  (∀ key d, SM.getData key d (SM.clearAll this).2 = d) ∧
  ∃ items',
    (SM.importData (JObj (SM.exportData this)) (SM.clearAll this).2).2
    = {| SM.storageAvailable := SM.storageAvailable this;
         SM.localStorage :=
           {| LocalStorage.fault := LocalStorage.fault (SM.localStorage this);
              LocalStorage.items := items' |} |} ∧
    ∀ key, items' !! key
           = if decide (SM.storageAvailable this = true ∧
                        key = SM.storagePrefix +:+ "__proto__")
             then None
             else LocalStorage.items (SM.localStorage this) !! key.
Proof.
  intros Hinv. destruct (SM.storageAvailable this) eqn:Ha.
  - pose proof (invariant_working _ Hinv Ha) as Hw.
    destruct Hinv as [Hws Hf]. specialize (Hf Ha).
    destruct (clearAll_working this Hw) as (items1 & -> & Hclear). cbn [snd].
    set (cleared := {| SM.storageAvailable := true;
                       SM.localStorage :=
                         {| LocalStorage.fault := LocalStorage.Healthy;
                            LocalStorage.items := items1 |} |}).
    assert (Hwc : working cleared) by done.
    split.
    + intros key d. rewrite getData_working by done. simpl.
      by rewrite Hclear, startsWith_app.
    + unfold SM.importData.
      cbn [SM.storageAvailable cleared negb SM.Object_entries snd].
      destruct (setAll_working (map_to_list (SM.exportData this)) cleared Hwc
                  (NoDup_fst_map_to_list _)) as (items2 & -> & Hin & Hout).
      rewrite list_to_map_to_list in Hin. simpl in Hin, Hout.
      exists items2. rewrite Hf. split; [done|].
      intros key.
      destruct (startsWith key SM.storagePrefix) eqn:Hkey.
      * pose proof (startsWith_split _ _ Hkey) as Hsplit.
        set (short := substring (String.length SM.storagePrefix) key) in *.
        rewrite Hsplit, Hin, exportData_working by done.
        destruct (decide (short = "__proto__")) as [Hshort|Hshort].
        { rewrite decide_True by (by rewrite Hshort).
          by rewrite Hclear, startsWith_app. }
        rewrite decide_False by (intros [_ Heq]; by apply String.app_inj in Heq).
        rewrite Hclear, startsWith_app.
        destruct (LocalStorage.items (SM.localStorage this) !! _) as [[v|raw]|] eqn:Hitem;
          simpl; try done.
        exfalso. eapply (Hws (SM.storagePrefix +:+ _)); [apply startsWith_app | exact Hitem].
      * rewrite decide_False.
        2: { intros [_ ->]. by rewrite startsWith_app in Hkey. }
        by rewrite Hout, Hclear, Hkey.
  - unfold SM.clearAll, SM.importData. rewrite Ha. cbn [negb snd]. rewrite Ha.
    cbn [negb snd].
    split; [intros key d; by apply getData_degraded|].
    exists (LocalStorage.items (SM.localStorage this)).
    split; [by destruct this as [a [f m]]; simpl in *; subst|].
    intros key. by rewrite decide_False by (by intros [? _]).
Qed.

(** C8. On every store that the operations can reach, [clearAll] empties
    the ledger (every read returns its default) and [importData] of what
    [exportData] had returned brings the ledger back: every key reads as
    before the clear, hence the same scalar counters and the same
    [completedWords], [missedWords], [wordAccuracy] and [difficultyStats].
    The one key that does not come back is [__proto__], which the exported
    object cannot hold as a property; a store without an item under it,
    as the ledger's own operations leave it, is restored item by item. *)
Theorem export_clear_import_restores (this : SM.t) :
  reachable this →
  let data := SM.exportData this in
  let cleared := (SM.clearAll this).2 in
  let restored := (SM.importData (JObj data) cleared).2 in
  (∀ key d, SM.getData key d cleared = d) ∧
  (∀ key d, key ≠ "__proto__" → SM.getData key d restored = SM.getData key d this) ∧
  (LocalStorage.items (SM.localStorage this) !! (SM.storagePrefix +:+ "__proto__") = None →
   restored = this) ∧
  SM.getStats restored = SM.getStats this ∧
  SM.getCompletedWords restored = SM.getCompletedWords this ∧
  SM.getMissedWords restored = SM.getMissedWords this ∧
  SM.getWordAccuracy restored = SM.getWordAccuracy this ∧
  SM.getDifficultyStats restored = SM.getDifficultyStats this.
Proof.
  intros Hreach. cbn zeta.
  destruct (export_clear_import this (reachable_invariant _ Hreach))
    as (Hcleared & items' & -> & Hitems).
  assert (Hread : ∀ key d, key ≠ "__proto__" →
            SM.getData key d
              {| SM.storageAvailable := SM.storageAvailable this;
                 SM.localStorage :=
                   {| LocalStorage.fault := LocalStorage.fault (SM.localStorage this);
                      LocalStorage.items := items' |} |}
            = SM.getData key d this).
  { intros key d Hkey. unfold SM.getData, LocalStorage.getItem. simpl.
    rewrite Hitems, decide_False; [done|].
    intros [_ Heq]. by apply String.app_inj in Heq. }
  split; [exact Hcleared|]. split; [exact Hread|]. split.
  { intros Hnone. destruct this as [available [fault items]].
    cbn [SM.storageAvailable SM.localStorage LocalStorage.fault LocalStorage.items] in *.
    do 2 f_equal. apply map_eq. intros key. rewrite Hitems.
    destruct (decide (available = true ∧ key = SM.storagePrefix +:+ "__proto__"))
      as [[_ ->]|]; [by rewrite Hnone | done]. }
  unfold SM.getStats, SM.getAverageAccuracy, SM.getCompletedWords, SM.getMissedWords,
    SM.getWordAccuracy, SM.getDifficultyStats.
  by rewrite !Hread by done.
Qed.

Lemma missed_store_reachable : reachable missed_store.
Proof. apply reach_setData, reach_new. intros key _. apply lookup_empty. Qed.

Lemma export_clear_import_restores_witness :
  reachable missed_store ∧
  SM.getMissedWords (SM.clearAll missed_store).2 = JObj ∅ ∧
  SM.getMissedWords
    (SM.importData (JObj (SM.exportData missed_store)) (SM.clearAll missed_store).2).2
    = SM.getMissedWords missed_store.
Proof.
  split; [exact missed_store_reachable|].
  destruct (export_clear_import_restores missed_store missed_store_reachable)
    as (Hcleared & _ & _ & _ & _ & Hmissed & _).
  split; [apply Hcleared | exact Hmissed].
Defined.

(** The invariant is needed: an item under the prefix that is not JSON
    (written by hand, never by [setData]) comes back from the round trip as
    a JSON string. *)
Example corrupt_store_round_trip :
  SM.getData "totalScore" (JNum 0) corrupt_store = JNum 0 ∧
  SM.getData "totalScore" (JNum 0)
    (SM.importData (JObj (SM.exportData corrupt_store)) (SM.clearAll corrupt_store).2).2
    = JStr "{oops".
Proof. split; vm_compute; reflexivity. Qed.

(** An item whose key is [__proto__], as an import of a parsed object with
    that property writes it, is not exported and does not come back. *)
Example proto_item_is_not_exported :
  reachable proto_item_store ∧
  SM.getData "__proto__" JNull proto_item_store = JNum 1 ∧
  SM.exportData proto_item_store !! "__proto__" = None ∧
  SM.getData "__proto__" JNull
    (SM.importData (JObj (SM.exportData proto_item_store))
       (SM.clearAll proto_item_store).2).2
    = JNull.
Proof.
  split.
  { apply reach_importData, reach_new. intros key _. apply lookup_empty. }
  repeat split; vm_compute; reflexivity.
Qed.

(** Every update of the ledger is a sequence of [setData], so it keeps the
    store reachable. *)
Lemma setAll_reachable (entries : list (string * JValue)) (this : SM.t) :
  reachable this → reachable (SM.setAll entries this).
Proof.
  revert this. induction entries as [|e entries IH]; intros this Hr; [done|].
  unfold SM.setAll. simpl. apply IH. by apply reach_setData.
Qed.

Lemma resetProgress_reachable (this : SM.t) :
  reachable this → reachable (SM.resetProgress this).
Proof. apply setAll_reachable. Qed.

Lemma trackWordProgress_reachable (current : option WM.PreparedWord)
    (difficulty : string) (isCorrect : bool) (this this' : SM.t) :
  reachable this →
  Game.trackWordProgress current difficulty isCorrect this = Some this' →
  reachable this'.
Proof.
  intros Hr. unfold Game.trackWordProgress.
  destruct current as [current|]; [|by intros [= <-]].
  assert (Hword : ∀ w c s s', reachable s → SM.updateWordAccuracy w c s = Some s' → reachable s').
  { intros w c s s' Hs. unfold SM.updateWordAccuracy.
    destruct (SM.getWordAccuracy s); try done.
    destruct (SM.entry_or _ _); simpl; [|done].
    destruct (SM.tally _ _); simpl; [|done].
    intros [= <-]. by apply reach_setData. }
  assert (Hdiff : ∀ d c s s', reachable s → SM.updateDifficultyAccuracy d c s = Some s' → reachable s').
  { intros d c s s' Hs. unfold SM.updateDifficultyAccuracy.
    destruct (SM.getDifficultyStats s); try done.
    repeat match goal with
           | |- (?x ≫= _) = Some _ → _ => destruct x; simpl; [|done]
           end.
    intros [= <-]. by apply reach_setData. }
  assert (Hadd : ∀ w s s', reachable s → SM.addCompletedWord w s = Some s' → reachable s').
  { intros w s s' Hs. unfold SM.addCompletedWord.
    destruct (SM.getCompletedWords s); try done.
    destruct (negb _); intros [= <-]; [by apply reach_setData | done]. }
  assert (Hrem : ∀ w s s', reachable s → SM.removeMissedWord w s = Some s' → reachable s').
  { intros w s s' Hs. unfold SM.removeMissedWord.
    destruct (SM.getMissedWords s); try done.
    destruct (has _ _); intros [= <-]; [by apply reach_setData | done]. }
  assert (Hmiss : ∀ w s s', reachable s → SM.addMissedWord w s = Some s' → reachable s').
  { intros w s s' Hs. unfold SM.addMissedWord.
    destruct (SM.getMissedWords s); try done.
    destruct (SM.or_zero _); simpl; [|done].
    intros [= <-]. by apply reach_setData. }
  destruct (SM.updateWordAccuracy _ _ _) as [s1|] eqn:E1; simpl; [|done].
  destruct (SM.updateDifficultyAccuracy _ _ _) as [s2|] eqn:E2; simpl; [|done].
  destruct (SM.addCompletedWord _ _) as [s3|] eqn:E3; simpl; [|done].
  destruct isCorrect; eauto.
Qed.

(** ** The word bank loader *)

Lemma present_false (s : option string) :
  WM.present s = false ↔ s = None ∨ s = Some "".
Proof.
  destruct s as [s|]; simpl.
  - rewrite negb_false_iff. split.
    + intros H%String.eqb_eq. right. by subst.
    + intros [?|[= ->]]; [done|]. apply String.eqb_refl.
  - split; [by left | done].
Qed.

Lemma validWord_false (w : WM.RawWord) : WM.validWord w = false ↔ incomplete w.
Proof.
  unfold WM.validWord, incomplete.
  rewrite !andb_false_iff, !present_false.
  destruct (WM.raw_incorrect_options w) as [options|].
  - rewrite Nat.leb_gt. naive_solver.
  - naive_solver.
Qed.

(** The whole bank is rejected exactly when some entry is incomplete. *)
Lemma validateWordData_false (words : list WM.RawWord) :
  WM.validateWordData (Some words) = false ↔ ∃ w, w ∈ words ∧ incomplete w.
Proof.
  simpl. induction words as [|w words IH]; simpl.
  - split; [done|]. intros (w & Hin & _). by apply elem_of_nil in Hin.
  - rewrite andb_false_iff, IH, validWord_false. split.
    + intros [Hw|(w' & Hin & Hw')].
      * exists w. split; [by left | done].
      * exists w'. split; [by right | done].
    + intros (w' & Hin & Hw'). apply elem_of_cons in Hin as [->|Hin].
      * by left.
      * right. by exists w'.
Qed.

(** For a key that is no inherited name [getSampleWords] returns a bank,
    and no empty one. *)
Lemma getSampleWords_nonempty (difficulty category : string) :
  inherited (WM.cacheKey difficulty category) = false →
  ∃ bank, WM.getSampleWords difficulty category = Some bank ∧ 1 ≤ length bank.
Proof.
  intros Hplain. unfold WM.getSampleWords. rewrite get_plain by done.
  destruct (WM.sampleWords !! WM.cacheKey difficulty category) as [bank|] eqn:Hbank.
  - exists bank. split; [done|]. unfold WM.sampleWords in Hbank.
    repeat (rewrite lookup_insert in Hbank; case_decide;
            [injection Hbank as <-; simpl; lia|]).
    rewrite lookup_singleton in Hbank. case_decide; [|done].
    injection Hbank as <-. simpl; lia.
  - eexists. split; [vm_compute; reflexivity|]. simpl. lia.
Qed.

Lemma decode_complete (w : WM.RawWord) :
  WM.validWord w = true →
  WM.raw_word w = Some (WM.word (WM.decode w)) ∧ WM.word (WM.decode w) ≠ "" ∧
  WM.raw_pronunciation w = Some (WM.pronunciation (WM.decode w)) ∧
  WM.pronunciation (WM.decode w) ≠ "" ∧
  WM.raw_correct_definition w = Some (WM.correct_definition (WM.decode w)) ∧
  WM.correct_definition (WM.decode w) ≠ "" ∧
  WM.raw_incorrect_options w = Some (WM.incorrect_options (WM.decode w)) ∧
  3 ≤ length (WM.incorrect_options (WM.decode w)).
Proof.
  unfold WM.validWord. rewrite !andb_true_iff.
  destruct w as [[term|] [pron|] [def|] [opts|]]; cbn -[Nat.leb]; try naive_solver.
  rewrite !negb_true_iff, Nat.leb_le.
  intros [[[Ht Hp] Hd] Ho].
  apply String.eqb_neq in Ht, Hp, Hd. naive_solver.
Qed.

(** C5. For a key that is not cached yet and is no name inherited from
    [Object.prototype] (none of the keys of the game is): a fetched bank is
    rejected exactly when one of its entries lacks a non-empty term,
    pronunciation or correct definition or has fewer than three incorrect
    options; when the fetch fails (network error, HTTP status, body that is
    no JSON) or the bank is rejected, [loadWords] stores the built-in
    sample bank for the key, which has at least one entry, and returns
    [false]; when the fetched bank is accepted, [loadWords] stores it and
    returns [true]. *)
Theorem loadWords_validates_or_falls_back (fetch : string -> WM.Response)
    (difficulty category : string) (this : WM.t) :
  WM.words this !! WM.cacheKey difficulty category = None →
  inherited (WM.cacheKey difficulty category) = false →
  (∀ words, WM.validateWordData (Some words) = false ↔ ∃ w, w ∈ words ∧ incomplete w) ∧
  ((fetch ("./data/" +:+ difficulty +:+ "/" +:+ category +:+ ".json") = WM.NetworkError ∨
    (∃ status, fetch ("./data/" +:+ difficulty +:+ "/" +:+ category +:+ ".json")
               = WM.HttpError status) ∨
    fetch ("./data/" +:+ difficulty +:+ "/" +:+ category +:+ ".json") = WM.InvalidJson ∨
    (∃ data, fetch ("./data/" +:+ difficulty +:+ "/" +:+ category +:+ ".json") = WM.Body data ∧
             WM.validateWordData data = false)) →
   ∃ this' bank,
     WM.loadWords fetch difficulty category this = (false, this') ∧
     WM.getSampleWords difficulty category = Some bank ∧
     WM.words this' !! WM.cacheKey difficulty category = Some bank ∧
     1 ≤ length bank) ∧
  (∀ words,
     fetch ("./data/" +:+ difficulty +:+ "/" +:+ category +:+ ".json") = WM.Body (Some words) →
     WM.validateWordData (Some words) = true →
     ∃ this',
       WM.loadWords fetch difficulty category this = (true, this') ∧
       WM.words this' !! WM.cacheKey difficulty category = Some (WM.decode <$> words)).
Proof.
  intros Hmiss Hplain. split; [apply validateWordData_false|]. split.
  - intros Hfail.
    destruct (getSampleWords_nonempty difficulty category Hplain) as (bank & Hsample & Hlen).
    exists (WM.set_words (<[WM.cacheKey difficulty category := bank]> (WM.words this)) this),
      bank.
    split; [|split; [exact Hsample|split; [|exact Hlen]]].
    + unfold WM.loadWords. rewrite get_None, Hsample by done.
      destruct Hfail as [->|[[status ->]|[->|(data & -> & ->)]]]; done.
    + simpl. apply lookup_insert_eq.
  - intros words Hfetch Hvalid.
    exists (WM.set_words
              (<[WM.cacheKey difficulty category := WM.decode <$> words]> (WM.words this))
              this).
    split.
    + unfold WM.loadWords. by rewrite get_None, Hfetch, Hvalid.
    + simpl. apply lookup_insert_eq.
Qed.

Lemma loadWords_validates_or_falls_back_witness :
  WM.words new_manager !! WM.cacheKey "hard" "business" = None ∧
  inherited (WM.cacheKey "hard" "business") = false ∧
  ∃ this' bank,
    WM.loadWords short_document "hard" "business" new_manager = (false, this') ∧
    WM.getSampleWords "hard" "business" = Some bank ∧
    WM.words this' !! WM.cacheKey "hard" "business" = Some bank ∧
    1 ≤ length bank.
Proof.
  assert (Hmiss : WM.words new_manager !! WM.cacheKey "hard" "business" = None)
    by (vm_compute; reflexivity).
  assert (Hplain : inherited (WM.cacheKey "hard" "business") = false)
    by (vm_compute; reflexivity).
  split; [exact Hmiss|]. split; [exact Hplain|].
  apply (proj1 (proj2 (loadWords_validates_or_falls_back
                         short_document "hard" "business" new_manager Hmiss Hplain))).
  do 3 right. eexists. split; vm_compute; reflexivity.
Defined.

(** A cached key is not fetched again: the call returns [true] whatever the
    cached bank came from. *)
Lemma loadWords_cached (fetch : string -> WM.Response) (difficulty category : string)
    (this : WM.t) (bank : list WM.WordEntry) :
  WM.words this !! WM.cacheKey difficulty category = Some bank →
  WM.loadWords fetch difficulty category this = (true, this).
Proof. intros H. unfold WM.loadWords. by rewrite (get_Some _ _ _ H). Qed.

(** Under a key that is an inherited name nothing is fetched or cached
    either, and the call returns [true]: [this.words[cacheKey]] is the
    inherited member. *)
Lemma loadWords_inherited (fetch : string -> WM.Response) (difficulty category : string)
    (this : WM.t) :
  WM.words this !! WM.cacheKey difficulty category = None →
  inherited (WM.cacheKey difficulty category) = true →
  WM.loadWords fetch difficulty category this = (true, this).
Proof. intros H Hi. unfold WM.loadWords. by rewrite get_inherited. Qed.

Example loadWords_proto :
  WM.cacheKey "_" "proto__" = "__proto__" ∧
  WM.loadWords offline "_" "proto__" new_manager = (true, new_manager).
Proof. split; vm_compute; reflexivity. Qed.

(** ** The cycling selector *)

Section Cycle.

Variable random : nat -> Draw.
Variable fetch : string -> WM.Response.

(** The index drawn at step [i] of the shuffle lies in [[0, i]], so both
    cells of the swap exist. *)
Lemma shuffle_draw_in_range {A : Type} (i : nat) (shuffled : list A) (drawn : nat) :
  i < length shuffled →
  floor_times (random drawn) (i + 1) ≤ i ∧
  is_Some (shuffled !! i) ∧
  is_Some (shuffled !! floor_times (random drawn) (i + 1)).
Proof.
  intros Hi.
  pose proof (floor_times_lt (random drawn) (i + 1) ltac:(lia)) as Hj.
  split; [lia|]. split; apply lookup_lt_is_Some; lia.
Qed.

Lemma shuffleFrom_Permutation {A : Type} (i : nat) (shuffled : list A) (drawn : nat) :
  (WM.shuffleFrom random i shuffled drawn).1 ≡ₚ shuffled.
Proof.
  revert shuffled drawn. induction i as [|i IH]; intros shuffled drawn; [done|].
  simpl. rewrite IH. apply swap_Permutation.
Qed.

Lemma shuffleArray_Permutation {A : Type} (array : list A) (drawn : nat) :
  (WM.shuffleArray random array drawn).1 ≡ₚ array.
Proof. apply shuffleFrom_Permutation. Qed.

Lemma persist_shipped (key : string) (queue : list nat) (visited : list string)
    (this : WM.t) (sm : SM.t) :
  WM.storage this = Some (WM.shipped sm) → WM.persist key queue visited this = this.
Proof. intros Hs. unfold WM.persist. by rewrite Hs. Qed.

Lemma restore_shipped (key : string) (this : WM.t) (sm : SM.t) :
  WM.storage this = Some (WM.shipped sm) → WM.restore key this = this.
Proof. intros Hs. unfold WM.restore. by rewrite Hs. Qed.

Lemma prepareWordForGame_spec (entry : WM.WordEntry) (drawn : nat) :
  let prepared := (WM.prepareWordForGame random entry drawn).1 in
  WM.p_word prepared = WM.word entry ∧
  WM.p_pronunciation prepared = WM.pronunciation entry ∧
  WM.correctAnswer prepared = WM.correct_definition entry ∧
  WM.options prepared ≡ₚ WM.correct_definition entry :: WM.incorrect_options entry.
Proof.
  unfold WM.prepareWordForGame.
  pose proof (shuffleArray_Permutation
                (WM.correct_definition entry :: WM.incorrect_options entry) drawn) as Hperm.
  destruct (WM.shuffleArray random _ drawn) as [shuffled drawn']. by simpl in *.
Qed.

(** One call in the Cycling state: the head of the queue is served. *)
Lemma getNextWord_cycling (difficulty category : string) (this : WM.t) (drawn : nat)
    (sm : SM.t) (bank : list WM.WordEntry) (index : nat) (rest : list nat)
    (seen : gset string) (entry : WM.WordEntry) :
  WM.storage this = Some (WM.shipped sm) →
  WM.words this !! WM.cacheKey difficulty category = Some bank →
  WM.cycleState this !! WM.cacheKey difficulty category
    = Some {| WM.queue := index :: rest; WM.visited := seen |} →
  bank !! index = Some entry →
  ∃ result drawn',
    WM.getNextWord random fetch difficulty category this drawn
      = (result,
         WM.set_cycleState
           (<[WM.cacheKey difficulty category
                := {| WM.queue := rest; WM.visited := seen ∪ {[ WM.word entry ]} |}]>
              (WM.cycleState this)) this,
         drawn') ∧
    serves difficulty category bank index (length rest) result.
Proof.
  intros Hs Hbank Hcycle Hentry.
  pose proof (prepareWordForGame_spec entry drawn) as Hprep.
  unfold WM.getNextWord. rewrite (get_Some _ _ _ Hbank). cbn [negb].
  rewrite (get_Some _ _ _ Hbank).
  destruct bank as [|first bank'] eqn:Hb; [by rewrite lookup_nil in Hentry|].
  rewrite <- Hb in *. rewrite Hcycle. cbn [WM.queue WM.visited]. rewrite Hcycle.
  cbn [WM.queue WM.visited]. rewrite Hentry.
  rewrite (persist_shipped _ _ _ _ sm) by done.
  destruct (WM.prepareWordForGame random entry drawn) as [prepared drawn'].
  eexists _, _. split; [reflexivity|].
  exists entry, prepared. by split.
Qed.

(** One call in the Exhausted state. *)
Lemma getNextWord_exhausted (difficulty category : string) (this : WM.t) (drawn : nat)
    (bank : list WM.WordEntry) (seen : gset string) :
  WM.words this !! WM.cacheKey difficulty category = Some bank →
  bank ≠ [] →
  WM.cycleState this !! WM.cacheKey difficulty category
    = Some {| WM.queue := []; WM.visited := seen |} →
  WM.getNextWord random fetch difficulty category this drawn
    = (endOfCategory difficulty category bank seen, this, drawn).
Proof.
  intros Hbank Hne Hcycle.
  unfold WM.getNextWord. rewrite (get_Some _ _ _ Hbank). cbn [negb].
  rewrite (get_Some _ _ _ Hbank).
  destruct bank as [|first bank'] eqn:Hb; [done|].
  rewrite <- Hb in *. rewrite Hcycle. cbn [WM.queue]. by rewrite Hcycle.
Qed.

(** The first call for a key initialises the cycle and goes on as the
    Cycling state does. *)
Lemma getNextWord_uninitialized (difficulty category : string) (this : WM.t) (drawn : nat)
    (sm : SM.t) (bank : list WM.WordEntry) :
  WM.storage this = Some (WM.shipped sm) →
  WM.words this !! WM.cacheKey difficulty category = Some bank →
  bank ≠ [] →
  WM.cycleState this !! WM.cacheKey difficulty category = None →
  WM.getNextWord random fetch difficulty category this drawn
  = WM.getNextWord random fetch difficulty category
      (WM.initCycle random (WM.cacheKey difficulty category) bank true this drawn).1
      (WM.initCycle random (WM.cacheKey difficulty category) bank true this drawn).2.
Proof.
  intros Hs Hbank Hne Hcycle.
  unfold WM.getNextWord at 1. rewrite (get_Some _ _ _ Hbank). cbn [negb].
  rewrite (get_Some _ _ _ Hbank).
  destruct bank as [|first bank'] eqn:Hb; [done|]. rewrite <- Hb in *.
  rewrite Hcycle, (restore_shipped _ _ sm), Hcycle by done.
  unfold WM.initCycle.
  destruct (WM.shuffleArray random (seq 0 (length bank)) drawn) as [order drawn'].
  rewrite (persist_shipped _ _ _ _ sm) by done. cbn [fst snd].
  set (initialised := WM.set_cycleState _ this).
  assert (Hbank' : WM.words initialised !! WM.cacheKey difficulty category = Some bank)
    by exact Hbank.
  assert (Hcycle' : WM.cycleState initialised !! WM.cacheKey difficulty category
                    = Some {| WM.queue := order; WM.visited := ∅ |})
    by apply lookup_insert_eq.
  unfold WM.getNextWord. rewrite (get_Some _ _ _ Hbank'). cbn [negb].
  rewrite (get_Some _ _ _ Hbank').
  rewrite Hb. rewrite <- Hb. rewrite Hcycle'. cbn [WM.queue]. by rewrite Hcycle'.
Qed.


Lemma calls_step (k : nat) (difficulty category : string) (this : WM.t) (drawn : nat)
    (result : WM.NextWord) (this1 : WM.t) (drawn1 : nat) :
  WM.getNextWord random fetch difficulty category this drawn = (result, this1, drawn1) →
  calls random fetch (S k) difficulty category this drawn
  = (result :: (calls random fetch k difficulty category this1 drawn1).1.1,
     (calls random fetch k difficulty category this1 drawn1).1.2,
     (calls random fetch k difficulty category this1 drawn1).2).
Proof.
  intros Hcall. simpl. rewrite Hcall.
  by destruct (calls random fetch k difficulty category this1 drawn1) as [[? ?] ?].
Qed.

(** From the Cycling state, as many calls as the queue is long serve its
    indices in order and end in the Exhausted state. *)
Lemma calls_cycling (difficulty category : string) (sm : SM.t)
    (bank : list WM.WordEntry) (queue : list nat) :
  ∀ (this : WM.t) (drawn : nat) (seen : gset string),
    WM.storage this = Some (WM.shipped sm) →
    WM.words this !! WM.cacheKey difficulty category = Some bank →
    WM.cycleState this !! WM.cacheKey difficulty category
      = Some {| WM.queue := queue; WM.visited := seen |} →
    Forall (fun index => index < length bank) queue →
    ∃ results this' drawn',
      calls random fetch (length queue) difficulty category this drawn
        = (results, this', drawn') ∧
      serves_all difficulty category bank queue results ∧
      WM.storage this' = Some (WM.shipped sm) ∧
      WM.words this' = WM.words this ∧
      WM.cycleState this' !! WM.cacheKey difficulty category
        = Some {| WM.queue := [];
                  WM.visited :=
                    seen ∪ list_to_set (omap (fun index => WM.word <$> bank !! index) queue) |}.
Proof.
  induction queue as [|index rest IH]; intros this drawn seen Hs Hbank Hcycle Hrange.
  - exists [], this, drawn. simpl. repeat split; try done.
    rewrite Hcycle. do 2 f_equal. set_solver.
  - apply Forall_cons in Hrange as [Hindex Hrange].
    destruct (lookup_lt_is_Some_2 bank index Hindex) as [entry Hentry].
    destruct (getNextWord_cycling difficulty category this drawn sm bank index rest
                seen entry Hs Hbank Hcycle Hentry) as (result & drawn1 & Hcall & Hserves).
    set (this1 := WM.set_cycleState _ this) in Hcall.
    destruct (IH this1 drawn1 (seen ∪ {[ WM.word entry ]}) Hs Hbank
                (lookup_insert_eq _ _ _) Hrange)
      as (results & this' & drawn' & Hcalls & Hall & Hs' & Hw' & Hc').
    exists (result :: results), this', drawn'.
    split; [|split; [|split; [|split]]]; try done.
    + change (length (index :: rest)) with (S (length rest)).
      rewrite (calls_step _ _ _ _ _ _ _ _ Hcall). by rewrite Hcalls.
    + rewrite Hc'. do 2 f_equal. simpl. rewrite Hentry. simpl. set_solver.
Qed.

Lemma serves_all_terms (difficulty category : string) (bank : list WM.WordEntry)
    (indices : list nat) (results : list WM.NextWord) :
  serves_all difficulty category bank indices results →
  length results = length indices ∧
  omap term_of results = omap (fun index => WM.word <$> bank !! index) indices.
Proof.
  revert results. induction indices as [|index indices IH]; intros [|result results];
    simpl; try done.
  intros [(entry & prepared & Hentry & -> & Hword & _) Hall].
  destruct (IH results Hall) as [Hlen Hterms].
  split; [by rewrite Hlen|].
  rewrite Hentry. simpl. rewrite Hword. f_equal. exact Hterms.
Qed.

End Cycle.

(** Reading a list at every one of its positions gives the list back. *)
Lemma omap_lookup_seq {A B : Type} (f : A -> B) (prefix l : list A) :
  omap (fun index => f <$> (prefix ++ l) !! index) (seq (length prefix) (length l)) = f <$> l.
Proof.
  revert prefix. induction l as [|x l IH]; intros prefix; [done|].
  simpl. rewrite list_lookup_middle by done. simpl. f_equal.
  specialize (IH (prefix ++ [x])).
  rewrite length_app, Nat.add_1_r, <- (assoc_L (++)) in IH. exact IH.
Qed.

(** ** [resetUsedWords] *)

(** No step of [getNextWord] reads [usedWords]: each runs the same way
    whatever that set holds, and hands it on untouched. *)
Lemma loadWords_ignores_usedWords (fetch : string -> WM.Response)
    (difficulty category : string) (used : gset string) (this : WM.t) :
  WM.loadWords fetch difficulty category (WM.set_usedWords used this)
  = ((WM.loadWords fetch difficulty category this).1,
     WM.set_usedWords used (WM.loadWords fetch difficulty category this).2).
Proof.
  unfold WM.loadWords. cbn [WM.words WM.set_usedWords].
  destruct (get _ (WM.words this)); [done..|].
  destruct (WM.getSampleWords difficulty category);
    destruct (fetch _) as [| | |data]; try done;
    by destruct (WM.validateWordData data).
Qed.

Lemma restore_ignores_usedWords (key : string) (used : gset string) (this : WM.t) :
  WM.restore key (WM.set_usedWords used this) = WM.set_usedWords used (WM.restore key this).
Proof.
  unfold WM.restore. cbn [WM.storage WM.set_usedWords].
  destruct (WM.storage this) as [s|]; [|done].
  destruct (WM.getCycleState s) as [hook|]; [|done].
  destruct (hook key (WM.manager s)) as [saved|]; [|done].
  by destruct (WM.saved_queue saved).
Qed.

Lemma persist_ignores_usedWords (key : string) (queue : list nat) (visited : list string)
    (used : gset string) (this : WM.t) :
  WM.persist key queue visited (WM.set_usedWords used this)
  = WM.set_usedWords used (WM.persist key queue visited this).
Proof.
  unfold WM.persist. cbn [WM.storage WM.set_usedWords].
  destruct (WM.storage this) as [s|]; [|done].
  by destruct (WM.setCycleState s).
Qed.

Lemma initCycle_ignores_usedWords (random : nat -> Draw) (key : string)
    (words : list WM.WordEntry) (reshuffle : bool) (used : gset string)
    (this : WM.t) (drawn : nat) :
  WM.initCycle random key words reshuffle (WM.set_usedWords used this) drawn
  = (WM.set_usedWords used (WM.initCycle random key words reshuffle this drawn).1,
     (WM.initCycle random key words reshuffle this drawn).2).
Proof.
  unfold WM.initCycle.
  destruct (if reshuffle then _ else _) as [order drawn'].
  cbn [fst snd]. f_equal.
  exact (persist_ignores_usedWords key order [] used (WM.set_cycleState _ this)).
Qed.

(** [set_usedWords] moved out of the way of the other assignments. *)
Ltac lift_usedWords used :=
  repeat first
    [ progress change (WM.words (WM.set_usedWords used ?t)) with (WM.words t)
    | progress change (WM.cycleState (WM.set_usedWords used ?t)) with (WM.cycleState t)
    | progress change (WM.set_cycleState ?c (WM.set_usedWords used ?t))
        with (WM.set_usedWords used (WM.set_cycleState c t))
    | rewrite persist_ignores_usedWords
    | progress cbn [fst snd negb WM.queue WM.visited] ].

(** The part of [getNextWord] after the cycle state is in place. *)
Ltac serve_or_signal used Hcycle :=
  lift_usedWords used; rewrite ?Hcycle; lift_usedWords used;
  match goal with
  | |- context [match ?q with [] => _ | _ :: _ => _ end] => destruct q
  end; [done|];
  match goal with
  | |- context [match ?l !! ?i with Some _ => _ | None => _ end] => destruct (l !! i)
  end; [|done];
  lift_usedWords used;
  match goal with
  | |- context [WM.prepareWordForGame ?r ?w ?d] =>
      by destruct (WM.prepareWordForGame r w d)
  end.

Lemma getNextWord_ignores_usedWords (random : nat -> Draw) (fetch : string -> WM.Response)
    (difficulty category : string) (used : gset string) (this : WM.t) (drawn : nat) :
  WM.getNextWord random fetch difficulty category (WM.set_usedWords used this) drawn
  = let '(result, this', drawn') :=
      WM.getNextWord random fetch difficulty category this drawn in
    (result, WM.set_usedWords used this', drawn').
Proof.
  assert (Hready : ∀ (this1 : WM.t) (bank : list WM.WordEntry),
    WM.words this1 !! WM.cacheKey difficulty category = Some bank →
    WM.getNextWord random fetch difficulty category (WM.set_usedWords used this1) drawn
    = let '(result, this', drawn') :=
        WM.getNextWord random fetch difficulty category this1 drawn in
      (result, WM.set_usedWords used this', drawn')).
  { intros this1 bank Hbank. unfold WM.getNextWord.
    lift_usedWords used. rewrite !(get_Some _ _ _ Hbank). lift_usedWords used.
    rewrite ?(get_Some _ _ _ Hbank).
    destruct bank as [|first bank]; [done|].
    destruct (WM.cycleState this1 !! WM.cacheKey difficulty category)
      as [state|] eqn:Hcycle.
    { serve_or_signal used Hcycle. }
    cbn zeta. rewrite restore_ignores_usedWords. lift_usedWords used.
    destruct (WM.cycleState (WM.restore _ this1) !! WM.cacheKey difficulty category)
      as [state|] eqn:Hrestored.
    { serve_or_signal used Hrestored. }
    rewrite initCycle_ignores_usedWords.
    destruct (WM.initCycle random _ _ true _ drawn) as [this2 drawn2].
    lift_usedWords used.
    destruct (WM.cycleState this2 !! WM.cacheKey difficulty category)
      as [state|] eqn:Hinitialised; [|done].
    serve_or_signal used Hinitialised. }
  destruct (WM.words this !! WM.cacheKey difficulty category) as [bank|] eqn:Hbank.
  { by apply (Hready this bank). }
  destruct (inherited (WM.cacheKey difficulty category)) eqn:Hplain.
  { (* the inherited member is no array *)
    unfold WM.getNextWord. lift_usedWords used.
    rewrite get_inherited by done. lift_usedWords used.
    by rewrite get_inherited by done. }
  (* the bank is loaded first *)
  unfold WM.getNextWord.
  lift_usedWords used. rewrite get_None, loadWords_ignores_usedWords by done.
  destruct (WM.loadWords fetch difficulty category this) as [loaded this1] eqn:Hload.
  lift_usedWords used.
  destruct loaded; [|done]. lift_usedWords used.
  destruct (WM.words this1 !! WM.cacheKey difficulty category) as [bank|] eqn:Hbank1.
  2: { by rewrite !get_None by done. }
  specialize (Hready this1 bank Hbank1).
  unfold WM.getNextWord in Hready.
  revert Hready. lift_usedWords used. rewrite !(get_Some _ _ _ Hbank1).
  lift_usedWords used. rewrite ?(get_Some _ _ _ Hbank1). by lift_usedWords used.
Qed.

(** C9. In the Exhausted state (the bank is loaded and not empty, the key's
    queue is empty) [getNextWord] returns the end-of-category signal with
    [total = bank.length] and [visitedCount = visited.size], leaves the
    object and the draws as they were, and so does every further call:
    [k] calls in a row return [k] times the same signal. *)
Theorem exhausted_cycle_keeps_signalling (random : nat -> Draw)
    (fetch : string -> WM.Response) (difficulty category : string) (this : WM.t)
    (drawn : nat) (bank : list WM.WordEntry) (seen : gset string) (k : nat) :
  WM.words this !! WM.cacheKey difficulty category = Some bank →
  bank ≠ [] →
  WM.cycleState this !! WM.cacheKey difficulty category
    = Some {| WM.queue := []; WM.visited := seen |} →
  WM.getNextWord random fetch difficulty category this drawn
    = (WM.EndOfCategory
         ("All " +:+ pretty (length bank) +:+ " words completed for "
            +:+ difficulty +:+ "/" +:+ category +:+ ".")
         (length bank) (size seen),
       this, drawn) ∧
  calls random fetch k difficulty category this drawn
    = (replicate k (endOfCategory difficulty category bank seen), this, drawn).
Proof.
  intros Hbank Hne Hcycle.
  pose proof (getNextWord_exhausted random fetch difficulty category this drawn bank seen
                Hbank Hne Hcycle) as Hcall.
  split; [exact Hcall|].
  induction k as [|k IH]; [done|].
  rewrite (calls_step _ _ _ _ _ _ _ _ _ _ Hcall). by rewrite IH.
Qed.

(** After [resetCycle] the key is Cycling again, on a fresh shuffle of all
    the indices with nothing visited. *)
Lemma resetCycle_reinitialises (random : nat -> Draw) (difficulty category : string)
    (this : WM.t) (drawn : nat) (bank : list WM.WordEntry) :
  WM.words this !! WM.cacheKey difficulty category = Some bank →
  ∃ this' drawn' order,
    WM.resetCycle random difficulty category true this drawn = Some (this', drawn') ∧
    order ≡ₚ seq 0 (length bank) ∧
    WM.cycleState this' !! WM.cacheKey difficulty category
    = Some {| WM.queue := order; WM.visited := ∅ |}.
Proof.
  intros Hbank. unfold WM.resetCycle, WM.initCycle. rewrite (get_Some _ _ _ Hbank).
  pose proof (shuffleArray_Permutation random (seq 0 (length bank)) drawn) as Hperm.
  destruct (WM.shuffleArray random (seq 0 (length bank)) drawn) as [order drawn'].
  eexists _, _, order. split; [reflexivity|]. split; [exact Hperm|]. simpl.
  unfold WM.persist.
  destruct (WM.storage _) as [s|]; [destruct (WM.setCycleState s)|];
    apply lookup_insert_eq.
Qed.

Lemma exhausted_cycle_keeps_signalling_witness :
  WM.words exhausted_manager !! WM.cacheKey "easy" "general"
    = Some (WM.sample_bank) ∧
  WM.sample_bank ≠ [] ∧
  WM.cycleState exhausted_manager !! WM.cacheKey "easy" "general"
    = Some {| WM.queue := []; WM.visited := {[ "Brave"; "Happy" ]} |} ∧
  WM.getNextWord always_zero offline "easy" "general" exhausted_manager 7
    = (WM.EndOfCategory "All 2 words completed for easy/general." 2 2,
       exhausted_manager, 7).
Proof.
  assert (Hbank : WM.words exhausted_manager !! WM.cacheKey "easy" "general"
                  = Some (WM.sample_bank))
    by (vm_compute; reflexivity).
  assert (Hne : WM.sample_bank ≠ []) by (vm_compute; discriminate).
  assert (Hcycle : WM.cycleState exhausted_manager !! WM.cacheKey "easy" "general"
                   = Some {| WM.queue := []; WM.visited := {[ "Brave"; "Happy" ]} |})
    by (vm_compute; reflexivity).
  split; [exact Hbank|]. split; [exact Hne|]. split; [exact Hcycle|].
  exact (proj1 (exhausted_cycle_keeps_signalling always_zero offline "easy" "general"
                  exhausted_manager 7 _ _ 0 Hbank Hne Hcycle)).
Defined.

(** C1, as the code has it.  With the shipped storage, for a key whose bank
    of [N ≥ 1] entries is loaded and whose cycle has not started, [N] calls
    of [getNextWord] in a row serve the entries at the indices of a
    permutation of [0 .. N-1], in that order: every entry is served exactly
    once, the served terms are the bank's terms up to order (so no term
    repeats when the bank holds no term twice), and the next call returns
    the end-of-category signal with [total = N] and changes nothing. *)
Theorem full_cycle_serves_every_entry_once (random : nat -> Draw)
    (fetch : string -> WM.Response) (difficulty category : string) (this : WM.t)
    (drawn : nat) (sm : SM.t) (bank : list WM.WordEntry) :
  WM.storage this = Some (WM.shipped sm) →
  WM.words this !! WM.cacheKey difficulty category = Some bank →
  bank ≠ [] →
  WM.cycleState this !! WM.cacheKey difficulty category = None →
  ∃ order results this' drawn',
    order ≡ₚ seq 0 (length bank) ∧
    calls random fetch (length bank) difficulty category this drawn
      = (results, this', drawn') ∧
    serves_all difficulty category bank order results ∧
    length results = length bank ∧
    omap term_of results ≡ₚ WM.word <$> bank ∧
    (NoDup (WM.word <$> bank) → NoDup (omap term_of results)) ∧
    WM.getNextWord random fetch difficulty category this' drawn'
      = (WM.EndOfCategory
           ("All " +:+ pretty (length bank) +:+ " words completed for "
              +:+ difficulty +:+ "/" +:+ category +:+ ".")
           (length bank) (size (list_to_set (WM.word <$> bank) : gset string)),
         this', drawn').
Proof.
  intros Hs Hbank Hne Hcycle.
  pose proof (getNextWord_uninitialized random fetch difficulty category this drawn sm bank
                Hs Hbank Hne Hcycle) as Hinit.
  unfold WM.initCycle in Hinit.
  pose proof (shuffleArray_Permutation random (seq 0 (length bank)) drawn) as Hperm.
  destruct (WM.shuffleArray random (seq 0 (length bank)) drawn) as [order drawn0].
  rewrite (persist_shipped _ _ _ _ sm) in Hinit by done.
  cbn [fst snd] in Hinit, Hperm.
  set (initialised := WM.set_cycleState _ this) in Hinit.
  assert (Hlen : length order = length bank)
    by (by rewrite Hperm, length_seq).
  assert (Hrange : Forall (fun index => index < length bank) order).
  { rewrite Hperm. apply Forall_forall. intros index Hin.
    apply elem_of_seq in Hin. lia. }
  destruct (calls_cycling random fetch difficulty category sm bank order initialised
              drawn0 ∅ Hs Hbank (lookup_insert_eq _ _ _) Hrange)
    as (results & this' & drawn' & Hcalls & Hall & Hs' & Hw' & Hc').
  destruct (serves_all_terms _ _ _ _ _ Hall) as [Hlen' Hterms].
  assert (Hserved : omap term_of results ≡ₚ WM.word <$> bank).
  { assert (Hseq : omap (fun index => WM.word <$> bank !! index) (seq 0 (length bank))
                   = WM.word <$> bank) by exact (omap_lookup_seq WM.word [] bank).
    by rewrite Hterms, Hperm, Hseq. }
  exists order, results, this', drawn'.
  split; [exact Hperm|]. split.
  { rewrite <- Hcalls, Hlen.
    destruct (length bank) as [|n] eqn:Hn; [by destruct bank|].
    simpl. by rewrite Hinit. }
  split; [exact Hall|]. split; [congruence|]. split; [exact Hserved|].
  split; [intros Hnodup; by rewrite Hserved|].
  assert (Hbank' : WM.words this' !! WM.cacheKey difficulty category = Some bank)
    by (rewrite Hw'; exact Hbank).
  rewrite (getNextWord_exhausted random fetch difficulty category this' drawn' bank _
             Hbank' Hne Hc').
  assert (Hseen : (∅ ∪ list_to_set (omap (fun index => WM.word <$> bank !! index) order)
                   : gset string) = list_to_set (WM.word <$> bank)).
  { apply set_eq. intros term.
    rewrite elem_of_union, !elem_of_list_to_set, <- Hterms, Hserved. set_solver. }
  by rewrite Hseen.
Qed.

Lemma full_cycle_serves_every_entry_once_witness :
  WM.storage loaded_manager = Some (WM.shipped fresh_store) ∧
  WM.words loaded_manager !! WM.cacheKey "easy" "general"
    = Some (WM.sample_bank) ∧
  WM.sample_bank ≠ [] ∧
  WM.cycleState loaded_manager !! WM.cacheKey "easy" "general" = None ∧
  ∃ order results this' drawn',
    order ≡ₚ [0; 1] ∧
    calls always_zero offline 2 "easy" "general" loaded_manager 0 = (results, this', drawn') ∧
    omap term_of results ≡ₚ ["Happy"; "Brave"] ∧
    (WM.getNextWord always_zero offline "easy" "general" this' drawn').1.1
      = WM.EndOfCategory "All 2 words completed for easy/general." 2 2.
Proof.
  assert (Hs : WM.storage loaded_manager = Some (WM.shipped fresh_store))
    by (vm_compute; reflexivity).
  assert (Hbank : WM.words loaded_manager !! WM.cacheKey "easy" "general"
                  = Some (WM.sample_bank))
    by (vm_compute; reflexivity).
  assert (Hne : WM.sample_bank ≠ []) by (vm_compute; discriminate).
  assert (Hcycle : WM.cycleState loaded_manager !! WM.cacheKey "easy" "general" = None)
    by (vm_compute; reflexivity).
  split; [exact Hs|]. split; [exact Hbank|]. split; [exact Hne|]. split; [exact Hcycle|].
  destruct (full_cycle_serves_every_entry_once always_zero offline "easy" "general"
              loaded_manager 0 fresh_store _ Hs Hbank Hne Hcycle)
    as (order & results & this' & drawn' & Hperm & Hcalls & _ & _ & Hterms & _ & Hend).
  exists order, results, this', drawn'.
  split; [exact Hperm|]. split; [exact Hcalls|]. split; [exact Hterms|].
  rewrite Hend. vm_compute. reflexivity.
Defined.

(** The two sample entries for easy/general, with [Math.random()] returning
    0: the shuffle puts "Brave" first; the first call has one entry
    remaining, the second none and is the last word, the third is the
    signal. *)
Example sample_cycle :
  (calls always_zero offline 3 "easy" "general" loaded_manager 0).1.1
  = [ WM.Word
        {| WM.p_word := "Brave"; WM.p_pronunciation := "/breɪv/";
           WM.options :=
             [ "Being very tall and strong"; "Moving slowly and carefully";
               "Eating food very quickly";
               "Showing courage in dangerous situations" ];
           WM.correctAnswer := "Showing courage in dangerous situations" |}
        {| WM.m_difficulty := "easy"; WM.m_category := "general";
           WM.remaining := 1; WM.total := 2; WM.isLastWord := false |};
      WM.Word
        {| WM.p_word := "Happy"; WM.p_pronunciation := "/ˈhæp.i/";
           WM.options :=
             [ "Feeling tired and sleepy"; "Feeling angry or upset";
               "Feeling confused or lost"; "Feeling joy or pleasure" ];
           WM.correctAnswer := "Feeling joy or pleasure" |}
        {| WM.m_difficulty := "easy"; WM.m_category := "general";
           WM.remaining := 0; WM.total := 2; WM.isLastWord := true |};
      WM.EndOfCategory "All 2 words completed for easy/general." 2 2 ].
Proof. vm_compute. reflexivity. Qed.

(** C1, as the specification states it, fails for [N = 0]: a document with
    an empty word list passes the validation and is cached as a bank of
    size 0; after zero calls, the first call returns [null], not an
    end-of-category signal with [total = 0]. *)
Lemma empty_bank_is_not_cycled :
  WM.loadWords empty_document "easy" "general" new_manager = (true, empty_bank_manager) ∧
  WM.words empty_bank_manager !! WM.cacheKey "easy" "general" = Some [] ∧
  calls always_zero empty_document 0 "easy" "general" empty_bank_manager 0
    = ([], empty_bank_manager, 0) ∧
  WM.getNextWord always_zero empty_document "easy" "general" empty_bank_manager 0
    = (WM.Null, empty_bank_manager, 0).
Proof. repeat split; vm_compute; reflexivity. Qed.

(** When the bank itself comes from the fallback, the call that triggered the
    load returns [null]; the cycle starts with the call after it. *)
Example first_call_after_failed_load :
  (calls always_zero offline 1 "easy" "general" new_manager 0).1
  = ([WM.Null], loaded_manager).
Proof. vm_compute. reflexivity. Qed.

(** C10. The class [StorageManager] defines neither [getCycleState] nor
    [setCycleState]; with the object it constructs as the manager's
    storage, the restore step of [getNextWord] and the persist step of
    [initCycle] and [getNextWord] do nothing; a new [WordManager] has no
    cycle for any key, whatever the store holds; and the first call for a
    key whose bank is loaded serves the head of a fresh shuffle of all the
    indices, keeps the rest as the queue in the object's memory, and leaves
    the storage as it was. *)
Theorem shipped_storage_keeps_no_cycle (random : nat -> Draw)
    (fetch : string -> WM.Response) :
  ("getCycleState" ∉ SM.methods) ∧
  ("setCycleState" ∉ SM.methods) ∧
  (∀ sm, WM.getCycleState (WM.shipped sm) = None ∧
         WM.setCycleState (WM.shipped sm) = None) ∧
  (∀ sm key, WM.cycleState (WM.constructor (Some (WM.shipped sm))) !! key = None) ∧
  (∀ this sm key queue visited,
     WM.storage this = Some (WM.shipped sm) →
     WM.restore key this = this ∧ WM.persist key queue visited this = this) ∧
  (∀ this sm difficulty category drawn bank,
     WM.storage this = Some (WM.shipped sm) →
     WM.words this !! WM.cacheKey difficulty category = Some bank →
     bank ≠ [] →
     WM.cycleState this !! WM.cacheKey difficulty category = None →
     ∃ index rest entry result this' drawn',
       (WM.shuffleArray random (seq 0 (length bank)) drawn).1 = index :: rest ∧
       index :: rest ≡ₚ seq 0 (length bank) ∧
       bank !! index = Some entry ∧
       WM.getNextWord random fetch difficulty category this drawn = (result, this', drawn') ∧
       serves difficulty category bank index (length rest) result ∧
       WM.cycleState this' !! WM.cacheKey difficulty category
         = Some {| WM.queue := rest; WM.visited := {[ WM.word entry ]} |} ∧
       WM.storage this' = Some (WM.shipped sm)).
Proof.
  assert (Hnot : ∀ name, bool_decide (name ∈ SM.methods) = false → name ∉ SM.methods)
    by (intros name; apply bool_decide_eq_false).
  split; [by apply Hnot; vm_compute|]. split; [by apply Hnot; vm_compute|].
  split; [done|]. split; [intros sm key; apply lookup_empty|].
  split.
  { intros this sm key queue visited Hs.
    split; [by apply (restore_shipped key this sm) | by apply (persist_shipped _ _ _ _ sm)]. }
  intros this sm difficulty category drawn bank Hs Hbank Hne Hcycle.
  pose proof (getNextWord_uninitialized random fetch difficulty category this drawn sm bank
                Hs Hbank Hne Hcycle) as Hinit.
  unfold WM.initCycle in Hinit.
  pose proof (shuffleArray_Permutation random (seq 0 (length bank)) drawn) as Hperm.
  destruct (WM.shuffleArray random (seq 0 (length bank)) drawn) as [order drawn0].
  rewrite (persist_shipped _ _ _ _ sm) in Hinit by done.
  cbn [fst snd] in Hinit, Hperm |- *.
  set (initialised := WM.set_cycleState _ this) in Hinit.
  destruct order as [|index rest].
  { apply Permutation_nil_l in Hperm. destruct bank; [done | discriminate Hperm]. }
  assert (Hindex : index < length bank).
  { assert (Hin : index ∈ seq 0 (length bank)) by (rewrite <- Hperm; by left).
    apply elem_of_seq in Hin. lia. }
  destruct (lookup_lt_is_Some_2 bank index Hindex) as [entry Hentry].
  destruct (getNextWord_cycling random fetch difficulty category initialised drawn0 sm bank
              index rest ∅ entry Hs Hbank (lookup_insert_eq _ _ _) Hentry)
    as (result & drawn' & Hcall & Hserves).
  eexists index, rest, entry, result, _, drawn'.
  split; [done|]. split; [done|]. split; [done|].
  split; [by rewrite Hinit|]. split; [done|]. split; [|done].
  cbn [WM.cycleState WM.set_cycleState]. rewrite lookup_insert_eq.
  do 2 f_equal. set_solver.
Qed.

Lemma shipped_storage_keeps_no_cycle_witness :
  WM.storage loaded_manager = Some (WM.shipped fresh_store) ∧
  WM.restore "easy_general" loaded_manager = loaded_manager ∧
  WM.persist "easy_general" [0; 1] [] loaded_manager = loaded_manager.
Proof.
  assert (Hs : WM.storage loaded_manager = Some (WM.shipped fresh_store))
    by (vm_compute; reflexivity).
  split; [exact Hs|].
  exact (proj1 (proj2 (proj2 (proj2 (proj2
           (shipped_storage_keeps_no_cycle always_zero offline)))))
           loaded_manager fresh_store "easy_general" [0; 1] [] Hs).
Defined.

(** C2 on the code.  [resetUsedWords] empties [usedWords] and nothing else:
    the cycles are as before and the next [getNextWord] runs as it would
    have without the reset.  After the sample bank for easy/general is
    exhausted, [resetUsedWords] followed by [getNextWord] returns the
    end-of-category signal again, where [resetCycle] followed by
    [getNextWord] serves a word. *)
Theorem resetUsedWords_keeps_the_cycle :
  (∀ (random : nat -> Draw) (fetch : string -> WM.Response)
     (difficulty category : string) (this : WM.t) (drawn : nat),
     WM.cycleState (WM.resetUsedWords this) = WM.cycleState this ∧
     WM.getNextWord random fetch difficulty category (WM.resetUsedWords this) drawn
     = let '(result, this', drawn') :=
         WM.getNextWord random fetch difficulty category this drawn in
       (result, WM.resetUsedWords this', drawn')) ∧
  (WM.getNextWord always_zero offline "easy" "general" exhausted_manager 7).1.1
    = WM.EndOfCategory "All 2 words completed for easy/general." 2 2 ∧
  (WM.getNextWord always_zero offline "easy" "general"
     (WM.resetUsedWords exhausted_manager) 7).1.1
    = WM.EndOfCategory "All 2 words completed for easy/general." 2 2 ∧
  (WM.resetCycle always_zero "easy" "general" true exhausted_manager 7
     ≫= λ '(this, drawn),
          term_of (WM.getNextWord always_zero offline "easy" "general" this drawn).1.1)
    = Some "Brave".
Proof.
  split.
  - intros random fetch difficulty category this drawn. split; [done|].
    apply getNextWord_ignores_usedWords.
  - repeat split; vm_compute; reflexivity.
Qed.

(** ** Supplements *)

(** The call that has to load the bank goes on as a call on the loaded
    manager does when the load succeeds, and returns [null] when it fell
    back to the sample bank. *)
Lemma getNextWord_loads (random : nat -> Draw) (fetch : string -> WM.Response)
    (difficulty category : string) (this this1 : WM.t) (drawn : nat) :
  WM.words this !! WM.cacheKey difficulty category = None →
  inherited (WM.cacheKey difficulty category) = false →
  WM.loadWords fetch difficulty category this = (true, this1) →
  WM.getNextWord random fetch difficulty category this drawn
  = WM.getNextWord random fetch difficulty category this1 drawn.
Proof.
  intros Hnone Hplain Hload.
  assert (Hsome : is_Some (WM.words this1 !! WM.cacheKey difficulty category)).
  { revert Hload. unfold WM.loadWords. rewrite get_None by done.
    destruct (fetch _) as [| | |data]; try done.
    destruct (WM.validateWordData data); [|done].
    intros [= <-]. simpl. rewrite lookup_insert_eq. by eexists. }
  destruct Hsome as [bank Hbank].
  unfold WM.getNextWord. rewrite get_None, Hload by done. cbn [negb].
  by rewrite !(get_Some _ _ _ Hbank).
Qed.

Lemma getNextWord_load_failed (random : nat -> Draw) (fetch : string -> WM.Response)
    (difficulty category : string) (this this1 : WM.t) (drawn : nat) :
  WM.words this !! WM.cacheKey difficulty category = None →
  inherited (WM.cacheKey difficulty category) = false →
  WM.loadWords fetch difficulty category this = (false, this1) →
  WM.getNextWord random fetch difficulty category this drawn = (WM.Null, this1, drawn).
Proof.
  intros Hnone Hplain Hload. unfold WM.getNextWord. by rewrite get_None, Hload by done.
Qed.

(** Under a key that is an inherited name the call returns [null] and
    leaves the object as it is: the inherited member is truthy and no
    array. *)
Lemma getNextWord_inherited (random : nat -> Draw) (fetch : string -> WM.Response)
    (difficulty category : string) (this : WM.t) (drawn : nat) :
  WM.words this !! WM.cacheKey difficulty category = None →
  inherited (WM.cacheKey difficulty category) = true →
  WM.getNextWord random fetch difficulty category this drawn = (WM.Null, this, drawn).
Proof.
  intros Hnone Hi. unfold WM.getNextWord. rewrite get_inherited by done. cbn [negb].
  by rewrite get_inherited by done.
Qed.

(** On a degraded store recording an answer changes nothing: every read
    yields its default and every write is refused. *)
Lemma trackWordProgress_degraded (current : option WM.PreparedWord)
    (difficulty : string) (isCorrect : bool) (this : SM.t) :
  SM.storageAvailable this = false →
  (∀ word, current = Some word → inherited (WM.p_word word) = false) →
  inherited difficulty = false →
  Game.trackWordProgress current difficulty isCorrect this = Some this.
Proof.
  intros Ha Hterm Hdifficulty. destruct current as [current|]; [|done].
  specialize (Hterm current eq_refl).
  assert (Hset : ∀ key value, (SM.setData key value this).2 = this)
    by (intros; by rewrite setData_degraded).
  assert (Hword : SM.updateWordAccuracy (WM.p_word current) isCorrect this = Some this).
  { unfold SM.updateWordAccuracy, SM.getWordAccuracy.
    rewrite getData_degraded by done. rewrite get_None by (try done; apply lookup_empty).
    simpl. rewrite tally_word. simpl. by rewrite Hset. }
  assert (Hdiff : SM.updateDifficultyAccuracy difficulty isCorrect this = Some this).
  { unfold SM.updateDifficultyAccuracy, SM.getDifficultyStats.
    rewrite getData_degraded by done. rewrite get_None by (try done; apply lookup_empty).
    simpl. rewrite tally_difficulty. simpl. unfold SM.field.
    rewrite (lookup_insert_ne _ "correct" "total") by done.
    rewrite (lookup_insert_eq _ "total"). simpl.
    rewrite lookup_insert_eq. simpl. by rewrite Hset. }
  assert (Hadd : SM.addCompletedWord (WM.p_word current) this = Some this).
  { unfold SM.addCompletedWord, SM.getCompletedWords.
    rewrite getData_degraded by done. simpl. by rewrite Hset. }
  unfold Game.trackWordProgress. rewrite Hword. simpl. rewrite Hdiff. simpl.
  rewrite Hadd. simpl.
  destruct isCorrect.
  - unfold SM.removeMissedWord, SM.getMissedWords, has.
    rewrite getData_degraded by done.
    by rewrite get_None by (try done; apply lookup_empty).
  - unfold SM.addMissedWord, SM.getMissedWords.
    rewrite getData_degraded by done. rewrite get_None by (try done; apply lookup_empty).
    simpl. by rewrite Hset.
Qed.

(** One more recorded miss raises the weight of a term by one, up to the
    cap. *)
Lemma addMissedWord_raises_weight (word : string) (this : SM.t) (counts : gmap string Z) :
  working this →
  SM.getMissedWords this = JObj (JNum <$> counts) →
  (∀ n, counts !! word = Some n → n ≠ 0%Z) →
  inherited word = false →
  ∃ this' weights,
    SM.addMissedWord word this = Some this' ∧
    SM.getWordWeights this' = Some weights ∧
    weights !! word = Some (Z.min (default 0%Z (counts !! word) + 1 + 1) 5).
Proof.
  intros Hw Hm Hpos Hplain.
  pose proof (inherited_proto word Hplain) as Hproto.
  unfold SM.addMissedWord. rewrite Hm, get_plain, lookup_fmap by done.
  assert (Hcount : SM.or_zero (match JNum <$> counts !! word with
                               | Some a => Own a
                               | None => Undefined
                               end)
                   = Some (default 0%Z (counts !! word))).
  { destruct (counts !! word) as [n|] eqn:Hn; simpl; [|done].
    specialize (Hpos n eq_refl).
    by replace (n =? 0)%Z with false by (symmetry; by apply Z.eqb_neq). }
  rewrite Hcount. simpl. rewrite assign_plain by done.
  eexists _, _. split; [done|].
  unfold SM.getWordWeights, SM.getMissedWords.
  rewrite getData_setData_eq by done.
  rewrite <- fmap_insert. split; [apply getWordWeights_fold|].
  by rewrite lookup_fmap, lookup_delete_ne, lookup_insert_eq.
Qed.

(** * Further properties of the store *)

(** ** [updateStats] *)

(** Reading one counter after a write to another key, or to itself. *)
Ltac read_counter :=
  repeat first
    [ rewrite getData_setData_eq by (repeat apply setData_keeps_working; done)
    | rewrite getData_setData_ne by done ].

(** What [updateStats] leaves in the store, counter by counter: every new
    value is computed from the counters as they were when the call began. *)
Lemma updateStats_applied (updates : SM.Updates) (this : SM.t) (c : Counters) :
  working this → reads_counters this c →
  ∃ this',
    SM.updateStats updates this = Some this' ∧ working this' ∧
    reads_counters this'
      {| c_totalScore := c_totalScore c + default 0%Z (SM.scoreIncrease updates);
         c_currentStreak := default (c_currentStreak c) (SM.streak updates);
         c_bestStreak :=
           match SM.streak updates with
           | Some n => Z.max (c_bestStreak c) n
           | None => c_bestStreak c
           end;
         c_level := default (c_level c) (SM.newLevel updates);
         c_totalWords := c_totalWords c + (if SM.wordCompleted updates then 1 else 0);
         c_correctAnswers :=
           c_correctAnswers c
           + (match SM.correctAnswer updates with Some true => 1 | _ => 0 end) |} ∧
    (∀ key d,
       key ∉ ["totalScore"; "currentStreak"; "bestStreak"; "level"; "totalWords";
              "correctAnswers"] →
       SM.getData key d this' = SM.getData key d this).
Proof.
  intros Hw (Hscore & Hstreak & Hbest & Hlevel & Htotal & Hcorrect).
  unfold SM.updateStats. rewrite Hscore, Hbest, Htotal, Hcorrect.
  destruct updates as [inc st lv done_ ans]. cbn [SM.scoreIncrease SM.streak
    SM.newLevel SM.wordCompleted SM.correctAnswer SM.asNumber].
  set (s1 := match inc with
             | Some points => (SM.setData "totalScore" (JNum (c_totalScore c + points)) this).2
             | None => this
             end).
  assert (Hw1 : working s1) by (subst s1; destruct inc; [by apply setData_keeps_working|done]).
  set (s2 := match st with
             | Some n =>
                 if (c_bestStreak c <? n)%Z
                 then (SM.setData "bestStreak" (JNum n)
                         (SM.setData "currentStreak" (JNum n) s1).2).2
                 else (SM.setData "currentStreak" (JNum n) s1).2
             | None => s1
             end).
  assert (Hw2 : working s2).
  { subst s2. destruct st as [n|]; [|done].
    destruct (c_bestStreak c <? n)%Z; repeat apply setData_keeps_working; done. }
  set (s3 := match lv with
             | Some n => (SM.setData "level" (JNum n) s2).2
             | None => s2
             end).
  assert (Hw3 : working s3) by (subst s3; destruct lv; [by apply setData_keeps_working|done]).
  set (s4 := if done_ then (SM.setData "totalWords" (JNum (c_totalWords c + 1)) s3).2 else s3).
  assert (Hw4 : working s4)
    by (subst s4; destruct done_; [by apply setData_keeps_working|done]).
  set (s5 := match ans with
             | Some true => (SM.setData "correctAnswers" (JNum (c_correctAnswers c + 1)) s4).2
             | _ => s4
             end).
  assert (Hw5 : working s5).
  { subst s5. destruct ans as [[]|]; [by apply setData_keeps_working|done..]. }
  exists s5. split; [|split; [exact Hw5|]].
  { subst s5 s4 s3 s2 s1.
    destruct inc, st as [n|], lv, done_, ans as [[]|]; simpl;
      try destruct (c_bestStreak c <? n)%Z; reflexivity. }
  unfold reads_counters, SM.getStats in *.
  cbn [SM.totalScore SM.currentStreak SM.bestStreak SM.level SM.totalWords
       SM.correctAnswers] in *.
  assert (Hmax : ∀ n, (if (c_bestStreak c <? n)%Z then n else c_bestStreak c)
                      = Z.max (c_bestStreak c) n).
  { intros n. destruct (Z.ltb_spec (c_bestStreak c) n); lia. }
  subst s5 s4 s3 s2 s1.
  repeat split.
  - destruct ans as [[]|], done_, lv, st as [n|], inc; simpl;
      try destruct (c_bestStreak c <? n)%Z; read_counter;
      rewrite ?Hscore, ?Z.add_0_r; reflexivity.
  - destruct ans as [[]|], done_, lv, st as [n|], inc; simpl;
      try destruct (c_bestStreak c <? n)%Z; read_counter;
      rewrite ?Hstreak; reflexivity.
  - destruct ans as [[]|], done_, lv, st as [n|], inc; simpl;
      try (rewrite <- (Hmax n); destruct (c_bestStreak c <? n)%Z); read_counter;
      rewrite ?Hbest; reflexivity.
  - destruct ans as [[]|], done_, lv, st as [n|], inc; simpl;
      try destruct (c_bestStreak c <? n)%Z; read_counter;
      rewrite ?Hlevel; reflexivity.
  - destruct ans as [[]|], done_, lv, st as [n|], inc; simpl;
      try destruct (c_bestStreak c <? n)%Z; read_counter;
      rewrite ?Htotal, ?Z.add_0_r; reflexivity.
  - destruct ans as [[]|], done_, lv, st as [n|], inc; simpl;
      try destruct (c_bestStreak c <? n)%Z; read_counter;
      rewrite ?Hcorrect, ?Z.add_0_r; reflexivity.
  - intros key d Hkey.
    assert (Hne : key ≠ "totalScore" ∧ key ≠ "currentStreak" ∧ key ≠ "bestStreak" ∧
                  key ≠ "level" ∧ key ≠ "totalWords" ∧ key ≠ "correctAnswers").
    { repeat split; intros ->; apply Hkey; repeat constructor. }
    destruct Hne as (? & ? & ? & ? & ? & ?).
    destruct ans as [[]|], done_, lv, st as [n|], inc; simpl;
      try destruct (c_bestStreak c <? n)%Z;
      repeat (rewrite getData_setData_ne by done); reflexivity.
Qed.

Lemma fresh_store_reads_defaults : reads_counters fresh_store default_counters.
Proof. repeat split; vm_compute; reflexivity. Qed.

(** X1. On a working store whose counters are numbers, [updateStats]
    succeeds; the best streak never decreases; a streak that is passed in
    becomes the current streak and raises the best streak to it when it is
    larger, so the current streak never exceeds the best one afterwards. *)
Theorem updateStats_best_streak (updates : SM.Updates) (this : SM.t) (c : Counters) :
  working this → reads_counters this c →
  ∃ this' c',
    SM.updateStats updates this = Some this' ∧ reads_counters this' c' ∧
    (c_bestStreak c ≤ c_bestStreak c')%Z ∧
    ((c_currentStreak c ≤ c_bestStreak c)%Z → (c_currentStreak c' ≤ c_bestStreak c')%Z) ∧
    (∀ n, SM.streak updates = Some n →
          c_currentStreak c' = n ∧ c_bestStreak c' = Z.max (c_bestStreak c) n) ∧
    (SM.streak updates = None →
     c_currentStreak c' = c_currentStreak c ∧ c_bestStreak c' = c_bestStreak c).
Proof.
  intros Hw Hr.
  destruct (updateStats_applied updates this c Hw Hr) as (this' & Heq & _ & Hr' & _).
  eexists this', _. split; [exact Heq|]. split; [exact Hr'|]. simpl.
  destruct (SM.streak updates) as [n|]; simpl.
  - split; [lia|]. split; [lia|]. split; [by intros ? [= <-]|done].
  - split; [lia|]. split; [done|]. by split.
Qed.

Lemma updateStats_best_streak_witness :
  working fresh_store ∧ reads_counters fresh_store default_counters ∧
  ∃ this' c',
    SM.updateStats streak_of_three fresh_store = Some this' ∧ reads_counters this' c' ∧
    c_currentStreak c' = 3%Z ∧ c_bestStreak c' = 3%Z.
Proof.
  split; [exact fresh_store_working|]. split; [exact fresh_store_reads_defaults|].
  destruct (updateStats_best_streak streak_of_three fresh_store default_counters
              fresh_store_working fresh_store_reads_defaults)
    as (this' & c' & Heq & Hr & _ & _ & Hstreak & _).
  exists this', c'. split; [exact Heq|]. split; [exact Hr|].
  exact (Hstreak 3%Z eq_refl).
Defined.

Lemma getAverageAccuracy_reads (this : SM.t) (c : Counters) :
  reads_counters this c →
  SM.getAverageAccuracy this
  = Some (if (c_totalWords c =? 0)%Z then 0%Z
          else percentage (c_correctAnswers c) (c_totalWords c)).
Proof.
  intros (_ & _ & _ & _ & Ht & Hc).
  unfold SM.getStats in Ht, Hc. simpl in Ht, Hc.
  unfold SM.getAverageAccuracy. rewrite Ht, Hc.
  by destruct (c_totalWords c).
Qed.

(** X2. [updateStats] adds one to [totalWords] exactly when a word was
    completed and one to [correctAnswers] exactly when the answer was
    correct; when every correct answer is also a completed word, as in the
    game, 0 ≤ correctAnswers ≤ totalWords is kept, and the average accuracy
    then lies between 0 and 100. *)
Theorem updateStats_keeps_accuracy_in_range (updates : SM.Updates) (this : SM.t)
    (c : Counters) :
  working this → reads_counters this c →
  (0 ≤ c_correctAnswers c ≤ c_totalWords c)%Z →
  (SM.correctAnswer updates = Some true → SM.wordCompleted updates = true) →
  ∃ this' c' accuracy,
    SM.updateStats updates this = Some this' ∧ reads_counters this' c' ∧
    c_totalWords c' = (c_totalWords c + (if SM.wordCompleted updates then 1 else 0))%Z ∧
    c_correctAnswers c'
      = (c_correctAnswers c
         + (match SM.correctAnswer updates with Some true => 1 | _ => 0 end))%Z ∧
    (0 ≤ c_correctAnswers c' ≤ c_totalWords c')%Z ∧
    SM.getAverageAccuracy this' = Some accuracy ∧
    (0 ≤ accuracy ≤ 100)%Z.
Proof.
  intros Hw Hr Hrange Hgame.
  destruct (updateStats_applied updates this c Hw Hr) as (this' & Heq & _ & Hr' & _).
  eexists this', _, _. split; [exact Heq|]. split; [exact Hr'|].
  split; [done|]. split; [done|].
  assert (Hrange' :
    (0 ≤ c_correctAnswers c
         + (match SM.correctAnswer updates with Some true => 1 | _ => 0 end)
       ≤ c_totalWords c + (if SM.wordCompleted updates then 1 else 0))%Z).
  { destruct (SM.correctAnswer updates) as [[]|].
    - rewrite Hgame by done. lia.
    - destruct (SM.wordCompleted updates); lia.
    - destruct (SM.wordCompleted updates); lia. }
  split; [exact Hrange'|].
  split; [apply (getAverageAccuracy_reads _ _ Hr')|]. simpl.
  destruct (Z.eqb_spec (c_totalWords c + (if SM.wordCompleted updates then 1 else 0)) 0);
    [lia|].
  apply percentage_range; lia.
Qed.

Lemma updateStats_keeps_accuracy_in_range_witness :
  working fresh_store ∧ reads_counters fresh_store default_counters ∧
  ∃ this',
    SM.updateStats streak_of_three fresh_store = Some this' ∧
    SM.getAverageAccuracy this' = Some 100%Z.
Proof.
  split; [exact fresh_store_working|]. split; [exact fresh_store_reads_defaults|].
  destruct (updateStats_keeps_accuracy_in_range streak_of_three fresh_store
              default_counters fresh_store_working fresh_store_reads_defaults
              ltac:(simpl; lia) ltac:(done))
    as (this' & c' & accuracy & Heq & Hr & Ht & Hc & _ & _ & _).
  exists this'. split; [exact Heq|].
  rewrite (getAverageAccuracy_reads _ _ Hr), Ht, Hc. reflexivity.
Defined.

(** ** Bulk writes: [resetProgress], [updatePreferences], [importData] *)

(** Reading after the properties of an object have been written. *)
Lemma getData_setAll (entries : list (string * JValue)) (this : SM.t) (key : string)
    (d : JValue) :
  working this → NoDup entries.*1 →
  working (SM.setAll entries this) ∧
  SM.getData key d (SM.setAll entries this)
  = from_option id (SM.getData key d this) ((list_to_map entries : gmap string JValue) !! key).
Proof.
  intros Hw Hnodup.
  destruct (setAll_working entries this Hw Hnodup) as (items' & Heq & Hin & _).
  rewrite Heq. split; [done|].
  rewrite !getData_working by done. simpl. rewrite Hin.
  by destruct (list_to_map entries !! key).
Qed.

(** A key that is written nowhere keeps its value, whatever the medium. *)
Lemma getData_setAll_ne (entries : list (string * JValue)) (this : SM.t) (key : string)
    (d : JValue) :
  key ∉ entries.*1 → SM.getData key d (SM.setAll entries this) = SM.getData key d this.
Proof.
  revert this. induction entries as [|[k v] entries IH]; intros this Hkey; [done|].
  unfold SM.setAll. simpl. fold (SM.setAll entries (SM.setData k v this).2).
  rewrite IH by (intros Hin; apply Hkey; simpl; by right).
  apply getData_setData_ne. intros ->. apply Hkey. simpl. by left.
Qed.

Lemma defaultData_NoDup : NoDup SM.defaultData.*1.
Proof. apply (bool_decide_unpack _). vm_compute. reflexivity. Qed.

Lemma resetProgress_working (this : SM.t) : working this → working (SM.resetProgress this).
Proof. intros Hw. apply (getData_setAll _ _ "" JNull Hw defaultData_NoDup). Qed.

Lemma resetProgress_reads (this : SM.t) (key : string) (d : JValue) :
  working this →
  SM.getData key d (SM.resetProgress this)
  = from_option id (SM.getData key d this)
      ((list_to_map SM.defaultData : gmap string JValue) !! key).
Proof. intros Hw. apply (getData_setAll _ _ _ _ Hw defaultData_NoDup). Qed.

(** One of the thirteen defaults, read back. *)
Ltac read_default :=
  rewrite resetProgress_reads by done;
  match goal with
  | |- context [SM.getData ?key ?d ?this] =>
      generalize (SM.getData key d this); intros ?; vm_compute; reflexivity
  end.

Lemma resetProgress_counters (this : SM.t) :
  working this → reads_counters (SM.resetProgress this) default_counters.
Proof.
  intros Hw. unfold reads_counters, SM.getStats.
  cbn [SM.totalScore SM.currentStreak SM.bestStreak SM.level SM.totalWords
       SM.correctAnswers].
  repeat split; read_default.
Qed.

(** The keys of category completion are none of the thirteen defaults. *)
Lemma completion_keys_not_default (difficulty category : string) :
  (("completedCategories_" +:+ difficulty) ∉ SM.defaultData.*1) ∧
  (("categoryCompleted_" +:+ difficulty +:+ "_" +:+ category) ∉ SM.defaultData.*1).
Proof.
  split; intros Hin; simpl in Hin;
    repeat (apply elem_of_cons in Hin as [Heq|Hin]; [discriminate Heq|]);
    by apply elem_of_nil in Hin.
Qed.

(** X3. [resetProgress] on a working store brings the six counters, the word
    lists, the accuracy tables and the two preferences back to their
    defaults, so that the average accuracy is 0 and no word has a weight.  It
    writes the thirteen default keys and nothing else: every other key keeps
    its value, in particular the completed categories and their dates. *)
Theorem resetProgress_restores_defaults (this : SM.t) :
  working this →
  working (SM.resetProgress this) ∧
  reads_counters (SM.resetProgress this) default_counters ∧
  SM.getCompletedWords (SM.resetProgress this) = JArr [] ∧
  SM.getMissedWords (SM.resetProgress this) = JObj ∅ ∧
  SM.getWordAccuracy (SM.resetProgress this) = JObj ∅ ∧
  SM.getDifficultyStats (SM.resetProgress this) = JObj ∅ ∧
  SM.getPreferences (SM.resetProgress this)
    = {| SM.pref_difficulty := JStr "easy"; SM.pref_category := JStr "general" |} ∧
  SM.getAverageAccuracy (SM.resetProgress this) = Some 0%Z ∧
  SM.getWordWeights (SM.resetProgress this) = Some ∅ ∧
  (∀ key d, key ∉ SM.defaultData.*1 →
            SM.getData key d (SM.resetProgress this) = SM.getData key d this) ∧
  (∀ difficulty category,
     SM.getCompletedCategories difficulty (SM.resetProgress this)
       = SM.getCompletedCategories difficulty this ∧
     SM.getCategoryCompletionDate difficulty category (SM.resetProgress this)
       = SM.getCategoryCompletionDate difficulty category this).
Proof.
  intros Hw.
  assert (Hmissed : SM.getMissedWords (SM.resetProgress this) = JObj ∅)
    by (unfold SM.getMissedWords; read_default).
  split; [by apply resetProgress_working|].
  split; [by apply resetProgress_counters|].
  split; [unfold SM.getCompletedWords; read_default|].
  split; [exact Hmissed|].
  split; [unfold SM.getWordAccuracy; read_default|].
  split; [unfold SM.getDifficultyStats; read_default|].
  split.
  { unfold SM.getPreferences. f_equal; read_default. }
  split.
  { rewrite (getAverageAccuracy_reads _ _ (resetProgress_counters this Hw)). done. }
  split.
  { unfold SM.getWordWeights. rewrite Hmissed. apply map_fold_empty. }
  split.
  { intros key d Hkey. by apply getData_setAll_ne. }
  intros difficulty category.
  destruct (completion_keys_not_default difficulty category) as [Hlist Hdate].
  split; by apply getData_setAll_ne.
Qed.

Lemma missed_store_working : working missed_store.
Proof. split; vm_compute; reflexivity. Qed.

Lemma resetProgress_restores_defaults_witness :
  working missed_store ∧
  SM.getMissedWords missed_store = JObj (JNum <$> missed_counts) ∧
  SM.getMissedWords (SM.resetProgress missed_store) = JObj ∅ ∧
  SM.getWordWeights (SM.resetProgress missed_store) = Some ∅.
Proof.
  split; [exact missed_store_working|].
  split; [vm_compute; reflexivity|].
  destruct (resetProgress_restores_defaults missed_store missed_store_working)
    as (_ & _ & _ & Hmissed & _ & _ & _ & _ & Hweights & _).
  by split.
Defined.

(** ** Page loads: [constructor] and [init] *)

(** The key of the probe is not under the prefix. *)
Lemma probe_key_foreign (key : string) : "storage_test" ≠ SM.storagePrefix +:+ key.
Proof. discriminate. Qed.

(** On a healthy medium the probe succeeds and removes its own key. *)
Lemma checkStorageSupport_healthy (ls : LocalStorage.t) :
  LocalStorage.fault ls = LocalStorage.Healthy →
  SM.checkStorageSupport ls
  = (true, {| LocalStorage.fault := LocalStorage.Healthy;
              LocalStorage.items := delete "storage_test" (LocalStorage.items ls) |}).
Proof.
  intros Hf. unfold SM.checkStorageSupport, LocalStorage.setItem. rewrite Hf.
  unfold LocalStorage.getItem, LocalStorage.removeItem. simpl.
  by rewrite lookup_insert_eq, delete_insert_eq.
Qed.

Lemma probed_working (ls : LocalStorage.t) : working (probed ls).
Proof. by split. Qed.

Lemma probed_reads (ls : LocalStorage.t) (this : SM.t) (key : string) (d : JValue) :
  working this → SM.localStorage this = ls →
  SM.getData key d (probed ls) = SM.getData key d this.
Proof.
  intros Hw <-. rewrite !getData_working by (done || apply probed_working). simpl.
  rewrite lookup_delete_ne; [done|]. apply probe_key_foreign.
Qed.

Lemma constructor_healthy (ls : LocalStorage.t) :
  LocalStorage.fault ls = LocalStorage.Healthy → SM.constructor ls = SM.init (probed ls).
Proof. intros Hf. unfold SM.constructor. by rewrite checkStorageSupport_healthy. Qed.

Lemma init_working (this : SM.t) : working this → working (SM.init this).
Proof.
  intros Hw. unfold SM.init. destruct (negb _); [|done].
  apply setData_keeps_working. by apply resetProgress_working.
Qed.

(** The first page load on a healthy medium runs [resetProgress] and sets
    the flag. *)
Lemma constructor_first_visit_state (ls : LocalStorage.t) :
  LocalStorage.fault ls = LocalStorage.Healthy →
  LocalStorage.items ls !! (SM.storagePrefix +:+ "initialized") = None →
  SM.constructor ls
  = (SM.setData "initialized" (JBool true) (SM.resetProgress (probed ls))).2.
Proof.
  intros Hf Hnew. rewrite constructor_healthy by done.
  assert (Hinit : SM.getData "initialized" JNull (probed ls) = JNull).
  { rewrite getData_working by apply probed_working. simpl.
    rewrite lookup_delete_ne by apply probe_key_foreign. by rewrite Hnew. }
  unfold SM.init. by rewrite Hinit.
Qed.

(** What it leaves under the keys of the progress and under the others. *)
Lemma constructor_first_visit (ls : LocalStorage.t) :
  LocalStorage.fault ls = LocalStorage.Healthy →
  LocalStorage.items ls !! (SM.storagePrefix +:+ "initialized") = None →
  working (SM.constructor ls) ∧
  reads_counters (SM.constructor ls) default_counters ∧
  (∀ key d, key ≠ "initialized" →
            SM.getData key d (SM.constructor ls)
            = SM.getData key d (SM.resetProgress (probed ls))) ∧
  (∀ key d, key ∉ SM.defaultData.*1 →
            SM.getData key d (SM.constructor ls)
            = match LocalStorage.items ls !! (SM.storagePrefix +:+ key) with
              | Some (Json v) => v
              | _ => d
              end).
Proof.
  intros Hf Hnew. rewrite (constructor_first_visit_state ls Hf Hnew).
  assert (Hw := probed_working ls).
  assert (Hw' := resetProgress_working _ Hw).
  assert (Hskip : ∀ key d,
            key ≠ "initialized" →
            SM.getData key d
              (SM.setData "initialized" (JBool true) (SM.resetProgress (probed ls))).2
            = SM.getData key d (SM.resetProgress (probed ls))).
  { intros key d Hkey. by apply getData_setData_ne. }
  split; [by apply setData_keeps_working|].
  split.
  { destruct (resetProgress_counters _ Hw) as (? & ? & ? & ? & ? & ?).
    unfold reads_counters, SM.getStats in *.
    cbn [SM.totalScore SM.currentStreak SM.bestStreak SM.level SM.totalWords
         SM.correctAnswers] in *.
    repeat split; (rewrite Hskip by done); assumption. }
  split; [exact Hskip|].
  intros key d Hkey.
  rewrite Hskip
    by (intros ->; apply Hkey; apply (bool_decide_unpack _); vm_compute; reflexivity).
  unfold SM.resetProgress. rewrite getData_setAll_ne by done.
  rewrite getData_working by done. simpl.
  by rewrite lookup_delete_ne by apply probe_key_foreign.
Qed.

(** X4. The first page load on a healthy medium ([initialized] is not
    stored yet) writes the defaults: the manager works, the six counters and
    the preferences read as their defaults and [initialized] reads [true].
    Every other key under the prefix reads as it was stored, and outside the
    prefix the only item touched is the probe's own [storage_test], which is
    removed even if the page had stored something under that name. *)
Theorem first_visit_writes_defaults (ls : LocalStorage.t) :
  LocalStorage.fault ls = LocalStorage.Healthy →
  LocalStorage.items ls !! (SM.storagePrefix +:+ "initialized") = None →
  working (SM.constructor ls) ∧
  reads_counters (SM.constructor ls) default_counters ∧
  SM.getPreferences (SM.constructor ls)
    = {| SM.pref_difficulty := JStr "easy"; SM.pref_category := JStr "general" |} ∧
  SM.getData "initialized" JNull (SM.constructor ls) = JBool true ∧
  (∀ key d, key ∉ SM.defaultData.*1 →
            SM.getData key d (SM.constructor ls)
            = match LocalStorage.items ls !! (SM.storagePrefix +:+ key) with
              | Some (Json v) => v
              | _ => d
              end) ∧
  (∀ key, startsWith key SM.storagePrefix = false →
          LocalStorage.items (SM.localStorage (SM.constructor ls)) !! key
          = if decide (key = "storage_test") then None else LocalStorage.items ls !! key).
Proof.
  intros Hf Hnew.
  destruct (constructor_first_visit ls Hf Hnew) as (Hworking & Hcounters & Hskip & Hother).
  assert (Hw := probed_working ls).
  split; [exact Hworking|]. split; [exact Hcounters|].
  split.
  { unfold SM.getPreferences. f_equal; (rewrite Hskip by done); read_default. }
  split.
  { rewrite (constructor_first_visit_state ls Hf Hnew).
    by apply getData_setData_eq, resetProgress_working. }
  split; [exact Hother|].
  intros key Hkey. rewrite (constructor_first_visit_state ls Hf Hnew).
  destruct (setAll_working SM.defaultData (probed ls) Hw defaultData_NoDup)
    as (items' & Heq & _ & Hout).
  unfold SM.resetProgress. rewrite Heq. rewrite setData_working by by rewrite <- Heq.
  cbn [SM.localStorage LocalStorage.items snd].
  rewrite lookup_insert_ne.
  - rewrite Hout by done. cbn [probed SM.localStorage LocalStorage.items].
    destruct (decide (key = "storage_test")) as [->|Hne].
    + apply lookup_delete_eq.
    + by apply lookup_delete_ne.
  - intros Heq'. rewrite <- Heq', startsWith_app in Hkey. discriminate Hkey.
Qed.

Lemma first_visit_writes_defaults_witness :
  LocalStorage.fault empty_storage = LocalStorage.Healthy ∧
  LocalStorage.items empty_storage !! (SM.storagePrefix +:+ "initialized") = None ∧
  reads_counters (SM.constructor empty_storage) default_counters ∧
  SM.getData "initialized" JNull (SM.constructor empty_storage) = JBool true.
Proof.
  split; [reflexivity|]. split; [vm_compute; reflexivity|].
  destruct (first_visit_writes_defaults empty_storage eq_refl
              ltac:(vm_compute; reflexivity))
    as (_ & Hcounters & _ & Hinit & _).
  by split.
Defined.

(** A page load on the storage of a manager that is initialised. *)
Lemma constructor_reload (this : SM.t) :
  working this →
  truthy (SM.getData "initialized" JNull this) = true →
  working (SM.constructor (SM.localStorage this)) ∧
  ∀ key d,
    SM.getData key d (SM.constructor (SM.localStorage this)) = SM.getData key d this.
Proof.
  intros Hw Hinit.
  rewrite constructor_healthy by apply Hw.
  unfold SM.init.
  rewrite (probed_reads _ this) by done. rewrite Hinit. cbn [negb].
  split; [apply probed_working|].
  intros key d. by apply probed_reads.
Qed.

(** X5. A page load on the storage left by a working manager whose
    [initialized] flag reads truthy writes nothing under the prefix: the new
    manager works and every key reads as it did before the reload.  So the
    counters, the preferences and the ledger that the store read as before
    are what it reads as afterwards. *)
Theorem reload_keeps_progress (this : SM.t) :
  working this →
  truthy (SM.getData "initialized" JNull this) = true →
  working (SM.constructor (SM.localStorage this)) ∧
  (∀ key d,
     SM.getData key d (SM.constructor (SM.localStorage this)) = SM.getData key d this) ∧
  (∀ c, reads_counters this c →
        reads_counters (SM.constructor (SM.localStorage this)) c) ∧
  SM.getPreferences (SM.constructor (SM.localStorage this)) = SM.getPreferences this ∧
  (∀ l, represents this l → represents (SM.constructor (SM.localStorage this)) l).
Proof.
  intros Hw Hinit. destruct (constructor_reload this Hw Hinit) as [Hw' Hreads].
  split; [exact Hw'|]. split; [exact Hreads|].
  split.
  { intros c Hc. unfold reads_counters, SM.getStats in *.
    cbn [SM.totalScore SM.currentStreak SM.bestStreak SM.level SM.totalWords
         SM.correctAnswers] in *.
    by rewrite !Hreads. }
  split; [unfold SM.getPreferences; by rewrite !Hreads|].
  intros l Hl.
  unfold represents, SM.getCompletedWords, SM.getMissedWords, SM.getWordAccuracy,
    SM.getDifficultyStats in *.
  by rewrite !Hreads.
Qed.

Lemma reload_keeps_progress_witness :
  working missed_store ∧
  truthy (SM.getData "initialized" JNull missed_store) = true ∧
  SM.getMissedWords (SM.constructor (SM.localStorage missed_store))
  = JObj (JNum <$> missed_counts).
Proof.
  split; [exact missed_store_working|]. split; [vm_compute; reflexivity|].
  destruct (reload_keeps_progress missed_store missed_store_working
              ltac:(vm_compute; reflexivity)) as (_ & Hreads & _).
  unfold SM.getMissedWords. rewrite Hreads. vm_compute. reflexivity.
Defined.

(** ** Writing an object: [updatePreferences] and [importData] *)

Lemma map_to_list_NoDup_keys (m : gmap string JValue) : NoDup (map_to_list m).*1.
Proof. apply NoDup_fst_map_to_list. Qed.

(** The loop that [updatePreferences] and [importData] share. *)
Lemma updatePreferences_reads (object : gmap string JValue) (this : SM.t) :
  working this →
  working (SM.updatePreferences object this) ∧
  ∀ key d, SM.getData key d (SM.updatePreferences object this)
           = from_option id (SM.getData key d this) (object !! key).
Proof.
  intros Hw. unfold SM.updatePreferences.
  split; [apply (getData_setAll _ _ "" JNull Hw (map_to_list_NoDup_keys object))|].
  intros key d.
  destruct (getData_setAll _ _ key d Hw (map_to_list_NoDup_keys object)) as [_ ->].
  by rewrite list_to_map_to_list.
Qed.

(** X6. [updatePreferences] and [importData] write every property of the
    object they are given, whatever its name: on a working store a key of the
    object then reads as the object's value, every other key as before, and
    [importData] returns [true].  In particular [getPreferences] returns the
    new difficulty and category where the object has them and the old ones
    where it does not. *)
Theorem object_writes_round_trip (object : gmap string JValue) (this : SM.t) :
  working this →
  (working (SM.updatePreferences object this) ∧
   ∀ key d, SM.getData key d (SM.updatePreferences object this)
            = from_option id (SM.getData key d this) (object !! key)) ∧
  SM.getPreferences (SM.updatePreferences object this)
    = {| SM.pref_difficulty :=
           from_option id (SM.pref_difficulty (SM.getPreferences this))
             (object !! "difficulty");
         SM.pref_category :=
           from_option id (SM.pref_category (SM.getPreferences this))
             (object !! "category") |} ∧
  (SM.importData (JObj object) this).1 = true ∧
  working (SM.importData (JObj object) this).2 ∧
  ∀ key d, SM.getData key d (SM.importData (JObj object) this).2
           = from_option id (SM.getData key d this) (object !! key).
Proof.
  intros Hw.
  assert (Hall := updatePreferences_reads object this Hw).
  unfold SM.updatePreferences in Hall.
  split; [exact Hall|].
  split.
  { unfold SM.getPreferences, SM.updatePreferences. cbn [SM.pref_difficulty SM.pref_category].
    by rewrite !(proj2 Hall). }
  unfold SM.importData. rewrite (proj1 Hw). cbn [negb SM.Object_entries fst snd].
  split; [done|]. exact Hall.
Qed.

Lemma object_writes_round_trip_witness :
  working fresh_store ∧
  SM.getPreferences (SM.updatePreferences {[ "difficulty" := JStr "hard" ]} fresh_store)
  = {| SM.pref_difficulty := JStr "hard"; SM.pref_category := JStr "general" |}.
Proof.
  split; [exact fresh_store_working|].
  destruct (object_writes_round_trip {[ "difficulty" := JStr "hard" ]} fresh_store
              fresh_store_working) as (_ & -> & _).
  vm_compute. reflexivity.
Defined.

(** ** Writes that the medium refuses *)

Lemma setData_refused (key : string) (value : JValue) (this : SM.t) :
  LocalStorage.fault (SM.localStorage this) ≠ LocalStorage.Healthy →
  SM.setData key value this = (false, this).
Proof.
  intros Hf. unfold SM.setData, LocalStorage.setItem.
  destruct (SM.storageAvailable this); [|done]. simpl.
  by destruct (LocalStorage.fault (SM.localStorage this)).
Qed.

Lemma setAll_refused (entries : list (string * JValue)) (this : SM.t) :
  LocalStorage.fault (SM.localStorage this) ≠ LocalStorage.Healthy →
  SM.setAll entries this = this.
Proof.
  intros Hf. induction entries as [|[k v] entries IH]; [done|].
  unfold SM.setAll in *. simpl. by rewrite setData_refused.
Qed.

(** X7. When the medium refuses writes although the probe had succeeded (it
    has filled up since), [setData] returns [false] and leaves the store as
    it was; [resetProgress], [updatePreferences] and [importData], which do
    not look at that result, change nothing either, and [importData] still
    returns [true] for every object or array. *)
Theorem refused_writes_go_unreported (this : SM.t) :
  SM.storageAvailable this = true →
  LocalStorage.fault (SM.localStorage this) ≠ LocalStorage.Healthy →
  (∀ key value, SM.setData key value this = (false, this)) ∧
  SM.resetProgress this = this ∧
  (∀ preferences, SM.updatePreferences preferences this = this) ∧
  (∀ data, is_Some (SM.Object_entries data) → SM.importData data this = (true, this)).
Proof.
  intros Ha Hf.
  split; [intros; by apply setData_refused|].
  split; [by apply setAll_refused|].
  split; [intros; by apply setAll_refused|].
  intros data [entries Hentries]. unfold SM.importData. rewrite Ha, Hentries. simpl.
  by rewrite setAll_refused.
Qed.

Lemma refused_writes_go_unreported_witness :
  SM.storageAvailable full_store = true ∧
  LocalStorage.fault (SM.localStorage full_store) ≠ LocalStorage.Healthy ∧
  SM.importData (JObj {[ "totalScore" := JNum 0 ]}) full_store = (true, full_store) ∧
  SM.getMissedWords (SM.resetProgress full_store) = JObj (JNum <$> missed_counts).
Proof.
  split; [reflexivity|]. split; [discriminate|].
  destruct (refused_writes_go_unreported full_store eq_refl ltac:(discriminate))
    as (_ & Hreset & _ & Himport).
  split; [apply Himport; by eexists|].
  rewrite Hreset. vm_compute. reflexivity.
Defined.

(** ** [clearAll] *)

(** X8. [clearAll] on a working store returns [true] and removes exactly
    the items under the prefix: afterwards every [getData] returns the
    caller's default and [exportData] is empty, while the items of other
    applications on the same origin are as they were.  The next page load
    finds no [initialized] flag and starts from the defaults. *)
Theorem clearAll_forgets_own_keys_only (this : SM.t) :
  working this →
  ∃ this',
    SM.clearAll this = (true, this') ∧ working this' ∧
    (∀ key d, SM.getData key d this' = d) ∧
    SM.exportData this' = ∅ ∧
    (∀ key, startsWith key SM.storagePrefix = false →
            LocalStorage.items (SM.localStorage this') !! key
            = LocalStorage.items (SM.localStorage this) !! key) ∧
    reads_counters (SM.constructor (SM.localStorage this')) default_counters.
Proof.
  intros Hw. destruct (clearAll_working this Hw) as (items' & Heq & Hlook).
  eexists. split; [exact Heq|].
  set (this' := {| SM.storageAvailable := true;
                   SM.localStorage :=
                     {| LocalStorage.fault := LocalStorage.Healthy;
                        LocalStorage.items := items' |} |}).
  assert (Hw' : working this') by done.
  assert (Hgone : ∀ key, items' !! (SM.storagePrefix +:+ key) = None).
  { intros key. by rewrite Hlook, startsWith_app. }
  split; [done|].
  split.
  { intros key d. rewrite getData_working by done. simpl. by rewrite Hgone. }
  split.
  { apply map_eq. intros short. rewrite exportData_working, lookup_empty by done.
    case_decide; [done|]. cbn [SM.localStorage LocalStorage.items this'].
    by rewrite Hgone. }
  split.
  { intros key Hkey. simpl. by rewrite Hlook, Hkey. }
  apply constructor_first_visit; [done|]. simpl. apply Hgone.
Qed.

Lemma clearAll_forgets_own_keys_only_witness :
  working missed_store ∧
  ∃ this',
    SM.clearAll missed_store = (true, this') ∧
    SM.getMissedWords this' = JObj ∅ ∧ SM.exportData this' = ∅.
Proof.
  split; [exact missed_store_working|].
  destruct (clearAll_forgets_own_keys_only missed_store missed_store_working)
    as (this' & Heq & _ & Hreads & Hexport & _).
  exists this'. split; [exact Heq|]. split; [apply Hreads|exact Hexport].
Defined.

(** * Category completion *)

Lemma includes_app (word : string) (l k : list JValue) :
  includes word (l ++ k) = includes word l || includes word k.
Proof. apply existsb_app. Qed.

Lemma includes_snoc (word other : string) (l : list JValue) :
  includes word (l ++ [JStr other])
  = includes word l || bool_decide (other = word).
Proof.
  rewrite includes_app. f_equal. unfold includes. simpl. rewrite orb_false_r.
  destruct (String.eqb_spec other word) as [->|Hne].
  - by rewrite bool_decide_eq_true_2.
  - by rewrite bool_decide_eq_false_2.
Qed.

Lemma includes_false_not_elem (word : string) (l : list JValue) :
  includes word l = false → JStr word ∉ l.
Proof.
  induction l as [|v l IH]; intros Hincl Hin; [by apply elem_of_nil in Hin|].
  unfold includes in *. simpl in Hincl. apply orb_false_iff in Hincl as [Hv Hl].
  apply elem_of_cons in Hin as [<-|Hin].
  - simpl in Hv. by rewrite String.eqb_refl in Hv.
  - by apply IH.
Qed.

(** The key of a list of completed categories is no key of a date. *)
Lemma completedKey_ne_timestampKey (d d' c : string) :
  "completedCategories_" +:+ d ≠ "categoryCompleted_" +:+ d' +:+ "_" +:+ c.
Proof. discriminate. Qed.

Lemma completedKey_inj (d d' : string) :
  "completedCategories_" +:+ d = "completedCategories_" +:+ d' → d = d'.
Proof. apply String.app_inj. Qed.

Lemma timestampKey_inj (d c c' : string) :
  "categoryCompleted_" +:+ d +:+ "_" +:+ c = "categoryCompleted_" +:+ d +:+ "_" +:+ c' →
  c = c'.
Proof.
  intros Heq. apply String.app_inj in Heq. apply String.app_inj in Heq.
  by apply String.app_inj in Heq.
Qed.

(** What [markCategoryCompleted] does to a working store. *)
Lemma markCategoryCompleted_working (now d c : string) (this : SM.t)
    (completed : list JValue) :
  working this → SM.getCompletedCategories d this = JArr completed →
  SM.markCategoryCompleted now d c this
  = Some (if includes c completed then this
          else (SM.setData ("categoryCompleted_" +:+ d +:+ "_" +:+ c) (JStr now)
                  (SM.setData ("completedCategories_" +:+ d)
                     (JArr (completed ++ [JStr c])) this).2).2).
Proof.
  intros Hw Hlist. unfold SM.markCategoryCompleted. rewrite Hlist.
  by destruct (includes c completed).
Qed.

(** X9. On a working store whose list for [difficulty] is an array,
    [markCategoryCompleted] succeeds and the category then reads as
    completed.  A category not yet in the list is appended and the time of
    the call becomes its completion date; one already in the list leaves the
    store as it is, so that the list stays free of duplicates and a category
    keeps the date of its first completion however often it is marked. *)
Theorem markCategoryCompleted_records_once (now d c : string) (this : SM.t)
    (completed : list JValue) :
  working this → SM.getCompletedCategories d this = JArr completed →
  ∃ this',
    SM.markCategoryCompleted now d c this = Some this' ∧ working this' ∧
    SM.isCategoryCompleted d c this' = Some true ∧
    SM.getCompletedCategories d this'
      = JArr (if includes c completed then completed else completed ++ [JStr c]) ∧
    SM.getCategoryCompletionDate d c this'
      = (if includes c completed then SM.getCategoryCompletionDate d c this else JStr now) ∧
    (includes c completed = true → this' = this) ∧
    (NoDup completed →
     NoDup (if includes c completed then completed else completed ++ [JStr c])) ∧
    (∀ later, SM.markCategoryCompleted later d c this' = Some this').
Proof.
  intros Hw Hlist. eexists. split; [by apply markCategoryCompleted_working|].
  destruct (includes c completed) eqn:Hincl.
  - split; [done|].
    split; [unfold SM.isCategoryCompleted; by rewrite Hlist, Hincl|].
    split; [done|]. split; [done|]. split; [done|]. split; [done|].
    intros later. rewrite (markCategoryCompleted_working _ _ _ _ _ Hw Hlist).
    by rewrite Hincl.
  - set (this1 := (SM.setData ("completedCategories_" +:+ d)
                     (JArr (completed ++ [JStr c])) this).2).
    set (this2 := (SM.setData ("categoryCompleted_" +:+ d +:+ "_" +:+ c) (JStr now)
                     this1).2).
    assert (Hw1 : working this1) by by apply setData_keeps_working.
    assert (Hw2 : working this2) by by apply setData_keeps_working.
    assert (Hlist2 : SM.getCompletedCategories d this2
                     = JArr (completed ++ [JStr c])).
    { unfold SM.getCompletedCategories, this2.
      rewrite getData_setData_ne
        by (intros Heq; symmetry in Heq; by apply completedKey_ne_timestampKey in Heq).
      by apply getData_setData_eq. }
    assert (Hincl2 : includes c (completed ++ [JStr c]) = true).
    { rewrite includes_snoc, bool_decide_eq_true_2 by done. apply orb_true_r. }
    split; [done|].
    split; [unfold SM.isCategoryCompleted; by rewrite Hlist2, Hincl2|].
    split; [done|].
    split; [by apply getData_setData_eq|].
    split; [done|].
    split.
    { intros Hnodup. apply NoDup_app. split; [done|]. split; [|apply NoDup_singleton].
      intros v Hv Hin. apply list_elem_of_singleton in Hin as ->.
      by apply includes_false_not_elem in Hincl. }
    intros later. rewrite (markCategoryCompleted_working _ _ _ _ _ Hw2 Hlist2).
    by rewrite Hincl2.
Qed.

Lemma fresh_store_no_categories (d : string) :
  SM.getCompletedCategories d fresh_store = JArr [].
Proof.
  destruct (constructor_first_visit empty_storage eq_refl (lookup_empty _))
    as (_ & _ & _ & Hother).
  unfold SM.getCompletedCategories, fresh_store.
  rewrite Hother by apply (proj1 (completion_keys_not_default d "")).
  cbn [empty_storage LocalStorage.items]. by rewrite lookup_empty.
Qed.

Lemma markCategoryCompleted_records_once_witness :
  working fresh_store ∧
  SM.getCompletedCategories "easy" fresh_store = JArr [] ∧
  ∃ this',
    SM.markCategoryCompleted "2025-01-01T10:00:00.000Z" "easy" "general" fresh_store
      = Some this' ∧
    SM.markCategoryCompleted "2025-02-02T20:00:00.000Z" "easy" "general" this' = Some this' ∧
    SM.getCategoryCompletionDate "easy" "general" this' = JStr "2025-01-01T10:00:00.000Z".
Proof.
  split; [exact fresh_store_working|].
  split; [apply fresh_store_no_categories|].
  destruct (markCategoryCompleted_records_once "2025-01-01T10:00:00.000Z" "easy" "general"
              fresh_store [] fresh_store_working (fresh_store_no_categories "easy"))
    as (this' & Heq & _ & _ & _ & Hdate & _ & _ & Hagain).
  exists this'. split; [exact Heq|]. split; [apply Hagain|exact Hdate].
Defined.

(** X10. [markCategoryCompleted] writes two keys and nothing else: the list
    of its difficulty and the date of its pair.  Every other (difficulty,
    category) pair reads as completed or not as before, the lists of the other
    difficulties and the dates of the other categories of this difficulty are
    unchanged, and so is every key of the progress ledger. *)
Theorem markCategoryCompleted_frame (now d c : string) (this this' : SM.t) :
  working this →
  SM.markCategoryCompleted now d c this = Some this' →
  (∀ key dflt,
     key ≠ "completedCategories_" +:+ d →
     key ≠ "categoryCompleted_" +:+ d +:+ "_" +:+ c →
     SM.getData key dflt this' = SM.getData key dflt this) ∧
  (∀ d' c', d' ≠ d ∨ c' ≠ c →
            SM.isCategoryCompleted d' c' this' = SM.isCategoryCompleted d' c' this) ∧
  (∀ d', d' ≠ d → SM.getCompletedCategories d' this' = SM.getCompletedCategories d' this) ∧
  (∀ c', c' ≠ c →
         SM.getCategoryCompletionDate d c' this' = SM.getCategoryCompletionDate d c' this) ∧
  (∀ key dflt, key ∈ SM.defaultData.*1 →
               SM.getData key dflt this' = SM.getData key dflt this).
Proof.
  intros Hw Hmark.
  destruct (SM.getCompletedCategories d this) as [| | | |completed|] eqn:Hlist;
    try (unfold SM.markCategoryCompleted in Hmark; by rewrite Hlist in Hmark).
  rewrite (markCategoryCompleted_working _ _ _ _ _ Hw Hlist) in Hmark.
  injection Hmark as <-.
  assert (Hframe : ∀ key dflt,
            key ≠ "completedCategories_" +:+ d →
            key ≠ "categoryCompleted_" +:+ d +:+ "_" +:+ c →
            SM.getData key dflt
              (if includes c completed then this
               else (SM.setData ("categoryCompleted_" +:+ d +:+ "_" +:+ c) (JStr now)
                       (SM.setData ("completedCategories_" +:+ d)
                          (JArr (completed ++ [JStr c])) this).2).2)
            = SM.getData key dflt this).
  { intros key dflt Hlistkey Hdatekey. destruct (includes c completed); [done|].
    by rewrite !getData_setData_ne by done. }
  assert (Hother : ∀ d', d' ≠ d →
            SM.getCompletedCategories d'
              (if includes c completed then this
               else (SM.setData ("categoryCompleted_" +:+ d +:+ "_" +:+ c) (JStr now)
                       (SM.setData ("completedCategories_" +:+ d)
                          (JArr (completed ++ [JStr c])) this).2).2)
            = SM.getCompletedCategories d' this).
  { intros d' Hd. unfold SM.getCompletedCategories. apply Hframe.
    - intros Heq. by apply completedKey_inj in Heq.
    - apply completedKey_ne_timestampKey. }
  split; [exact Hframe|].
  split.
  { intros d' c' Hpair. unfold SM.isCategoryCompleted.
    destruct (decide (d' = d)) as [->|Hd]; [|by rewrite Hother].
    destruct Hpair as [?|Hc]; [done|].
    destruct (includes c completed) eqn:Hincl; [done|].
    unfold SM.getCompletedCategories in *.
    rewrite getData_setData_ne
      by (intros Heq; symmetry in Heq; by apply completedKey_ne_timestampKey in Heq).
    rewrite getData_setData_eq, Hlist by done.
    rewrite includes_snoc, bool_decide_eq_false_2 by done. by rewrite orb_false_r. }
  split; [exact Hother|].
  split.
  { intros c' Hc. unfold SM.getCategoryCompletionDate. apply Hframe.
    - intros Heq. symmetry in Heq. by apply completedKey_ne_timestampKey in Heq.
    - intros Heq. by apply timestampKey_inj in Heq. }
  intros key dflt Hkey. apply Hframe.
  - intros ->. by apply (proj1 (completion_keys_not_default d c)).
  - intros ->. by apply (proj2 (completion_keys_not_default d c)).
Qed.

Lemma markCategoryCompleted_frame_witness :
  working missed_store ∧
  ∃ this',
    SM.markCategoryCompleted "2025-01-01T10:00:00.000Z" "easy" "general" missed_store
      = Some this' ∧
    SM.isCategoryCompleted "hard" "general" this' = Some false ∧
    SM.getMissedWords this' = JObj (JNum <$> missed_counts).
Proof.
  split; [exact missed_store_working|].
  assert (Hlist : SM.getCompletedCategories "easy" missed_store = JArr [])
    by (vm_compute; reflexivity).
  assert (Hmark := markCategoryCompleted_working "2025-01-01T10:00:00.000Z" "easy"
                     "general" missed_store [] missed_store_working Hlist).
  cbn [includes existsb] in Hmark.
  eexists. split; [exact Hmark|].
  destruct (markCategoryCompleted_frame _ _ _ _ _ missed_store_working Hmark)
    as (_ & Hpairs & _ & _ & Hledger).
  split.
  - rewrite Hpairs by (left; discriminate). vm_compute. reflexivity.
  - unfold SM.getMissedWords. rewrite Hledger; [vm_compute; reflexivity|].
    apply (bool_decide_unpack _). vm_compute. reflexivity.
Defined.

(** ** [getCategoryCompletionStats] *)

Lemma getCategoryCompletionStats_value (this : SM.t) (e m h : list JValue) :
  SM.getCompletedCategories "easy" this = JArr e →
  SM.getCompletedCategories "medium" this = JArr m →
  SM.getCompletedCategories "hard" this = JArr h →
  SM.getCategoryCompletionStats this
  = Some {| SM.totalCategories := 9;
            SM.completedCategories :=
              0 + Z.of_nat (length e) + Z.of_nat (length m) + Z.of_nat (length h);
            SM.byDifficulty :=
              <["hard" := completion_of h]>
                (<["medium" := completion_of m]> (<["easy" := completion_of e]> ∅));
            SM.completionPercentage :=
              percentage
                (0 + Z.of_nat (length e) + Z.of_nat (length m) + Z.of_nat (length h)) 9 |}.
Proof.
  intros He Hm Hh. unfold SM.getCategoryCompletionStats. cbn [foldl].
  rewrite He. cbn [mbind option_bind]. rewrite Hm. cbn [mbind option_bind]. rewrite Hh.
  reflexivity.
Qed.

Lemma standard_categories_length (completed : list JValue) :
  standard_categories completed → length completed ≤ 3.
Proof.
  intros [Hnodup Hin].
  apply (submseteq_length completed [JStr "general"; JStr "academic"; JStr "business"]).
  by apply NoDup_submseteq.
Qed.

(** X11. When the lists of the three difficulties are arrays,
    [getCategoryCompletionStats] counts nine categories in total and, as
    completed, the lengths of the three lists, and gives each difficulty its
    list with the percentage of three that its length is.  Lists as
    [markCategoryCompleted] builds them from the game's three categories
    have at most three entries, and then at most nine categories are
    completed and no percentage exceeds 100. *)
Theorem completion_stats_bounds (this : SM.t) (e m h : list JValue) :
  SM.getCompletedCategories "easy" this = JArr e →
  SM.getCompletedCategories "medium" this = JArr m →
  SM.getCompletedCategories "hard" this = JArr h →
  ∃ stats,
    SM.getCategoryCompletionStats this = Some stats ∧
    SM.totalCategories stats = 9%Z ∧
    SM.completedCategories stats = Z.of_nat (length e + length m + length h) ∧
    SM.completionPercentage stats = percentage (SM.completedCategories stats) 9 ∧
    SM.byDifficulty stats !! "easy" = Some (completion_of e) ∧
    SM.byDifficulty stats !! "medium" = Some (completion_of m) ∧
    SM.byDifficulty stats !! "hard" = Some (completion_of h) ∧
    (standard_categories e → standard_categories m → standard_categories h →
     (0 ≤ SM.completedCategories stats ≤ 9)%Z ∧
     (0 ≤ SM.completionPercentage stats ≤ 100)%Z ∧
     (∀ l, l ∈ [e; m; h] → (0 ≤ SM.dc_percentage (completion_of l) ≤ 100)%Z)).
Proof.
  intros He Hm Hh. eexists.
  split; [by apply getCategoryCompletionStats_value|].
  cbn [SM.totalCategories SM.completedCategories SM.completionPercentage SM.byDifficulty].
  split; [done|]. split; [lia|]. split; [done|].
  split; [by rewrite !lookup_insert_ne, lookup_insert_eq by done|].
  split; [by rewrite lookup_insert_ne, lookup_insert_eq by done|].
  split; [by rewrite lookup_insert_eq|].
  intros Hse Hsm Hsh.
  apply standard_categories_length in Hse, Hsm, Hsh.
  split; [lia|]. split; [apply percentage_range; lia|].
  intros l Hl. unfold completion_of. cbn [SM.dc_percentage].
  apply percentage_range; [|lia].
  repeat (apply elem_of_cons in Hl as [->|Hl]; [lia|]). by apply elem_of_nil in Hl.
Qed.

Lemma completion_stats_bounds_witness :
  SM.getCompletedCategories "easy" two_easy_store = JArr [JStr "general"; JStr "business"] ∧
  SM.getCompletedCategories "medium" two_easy_store = JArr [] ∧
  SM.getCompletedCategories "hard" two_easy_store = JArr [] ∧
  ∃ stats,
    SM.getCategoryCompletionStats two_easy_store = Some stats ∧
    SM.completedCategories stats = 2%Z ∧
    SM.completionPercentage stats = 22%Z.
Proof.
  split; [vm_compute; reflexivity|]. split; [vm_compute; reflexivity|].
  split; [vm_compute; reflexivity|].
  destruct (completion_stats_bounds two_easy_store [JStr "general"; JStr "business"] [] []
              ltac:(vm_compute; reflexivity) ltac:(vm_compute; reflexivity)
              ltac:(vm_compute; reflexivity))
    as (stats & Heq & _ & Hcompleted & Hpercent & _).
  exists stats. split; [exact Heq|]. split; [exact Hcompleted|].
  rewrite Hpercent, Hcompleted. vm_compute. reflexivity.
Defined.

(** ** [resetCategoryCompletion] *)

(** The four writes of the branch for one difficulty. *)
Lemma resetDifficultyCompletion_reads (d : string) (this : SM.t) :
  working this →
  working (SM.resetDifficultyCompletion d this) ∧
  (SM.getCompletedCategories d (SM.resetDifficultyCompletion d this) = JArr []) ∧
  (∀ c, c ∈ ["general"; "academic"; "business"] →
        SM.getCategoryCompletionDate d c (SM.resetDifficultyCompletion d this) = JNull) ∧
  (∀ key dflt,
     key ≠ "completedCategories_" +:+ d →
     (∀ c, c ∈ ["general"; "academic"; "business"] →
           key ≠ "categoryCompleted_" +:+ d +:+ "_" +:+ c) →
     SM.getData key dflt (SM.resetDifficultyCompletion d this) = SM.getData key dflt this).
Proof.
  intros Hw. unfold SM.resetDifficultyCompletion. cbn [foldl].
  set (this1 := (SM.setData ("completedCategories_" +:+ d) (JArr []) this).2).
  set (this2 := (SM.setData ("categoryCompleted_" +:+ d +:+ "_" +:+ "general") JNull this1).2).
  set (this3 := (SM.setData ("categoryCompleted_" +:+ d +:+ "_" +:+ "academic") JNull this2).2).
  assert (Hw1 : working this1) by by apply setData_keeps_working.
  assert (Hw2 : working this2) by by apply setData_keeps_working.
  assert (Hw3 : working this3) by by apply setData_keeps_working.
  assert (Hts : ∀ c c', c ≠ c' →
            "categoryCompleted_" +:+ d +:+ "_" +:+ c
            ≠ "categoryCompleted_" +:+ d +:+ "_" +:+ c').
  { intros c c' Hne Heq. by apply timestampKey_inj in Heq. }
  assert (Hck : ∀ c, "categoryCompleted_" +:+ d +:+ "_" +:+ c
                     ≠ "completedCategories_" +:+ d).
  { intros c Heq. symmetry in Heq. by apply completedKey_ne_timestampKey in Heq. }
  split; [by apply setData_keeps_working|].
  split.
  { unfold SM.getCompletedCategories.
    rewrite (getData_setData_ne _ _ _ _ this3) by apply Hck.
    unfold this3. rewrite (getData_setData_ne _ _ _ _ this2) by apply Hck.
    unfold this2. rewrite (getData_setData_ne _ _ _ _ this1) by apply Hck.
    by apply getData_setData_eq. }
  split.
  { intros c Hc. unfold SM.getCategoryCompletionDate.
    apply elem_of_cons in Hc as [->|Hc].
    { rewrite (getData_setData_ne _ _ _ _ this3) by by apply Hts.
      unfold this3. rewrite (getData_setData_ne _ _ _ _ this2) by by apply Hts.
      by apply getData_setData_eq. }
    apply elem_of_cons in Hc as [->|Hc].
    { rewrite (getData_setData_ne _ _ _ _ this3) by by apply Hts.
      by apply getData_setData_eq. }
    apply elem_of_cons in Hc as [->|Hc]; [by apply getData_setData_eq|].
    by apply elem_of_nil in Hc. }
  intros key dflt Hlist Hdates.
  rewrite (getData_setData_ne _ _ _ _ this3)
    by (apply not_eq_sym, Hdates; repeat constructor).
  unfold this3. rewrite (getData_setData_ne _ _ _ _ this2)
    by (apply not_eq_sym, Hdates; repeat constructor).
  unfold this2. rewrite (getData_setData_ne _ _ _ _ this1)
    by (apply not_eq_sym, Hdates; repeat constructor).
  by apply getData_setData_ne.
Qed.

(** X12. [resetCategoryCompletion] for one difficulty empties the list of
    that difficulty, so that none of its categories reads as completed, and
    sets the dates of its three standard categories to [null].  It touches
    nothing else: the lists of the other difficulties, the progress ledger
    and the date of a category outside the standard three stay as they
    were. *)
Theorem resetCategoryCompletion_one_difficulty (d : string) (this : SM.t) :
  working this → d ≠ "" →
  working (SM.resetCategoryCompletion (Some d) this) ∧
  SM.getCompletedCategories d (SM.resetCategoryCompletion (Some d) this) = JArr [] ∧
  (∀ c, SM.isCategoryCompleted d c (SM.resetCategoryCompletion (Some d) this)
        = Some false) ∧
  (∀ c, c ∈ ["general"; "academic"; "business"] →
        SM.getCategoryCompletionDate d c (SM.resetCategoryCompletion (Some d) this)
        = JNull) ∧
  (∀ c, c ∉ ["general"; "academic"; "business"] →
        SM.getCategoryCompletionDate d c (SM.resetCategoryCompletion (Some d) this)
        = SM.getCategoryCompletionDate d c this) ∧
  (∀ d', d' ≠ d →
         SM.getCompletedCategories d' (SM.resetCategoryCompletion (Some d) this)
         = SM.getCompletedCategories d' this) ∧
  (∀ key dflt, key ∈ SM.defaultData.*1 →
               SM.getData key dflt (SM.resetCategoryCompletion (Some d) this)
               = SM.getData key dflt this).
Proof.
  intros Hw Hd.
  assert (Heq : SM.resetCategoryCompletion (Some d) this
                = SM.resetDifficultyCompletion d this).
  { unfold SM.resetCategoryCompletion.
    destruct (String.eqb_spec d "") as [->|_]; [done|]. reflexivity. }
  rewrite Heq.
  destruct (resetDifficultyCompletion_reads d this Hw) as (Hw' & Hlist & Hdates & Hframe).
  split; [exact Hw'|]. split; [exact Hlist|].
  split; [intros c; unfold SM.isCategoryCompleted; by rewrite Hlist|].
  split; [exact Hdates|].
  split.
  { intros c Hc. unfold SM.getCategoryCompletionDate. apply Hframe.
    - intros Heq'. symmetry in Heq'. by apply completedKey_ne_timestampKey in Heq'.
    - intros c' Hc' Heq'. apply timestampKey_inj in Heq'. by subst. }
  split.
  { intros d' Hd'. unfold SM.getCompletedCategories. apply Hframe.
    - intros Heq'. by apply completedKey_inj in Heq'.
    - intros c _. apply completedKey_ne_timestampKey. }
  intros key dflt Hkey. apply Hframe.
  - intros ->. by apply (proj1 (completion_keys_not_default d "")).
  - intros c _ ->. by apply (proj2 (completion_keys_not_default d c)).
Qed.

Lemma two_easy_store_working : working two_easy_store.
Proof. split; vm_compute; reflexivity. Qed.

Lemma resetCategoryCompletion_one_difficulty_witness :
  working two_easy_store ∧ "easy" ≠ "" ∧
  SM.isCategoryCompleted "easy" "general" two_easy_store = Some true ∧
  SM.isCategoryCompleted "easy" "general"
    (SM.resetCategoryCompletion (Some "easy") two_easy_store) = Some false.
Proof.
  split; [exact two_easy_store_working|]. split; [discriminate|].
  split; [vm_compute; reflexivity|].
  destruct (resetCategoryCompletion_one_difficulty "easy" two_easy_store
              two_easy_store_working ltac:(discriminate)) as (_ & _ & Hnone & _).
  apply Hnone.
Defined.

(** Without an argument the three difficulties are reset in turn. *)
Lemma resetCategoryCompletion_all (difficulty : option string) (this : SM.t) :
  difficulty = None ∨ difficulty = Some "" →
  SM.resetCategoryCompletion difficulty this
  = SM.resetDifficultyCompletion "hard"
      (SM.resetDifficultyCompletion "medium" (SM.resetDifficultyCompletion "easy" this)).
Proof. by intros [->| ->]. Qed.

(** X13. [resetCategoryCompletion] without a difficulty (or with the empty
    string) empties the lists of easy, medium and hard:
    [getCategoryCompletionStats] then reports none of the nine categories as
    completed, at 0 percent.  The list of any other difficulty name and the
    progress ledger are left as they were. *)
Theorem resetCategoryCompletion_all_difficulties (difficulty : option string)
    (this : SM.t) :
  working this →
  difficulty = None ∨ difficulty = Some "" →
  working (SM.resetCategoryCompletion difficulty this) ∧
  (∀ d c, d ∈ ["easy"; "medium"; "hard"] →
          SM.isCategoryCompleted d c (SM.resetCategoryCompletion difficulty this)
          = Some false) ∧
  SM.getCategoryCompletionStats (SM.resetCategoryCompletion difficulty this)
  = Some {| SM.totalCategories := 9;
            SM.completedCategories := 0;
            SM.byDifficulty :=
              {[ "easy" := completion_of []; "medium" := completion_of [];
                 "hard" := completion_of [] ]};
            SM.completionPercentage := 0 |} ∧
  (∀ d, d ∉ ["easy"; "medium"; "hard"] →
        SM.getCompletedCategories d (SM.resetCategoryCompletion difficulty this)
        = SM.getCompletedCategories d this) ∧
  (∀ key dflt, key ∈ SM.defaultData.*1 →
               SM.getData key dflt (SM.resetCategoryCompletion difficulty this)
               = SM.getData key dflt this).
Proof.
  intros Hw Hall. rewrite (resetCategoryCompletion_all _ _ Hall).
  destruct (resetDifficultyCompletion_reads "easy" this Hw) as (Hw1 & Hl1 & _ & Hf1).
  destruct (resetDifficultyCompletion_reads "medium" _ Hw1) as (Hw2 & Hl2 & _ & Hf2).
  destruct (resetDifficultyCompletion_reads "hard" _ Hw2) as (Hw3 & Hl3 & _ & Hf3).
  assert (Hother : ∀ d d' s,
            d' ≠ d →
            (∀ key dflt,
               key ≠ "completedCategories_" +:+ d →
               (∀ c, c ∈ ["general"; "academic"; "business"] →
                     key ≠ "categoryCompleted_" +:+ d +:+ "_" +:+ c) →
               SM.getData key dflt (SM.resetDifficultyCompletion d s)
               = SM.getData key dflt s) →
            SM.getCompletedCategories d' (SM.resetDifficultyCompletion d s)
            = SM.getCompletedCategories d' s).
  { intros d d' s Hne Hf. unfold SM.getCompletedCategories. apply Hf.
    - intros Heq. by apply completedKey_inj in Heq.
    - intros c _. apply completedKey_ne_timestampKey. }
  assert (He : SM.getCompletedCategories "easy"
                 (SM.resetDifficultyCompletion "hard"
                    (SM.resetDifficultyCompletion "medium"
                       (SM.resetDifficultyCompletion "easy" this))) = JArr []).
  { rewrite (Hother "hard" "easy") by (done || apply Hf3).
    by rewrite (Hother "medium" "easy") by (done || apply Hf2). }
  assert (Hm : SM.getCompletedCategories "medium"
                 (SM.resetDifficultyCompletion "hard"
                    (SM.resetDifficultyCompletion "medium"
                       (SM.resetDifficultyCompletion "easy" this))) = JArr []).
  { by rewrite (Hother "hard" "medium") by (done || apply Hf3). }
  split; [exact Hw3|].
  split.
  { intros d c Hd. unfold SM.isCategoryCompleted.
    repeat (apply elem_of_cons in Hd as [->|Hd]; [by rewrite ?He, ?Hm, ?Hl3|]).
    by apply elem_of_nil in Hd. }
  split.
  { rewrite (getCategoryCompletionStats_value _ [] [] [] He Hm Hl3).
    vm_compute. reflexivity. }
  split.
  { intros d Hd.
    assert (d ≠ "easy" ∧ d ≠ "medium" ∧ d ≠ "hard") as (? & ? & ?).
    { repeat split; intros ->; apply Hd; repeat constructor. }
    rewrite (Hother "hard" d) by (done || apply Hf3).
    rewrite (Hother "medium" d) by (done || apply Hf2).
    by rewrite (Hother "easy" d) by (done || apply Hf1). }
  intros key dflt Hkey.
  assert (Hledger : ∀ d s,
            (∀ key dflt,
               key ≠ "completedCategories_" +:+ d →
               (∀ c, c ∈ ["general"; "academic"; "business"] →
                     key ≠ "categoryCompleted_" +:+ d +:+ "_" +:+ c) →
               SM.getData key dflt (SM.resetDifficultyCompletion d s)
               = SM.getData key dflt s) →
            SM.getData key dflt (SM.resetDifficultyCompletion d s)
            = SM.getData key dflt s).
  { intros d s Hf. apply Hf.
    - intros ->. by apply (proj1 (completion_keys_not_default d "")).
    - intros c _ ->. by apply (proj2 (completion_keys_not_default d c)). }
  rewrite (Hledger "hard") by apply Hf3.
  rewrite (Hledger "medium") by apply Hf2.
  by rewrite (Hledger "easy") by apply Hf1.
Qed.

Lemma resetCategoryCompletion_all_difficulties_witness :
  working two_easy_store ∧
  ∃ stats,
    SM.getCategoryCompletionStats (SM.resetCategoryCompletion None two_easy_store)
      = Some stats ∧
    SM.completedCategories stats = 0%Z ∧ SM.completionPercentage stats = 0%Z.
Proof.
  split; [exact two_easy_store_working|].
  destruct (resetCategoryCompletion_all_difficulties None two_easy_store
              two_easy_store_working ltac:(by left)) as (_ & _ & Hstats & _).
  eexists. split; [exact Hstats|]. by split.
Defined.

(** * Further properties of the word manager *)

(** ** [shuffleArray] *)

Lemma shuffleFrom_length {A : Type} (random : nat -> Draw) (i : nat) (shuffled : list A)
    (drawn : nat) :
  length (WM.shuffleFrom random i shuffled drawn).1 = length shuffled.
Proof.
  revert shuffled drawn. induction i as [|i IH]; intros shuffled drawn; [done|].
  simpl. by rewrite IH, swap_length.
Qed.

Lemma shuffleFrom_drawn {A : Type} (random : nat -> Draw) (i : nat) (shuffled : list A)
    (drawn : nat) :
  (WM.shuffleFrom random i shuffled drawn).2 = drawn + i.
Proof.
  revert shuffled drawn. induction i as [|i IH]; intros shuffled drawn; simpl; [lia|].
  rewrite IH. lia.
Qed.

(** X14. Whatever [Math.random] returns, [shuffleArray] returns a
    permutation of its argument: the same elements, each as often as
    before, hence the same length.  It draws one random number for each
    position but the first, so none for an empty or one-element array, which
    it returns as it is. *)
Theorem shuffleArray_permutes {A : Type} (random : nat -> Draw) (array : list A)
    (drawn : nat) :
  (WM.shuffleArray random array drawn).1 ≡ₚ array ∧
  length (WM.shuffleArray random array drawn).1 = length array ∧
  (WM.shuffleArray random array drawn).2 = drawn + (length array - 1) ∧
  (length array ≤ 1 → WM.shuffleArray random array drawn = (array, drawn)).
Proof.
  split; [apply shuffleArray_Permutation|].
  split; [apply shuffleFrom_length|].
  split; [apply shuffleFrom_drawn|].
  intros Hshort. unfold WM.shuffleArray.
  by replace (length array - 1) with 0 by lia.
Qed.

(** ** [loadWords] *)

(** A call of [loadWords] touches no other bank, no cycle and not the
    storage, whatever its key. *)
Lemma loadWords_frame (fetch : string -> WM.Response) (difficulty category : string)
    (this : WM.t) :
  (∀ key, key ≠ WM.cacheKey difficulty category →
          WM.words (WM.loadWords fetch difficulty category this).2 !! key
          = WM.words this !! key) ∧
  WM.cycleState (WM.loadWords fetch difficulty category this).2 = WM.cycleState this ∧
  WM.storage (WM.loadWords fetch difficulty category this).2 = WM.storage this ∧
  WM.usedWords (WM.loadWords fetch difficulty category this).2 = WM.usedWords this.
Proof.
  assert (Hset : ∀ bank,
    (∀ key, key ≠ WM.cacheKey difficulty category →
            WM.words (WM.set_words (<[WM.cacheKey difficulty category := bank]>
                                      (WM.words this)) this) !! key
            = WM.words this !! key) ∧
    WM.cycleState (WM.set_words (<[WM.cacheKey difficulty category := bank]>
                                   (WM.words this)) this) = WM.cycleState this ∧
    WM.storage (WM.set_words (<[WM.cacheKey difficulty category := bank]>
                                (WM.words this)) this) = WM.storage this ∧
    WM.usedWords (WM.set_words (<[WM.cacheKey difficulty category := bank]>
                                  (WM.words this)) this) = WM.usedWords this).
  { intros bank. repeat split. intros key Hkey. simpl. by rewrite lookup_insert_ne. }
  unfold WM.loadWords.
  destruct (get _ (WM.words this)); [done..|].
  destruct (WM.getSampleWords difficulty category) as [sample|];
    destruct (fetch _) as [| | |data]; try done; try apply Hset;
    destruct (WM.validateWordData data); try done; apply Hset.
Qed.

(** What a call of [loadWords] leaves under a key that is no inherited
    name. *)
Lemma loadWords_stores (fetch : string -> WM.Response) (difficulty category : string)
    (this : WM.t) :
  inherited (WM.cacheKey difficulty category) = false →
  ∃ bank,
    WM.words (WM.loadWords fetch difficulty category this).2
      !! WM.cacheKey difficulty category = Some bank ∧
    (WM.words this !! WM.cacheKey difficulty category = None →
     (WM.loadWords fetch difficulty category this).1 = false →
     WM.getSampleWords difficulty category = Some bank) ∧
    (∀ cached, WM.words this !! WM.cacheKey difficulty category = Some cached →
               bank = cached).
Proof.
  intros Hplain. unfold WM.loadWords. rewrite get_plain by done.
  destruct (WM.words this !! WM.cacheKey difficulty category) as [cached|] eqn:Hcached.
  { exists cached. simpl. repeat split; try done. by intros ? [= <-]. }
  destruct (getSampleWords_nonempty difficulty category Hplain) as (sample & -> & _).
  destruct (fetch _) as [| | |data].
  1-3: (eexists; simpl; rewrite lookup_insert_eq; by repeat split).
  destruct (WM.validateWordData data).
  - eexists. simpl. rewrite lookup_insert_eq. by repeat split.
  - eexists. simpl. rewrite lookup_insert_eq. by repeat split.
Qed.

(** X15. For a key that is no inherited name (none that the game makes
    is), every call of [loadWords] leaves a bank cached under the key and
    touches no other bank, no cycle, and not the storage.  Once the key is
    cached, further calls return [true] and change nothing, whatever the
    network would answer: in particular a load that failed and fell back to
    the sample bank is never tried again, and is reported as a success from
    then on. *)
Theorem loadWords_caches_for_good (fetch later : string -> WM.Response)
    (difficulty category : string) (this : WM.t) :
  inherited (WM.cacheKey difficulty category) = false →
  is_Some (WM.words (WM.loadWords fetch difficulty category this).2
             !! WM.cacheKey difficulty category) ∧
  (∀ key, key ≠ WM.cacheKey difficulty category →
          WM.words (WM.loadWords fetch difficulty category this).2 !! key
          = WM.words this !! key) ∧
  WM.cycleState (WM.loadWords fetch difficulty category this).2 = WM.cycleState this ∧
  WM.storage (WM.loadWords fetch difficulty category this).2 = WM.storage this ∧
  WM.loadWords later difficulty category (WM.loadWords fetch difficulty category this).2
  = (true, (WM.loadWords fetch difficulty category this).2) ∧
  ((WM.loadWords fetch difficulty category this).1 = false →
   WM.words (WM.loadWords fetch difficulty category this).2
     !! WM.cacheKey difficulty category
   = WM.getSampleWords difficulty category).
Proof.
  intros Hplain.
  destruct (loadWords_stores fetch difficulty category this Hplain)
    as (bank & Hbank & Hsample & Hcached).
  destruct (loadWords_frame fetch difficulty category this)
    as (Hother & Hcycle & Hstorage & _).
  split; [by eexists|]. split; [exact Hother|]. split; [exact Hcycle|].
  split; [exact Hstorage|].
  split; [by apply (loadWords_cached _ _ _ _ bank)|].
  intros Hfailed. rewrite Hbank. symmetry.
  destruct (WM.words this !! WM.cacheKey difficulty category) as [cached|] eqn:Hwas.
  - rewrite (loadWords_cached _ _ _ _ _ Hwas) in Hfailed. discriminate Hfailed.
  - by apply Hsample.
Qed.

Lemma loadWords_caches_for_good_witness :
  inherited (WM.cacheKey "hard" "business") = false ∧
  (WM.loadWords offline "hard" "business" new_manager).1 = false ∧
  WM.loadWords calm_document "hard" "business"
    (WM.loadWords offline "hard" "business" new_manager).2
  = (true, (WM.loadWords offline "hard" "business" new_manager).2).
Proof.
  assert (Hplain : inherited (WM.cacheKey "hard" "business") = false)
    by (vm_compute; reflexivity).
  split; [exact Hplain|]. split; [vm_compute; reflexivity|].
  exact (proj1 (proj2 (proj2 (proj2 (proj2
           (loadWords_caches_for_good offline calm_document "hard" "business"
              new_manager Hplain)))))).
Defined.

(** ** [getNextWord]: what a call touches *)

Lemma same_but_refl (key : string) (this : WM.t) : same_but key this this.
Proof. repeat split; done. Qed.

Lemma same_but_trans (key : string) (this1 this2 this3 : WM.t) :
  same_but key this1 this2 → same_but key this2 this3 → same_but key this1 this3.
Proof.
  intros (Hw1 & Hc1 & Hu1 & Hd1 & Ha1 & Hs1) (Hw2 & Hc2 & Hu2 & Hd2 & Ha2 & Hs2).
  split; [intros other Ho; by rewrite Hw2, Hw1|].
  split; [intros other Ho; by rewrite Hc2, Hc1|].
  split; [congruence|]. split; [congruence|]. split; [congruence|].
  intros sm Hsm. by apply Hs2, Hs1.
Qed.

Lemma same_but_set_cycleState (key : string) (state : WM.CycleState) (this : WM.t) :
  same_but key this (WM.set_cycleState (<[key := state]> (WM.cycleState this)) this).
Proof.
  split; [done|]. split; [|by repeat split].
  intros other Ho. simpl. by rewrite lookup_insert_ne.
Qed.

Lemma persist_fields (key : string) (queue : list nat) (visited : list string)
    (this : WM.t) :
  WM.words (WM.persist key queue visited this) = WM.words this ∧
  WM.cycleState (WM.persist key queue visited this) = WM.cycleState this ∧
  WM.usedWords (WM.persist key queue visited this) = WM.usedWords this ∧
  WM.availableDifficulties (WM.persist key queue visited this)
    = WM.availableDifficulties this ∧
  WM.availableCategories (WM.persist key queue visited this)
    = WM.availableCategories this.
Proof.
  unfold WM.persist. destruct (WM.storage this) as [s|]; [|done].
  by destruct (WM.setCycleState s).
Qed.

Lemma same_but_persist (key other : string) (queue : list nat) (visited : list string)
    (this : WM.t) :
  same_but key this (WM.persist other queue visited this).
Proof.
  destruct (persist_fields other queue visited this) as (Hw & Hc & Hu & Hd & Ha).
  unfold same_but. rewrite Hw, Hc, Hu, Hd, Ha. repeat split; try done.
  intros sm Hsm. by rewrite (persist_shipped _ _ _ _ sm).
Qed.

Lemma restore_words (key : string) (this : WM.t) :
  WM.words (WM.restore key this) = WM.words this.
Proof.
  unfold WM.restore. destruct (WM.storage this) as [s|]; [|done].
  destruct (WM.getCycleState s) as [hook|]; [|done].
  destruct (hook key (WM.manager s)) as [saved|]; [|done].
  by destruct (WM.saved_queue saved).
Qed.

Lemma same_but_restore (key : string) (this : WM.t) :
  same_but key this (WM.restore key this).
Proof.
  unfold WM.restore. destruct (WM.storage this) as [s|]; [|apply same_but_refl].
  destruct (WM.getCycleState s) as [hook|]; [|apply same_but_refl].
  destruct (hook key (WM.manager s)) as [saved|]; [|apply same_but_refl].
  destruct (WM.saved_queue saved); [|apply same_but_refl].
  apply same_but_set_cycleState.
Qed.

Lemma initCycle_fields (random : nat -> Draw) (key : string) (bank : list WM.WordEntry)
    (reshuffle : bool) (this : WM.t) (drawn : nat) :
  WM.words (WM.initCycle random key bank reshuffle this drawn).1 = WM.words this ∧
  same_but key this (WM.initCycle random key bank reshuffle this drawn).1 ∧
  ∃ order,
    order ≡ₚ seq 0 (length bank) ∧
    (reshuffle = false →
     order = seq 0 (length bank) ∧
     (WM.initCycle random key bank reshuffle this drawn).2 = drawn) ∧
    WM.cycleState (WM.initCycle random key bank reshuffle this drawn).1 !! key
    = Some {| WM.queue := order; WM.visited := ∅ |}.
Proof.
  unfold WM.initCycle.
  assert (Hperm : (if reshuffle then WM.shuffleArray random (seq 0 (length bank)) drawn
                   else (seq 0 (length bank), drawn)).1 ≡ₚ seq 0 (length bank)).
  { destruct reshuffle; [apply shuffleArray_Permutation|done]. }
  assert (Hplain : reshuffle = false →
                   (if reshuffle then WM.shuffleArray random (seq 0 (length bank)) drawn
                    else (seq 0 (length bank), drawn)) = (seq 0 (length bank), drawn)).
  { by intros ->. }
  destruct (if reshuffle then _ else _) as [order drawn'].
  cbn [fst snd] in *.
  destruct (persist_fields key order []
              (WM.set_cycleState
                 (<[key := {| WM.queue := order; WM.visited := ∅ |}]> (WM.cycleState this))
                 this)) as (Hw & Hc & _).
  split; [by rewrite Hw|].
  split.
  { eapply same_but_trans; [apply same_but_set_cycleState|apply same_but_persist]. }
  exists order. split; [done|].
  split; [intros Hr; specialize (Hplain Hr); by injection Hplain as -> ->|].
  rewrite Hc. simpl. apply lookup_insert_eq.
Qed.

(** The part of [getNextWord] that runs once the cycle of the key is in
    place. *)
Lemma getNextWord_ready (random : nat -> Draw) (fetch : string -> WM.Response)
    (difficulty category : string) (this : WM.t) (drawn : nat)
    (bank : list WM.WordEntry) (state : WM.CycleState) :
  WM.words this !! WM.cacheKey difficulty category = Some bank →
  bank ≠ [] →
  WM.cycleState this !! WM.cacheKey difficulty category = Some state →
  WM.words (WM.getNextWord random fetch difficulty category this drawn).1.2 = WM.words this ∧
  same_but (WM.cacheKey difficulty category) this
    (WM.getNextWord random fetch difficulty category this drawn).1.2 ∧
  drawn_from random bank (WM.getNextWord random fetch difficulty category this drawn).1.1.
Proof.
  intros Hbank Hne Hcycle. unfold WM.getNextWord.
  rewrite (get_Some _ _ _ Hbank). cbn [negb]. rewrite (get_Some _ _ _ Hbank).
  destruct bank as [|first bank'] eqn:Hb; [done|]. rewrite <- Hb in *.
  rewrite Hcycle. cbn [fst snd]. rewrite Hcycle.
  destruct (WM.queue state) as [|index rest].
  { cbn [fst snd]. split; [done|]. split; [apply same_but_refl|]. by split. }
  destruct (bank !! index) as [entry|] eqn:Hentry.
  - destruct (persist_fields (WM.cacheKey difficulty category) rest
                (elements (WM.visited state ∪ {[ WM.word entry ]}))
                (WM.set_cycleState
                   (<[WM.cacheKey difficulty category
                        := {| WM.queue := rest;
                              WM.visited := WM.visited state ∪ {[ WM.word entry ]} |}]>
                      (WM.cycleState this)) this)) as (Hw & _).
    cbn [WM.queue WM.visited].
    destruct (WM.prepareWordForGame random entry drawn) as [prepared drawn'] eqn:Hprep.
    cbn [fst snd]. split; [by rewrite Hw|].
    split.
    { eapply same_but_trans; [apply same_but_set_cycleState|apply same_but_persist]. }
    exists index, entry, drawn. by rewrite Hprep.
  - cbn [fst snd]. split; [done|]. split; [apply same_but_set_cycleState|done].
Qed.

(** One call of [getNextWord] for a key that is cached or is no inherited
    name: outside the bank and the cycle of its key the object is as
    before; the bank of the key is cached afterwards, is the one that was
    cached before if there was one, and is where a served word comes from
    and what an end-of-category signal counts. *)
Lemma getNextWord_cases (random : nat -> Draw) (fetch : string -> WM.Response)
    (difficulty category : string) (this : WM.t) (drawn : nat) :
  (WM.words this !! WM.cacheKey difficulty category = None →
   inherited (WM.cacheKey difficulty category) = false) →
  same_but (WM.cacheKey difficulty category) this
    (WM.getNextWord random fetch difficulty category this drawn).1.2 ∧
  ∃ bank,
    WM.words (WM.getNextWord random fetch difficulty category this drawn).1.2
      !! WM.cacheKey difficulty category = Some bank ∧
    (∀ cached, WM.words this !! WM.cacheKey difficulty category = Some cached →
               bank = cached) ∧
    (WM.words this !! WM.cacheKey difficulty category = None →
     WM.words (WM.loadWords fetch difficulty category this).2
       !! WM.cacheKey difficulty category = Some bank) ∧
    drawn_from random bank (WM.getNextWord random fetch difficulty category this drawn).1.1.
Proof.
  intros Hplain.
  assert (Hcached : ∀ (this1 : WM.t) (bank : list WM.WordEntry),
    WM.words this1 !! WM.cacheKey difficulty category = Some bank →
    WM.words (WM.getNextWord random fetch difficulty category this1 drawn).1.2
      = WM.words this1 ∧
    same_but (WM.cacheKey difficulty category) this1
      (WM.getNextWord random fetch difficulty category this1 drawn).1.2 ∧
    drawn_from random bank
      (WM.getNextWord random fetch difficulty category this1 drawn).1.1).
  { intros this1 bank Hbank.
    destruct (decide (bank = [])) as [->|Hne].
    { unfold WM.getNextWord. rewrite (get_Some _ _ _ Hbank). cbn [negb].
      rewrite (get_Some _ _ _ Hbank). cbn [fst snd].
      split; [done|]. split; [apply same_but_refl|done]. }
    destruct (WM.cycleState this1 !! WM.cacheKey difficulty category)
      as [state|] eqn:Hcycle.
    { by apply (getNextWord_ready _ _ _ _ _ _ _ state). }
    (* the cycle is restored or initialised first *)
    set (this2 := WM.restore (WM.cacheKey difficulty category) this1).
    assert (Hbank2 : WM.words this2 !! WM.cacheKey difficulty category = Some bank)
      by (unfold this2; by rewrite restore_words).
    assert (Hsame2 : same_but (WM.cacheKey difficulty category) this1 this2)
      by apply same_but_restore.
    destruct (WM.cycleState this2 !! WM.cacheKey difficulty category)
      as [state|] eqn:Hrestored.
    { assert (Hgo : WM.getNextWord random fetch difficulty category this1 drawn
                    = WM.getNextWord random fetch difficulty category this2 drawn).
      { unfold WM.getNextWord.
        rewrite (get_Some _ _ _ Hbank), (get_Some _ _ _ Hbank2). cbn [negb].
        rewrite (get_Some _ _ _ Hbank), (get_Some _ _ _ Hbank2).
        destruct bank as [|first bank'] eqn:Hb; [done|]. rewrite <- Hb in *.
        rewrite Hcycle. fold this2. by rewrite !Hrestored. }
      rewrite Hgo.
      destruct (getNextWord_ready random fetch difficulty category this2 drawn bank state
                  Hbank2 Hne Hrestored) as (Hw & Hsame & Hfrom).
      split; [by rewrite Hw; unfold this2; rewrite restore_words|].
      split; [by eapply same_but_trans|done]. }
    destruct (initCycle_fields random (WM.cacheKey difficulty category) bank true this2 drawn)
      as (Hw3 & Hsame3 & order & _ & _ & Hcycle3).
    assert (Hgo : WM.getNextWord random fetch difficulty category this1 drawn
                  = WM.getNextWord random fetch difficulty category
                      (WM.initCycle random (WM.cacheKey difficulty category) bank true
                         this2 drawn).1
                      (WM.initCycle random (WM.cacheKey difficulty category) bank true
                         this2 drawn).2).
    { destruct (WM.initCycle random (WM.cacheKey difficulty category) bank true this2 drawn)
        as [this3 drawn3] eqn:Hinit.
      cbn [fst snd] in *.
      assert (Hbank3 : WM.words this3 !! WM.cacheKey difficulty category = Some bank)
        by by rewrite Hw3.
      unfold WM.getNextWord.
      rewrite (get_Some _ _ _ Hbank), (get_Some _ _ _ Hbank3). cbn [negb].
      rewrite (get_Some _ _ _ Hbank), (get_Some _ _ _ Hbank3).
      destruct bank as [|first bank'] eqn:Hb; [done|]. rewrite <- Hb in *.
      rewrite Hcycle. fold this2. rewrite Hrestored, Hinit. by rewrite !Hcycle3. }
    rewrite Hgo.
    destruct (WM.initCycle random (WM.cacheKey difficulty category) bank true this2 drawn)
      as [this3 drawn3].
    cbn [fst snd] in *.
    assert (Hbank3 : WM.words this3 !! WM.cacheKey difficulty category = Some bank)
      by by rewrite Hw3.
    destruct (getNextWord_ready random fetch difficulty category this3 drawn3 bank _
                Hbank3 Hne Hcycle3) as (Hw & Hsame & Hfrom).
    split; [by rewrite Hw, Hw3; unfold this2; rewrite restore_words|].
    split; [|done].
    eapply same_but_trans; [exact Hsame2|]. by eapply same_but_trans. }
  destruct (WM.words this !! WM.cacheKey difficulty category) as [bank|] eqn:Hbank.
  { destruct (Hcached this bank Hbank) as (Hw & Hsame & Hfrom).
    split; [exact Hsame|]. exists bank.
    split; [by rewrite Hw|]. split; [by intros ? [= <-]|]. split; [done|exact Hfrom]. }
  specialize (Hplain eq_refl).
  destruct (loadWords_stores fetch difficulty category this Hplain) as (bank & Hbank1 & _ & _).
  destruct (loadWords_frame fetch difficulty category this)
    as (Hother & Hcycle1 & Hstorage1 & Hused1).
  assert (Hsame1 : same_but (WM.cacheKey difficulty category) this
                     (WM.loadWords fetch difficulty category this).2).
  { split; [exact Hother|]. split; [by rewrite Hcycle1|]. split; [exact Hused1|].
    split; [|split; [|by rewrite Hstorage1]].
    - unfold WM.loadWords. rewrite get_None by done.
      destruct (WM.getSampleWords difficulty category);
        destruct (fetch _) as [| | |data]; try done; by destruct (WM.validateWordData data).
    - unfold WM.loadWords. rewrite get_None by done.
      destruct (WM.getSampleWords difficulty category);
        destruct (fetch _) as [| | |data]; try done; by destruct (WM.validateWordData data). }
  destruct (WM.loadWords fetch difficulty category this) as [loaded this1] eqn:Hload.
  cbn [fst snd] in *.
  destruct loaded.
  - rewrite (getNextWord_loads random fetch difficulty category this this1 drawn Hbank
               Hplain Hload).
    destruct (Hcached this1 bank Hbank1) as (Hw & Hsame & Hfrom).
    split; [by eapply same_but_trans|]. exists bank.
    split; [by rewrite Hw|]. split; [done|]. split; [done|exact Hfrom].
  - rewrite (getNextWord_load_failed random fetch difficulty category this this1 drawn
               Hbank Hplain Hload).
    cbn [fst snd]. split; [exact Hsame1|]. exists bank. by repeat split.
Qed.

(** One call of [getNextWord], whatever the key and the state: outside the
    bank and the cycle of the key the object is as before. *)
Lemma getNextWord_frame (random : nat -> Draw) (fetch : string -> WM.Response)
    (difficulty category : string) (this : WM.t) (drawn : nat) :
  same_but (WM.cacheKey difficulty category) this
    (WM.getNextWord random fetch difficulty category this drawn).1.2.
Proof.
  destruct (WM.words this !! WM.cacheKey difficulty category) as [bank|] eqn:Hbank.
  { apply getNextWord_cases. by rewrite Hbank. }
  destruct (inherited (WM.cacheKey difficulty category)) eqn:Hplain.
  - rewrite getNextWord_inherited by done. apply same_but_refl.
  - by apply getNextWord_cases.
Qed.

Lemma calls_same_but (random : nat -> Draw) (fetch : string -> WM.Response) (k : nat)
    (difficulty category : string) (this : WM.t) (drawn : nat) :
  same_but (WM.cacheKey difficulty category) this
    (calls random fetch k difficulty category this drawn).1.2.
Proof.
  revert this drawn. induction k as [|k IH]; intros this drawn; [apply same_but_refl|].
  pose proof (getNextWord_frame random fetch difficulty category this drawn) as Hsame.
  destruct (WM.getNextWord random fetch difficulty category this drawn)
    as [[result this1] drawn1] eqn:Hcall.
  rewrite (calls_step random fetch k _ _ _ _ _ _ _ Hcall). cbn [fst snd] in *.
  eapply same_but_trans; [exact Hsame|apply IH].
Qed.

(** X16. A call of [getNextWord] touches the bank and the cycle of its own
    key only: the banks and the cycles of all other keys, and the set
    [usedWords], are as before, and a bank that was cached for the key is
    still the one cached.  So the cycles are independent: any number of
    words served from one category leaves the queue of every other category
    where it was. *)
Theorem getNextWord_touches_one_key (random : nat -> Draw) (fetch : string -> WM.Response)
    (difficulty category : string) (this : WM.t) (drawn : nat) :
  (∀ other, other ≠ WM.cacheKey difficulty category →
     WM.words (WM.getNextWord random fetch difficulty category this drawn).1.2 !! other
       = WM.words this !! other ∧
     WM.cycleState (WM.getNextWord random fetch difficulty category this drawn).1.2 !! other
       = WM.cycleState this !! other) ∧
  WM.usedWords (WM.getNextWord random fetch difficulty category this drawn).1.2
    = WM.usedWords this ∧
  (∀ cached, WM.words this !! WM.cacheKey difficulty category = Some cached →
     WM.words (WM.getNextWord random fetch difficulty category this drawn).1.2
       !! WM.cacheKey difficulty category = Some cached) ∧
  (∀ k other, other ≠ WM.cacheKey difficulty category →
     WM.cycleState (calls random fetch k difficulty category this drawn).1.2 !! other
       = WM.cycleState this !! other).
Proof.
  destruct (getNextWord_frame random fetch difficulty category this drawn)
    as (Hw & Hc & Hu & _).
  split; [intros other Ho; split; [by apply Hw | by apply Hc]|].
  split; [exact Hu|].
  split.
  { intros cached Hwas.
    destruct (getNextWord_cases random fetch difficulty category this drawn)
      as (_ & bank & Hbank & Hcached & _); [by rewrite Hwas|].
    by rewrite Hbank, (Hcached cached Hwas). }
  intros k other Ho.
  by apply (calls_same_but random fetch k difficulty category this drawn).
Qed.

(** ** [resetCycle] *)

(** X17. [resetCycle] for a key whose bank of [N ≥ 1] entries is cached
    starts the category over, wherever its cycle stood: the next [N] calls
    of [getNextWord] serve every entry once, in the order of a permutation of
    the indices, and the call after them signals the end of the category.
    With [reshuffle = false] no random number is drawn and the entries come
    in the order of the bank. *)
Theorem resetCycle_restarts (random : nat -> Draw) (fetch : string -> WM.Response)
    (difficulty category : string) (reshuffle : bool) (this : WM.t) (drawn : nat)
    (sm : SM.t) (bank : list WM.WordEntry) :
  WM.storage this = Some (WM.shipped sm) →
  WM.words this !! WM.cacheKey difficulty category = Some bank →
  bank ≠ [] →
  ∃ reset drawn0 order results this' drawn',
    WM.resetCycle random difficulty category reshuffle this drawn = Some (reset, drawn0) ∧
    order ≡ₚ seq 0 (length bank) ∧
    (reshuffle = false → order = seq 0 (length bank) ∧ drawn0 = drawn) ∧
    calls random fetch (length bank) difficulty category reset drawn0
      = (results, this', drawn') ∧
    serves_all difficulty category bank order results ∧
    omap term_of results ≡ₚ WM.word <$> bank ∧
    (reshuffle = false → omap term_of results = WM.word <$> bank) ∧
    WM.getNextWord random fetch difficulty category this' drawn'
      = (endOfCategory difficulty category bank (list_to_set (WM.word <$> bank)),
         this', drawn').
Proof.
  intros Hs Hbank Hne. unfold WM.resetCycle. rewrite (get_Some _ _ _ Hbank).
  destruct (initCycle_fields random (WM.cacheKey difficulty category) bank reshuffle
              this drawn) as (Hw0 & _ & order & Hperm & Hplain & Hcycle0).
  assert (Hs0 : WM.storage
                  (WM.initCycle random (WM.cacheKey difficulty category) bank reshuffle
                     this drawn).1 = Some (WM.shipped sm)).
  { unfold WM.initCycle. destruct (if reshuffle then _ else _) as [o d].
    by rewrite (persist_shipped _ _ _ _ sm). }
  destruct (WM.initCycle random (WM.cacheKey difficulty category) bank reshuffle
              this drawn) as [this0 drawn0].
  cbn [fst snd] in *.
  assert (Hbank0 : WM.words this0 !! WM.cacheKey difficulty category = Some bank)
    by by rewrite Hw0.
  assert (Hlen : length order = length bank) by by rewrite Hperm, length_seq.
  assert (Hrange : Forall (fun index => index < length bank) order).
  { rewrite Hperm. apply Forall_forall. intros index Hin.
    apply elem_of_seq in Hin. lia. }
  destruct (calls_cycling random fetch difficulty category sm bank order this0 drawn0 ∅
              Hs0 Hbank0 Hcycle0 Hrange)
    as (results & this' & drawn' & Hcalls & Hall & Hs' & Hw' & Hc').
  destruct (serves_all_terms _ _ _ _ _ Hall) as [_ Hterms].
  assert (Hseq : omap (fun index => WM.word <$> bank !! index) (seq 0 (length bank))
                 = WM.word <$> bank) by exact (omap_lookup_seq WM.word [] bank).
  assert (Hserved : omap term_of results ≡ₚ WM.word <$> bank)
    by by rewrite Hterms, Hperm, Hseq.
  exists this0, drawn0, order, results, this', drawn'.
  split; [done|].
  split; [exact Hperm|]. split; [exact Hplain|].
  split; [by rewrite <- Hlen|]. split; [exact Hall|]. split; [exact Hserved|].
  split.
  { intros Hr. destruct (Hplain Hr) as [-> _]. by rewrite Hterms, Hseq. }
  assert (Hbank' : WM.words this' !! WM.cacheKey difficulty category = Some bank)
    by (rewrite Hw'; exact Hbank0).
  rewrite (getNextWord_exhausted random fetch difficulty category this' drawn' bank _
             Hbank' Hne Hc').
  assert (Hseen : (∅ ∪ list_to_set (omap (fun index => WM.word <$> bank !! index) order)
                   : gset string) = list_to_set (WM.word <$> bank)).
  { apply set_eq. intros term.
    rewrite elem_of_union, !elem_of_list_to_set, <- Hterms, Hserved. set_solver. }
  by rewrite Hseen.
Qed.

Lemma resetCycle_restarts_witness :
  WM.storage exhausted_manager = Some (WM.shipped fresh_store) ∧
  WM.words exhausted_manager !! WM.cacheKey "easy" "general" = Some WM.sample_bank ∧
  WM.sample_bank ≠ [] ∧
  ∃ reset drawn0 results this' drawn',
    WM.resetCycle always_zero "easy" "general" false exhausted_manager 7
      = Some (reset, drawn0) ∧
    calls always_zero offline 2 "easy" "general" reset drawn0 = (results, this', drawn') ∧
    omap term_of results = ["Happy"; "Brave"].
Proof.
  assert (Hs : WM.storage exhausted_manager = Some (WM.shipped fresh_store))
    by (vm_compute; reflexivity).
  assert (Hbank : WM.words exhausted_manager !! WM.cacheKey "easy" "general"
                  = Some WM.sample_bank)
    by (vm_compute; reflexivity).
  assert (Hne : WM.sample_bank ≠ []) by discriminate.
  split; [exact Hs|]. split; [exact Hbank|]. split; [exact Hne|].
  destruct (resetCycle_restarts always_zero offline "easy" "general" false
              exhausted_manager 7 fresh_store _ Hs Hbank Hne)
    as (reset & drawn0 & order & results & this' & drawn' & Hreset & _ & _ & Hcalls
        & _ & _ & Hterms & _).
  exists reset, drawn0, results, this', drawn'.
  split; [exact Hreset|]. split; [exact Hcalls|]. exact (Hterms eq_refl).
Defined.

(** X18. [resetCycle] for a key whose bank is not loaded yet (and that is
    no inherited name, for which the call throws) installs an empty queue.
    The next [getNextWord] then loads the bank and, finding the queue
    empty, signals the end of the category at once: with the length of the
    loaded bank as total and no word visited, although none of its words
    has been served. *)
Theorem resetCycle_before_load_ends_category (random : nat -> Draw)
    (fetch : string -> WM.Response) (difficulty category : string) (reshuffle : bool)
    (this : WM.t) (drawn : nat) (document : list WM.RawWord) :
  WM.words this !! WM.cacheKey difficulty category = None →
  inherited (WM.cacheKey difficulty category) = false →
  fetch ("./data/" +:+ difficulty +:+ "/" +:+ category +:+ ".json")
    = WM.Body (Some document) →
  WM.validateWordData (Some document) = true →
  document ≠ [] →
  ∃ reset,
    WM.resetCycle random difficulty category reshuffle this drawn = Some (reset, drawn) ∧
    WM.cycleState reset !! WM.cacheKey difficulty category
      = Some {| WM.queue := []; WM.visited := ∅ |} ∧
    (WM.getNextWord random fetch difficulty category reset drawn).1.1
    = WM.EndOfCategory
        ("All " +:+ pretty (length document) +:+ " words completed for "
           +:+ difficulty +:+ "/" +:+ category +:+ ".")
        (length document) 0.
Proof.
  intros Hnone Hplain Hfetch Hvalid Hne. unfold WM.resetCycle. rewrite get_None by done.
  destruct (initCycle_fields random (WM.cacheKey difficulty category) [] reshuffle
              this drawn) as (Hw0 & _ & order & Hperm & _ & Hcycle0).
  apply Permutation_nil_r in Hperm. subst order.
  assert (Hdrawn : (WM.initCycle random (WM.cacheKey difficulty category) [] reshuffle
                      this drawn).2 = drawn).
  { unfold WM.initCycle. destruct reshuffle; [|done].
    by destruct (WM.shuffleArray random (seq 0 (length [])) drawn) eqn:Hshuffle;
      vm_compute in Hshuffle; injection Hshuffle as <- <-. }
  destruct (WM.initCycle random (WM.cacheKey difficulty category) [] reshuffle this drawn)
    as [this0 drawn0].
  cbn [fst snd] in *. subst drawn0.
  exists this0. split; [done|]. split; [exact Hcycle0|].
  assert (Hnone0 : WM.words this0 !! WM.cacheKey difficulty category = None)
    by by rewrite Hw0.
  set (this1 := WM.set_words
                  (<[WM.cacheKey difficulty category := WM.decode <$> document]>
                     (WM.words this0)) this0).
  assert (Hload : WM.loadWords fetch difficulty category this0 = (true, this1)).
  { unfold WM.loadWords. by rewrite get_None, Hfetch, Hvalid by done. }
  rewrite (getNextWord_loads random fetch difficulty category this0 this1 drawn Hnone0
             Hplain Hload).
  rewrite (getNextWord_exhausted random fetch difficulty category this1 drawn
             (WM.decode <$> document) ∅).
  - unfold endOfCategory. cbn [fst]. by rewrite length_fmap, size_empty.
  - apply lookup_insert_eq.
  - by destruct document.
  - exact Hcycle0.
Qed.

Lemma resetCycle_before_load_ends_category_witness :
  WM.words new_manager !! WM.cacheKey "easy" "general" = None ∧
  inherited (WM.cacheKey "easy" "general") = false ∧
  ∃ reset,
    WM.resetCycle always_zero "easy" "general" true new_manager 0 = Some (reset, 0) ∧
    (WM.getNextWord always_zero calm_document "easy" "general" reset 0).1.1
    = WM.EndOfCategory "All 1 words completed for easy/general." 1 0.
Proof.
  assert (Hnone : WM.words new_manager !! WM.cacheKey "easy" "general" = None)
    by (vm_compute; reflexivity).
  assert (Hplain : inherited (WM.cacheKey "easy" "general") = false)
    by (vm_compute; reflexivity).
  split; [exact Hnone|]. split; [exact Hplain|].
  destruct (resetCycle_before_load_ends_category always_zero calm_document "easy" "general"
              true new_manager 0 _ Hnone Hplain eq_refl
              ltac:(vm_compute; reflexivity) ltac:(discriminate))
    as (reset & Hreset & _ & Hnext).
  exists reset. split; [exact Hreset | exact Hnext].
Defined.

(** Under an inherited name [resetCycle] throws. *)
Example resetCycle_proto :
  WM.resetCycle always_zero "_" "proto__" true new_manager 0 = None.
Proof. vm_compute. reflexivity. Qed.

(** ** The banks hold complete entries *)

Lemma decode_well_formed (w : WM.RawWord) :
  WM.validWord w = true → well_formed (WM.decode w) = true.
Proof.
  intros Hvalid. destruct (decode_complete w Hvalid) as (_ & Hw & _ & Hp & _ & Hd & _ & Ho).
  unfold well_formed. rewrite !andb_true_iff, !negb_true_iff, !String.eqb_neq, Nat.leb_le.
  done.
Qed.

Lemma sampleWords_well_formed :
  map_Forall (fun _ bank => forallb well_formed bank = true) WM.sampleWords.
Proof. apply (bool_decide_unpack _). vm_compute. reflexivity. Qed.

Lemma getSampleWords_well_formed (difficulty category : string)
    (bank : list WM.WordEntry) :
  WM.getSampleWords difficulty category = Some bank → forallb well_formed bank = true.
Proof.
  unfold WM.getSampleWords, get.
  destruct (WM.sampleWords !! WM.cacheKey difficulty category) as [own|] eqn:Hown.
  - intros [= <-]. by apply (sampleWords_well_formed _ _ Hown).
  - destruct (inherited _); [done|].
    intros Heasy. by apply (sampleWords_well_formed _ _ Heasy).
Qed.

Lemma loadWords_banks_valid (fetch : string -> WM.Response) (difficulty category : string)
    (this : WM.t) :
  banks_valid this → banks_valid (WM.loadWords fetch difficulty category this).2.
Proof.
  intros Hvalid. unfold WM.loadWords.
  destruct (get _ (WM.words this)); [done..|].
  assert (Hset : ∀ bank,
            forallb well_formed bank = true →
            banks_valid (WM.set_words (<[WM.cacheKey difficulty category := bank]>
                                         (WM.words this)) this)).
  { intros bank Hbank key bank' Hlook. simpl in Hlook.
    rewrite lookup_insert in Hlook. case_decide.
    - by injection Hlook as <-.
    - by apply (Hvalid key). }
  assert (Hfallback :
            banks_valid
              match WM.getSampleWords difficulty category with
              | Some bank =>
                  WM.set_words (<[WM.cacheKey difficulty category := bank]> (WM.words this))
                    this
              | None => this
              end).
  { destruct (WM.getSampleWords difficulty category) as [sample|] eqn:Hsample; [|done].
    by apply Hset, (getSampleWords_well_formed difficulty category). }
  destruct (fetch _) as [| | |data]; try exact Hfallback.
  destruct (WM.validateWordData data) eqn:Hdata; [|exact Hfallback].
  apply Hset. destruct data as [document|]; [|done]. simpl in *.
  rewrite forallb_forall in Hdata. apply forallb_forall. intros entry Hin.
  apply in_map_iff in Hin as (w & <- & Hw). by apply decode_well_formed, Hdata.
Qed.

Lemma constructor_banks_valid (storage : option WM.Storage) :
  banks_valid (WM.constructor storage).
Proof. intros key bank Hlook. simpl in Hlook. by rewrite lookup_empty in Hlook. Qed.

(** X19. The banks hold complete entries only: a new manager caches none,
    [loadWords] caches either a validated document or the sample bank, and
    [getNextWord] caches nothing else.  So every word that [getNextWord]
    serves has a non-empty term and correct answer, offers at least four
    options, and has its correct answer among them. *)
Theorem served_words_are_complete (random : nat -> Draw) (fetch : string -> WM.Response)
    (difficulty category : string) (this : WM.t) (drawn : nat) :
  banks_valid this →
  (∀ storage, banks_valid (WM.constructor storage)) ∧
  banks_valid (WM.loadWords fetch difficulty category this).2 ∧
  banks_valid (WM.getNextWord random fetch difficulty category this drawn).1.2 ∧
  ∀ prepared meta,
    (WM.getNextWord random fetch difficulty category this drawn).1.1
      = WM.Word prepared meta →
    WM.p_word prepared ≠ "" ∧
    WM.correctAnswer prepared ≠ "" ∧
    WM.correctAnswer prepared ∈ WM.options prepared ∧
    4 ≤ length (WM.options prepared).
Proof.
  intros Hvalid.
  split; [apply constructor_banks_valid|].
  split; [by apply loadWords_banks_valid|].
  destruct (decide (WM.words this !! WM.cacheKey difficulty category = None ∧
                    inherited (WM.cacheKey difficulty category) = true))
    as [[Hnone Hinherited]|Hcase].
  { (* under an inherited name nothing is loaded or served *)
    rewrite getNextWord_inherited by done. by split. }
  destruct (getNextWord_cases random fetch difficulty category this drawn)
    as ((Hother & _) & bank & Hbank & Hcached & Hloaded & Hfrom).
  { intros Hnone. destruct (inherited (WM.cacheKey difficulty category)); [|done].
    exfalso. by apply Hcase. }
  assert (Hgood : forallb well_formed bank = true).
  { destruct (WM.words this !! WM.cacheKey difficulty category) as [cached|] eqn:Hwas.
    - rewrite (Hcached cached eq_refl). by apply (Hvalid _ _ Hwas).
    - by apply (loadWords_banks_valid fetch difficulty category this Hvalid
                  (WM.cacheKey difficulty category)), Hloaded. }
  split.
  { intros key bank' Hlook.
    destruct (decide (key = WM.cacheKey difficulty category)) as [->|Hne].
    - rewrite Hbank in Hlook. by injection Hlook as <-.
    - rewrite Hother in Hlook by done. by apply (Hvalid key). }
  intros prepared meta Hresult. rewrite Hresult in Hfrom.
  destruct Hfrom as (index & entry & drawn0 & Hentry & -> & _).
  rewrite forallb_forall in Hgood.
  assert (Hin : In entry bank) by (apply list_elem_of_In; by eapply list_elem_of_lookup_2).
  specialize (Hgood entry Hin). unfold well_formed in Hgood.
  rewrite !andb_true_iff, !negb_true_iff, !String.eqb_neq, Nat.leb_le in Hgood.
  destruct Hgood as [[[Hw _] Hd] Ho].
  destruct (prepareWordForGame_spec random entry drawn0) as (Hpw & _ & Hpa & Hpo).
  rewrite Hpw, Hpa, Hpo. simpl.
  split; [done|]. split; [done|]. split; [by left|lia].
Qed.


Lemma served_words_are_complete_witness :
  banks_valid loaded_manager ∧
  ∃ prepared meta,
    (WM.getNextWord always_zero offline "easy" "general" loaded_manager 0).1.1
      = WM.Word prepared meta ∧
    WM.correctAnswer prepared ∈ WM.options prepared.
Proof.
  assert (Hvalid : banks_valid loaded_manager).
  { apply (loadWords_banks_valid offline "easy" "general" new_manager).
    apply constructor_banks_valid. }
  split; [exact Hvalid|].
  destruct (served_words_are_complete always_zero offline "easy" "general" loaded_manager 0
              Hvalid) as (_ & _ & _ & Hserved).
  eexists _, _. split; [vm_compute; reflexivity|].
  match goal with
  | |- WM.correctAnswer ?p ∈ _ =>
      exact (proj1 (proj2 (proj2 (Hserved p _ ltac:(vm_compute; reflexivity)))))
  end.
Defined.

(** ** [getWordCount] *)

(** X20. For a key that is no inherited name, [getWordCount] returns the
    length of the bank cached for the key, loading the bank first when
    there is none; asked again it returns the same number and changes
    nothing.  After a call of [getNextWord] it is the total that a served
    word or an end-of-category signal carries, and that total is at least 1
    for a signal. *)
Theorem getWordCount_is_the_total (random : nat -> Draw) (fetch later : string -> WM.Response)
    (difficulty category : string) (this : WM.t) (drawn : nat) :
  inherited (WM.cacheKey difficulty category) = false →
  (∃ bank,
     WM.words (WM.getWordCount fetch difficulty category this).2
       !! WM.cacheKey difficulty category = Some bank ∧
     (WM.getWordCount fetch difficulty category this).1 = Some (length bank) ∧
     (WM.getWordCount fetch difficulty category this).2
       = match WM.words this !! WM.cacheKey difficulty category with
         | Some _ => this
         | None => (WM.loadWords fetch difficulty category this).2
         end ∧
     WM.getWordCount later difficulty category
       (WM.getWordCount fetch difficulty category this).2
     = (Some (length bank), (WM.getWordCount fetch difficulty category this).2)) ∧
  ∃ count,
    WM.getWordCount later difficulty category
      (WM.getNextWord random fetch difficulty category this drawn).1.2
    = (Some count, (WM.getNextWord random fetch difficulty category this drawn).1.2) ∧
    (∀ prepared meta,
       (WM.getNextWord random fetch difficulty category this drawn).1.1
         = WM.Word prepared meta → WM.total meta = count) ∧
    (∀ message total visitedCount,
       (WM.getNextWord random fetch difficulty category this drawn).1.1
         = WM.EndOfCategory message total visitedCount → total = count ∧ 1 ≤ count).
Proof.
  intros Hplain.
  assert (Hcount : ∀ (f : string -> WM.Response) (s : WM.t) (bank : list WM.WordEntry),
            WM.words s !! WM.cacheKey difficulty category = Some bank →
            WM.getWordCount f difficulty category s = (Some (length bank), s)).
  { intros f s bank Hbank. unfold WM.getWordCount. by rewrite !(get_Some _ _ _ Hbank). }
  split.
  - destruct (WM.words this !! WM.cacheKey difficulty category) as [bank|] eqn:Hwas.
    + exists bank. rewrite (Hcount fetch this bank Hwas). cbn [fst snd].
      split; [done|]. split; [done|]. split; [done|]. by apply Hcount.
    + destruct (loadWords_stores fetch difficulty category this Hplain) as (bank & Hbank & _).
      exists bank.
      assert (Heq : WM.getWordCount fetch difficulty category this
                    = (Some (length bank), (WM.loadWords fetch difficulty category this).2)).
      { unfold WM.getWordCount. rewrite (get_None _ (WM.words this)) by done.
        by rewrite (get_Some _ _ _ Hbank). }
      rewrite Heq. cbn [fst snd].
      split; [done|]. split; [done|]. split; [done|]. by apply Hcount.
  - destruct (getNextWord_cases random fetch difficulty category this drawn)
      as (_ & bank & Hbank & _ & _ & Hfrom); [done|].
    exists (length bank). split; [by apply Hcount|].
    split.
    + intros prepared meta Hresult. rewrite Hresult in Hfrom.
      by destruct Hfrom as (_ & _ & _ & _ & _ & ->).
    + intros message total visitedCount Hresult. rewrite Hresult in Hfrom.
      destruct Hfrom as [-> Hne]. split; [done|]. destruct bank; [done|simpl; lia].
Qed.

Lemma getWordCount_is_the_total_witness :
  inherited (WM.cacheKey "easy" "general") = false ∧
  (WM.getWordCount offline "easy" "general" new_manager).1 = Some 2 ∧
  ∃ bank,
    WM.words (WM.getWordCount offline "easy" "general" new_manager).2
      !! WM.cacheKey "easy" "general" = Some bank ∧
    (WM.getWordCount offline "easy" "general" new_manager).1 = Some (length bank).
Proof.
  assert (Hplain : inherited (WM.cacheKey "easy" "general") = false)
    by (vm_compute; reflexivity).
  split; [exact Hplain|]. split; [vm_compute; reflexivity|].
  destruct (getWordCount_is_the_total always_zero offline offline "easy" "general"
              new_manager 0 Hplain) as ((bank & Hbank & Hcount & _) & _).
  exists bank. split; [exact Hbank | exact Hcount].
Defined.

(** Under an inherited name nothing is loaded and the result is no count of
    words. *)
Example getWordCount_proto :
  WM.getWordCount offline "_" "proto__" new_manager = (None, new_manager).
Proof. vm_compute. reflexivity. Qed.

(** ** [calculateCategoryAccuracy] and [getProgress] *)

Lemma attempts_cons (f : Spec.Tally -> Z) (tallies : gmap string Spec.Tally)
    (entry : WM.WordEntry) (bank : list WM.WordEntry) :
  attempts f tallies (entry :: bank)
  = (from_option f 0 (tallies !! WM.word entry) + attempts f tallies bank)%Z.
Proof. reflexivity. Qed.

(** The loop of [calculateCategoryAccuracy]. *)
Lemma calculateCategoryAccuracy_loop (tallies : gmap string Spec.Tally)
    (bank : list WM.WordEntry) (total correct : Z) :
  plain_terms tallies bank →
  foldl (fun attempts word =>
           attempts ← attempts;
           match (json_of_tally <$> tallies) !! word with
           | Some entry =>
               if truthy entry
               then
                 match entry with
                 | JObj entry =>
                     total ← SM.field "total" entry;
                     correct ← SM.field "correct" entry;
                     Some (attempts.1 + total, attempts.2 + correct)%Z
                 | _ => None
                 end
               else Some attempts
           | None => if inherited word then None else Some attempts
           end)
        (Some (total, correct)) (WM.word <$> bank)
  = Some ((total + attempts Spec.total tallies bank)%Z,
          (correct + attempts Spec.correct tallies bank)%Z).
Proof.
  revert total correct. induction bank as [|entry bank IH]; intros total correct Hplain.
  { simpl. by rewrite !Z.add_0_r. }
  assert (Hrest : plain_terms tallies bank).
  { intros e He. apply Hplain. by right. }
  rewrite !attempts_cons.
  cbn [fmap list_fmap foldl]. cbn [mbind option_bind].
  rewrite lookup_fmap.
  destruct (tallies !! WM.word entry) as [w|] eqn:Hw.
  - cbn [fmap option_fmap option_map json_of_tally truthy].
    assert (Ht : SM.field "total"
                   ({[ "correct" := JNum (Spec.correct w); "total" := JNum (Spec.total w) ]}
                    : gmap string JValue) = Some (Spec.total w)).
    { unfold SM.field.
      rewrite (lookup_insert_ne _ "correct" "total") by done.
      by rewrite lookup_singleton_eq. }
    assert (Hc : SM.field "correct"
                   ({[ "correct" := JNum (Spec.correct w); "total" := JNum (Spec.total w) ]}
                    : gmap string JValue) = Some (Spec.correct w)).
    { unfold SM.field. by rewrite lookup_insert_eq. }
    rewrite Ht, Hc. cbn [mbind option_bind fst snd from_option].
    rewrite IH by done. f_equal; f_equal; lia.
  - cbn [fmap option_fmap option_map from_option].
    destruct (Hplain entry ltac:(by left)) as [[w' Hw']| ->]; [congruence|].
    rewrite IH by done. f_equal; f_equal; lia.
Qed.

Lemma attempts_bounds (tallies : gmap string Spec.Tally) (bank : list WM.WordEntry) :
  sane tallies →
  (0 ≤ attempts Spec.correct tallies bank ≤ attempts Spec.total tallies bank)%Z.
Proof.
  intros Hsane. induction bank as [|entry bank IH]; [done|].
  rewrite !attempts_cons.
  destruct (tallies !! WM.word entry) as [w|] eqn:Hw; simpl; [|lia].
  specialize (Hsane _ _ Hw). lia.
Qed.

Lemma calculateCategoryAccuracy_value (tallies : gmap string Spec.Tally)
    (bank : list WM.WordEntry) :
  plain_terms tallies bank →
  WM.calculateCategoryAccuracy bank (json_of_tally <$> tallies)
  = Some (if (0 <? attempts Spec.total tallies bank)%Z
          then percentage (attempts Spec.correct tallies bank)
                 (attempts Spec.total tallies bank)
          else 0%Z).
Proof.
  intros Hplain. unfold WM.calculateCategoryAccuracy.
  rewrite (calculateCategoryAccuracy_loop tallies bank 0 0 Hplain).
  cbn [mbind option_bind fst snd]. by rewrite !Z.add_0_l.
Qed.

Lemma accuracy_in_range (tallies : gmap string Spec.Tally) (bank : list WM.WordEntry) :
  sane tallies →
  (0 ≤ (if (0 <? attempts Spec.total tallies bank)%Z
        then percentage (attempts Spec.correct tallies bank)
               (attempts Spec.total tallies bank)
        else 0) ≤ 100)%Z.
Proof.
  intros Hsane. pose proof (attempts_bounds tallies bank Hsane) as Hbounds.
  destruct (Z.ltb_spec 0 (attempts Spec.total tallies bank)); [|lia].
  by apply percentage_range.
Qed.

(** X21. On a ledger of tallies [calculateCategoryAccuracy] returns the
    percentage that the correct answers are of the attempts, both summed
    over the entries of the bank (a term that the bank holds twice counts
    twice, a term of another bank not at all), and 0 when no entry of the
    bank has been attempted.  The percentage is [Math.round] of the
    double-precision product: for sums in range it is the exact percentage
    rounded to the nearest integer, or one less where the exact percentage
    is half-way between two integers.  When no tally counts more correct
    answers than attempts, the result lies between 0 and 100. *)
Theorem calculateCategoryAccuracy_sums_the_bank (tallies : gmap string Spec.Tally)
    (bank : list WM.WordEntry) :
  plain_terms tallies bank →
  ∃ accuracy,
    WM.calculateCategoryAccuracy bank (json_of_tally <$> tallies) = Some accuracy ∧
    accuracy
      = (if (0 <? attempts Spec.total tallies bank)%Z
         then percentage (attempts Spec.correct tallies bank)
                (attempts Spec.total tallies bank)
         else 0%Z) ∧
    ((∀ entry, entry ∈ bank → tallies !! WM.word entry = None) → accuracy = 0%Z) ∧
    ((0 < attempts Spec.total tallies bank ≤ 2 ^ 53)%Z →
     (0 ≤ attempts Spec.correct tallies bank ≤ 2 ^ 44)%Z →
     (round_percent (attempts Spec.correct tallies bank) (attempts Spec.total tallies bank) - 1
      ≤ accuracy
      ≤ round_percent (attempts Spec.correct tallies bank)
          (attempts Spec.total tallies bank))%Z ∧
     ((∀ k, 200 * attempts Spec.correct tallies bank
            ≠ (2 * k + 1) * attempts Spec.total tallies bank)%Z →
      accuracy = round_percent (attempts Spec.correct tallies bank)
                   (attempts Spec.total tallies bank))) ∧
    (sane tallies → (0 ≤ accuracy ≤ 100)%Z).
Proof.
  intros Hplain. eexists. split; [by apply calculateCategoryAccuracy_value|].
  split; [done|]. split; [|split; [|by apply accuracy_in_range]].
  - intros Hnone.
    assert (Hzero : attempts Spec.total tallies bank = 0%Z).
    { clear Hplain. induction bank as [|entry bank IH]; [done|].
      rewrite attempts_cons, (Hnone entry) by by left. simpl. apply IH.
      intros e He. apply Hnone. by right. }
    by rewrite Hzero.
  - intros Htotal Hcorrect.
    replace (0 <? attempts Spec.total tallies bank)%Z with true
      by (symmetry; apply Z.ltb_lt; lia).
    by apply percentage_round_percent.
Qed.

Lemma sample_bank_plain :
  plain_terms happy_tallies (WM.sample_bank).
Proof.
  assert (Hall : Forall (fun entry => inherited (WM.word entry) = false)
                   (WM.sample_bank)).
  { apply (bool_decide_unpack _). vm_compute. reflexivity. }
  intros entry Hin. right. by apply (proj1 (Forall_forall _ _) Hall).
Qed.

Lemma calculateCategoryAccuracy_sums_the_bank_witness :
  plain_terms happy_tallies (WM.sample_bank) ∧
  WM.calculateCategoryAccuracy (WM.sample_bank)
    (json_of_tally <$> happy_tallies) = Some 50%Z.
Proof.
  split; [exact sample_bank_plain|].
  destruct (calculateCategoryAccuracy_sums_the_bank happy_tallies
              (WM.sample_bank) sample_bank_plain)
    as (accuracy & -> & -> & _).
  vm_compute. reflexivity.
Defined.

Lemma List_filter_NoDup {A : Type} (f : A -> bool) (l : list A) :
  NoDup l → NoDup (List.filter f l).
Proof.
  induction 1 as [|x l Hx Hl IH]; simpl; [constructor|].
  destruct (f x); [|done]. constructor; [|done].
  intros Hin. apply Hx. apply list_elem_of_In, filter_In in Hin as [Hin _].
  by apply list_elem_of_In.
Qed.

(** The completed terms that a bank holds are at most as many as its
    entries. *)
Lemma completed_in_bank_le (bank : list WM.WordEntry) (completed : list string) :
  NoDup completed →
  length (List.filter (fun term => existsb (fun w => is_string (WM.word w) term) bank)
            (JStr <$> completed)) ≤ length bank.
Proof.
  intros Hnodup.
  rewrite <- (length_fmap (fun entry => JStr (WM.word entry)) bank).
  apply submseteq_length, NoDup_submseteq.
  - apply List_filter_NoDup, NoDup_fmap_2; [|done]. by intros ?? [= ->].
  - intros v Hv. apply list_elem_of_In, filter_In in Hv as [_ Hv].
    apply existsb_exists in Hv as (entry & Hentry & Hterm).
    apply list_elem_of_fmap. exists entry. split; [|by apply list_elem_of_In].
    destruct v; try done. simpl in Hterm. apply String.eqb_eq in Hterm. by subst.
Qed.

(** X22. For a key whose bank is cached, on a store that holds a list of
    completed terms without duplicates and a ledger of tallies,
    [getProgress] resolves without touching the manager: the total is the
    length of the bank, the completed words are the completed terms that the
    bank holds, at most the total, and the remaining words make up the
    difference.  For a bank that is not empty the progress is a percentage
    between 0 and 100; for an empty bank it is not a number. *)
Theorem getProgress_counts_the_bank (fetch : string -> WM.Response)
    (difficulty category : string) (this : WM.t) (storage : WM.Storage)
    (bank : list WM.WordEntry) (completed : list string)
    (tallies : gmap string Spec.Tally) :
  WM.words this !! WM.cacheKey difficulty category = Some bank →
  WM.storage this = Some storage →
  SM.getCompletedWords (WM.manager storage) = JArr (JStr <$> completed) →
  NoDup completed →
  SM.getWordAccuracy (WM.manager storage) = JObj (json_of_tally <$> tallies) →
  plain_terms tallies bank →
  sane tallies →
  ∃ progress,
    WM.getProgress fetch difficulty category this = (Some progress, this) ∧
    WM.totalWords progress = length bank ∧
    WM.completedWords progress
      = length (List.filter (fun term => bool_decide (term ∈ WM.word <$> bank)) completed) ∧
    WM.completedWords progress ≤ WM.totalWords progress ∧
    WM.remainingWords progress
      = (Z.of_nat (WM.totalWords progress) - Z.of_nat (WM.completedWords progress))%Z ∧
    (0 ≤ WM.remainingWords progress)%Z ∧
    (0 ≤ WM.accuracy progress ≤ 100)%Z ∧
    (bank = [] → WM.progressPercentage progress = None) ∧
    (bank ≠ [] →
     ∃ percent, WM.progressPercentage progress = Some percent ∧ (0 ≤ percent ≤ 100)%Z).
Proof.
  intros Hbank Hstorage Hcompleted Hnodup Haccuracy Hplain Hsane.
  unfold WM.getProgress. rewrite !(get_Some _ _ _ Hbank), Hstorage, Hcompleted, Haccuracy.
  rewrite (calculateCategoryAccuracy_value tallies bank Hplain).
  cbn [mbind option_bind].
  pose proof (completed_in_bank_le bank completed Hnodup) as Hle.
  eexists. split; [reflexivity|].
  cbn [WM.totalWords WM.completedWords WM.remainingWords WM.accuracy
       WM.progressPercentage].
  split; [done|].
  split.
  { clear. induction completed as [|term completed IH]; [done|].
    cbn [fmap list_fmap List.filter].
    assert (Hsame : existsb (fun w => is_string (WM.word w) (JStr term)) bank
                    = bool_decide (term ∈ WM.word <$> bank)).
    { apply eq_true_iff_eq. rewrite bool_decide_eq_true, existsb_exists, list_elem_of_fmap.
      split.
      - intros (entry & Hin & Heq). exists entry. simpl in Heq.
        apply String.eqb_eq in Heq. split; [done|by apply list_elem_of_In].
      - intros (entry & -> & Hin). exists entry.
        split; [by apply list_elem_of_In|]. simpl. apply String.eqb_refl. }
    rewrite Hsame. destruct (bool_decide _); simpl; by rewrite <- IH. }
  split; [exact Hle|]. split; [done|]. split; [lia|].
  split; [by apply accuracy_in_range|].
  split; [by intros ->|].
  intros Hne. destruct bank as [|first bank']; [done|].
  eexists. split; [reflexivity|].
  apply percentage_range; [lia|]. simpl. lia.
Qed.

Lemma happy_tallies_sane : sane happy_tallies.
Proof.
  intros term w Hw. unfold happy_tallies in Hw.
  apply lookup_singleton_Some in Hw as [_ <-]. simpl. lia.
Qed.

Lemma getProgress_counts_the_bank_witness :
  ∃ progress,
    WM.getProgress offline "easy" "general" progress_manager
      = (Some progress, progress_manager) ∧
    WM.totalWords progress = 2 ∧ WM.completedWords progress = 1 ∧
    WM.remainingWords progress = 1%Z.
Proof.
  destruct (getProgress_counts_the_bank offline "easy" "general" progress_manager
              (WM.shipped
                 (SM.setData "wordAccuracy" (JObj (json_of_tally <$> happy_tallies))
                    (SM.setData "completedWords" (JArr [JStr "Happy"]) fresh_store).2).2)
              (WM.sample_bank) ["Happy"] happy_tallies
              ltac:(vm_compute; reflexivity) ltac:(vm_compute; reflexivity)
              ltac:(vm_compute; reflexivity)
              ltac:(apply NoDup_singleton)
              ltac:(vm_compute; reflexivity)
              sample_bank_plain happy_tallies_sane)
    as (progress & Heq & Htotal & Hcompleted & _ & Hremaining & _).
  exists progress. split; [exact Heq|]. split; [exact Htotal|].
  split; [rewrite Hcompleted; vm_compute; reflexivity|].
  rewrite Hremaining, Htotal, Hcompleted. vm_compute. reflexivity.
Defined.

(** ** [preloadAllWords] *)

(** One load of [preloadAllWords] that completes. *)
Lemma loadWordsFrom_stores (fetch : string -> WM.Response) (started : WM.t)
    (difficulty category : string) (this : WM.t) :
  (∀ key, is_Some (WM.words this !! key) →
          is_Some (WM.words (WM.loadWordsFrom fetch started difficulty category this).2
                     !! key)) ∧
  (WM.words started !! WM.cacheKey difficulty category = None →
   inherited (WM.cacheKey difficulty category) = false →
   is_Some (WM.words (WM.loadWordsFrom fetch started difficulty category this).2
              !! WM.cacheKey difficulty category)) ∧
  (∀ key, key ≠ WM.cacheKey difficulty category →
          WM.words (WM.loadWordsFrom fetch started difficulty category this).2 !! key
          = WM.words this !! key) ∧
  WM.cycleState (WM.loadWordsFrom fetch started difficulty category this).2
    = WM.cycleState this ∧
  WM.storage (WM.loadWordsFrom fetch started difficulty category this).2
    = WM.storage this.
Proof.
  unfold WM.loadWordsFrom.
  destruct (WM.words started !! WM.cacheKey difficulty category) as [cached|] eqn:Hstarted.
  { by rewrite (get_Some _ _ _ Hstarted). }
  destruct (inherited (WM.cacheKey difficulty category)) eqn:Hinherited.
  { by rewrite get_inherited. }
  rewrite get_None by done.
  assert (Hset : ∀ (ok : bool) (bank : list WM.WordEntry),
    (∀ key, is_Some (WM.words this !! key) →
            is_Some (WM.words (ok, WM.set_words
                                     (<[WM.cacheKey difficulty category := bank]>
                                        (WM.words this)) this).2 !! key)) ∧
    (None = None (A := list WM.WordEntry) → false = false →
     is_Some (WM.words (ok, WM.set_words
                              (<[WM.cacheKey difficulty category := bank]>
                                 (WM.words this)) this).2
                !! WM.cacheKey difficulty category)) ∧
    (∀ key, key ≠ WM.cacheKey difficulty category →
            WM.words (ok, WM.set_words
                            (<[WM.cacheKey difficulty category := bank]>
                               (WM.words this)) this).2 !! key
            = WM.words this !! key) ∧
    WM.cycleState (ok, WM.set_words (<[WM.cacheKey difficulty category := bank]>
                                       (WM.words this)) this).2 = WM.cycleState this ∧
    WM.storage (ok, WM.set_words (<[WM.cacheKey difficulty category := bank]>
                                    (WM.words this)) this).2 = WM.storage this).
  { intros ok bank. cbn [snd WM.words WM.set_words WM.cycleState WM.storage].
    split.
    { intros key Hkey. rewrite lookup_insert. case_decide; [by eexists|done]. }
    split; [intros _ _; rewrite lookup_insert_eq; by eexists|].
    split; [intros key Hkey; by rewrite lookup_insert_ne|done]. }
  destruct (getSampleWords_nonempty difficulty category Hinherited) as (sample & -> & _).
  destruct (fetch _) as [| | |data]; try apply Hset.
  destruct (WM.validateWordData data); apply Hset.
Qed.

(** The loop over the loads in the order in which they complete. *)
Lemma preload_loop (fetch : string -> WM.Response) (started : WM.t)
    (completion : list (string * string)) :
  ∀ (loadResults : list WM.LoadResult) (this : WM.t),
    (∀ key, is_Some (WM.words started !! key) → is_Some (WM.words this !! key)) →
    ∃ more this',
      foldl (fun (state : list WM.LoadResult * WM.t) (load : string * string) =>
               let (success, this) :=
                 WM.loadWordsFrom fetch started load.1 load.2 state.2 in
               (state.1 ++ [{| WM.r_difficulty := load.1; WM.r_category := load.2;
                               WM.r_success := success |}],
                this))
            (loadResults, this) completion
      = (loadResults ++ more, this') ∧
      (fun r => (WM.r_difficulty r, WM.r_category r)) <$> more = completion ∧
      (∀ key, is_Some (WM.words this !! key) → is_Some (WM.words this' !! key)) ∧
      (∀ load, load ∈ completion → inherited (WM.cacheKey load.1 load.2) = false →
               is_Some (WM.words this' !! WM.cacheKey load.1 load.2)) ∧
      (∀ key, (∀ load, load ∈ completion → key ≠ WM.cacheKey load.1 load.2) →
              WM.words this' !! key = WM.words this !! key) ∧
      WM.cycleState this' = WM.cycleState this ∧
      WM.storage this' = WM.storage this.
Proof.
  induction completion as [|[d c] completion IH]; intros loadResults this Hkept.
  { exists [], this. rewrite app_nil_r. repeat split; try done.
    intros load Hload. by apply elem_of_nil in Hload. }
  cbn [foldl fst snd].
  destruct (loadWordsFrom_stores fetch started d c this)
    as (Hmono & Hnew & Hother & Hcycle & Hstorage).
  destruct (WM.loadWordsFrom fetch started d c this) as [success this1].
  cbn [fst snd] in *.
  destruct (IH (loadResults ++ [{| WM.r_difficulty := d; WM.r_category := c;
                                   WM.r_success := success |}]) this1)
    as (more & this' & Heq & Hnames & Hmono' & Hall & Hframe & Hcycle' & Hstorage').
  { intros key Hkey. by apply Hmono, Hkept. }
  exists ({| WM.r_difficulty := d; WM.r_category := c; WM.r_success := success |} :: more),
         this'.
  split; [by rewrite Heq, <- (assoc_L (++))|].
  split; [by rewrite fmap_cons, Hnames|].
  split; [intros key Hkey; by apply Hmono', Hmono|].
  split.
  { intros load Hload Hplain.
    apply elem_of_cons in Hload as [->|Hload]; [|by apply Hall].
    apply Hmono'. cbn [fst snd] in *.
    destruct (WM.words started !! WM.cacheKey d c) as [bank|] eqn:Hstarted.
    - apply Hmono, Hkept. by eexists.
    - by apply Hnew. }
  split.
  { intros key Hkey. rewrite Hframe.
    - apply Hother. apply (Hkey (d, c)). by left.
    - intros load Hload. apply Hkey. by right. }
  split; congruence.
Qed.

Lemma filter_partition_length {A : Type} (f : A -> bool) (l : list A) :
  length (List.filter f l) + length (List.filter (fun x => negb (f x)) l) = length l.
Proof.
  induction l as [|x l IH]; [done|]. simpl. destruct (f x); simpl; lia.
Qed.

(** X23. [preloadAllWords] starts one load for every pair of a difficulty
    and a category and waits for all of them.  In whatever order the loads
    complete, the details list them in that order, the numbers of successes
    and of failures add up to the number of pairs, and afterwards no later
    [loadWords] for a pair fetches anything: a bank is cached for every pair
    whose key is no inherited name, which are all nine pairs of the lists
    that the constructor sets.  The banks of other keys, the cycles and the
    storage are not touched.  A single load that is started on the object
    and completes on it is [loadWords]. *)
Theorem preloadAllWords_caches_every_pair (fetch later : string -> WM.Response)
    (completion : list (string * string)) (this : WM.t) :
  completion ≡ₚ WM.preloadPairs this →
  (fun r => (WM.r_difficulty r, WM.r_category r))
    <$> WM.details (WM.preloadAllWords fetch completion this).1 = completion ∧
  WM.success (WM.preloadAllWords fetch completion this).1
    + WM.failed (WM.preloadAllWords fetch completion this).1
    = length (WM.preloadPairs this) ∧
  (∀ difficulty category,
     difficulty ∈ WM.availableDifficulties this →
     category ∈ WM.availableCategories this →
     (inherited (WM.cacheKey difficulty category) = false →
      is_Some (WM.words (WM.preloadAllWords fetch completion this).2
                 !! WM.cacheKey difficulty category)) ∧
     WM.loadWords later difficulty category (WM.preloadAllWords fetch completion this).2
     = (true, (WM.preloadAllWords fetch completion this).2)) ∧
  (WM.availableDifficulties this = ["easy"; "medium"; "hard"] →
   WM.availableCategories this = ["general"; "academic"; "business"] →
   ∀ difficulty category,
     difficulty ∈ WM.availableDifficulties this →
     category ∈ WM.availableCategories this →
     is_Some (WM.words (WM.preloadAllWords fetch completion this).2
                !! WM.cacheKey difficulty category)) ∧
  (∀ key, (∀ load, load ∈ WM.preloadPairs this → key ≠ WM.cacheKey load.1 load.2) →
          WM.words (WM.preloadAllWords fetch completion this).2 !! key
          = WM.words this !! key) ∧
  WM.cycleState (WM.preloadAllWords fetch completion this).2 = WM.cycleState this ∧
  WM.storage (WM.preloadAllWords fetch completion this).2 = WM.storage this ∧
  (∀ difficulty category,
     WM.loadWordsFrom fetch this difficulty category this
     = WM.loadWords fetch difficulty category this).
Proof.
  intros Hperm. unfold WM.preloadAllWords.
  destruct (preload_loop fetch this completion [] this ltac:(done))
    as (more & this' & Heq & Hnames & _ & Hall & Hframe & Hcycle & Hstorage).
  rewrite Heq. cbn [fst snd app WM.details WM.success WM.failed].
  split; [exact Hnames|].
  split.
  { rewrite filter_partition_length, <- Hperm, <- Hnames. by rewrite length_fmap. }
  assert (Hin : ∀ difficulty category,
            difficulty ∈ WM.availableDifficulties this →
            category ∈ WM.availableCategories this →
            (difficulty, category) ∈ completion).
  { intros difficulty category Hd Hc.
    rewrite Hperm. unfold WM.preloadPairs. apply list_elem_of_In, in_flat_map.
    exists difficulty. split; [by apply list_elem_of_In|].
    apply list_elem_of_In, list_elem_of_fmap. by exists category. }
  split.
  { intros difficulty category Hd Hc.
    split; [intros Hplain; by apply (Hall _ (Hin _ _ Hd Hc))|].
    destruct (WM.words this' !! WM.cacheKey difficulty category) as [bank|] eqn:Hbank.
    { by apply (loadWords_cached _ _ _ _ bank). }
    destruct (inherited (WM.cacheKey difficulty category)) eqn:Hinherited.
    { by apply loadWords_inherited. }
    destruct (Hall _ (Hin _ _ Hd Hc) Hinherited) as [bank Hsome].
    cbn [fst snd] in Hsome. congruence. }
  split.
  { intros Hdifficulties Hcategories difficulty category Hd Hc.
    apply (Hall _ (Hin _ _ Hd Hc)). cbn [fst snd].
    rewrite Hdifficulties in Hd. rewrite Hcategories in Hc.
    repeat (apply elem_of_cons in Hd as [->|Hd]);
      [| | |by apply elem_of_nil in Hd];
      (repeat (apply elem_of_cons in Hc as [->|Hc]));
      solve [reflexivity | by apply elem_of_nil in Hc]. }
  split.
  { intros key Hkey. apply Hframe. intros load Hload. apply Hkey. by rewrite <- Hperm. }
  split; [exact Hcycle|]. split; [exact Hstorage|].
  intros difficulty category. reflexivity.
Qed.

Lemma preloadAllWords_caches_every_pair_witness :
  WM.preloadPairs new_manager ≡ₚ WM.preloadPairs new_manager ∧
  WM.success (WM.preloadAllWords offline (WM.preloadPairs new_manager) new_manager).1
    + WM.failed (WM.preloadAllWords offline (WM.preloadPairs new_manager) new_manager).1
    = 9 ∧
  is_Some (WM.words (WM.preloadAllWords offline (WM.preloadPairs new_manager) new_manager).2
             !! WM.cacheKey "hard" "business").
Proof.
  split; [reflexivity|].
  destruct (preloadAllWords_caches_every_pair offline offline (WM.preloadPairs new_manager)
              new_manager ltac:(reflexivity))
    as (_ & Hsum & _ & Hall & _).
  split; [exact Hsum|].
  apply (Hall eq_refl eq_refl "hard" "business");
    apply (bool_decide_unpack _); vm_compute; reflexivity.
Defined.

(** ** The keys of the banks *)

(** A step that touches the bank of one key only, and not even that one
    when it is an inherited name without a bank. *)
Lemma keys_plain_step (key : string) (this this' : WM.t) :
  keys_plain this →
  (∀ other, other ≠ key → WM.words this' !! other = WM.words this !! other) →
  (WM.words this !! key = None → inherited key = true → WM.words this' !! key = None) →
  keys_plain this'.
Proof.
  intros Hplain Hother Hsame other [bank Hbank].
  destruct (decide (other = key)) as [->|Hne].
  - destruct (inherited key) eqn:Hinherited; [|done].
    destruct (WM.words this !! key) as [cached|] eqn:Hcached.
    + rewrite <- Hinherited. apply Hplain. by eexists.
    + rewrite Hsame in Hbank by done. discriminate.
  - apply Hplain. rewrite <- Hother by done. by eexists.
Qed.

Lemma loadWordsFrom_keys_plain (fetch : string -> WM.Response) (started : WM.t)
    (difficulty category : string) (this : WM.t) :
  keys_plain this →
  keys_plain (WM.loadWordsFrom fetch started difficulty category this).2.
Proof.
  intros Hplain.
  destruct (loadWordsFrom_stores fetch started difficulty category this)
    as (_ & _ & Hother & _).
  apply (keys_plain_step (WM.cacheKey difficulty category) this); [done..|].
  intros Hnone Hinherited. unfold WM.loadWordsFrom, get. rewrite Hinherited.
  by destruct (WM.words started !! WM.cacheKey difficulty category).
Qed.

(** The program caches no bank under an inherited name: a new manager has
    none, and no method of the word manager stores one.  So wherever the
    program reads the cycle of a cached bank, [this.cycleState[cacheKey]]
    is the own property of the object or [undefined]. *)
Lemma keys_plain_kept (random : nat -> Draw) (fetch : string -> WM.Response)
    (difficulty category : string) (reshuffle : bool)
    (completion : list (string * string)) (this : WM.t) (drawn : nat) :
  keys_plain this →
  (∀ storage, keys_plain (WM.constructor storage)) ∧
  keys_plain (WM.loadWords fetch difficulty category this).2 ∧
  keys_plain (WM.getNextWord random fetch difficulty category this drawn).1.2 ∧
  keys_plain (WM.getWordCount fetch difficulty category this).2 ∧
  (∀ reset drawn',
     WM.resetCycle random difficulty category reshuffle this drawn = Some (reset, drawn') →
     keys_plain reset) ∧
  keys_plain (WM.preloadAllWords fetch completion this).2 ∧
  keys_plain (WM.resetUsedWords this) ∧
  ∀ key bank,
    WM.words this !! key = Some bank →
    get key (WM.cycleState this)
    = match WM.cycleState this !! key with Some state => Own state | None => Undefined end.
Proof.
  intros Hplain.
  assert (Hload : ∀ s, keys_plain s → keys_plain (WM.loadWords fetch difficulty category s).2).
  { intros s Hs. exact (loadWordsFrom_keys_plain fetch s difficulty category s Hs). }
  split.
  { intros storage key [bank Hbank]. simpl in Hbank. by rewrite lookup_empty in Hbank. }
  split; [by apply Hload|].
  split.
  { destruct (getNextWord_frame random fetch difficulty category this drawn)
      as (Hother & _).
    apply (keys_plain_step (WM.cacheKey difficulty category) this); [done..|].
    intros Hnone Hinherited. by rewrite getNextWord_inherited by done. }
  split.
  { unfold WM.getWordCount. cbn [snd].
    destruct (get _ (WM.words this)); [done..|]. by apply Hload. }
  split.
  { intros reset drawn' Hreset. unfold WM.resetCycle in Hreset.
    intros key Hkey. apply Hplain.
    assert (Hwords : WM.words reset = WM.words this).
    { destruct (get _ (WM.words this)) as [bank| |]; [|done|];
        injection Hreset as Hreset;
        match type of Hreset with
        | WM.initCycle _ ?key ?bank _ _ _ = _ =>
            pose proof (proj1 (initCycle_fields random key bank reshuffle this drawn))
              as Hsame
        end;
        by rewrite Hreset in Hsame. }
    by rewrite Hwords in Hkey. }
  split.
  { unfold WM.preloadAllWords.
    assert (Hloop : ∀ loadResults s,
      keys_plain s →
      keys_plain
        (foldl (fun (state : list WM.LoadResult * WM.t) (load : string * string) =>
                  let (success, this0) :=
                    WM.loadWordsFrom fetch this load.1 load.2 state.2 in
                  (state.1 ++ [{| WM.r_difficulty := load.1; WM.r_category := load.2;
                                  WM.r_success := success |}],
                   this0))
               (loadResults, s) completion).2).
    { induction completion as [|[d c] completion IH]; intros loadResults s Hs; [done|].
      cbn [foldl fst snd].
      pose proof (loadWordsFrom_keys_plain fetch this d c s Hs) as Hnext.
      destruct (WM.loadWordsFrom fetch this d c s) as [success s']. by apply IH. }
    specialize (Hloop [] this Hplain).
    by destruct (foldl _ _ completion). }
  split; [exact Hplain|].
  intros key bank Hbank. unfold get.
  by rewrite (Hplain key ltac:(by eexists)).
Qed.

(** * Properties of the game *)

(** ** The store of the game *)

Lemma storage_shipped (sm : SM.t) (this : Game.t) :
  WM.storage (Game.wordManager this) = Some (WM.shipped sm) → Game.storage this = Some sm.
Proof. intros Hs. unfold Game.storage. by rewrite Hs. Qed.

Lemma put_storage_shipped (sm sm' : SM.t) (this : Game.t) :
  WM.storage (Game.wordManager this) = Some (WM.shipped sm) →
  WM.storage (Game.wordManager (Game.put_storage sm' this)) = Some (WM.shipped sm').
Proof. intros Hs. unfold Game.put_storage. by rewrite Hs. Qed.

Lemma put_storage_same_round (sm : SM.t) (this : Game.t) :
  same_round this (Game.put_storage sm this) ∧
  Game.score (Game.put_storage sm this) = Game.score this ∧
  Game.streak (Game.put_storage sm this) = Game.streak this ∧
  Game.level (Game.put_storage sm this) = Game.level this.
Proof.
  unfold Game.put_storage, same_round.
  by destruct (WM.storage (Game.wordManager this)).
Qed.

(** ** [calculatePoints] *)

Lemma calculatePoints_value (this : Game.t) :
  inherited (Game.difficulty (Game.settings this)) = false →
  Game.calculatePoints this
  = Some (base_points (Game.difficulty (Game.settings this))
          + Game.streak this / 3 * 2 + time_bonus (Game.timeLeft this))%Z.
Proof.
  intros Hplain. unfold Game.calculatePoints, base_points, time_bonus. rewrite Hplain.
  destruct (decide (Game.difficulty (Game.settings this) = "easy")) as [He|He].
  { rewrite He, lookup_insert_eq. by rewrite !decide_False by done. }
  destruct (decide (Game.difficulty (Game.settings this) = "medium")) as [Hm|Hm].
  { by rewrite Hm, (lookup_insert_ne _ "easy" "medium"), lookup_insert_eq by done. }
  destruct (decide (Game.difficulty (Game.settings this) = "hard")) as [Hh|Hh].
  { by rewrite Hh, (lookup_insert_ne _ "easy" "hard"), (lookup_insert_ne _ "medium" "hard"),
      lookup_singleton_eq by done. }
  by rewrite !lookup_insert_ne, lookup_singleton_ne by done.
Qed.

Lemma base_points_range (difficulty : string) : (5 ≤ base_points difficulty ≤ 15)%Z.
Proof. unfold base_points. repeat case_decide; lia. Qed.

Lemma time_bonus_range (timeLeft : Z) : (0 ≤ time_bonus timeLeft ≤ 5)%Z.
Proof. unfold time_bonus. destruct (20 <? timeLeft)%Z, (10 <? timeLeft)%Z; lia. Qed.

Lemma time_bonus_mono (timeLeft later : Z) :
  (timeLeft ≤ later)%Z → (time_bonus timeLeft ≤ time_bonus later)%Z.
Proof.
  intros Hle. unfold time_bonus.
  destruct (Z.ltb_spec 20 timeLeft), (Z.ltb_spec 10 timeLeft),
    (Z.ltb_spec 20 later), (Z.ltb_spec 10 later); lia.
Qed.

(** X24. For a difficulty whose name is no inherited property name,
    [calculatePoints] returns the base points of the difficulty (5 for
    easy, 10 for medium, 15 for hard, and 5 for any other name) plus 2 for
    every three words of the streak plus the time bonus (5 above 20 seconds
    left, 2 above 10, else 0).  With a streak that is not negative this is
    at least 5, and it does not decrease when the streak or the time left
    grows. *)
Theorem calculatePoints_bounds (this : Game.t) :
  inherited (Game.difficulty (Game.settings this)) = false →
  (0 ≤ Game.streak this)%Z →
  ∃ points,
    Game.calculatePoints this = Some points ∧
    points = (base_points (Game.difficulty (Game.settings this))
              + Game.streak this / 3 * 2 + time_bonus (Game.timeLeft this))%Z ∧
    (5 ≤ points ≤ 20 + Game.streak this / 3 * 2)%Z ∧
    (∀ later,
       Game.settings later = Game.settings this →
       (Game.streak this ≤ Game.streak later)%Z →
       (Game.timeLeft this ≤ Game.timeLeft later)%Z →
       ∃ more, Game.calculatePoints later = Some more ∧ (points ≤ more)%Z).
Proof.
  intros Hplain Hstreak.
  eexists. split; [by apply calculatePoints_value|]. split; [done|].
  pose proof (base_points_range (Game.difficulty (Game.settings this))) as Hbase.
  pose proof (time_bonus_range (Game.timeLeft this)) as Htime.
  assert (Hbonus : (0 ≤ Game.streak this / 3 * 2)%Z).
  { apply Z.mul_nonneg_nonneg; [|lia]. apply Z.div_pos; lia. }
  split; [lia|].
  intros later Hsettings Hmore Hlater.
  eexists. split; [apply calculatePoints_value; by rewrite Hsettings|].
  rewrite Hsettings.
  pose proof (time_bonus_mono _ _ Hlater).
  assert (Hdiv : (Game.streak this / 3 ≤ Game.streak later / 3)%Z)
    by (apply Z.div_le_mono; lia).
  lia.
Qed.

Lemma calculatePoints_bounds_witness :
  inherited (Game.difficulty (Game.settings happy_round)) = false ∧
  (0 ≤ Game.streak happy_round)%Z ∧
  Game.calculatePoints happy_round = Some 12%Z.
Proof.
  split; [vm_compute; reflexivity|]. split; [vm_compute; discriminate|].
  destruct (calculatePoints_bounds happy_round ltac:(vm_compute; reflexivity)
              ltac:(vm_compute; discriminate)) as (points & Heq & _).
  rewrite Heq. revert Heq. vm_compute. by intros [= <-].
Defined.

(** ** [updateGameStats] *)

(** What [updateGameStats] does when the game shows what the store holds. *)
Lemma updateGameStats_applied (isCorrect : bool) (this : Game.t) (sm : SM.t) (c : Counters) :
  in_sync this sm c →
  inherited (Game.difficulty (Game.settings this)) = false →
  ∃ this' sm',
    Game.updateGameStats isCorrect this = Some this' ∧
    in_sync this' sm'
      (answered isCorrect
         (base_points (Game.difficulty (Game.settings this))
          + Game.streak this / 3 * 2 + time_bonus (Game.timeLeft this)) c) ∧
    same_round this this' ∧
    (∀ key d,
       key ∉ ["totalScore"; "currentStreak"; "bestStreak"; "level"; "totalWords";
              "correctAnswers"] →
       SM.getData key d sm' = SM.getData key d sm).
Proof.
  intros (Hstorage & Hw & Hr & Hscore & Hstreak & Hlevel) Hplain.
  unfold Game.updateGameStats. rewrite (storage_shipped sm this Hstorage).
  cbn [mbind option_bind].
  destruct isCorrect.
  - rewrite (calculatePoints_value this Hplain). cbn [mbind option_bind].
    set (points := (base_points (Game.difficulty (Game.settings this))
                    + Game.streak this / 3 * 2 + time_bonus (Game.timeLeft this))%Z).
    cbn [Game.streak Game.set_streak Game.set_score Game.score Game.level].
    set (up := (0 <? Game.streak this + 1)%Z && (Z.rem (Game.streak this + 1) 5 =? 0)%Z).
    set (scored := Game.set_streak (Game.streak this + 1)
                     (Game.set_score (Game.score this + points) this)).
    set (levelled := if up then Game.set_level (Game.level this + 1) scored else scored).
    assert (Hfields : Game.streak levelled = (Game.streak this + 1)%Z ∧
                      Game.score levelled = (Game.score this + points)%Z ∧
                      Game.level levelled
                        = (if up then Game.level this + 1 else Game.level this)%Z ∧
                      WM.storage (Game.wordManager levelled) = Some (WM.shipped sm) ∧
                      same_round this levelled).
    { unfold levelled, scored. destruct up; by repeat split. }
    destruct Hfields as (Hs & Hp & Hl & Hst & Hround).
    rewrite Hs, Hl.
    destruct (updateStats_applied
                {| SM.scoreIncrease := Some points;
                   SM.streak := Some (Game.streak this + 1)%Z;
                   SM.newLevel := Some (if up then Game.level this + 1 else Game.level this)%Z;
                   SM.wordCompleted := true;
                   SM.correctAnswer := Some true |} sm c Hw Hr)
      as (sm' & Heq & Hw' & Hr' & Hframe).
    rewrite Heq. cbn [mbind option_bind].
    destruct (put_storage_same_round sm' levelled) as (Hround' & Hp' & Hs' & Hl').
    exists (Game.put_storage sm' levelled), sm'. split; [done|].
    split.
    { split; [by apply (put_storage_shipped sm)|]. split; [exact Hw'|].
      unfold answered. cbn [andb]. rewrite <- Hstreak, <- Hscore, <- Hlevel.
      fold up. cbn [SM.scoreIncrease SM.streak SM.newLevel SM.wordCompleted
                    SM.correctAnswer default from_option id] in Hr'.
      rewrite <- ?Hstreak, <- ?Hscore in Hr'.
      split; [exact Hr'|]. by rewrite Hp', Hs', Hl', Hp, Hs, Hl. }
    split; [|exact Hframe].
    unfold same_round in *. destruct Hround as (? & ? & ? & ? & ? & ? & ? & ?).
    destruct Hround' as (? & ? & ? & ? & ? & ? & ? & ?). repeat split; congruence.
  - cbn [Game.streak Game.set_streak].
    destruct (updateStats_applied
                {| SM.scoreIncrease := None;
                   SM.streak := Some 0%Z;
                   SM.newLevel := None;
                   SM.wordCompleted := true;
                   SM.correctAnswer := Some false |} sm c Hw Hr)
      as (sm' & Heq & Hw' & Hr' & Hframe).
    rewrite Heq. cbn [mbind option_bind].
    destruct (put_storage_same_round sm' (Game.set_streak 0 this))
      as (Hround' & Hp' & Hs' & Hl').
    exists (Game.put_storage sm' (Game.set_streak 0 this)), sm'. split; [done|].
    split.
    { split; [by apply (put_storage_shipped sm)|]. split; [exact Hw'|].
      unfold answered. cbn [andb].
      cbn [SM.scoreIncrease SM.streak SM.newLevel SM.wordCompleted
           SM.correctAnswer default from_option id] in Hr'.
      rewrite !Z.add_0_r in Hr'.
      split; [exact Hr'|]. by rewrite Hp', Hs', Hl'. }
    split; [exact Hround'|exact Hframe].
Qed.

Lemma new_game_in_sync : in_sync new_game fresh_store default_counters.
Proof.
  split; [reflexivity|]. split; [exact fresh_store_working|].
  split; [exact fresh_store_reads_defaults|]. by repeat split.
Qed.

(** X25. When the game shows what a working store holds (and the name of
    the difficulty is no inherited property name), it still does after
    [updateGameStats].  A correct answer adds the points of
    [calculatePoints], taken before the streak grows, to the score, adds one
    to the streak, and raises the level by one exactly when the new streak
    is a positive multiple of 5; an incorrect one sets the streak to 0 and
    leaves score and level alone.  Either way one more word and, if
    correct, one more correct answer are counted, the best streak is the
    larger of the old one and the new streak, and nothing but the six
    counters changes in the store. *)
Theorem updateGameStats_keeps_in_sync (isCorrect : bool) (this : Game.t) (sm : SM.t)
    (c : Counters) :
  in_sync this sm c →
  inherited (Game.difficulty (Game.settings this)) = false →
  ∃ this' sm' c' points,
    Game.updateGameStats isCorrect this = Some this' ∧
    in_sync this' sm' c' ∧
    (isCorrect = true → Game.calculatePoints this = Some points) ∧
    Game.score this' = (if isCorrect then Game.score this + points else Game.score this)%Z ∧
    Game.streak this' = (if isCorrect then Game.streak this + 1 else 0)%Z ∧
    Game.level this'
      = (if isCorrect && (0 <? Game.streak this')%Z && (Z.rem (Game.streak this') 5 =? 0)%Z
         then Game.level this + 1 else Game.level this)%Z ∧
    c_totalWords c' = (c_totalWords c + 1)%Z ∧
    c_correctAnswers c'
      = (if isCorrect then c_correctAnswers c + 1 else c_correctAnswers c)%Z ∧
    c_bestStreak c' = Z.max (c_bestStreak c) (Game.streak this') ∧
    same_round this this' ∧
    (∀ key d,
       key ∉ ["totalScore"; "currentStreak"; "bestStreak"; "level"; "totalWords";
              "correctAnswers"] →
       SM.getData key d sm' = SM.getData key d sm).
Proof.
  intros Hsync Hplain.
  destruct (updateGameStats_applied isCorrect this sm c Hsync Hplain)
    as (this' & sm' & Heq & Hsync' & Hround & Hframe).
  destruct Hsync as (_ & _ & _ & Hscore & Hstreak & Hlevel).
  pose proof Hsync' as (_ & _ & _ & Hscore' & Hstreak' & Hlevel').
  eexists this', sm', _, _. split; [exact Heq|]. split; [exact Hsync'|].
  split; [intros _; by apply calculatePoints_value|].
  unfold answered in *.
  cbn [c_totalScore c_currentStreak c_bestStreak c_level c_totalWords c_correctAnswers] in *.
  rewrite Hscore', Hstreak', Hlevel', Hscore, Hstreak, Hlevel.
  repeat (split; [reflexivity|]). split; [exact Hround|exact Hframe].
Qed.

Lemma updateGameStats_keeps_in_sync_witness :
  in_sync new_game fresh_store default_counters ∧
  inherited (Game.difficulty (Game.settings new_game)) = false ∧
  ∃ this',
    Game.updateGameStats true new_game = Some this' ∧
    Game.score this' = 10%Z ∧ Game.streak this' = 1%Z ∧ Game.level this' = 1%Z.
Proof.
  split; [exact new_game_in_sync|]. split; [vm_compute; reflexivity|].
  destruct (updateGameStats_keeps_in_sync true new_game fresh_store default_counters
              new_game_in_sync ltac:(vm_compute; reflexivity))
    as (this' & sm' & c' & points & Heq & _ & Hpoints & Hscore & Hstreak & Hlevel & _).
  exists this'. split; [exact Heq|].
  specialize (Hpoints eq_refl). vm_compute in Hpoints. injection Hpoints as <-.
  rewrite Hlevel, Hstreak, Hscore. by repeat split.
Defined.

(** ** Recording an answer *)

(** The updates of the ledger write their own key only. *)
Lemma updateWordAccuracy_frame (word : string) (correct : bool) (this this' : SM.t) :
  SM.updateWordAccuracy word correct this = Some this' →
  ∀ key d, key ≠ "wordAccuracy" → SM.getData key d this' = SM.getData key d this.
Proof.
  unfold SM.updateWordAccuracy. intros Heq key d Hkey.
  destruct (SM.getWordAccuracy this); try done.
  destruct (SM.entry_or _ _); cbn [mbind option_bind] in Heq; [|done].
  destruct (SM.tally _ _); cbn [mbind option_bind] in Heq; [|done].
  injection Heq as <-. by apply getData_setData_ne.
Qed.

Lemma updateDifficultyAccuracy_frame (difficulty : string) (correct : bool)
    (this this' : SM.t) :
  SM.updateDifficultyAccuracy difficulty correct this = Some this' →
  ∀ key d, key ≠ "difficultyStats" → SM.getData key d this' = SM.getData key d this.
Proof.
  unfold SM.updateDifficultyAccuracy. intros Heq key d Hkey.
  destruct (SM.getDifficultyStats this); try done.
  destruct (SM.entry_or _ _); cbn [mbind option_bind] in Heq; [|done].
  destruct (SM.tally _ _); cbn [mbind option_bind] in Heq; [|done].
  destruct (SM.field "total" _); cbn [mbind option_bind] in Heq; [|done].
  destruct (if (0 <? _)%Z then _ else _); cbn [mbind option_bind] in Heq; [|done].
  injection Heq as <-. by apply getData_setData_ne.
Qed.

Lemma addCompletedWord_frame (word : string) (this this' : SM.t) :
  SM.addCompletedWord word this = Some this' →
  ∀ key d, key ≠ "completedWords" → SM.getData key d this' = SM.getData key d this.
Proof.
  unfold SM.addCompletedWord. intros Heq key d Hkey.
  destruct (SM.getCompletedWords this); try done.
  destruct (negb _); injection Heq as <-; [by apply getData_setData_ne|done].
Qed.

Lemma removeMissedWord_frame (word : string) (this this' : SM.t) :
  SM.removeMissedWord word this = Some this' →
  ∀ key d, key ≠ "missedWords" → SM.getData key d this' = SM.getData key d this.
Proof.
  unfold SM.removeMissedWord. intros Heq key d Hkey.
  destruct (SM.getMissedWords this); try done.
  destruct (has _ _); injection Heq as <-; [by apply getData_setData_ne|done].
Qed.

Lemma addMissedWord_frame (word : string) (this this' : SM.t) :
  SM.addMissedWord word this = Some this' →
  ∀ key d, key ≠ "missedWords" → SM.getData key d this' = SM.getData key d this.
Proof.
  unfold SM.addMissedWord. intros Heq key d Hkey.
  destruct (SM.getMissedWords this); try done.
  destruct (SM.or_zero _); cbn [mbind option_bind] in Heq; [|done].
  injection Heq as <-. by apply getData_setData_ne.
Qed.

Lemma trackWordProgress_frame (current : option WM.PreparedWord) (difficulty : string)
    (isCorrect : bool) (this this' : SM.t) :
  Game.trackWordProgress current difficulty isCorrect this = Some this' →
  ∀ key d,
    key ∉ ["wordAccuracy"; "difficultyStats"; "completedWords"; "missedWords"] →
    SM.getData key d this' = SM.getData key d this.
Proof.
  intros Heq key d Hkey.
  assert (Hne : key ≠ "wordAccuracy" ∧ key ≠ "difficultyStats" ∧
                key ≠ "completedWords" ∧ key ≠ "missedWords").
  { repeat split; intros ->; apply Hkey; repeat constructor. }
  destruct Hne as (H1 & H2 & H3 & H4).
  destruct current as [current|]; [|by injection Heq as <-].
  unfold Game.trackWordProgress in Heq.
  destruct (SM.updateWordAccuracy _ _ this) as [s1|] eqn:E1;
    cbn [mbind option_bind] in Heq; [|done].
  destruct (SM.updateDifficultyAccuracy _ _ s1) as [s2|] eqn:E2;
    cbn [mbind option_bind] in Heq; [|done].
  destruct (SM.addCompletedWord _ s2) as [s3|] eqn:E3;
    cbn [mbind option_bind] in Heq; [|done].
  rewrite <- (updateWordAccuracy_frame _ _ _ _ E1 key d H1).
  rewrite <- (updateDifficultyAccuracy_frame _ _ _ _ E2 key d H2).
  rewrite <- (addCompletedWord_frame _ _ _ E3 key d H3).
  destruct isCorrect.
  - by apply (removeMissedWord_frame _ _ _ Heq).
  - by apply (addMissedWord_frame _ _ _ Heq).
Qed.

(** [trackWordProgress] on a working store that reads as a consistent
    ledger, for a term and a difficulty that are no inherited names. *)
Lemma trackWordProgress_applied (this : SM.t) (l : Spec.Ledger)
    (current : WM.PreparedWord) (difficulty : string) (isCorrect : bool) :
  working this → represents this l → Spec.consistent l →
  inherited (WM.p_word current) = false → inherited difficulty = false →
  ∃ this',
    Game.trackWordProgress (Some current) difficulty isCorrect this = Some this' ∧
    working this' ∧
    represents this' (recorded (WM.p_word current) difficulty isCorrect l) ∧
    Spec.consistent (recorded (WM.p_word current) difficulty isCorrect l).
Proof.
  intros Hw Hr Hc Hterm Hdifficulty. set (term := WM.p_word current) in *.
  destruct (updateWordAccuracy_represents term isCorrect this l Hw Hr Hterm)
    as (this1 & E1 & Hw1 & Hr1).
  destruct (updateDifficultyAccuracy_represents difficulty isCorrect this1 _ Hw1 Hr1 Hc
              Hdifficulty)
    as (this2 & E2 & Hw2 & Hr2).
  destruct (addCompletedWord_represents term this2 _ Hw2 Hr2)
    as (this3 & E3 & Hw3 & Hr3).
  unfold Game.trackWordProgress. fold term. rewrite E1. simpl. rewrite E2. simpl.
  rewrite E3. simpl.
  destruct isCorrect.
  - destruct (removeMissedWord_represents term this3 _ Hw3 Hr3)
      as (this4 & E4 & Hw4 & Hr4); [|exact Hterm|].
    { destruct (recorded_consistent term difficulty true l Hc) as (_ & Ht' & Hn').
      destruct Hc as (Hp & _ & _).
      split; [exact Hp | split; [exact Ht' | exact Hn']]. }
    exists this4. split; [exact E4|]. split; [exact Hw4|].
    split; [exact Hr4 | by apply recorded_consistent].
  - destruct (addMissedWord_represents term this3 _ Hw3 Hr3)
      as (this4 & E4 & Hw4 & Hr4); [|exact Hterm|].
    { destruct (recorded_consistent term difficulty false l Hc) as (_ & Ht' & Hn').
      destruct Hc as (Hp & _ & _).
      split; [exact Hp | split; [exact Ht' | exact Hn']]. }
    exists this4. split; [exact E4|]. split; [exact Hw4|].
    split; [exact Hr4 | by apply recorded_consistent].
Qed.

Lemma represents_frame (sm sm' : SM.t) (l : Spec.Ledger) :
  (∀ key d,
     key ∉ ["totalScore"; "currentStreak"; "bestStreak"; "level"; "totalWords";
            "correctAnswers"] →
     SM.getData key d sm' = SM.getData key d sm) →
  represents sm l → represents sm' l.
Proof.
  intros Hframe (H1 & H2 & H3 & H4).
  unfold represents, SM.getCompletedWords, SM.getMissedWords, SM.getWordAccuracy,
    SM.getDifficultyStats in *.
  rewrite !Hframe; [done|by apply (bool_decide_unpack _); vm_compute..].
Qed.

Lemma reads_counters_frame (sm sm' : SM.t) (c : Counters) :
  (∀ key d,
     key ∉ ["wordAccuracy"; "difficultyStats"; "completedWords"; "missedWords"] →
     SM.getData key d sm' = SM.getData key d sm) →
  reads_counters sm c → reads_counters sm' c.
Proof.
  intros Hframe Hr. unfold reads_counters, SM.getStats in *.
  cbn [SM.totalScore SM.currentStreak SM.bestStreak SM.level SM.totalWords
       SM.correctAnswers] in *.
  rewrite !Hframe; [done|by apply (bool_decide_unpack _); vm_compute..].
Qed.

Lemma recordProgress_applied (isCorrect : bool) (this : Game.t) (sm : SM.t) (c : Counters)
    (l : Spec.Ledger) (current : WM.PreparedWord) :
  in_sync this sm c → represents sm l → Spec.consistent l →
  Game.currentWord this = Some current →
  inherited (Game.difficulty (Game.settings this)) = false →
  inherited (WM.p_word current) = false →
  ∃ this' sm',
    Game.recordProgress isCorrect this = Some this' ∧
    in_sync this' sm' c ∧
    represents sm'
      (recorded (WM.p_word current) (Game.difficulty (Game.settings this)) isCorrect l) ∧
    Spec.consistent
      (recorded (WM.p_word current) (Game.difficulty (Game.settings this)) isCorrect l) ∧
    same_round this this'.
Proof.
  intros (Hstorage & Hw & Hr & Hscore & Hstreak & Hlevel) Hl Hc Hcurrent Hplain Hterm.
  destruct (trackWordProgress_applied sm l current (Game.difficulty (Game.settings this))
              isCorrect Hw Hl Hc Hterm Hplain) as (sm' & Heq & Hw' & Hl' & Hc').
  unfold Game.recordProgress. rewrite (storage_shipped sm this Hstorage), Hcurrent.
  cbn [mbind option_bind]. rewrite Heq. cbn [mbind option_bind].
  destruct (put_storage_same_round sm' this) as (Hround & Hp & Hs & Hv).
  exists (Game.put_storage sm' this), sm'. split; [done|].
  split.
  { split; [by apply (put_storage_shipped sm)|]. split; [exact Hw'|].
    split; [|by rewrite Hp, Hs, Hv].
    apply (reads_counters_frame sm); [|done].
    by apply (trackWordProgress_frame _ _ _ _ _ Heq). }
  split; [exact Hl'|]. split; [exact Hc'|]. exact Hround.
Qed.

(** What an answer does once the round is closed: the part that
    [handleAnswer] and [handleTimeOut] share. *)
Lemma answer_applied (isCorrect : bool) (this : Game.t) (sm : SM.t) (c : Counters)
    (l : Spec.Ledger) (current : WM.PreparedWord) :
  in_sync this sm c → represents sm l → Spec.consistent l →
  Game.currentWord this = Some current →
  inherited (Game.difficulty (Game.settings this)) = false →
  inherited (WM.p_word current) = false →
  ∃ this' sm',
    Game.updateGameStats isCorrect (Game.clearTimer (Game.set_gameActive false this))
      ≫= Game.recordProgress isCorrect = Some this' ∧
    in_sync this' sm'
      (answered isCorrect
         (base_points (Game.difficulty (Game.settings this))
          + Game.streak this / 3 * 2 + time_bonus (Game.timeLeft this)) c) ∧
    represents sm'
      (recorded (WM.p_word current) (Game.difficulty (Game.settings this)) isCorrect l) ∧
    Spec.consistent
      (recorded (WM.p_word current) (Game.difficulty (Game.settings this)) isCorrect l) ∧
    round_over this' ∧
    Game.currentWord this' = Some current ∧
    Game.settings this' = Game.settings this ∧
    Game.timeLeft this' = Game.timeLeft this ∧
    WM.cycleState (Game.wordManager this') = WM.cycleState (Game.wordManager this).
Proof.
  intros Hsync Hl Hc Hcurrent Hplain Hterm.
  set (closed := Game.clearTimer (Game.set_gameActive false this)).
  assert (Hsync0 : in_sync closed sm c) by exact Hsync.
  destruct (updateGameStats_applied isCorrect closed sm c Hsync0 Hplain)
    as (this1 & sm1 & Heq1 & Hsync1 & Hround1 & Hframe1).
  assert (Hl1 : represents sm1 l) by by apply (represents_frame sm).
  destruct Hround1 as (Hw1 & Ha1 & Ht1 & Hl1' & Hd1 & Hs1 & Hwords1 & Hcycle1).
  destruct (recordProgress_applied isCorrect this1 sm1 _ l current Hsync1 Hl1 Hc)
    as (this2 & sm2 & Heq2 & Hsync2 & Hl2 & Hc2 & Hround2);
    [by rewrite Hw1|by rewrite Hs1|exact Hterm|].
  destruct Hround2 as (Hw2 & Ha2 & Ht2 & Hl2' & Hd2 & Hs2 & Hwords2 & Hcycle2).
  exists this2, sm2. rewrite Heq1. cbn [mbind option_bind].
  split; [exact Heq2|]. split; [exact Hsync2|].
  rewrite Hs1 in Hl2, Hc2.
  split; [exact Hl2|]. split; [exact Hc2|].
  split; [split; [by rewrite Ha2, Ha1|by rewrite Ht2, Ht1]|].
  split; [by rewrite Hw2, Hw1|]. split; [by rewrite Hs2, Hs1|].
  split; [by rewrite Hl2', Hl1'|]. by rewrite Hcycle2, Hcycle1.
Qed.

(** Once the round is over, neither a click nor the timer does anything. *)
Lemma round_over_idle (this : Game.t) :
  round_over this →
  (∀ selected, Game.handleAnswer selected this = Some this) ∧
  Game.handleTimeOut this = Some this ∧
  ∀ k, ticks k this = Some this.
Proof.
  intros [Hactive Htimer].
  split; [intros selected; unfold Game.handleAnswer; by rewrite Hactive|].
  split; [unfold Game.handleTimeOut; by rewrite Hactive|].
  induction k as [|k IH]; [done|].
  simpl. unfold Game.tick. rewrite Htimer. exact IH.
Qed.

(** ** [handleAnswer] *)

(** X26. While a word is on the screen and the game shows what a working
    store holds, a click on an option is counted once (the names of the
    difficulty and of the term being no inherited property names, and the
    store reading as a consistent ledger).  [handleAnswer]
    succeeds, closes the round (the game is no longer active and the timer
    is stopped), compares the option with the correct answer of the word,
    updates score, streak and level in the game and in the store by the
    points computed at the time of the click, and records the answer for the
    word in the ledger as [trackWordProgress] does: the ledger is
    [recorded], with the accuracy of the difficulty rounded from the double
    [(correct / total) * 100], and it is the ledger of [Spec.recordAnswer]
    where that accuracy is [round(100 * correct / total)].  After that a
    second click, a time-out and any number of timer callbacks leave
    everything as it is. *)
Theorem handleAnswer_counts_once (selected : string) (this : Game.t) (sm : SM.t)
    (c : Counters) (l : Spec.Ledger) (current : WM.PreparedWord) :
  in_sync this sm c → represents sm l → Spec.consistent l →
  Game.gameActive this = true →
  Game.currentWord this = Some current →
  inherited (Game.difficulty (Game.settings this)) = false →
  inherited (WM.p_word current) = false →
  ∃ this' sm' points,
    Game.handleAnswer selected this = Some this' ∧
    Game.calculatePoints this = Some points ∧
    in_sync this' sm'
      (answered (String.eqb selected (WM.correctAnswer current)) points c) ∧
    represents sm'
      (recorded (WM.p_word current) (Game.difficulty (Game.settings this))
         (String.eqb selected (WM.correctAnswer current)) l) ∧
    (percentage
       (counted (Game.difficulty (Game.settings this))
          (String.eqb selected (WM.correctAnswer current)) l).1
       (counted (Game.difficulty (Game.settings this))
          (String.eqb selected (WM.correctAnswer current)) l).2
     = round_percent
         (counted (Game.difficulty (Game.settings this))
            (String.eqb selected (WM.correctAnswer current)) l).1
         (counted (Game.difficulty (Game.settings this))
            (String.eqb selected (WM.correctAnswer current)) l).2 →
     represents sm'
       (Spec.recordAnswer (WM.p_word current) (Game.difficulty (Game.settings this))
          (String.eqb selected (WM.correctAnswer current)) l)) ∧
    round_over this' ∧
    Game.currentWord this' = Some current ∧
    (∀ again, Game.handleAnswer again this' = Some this') ∧
    Game.handleTimeOut this' = Some this' ∧
    (∀ k, ticks k this' = Some this').
Proof.
  intros Hsync Hl Hc Hactive Hcurrent Hplain Hterm.
  destruct (answer_applied (String.eqb selected (WM.correctAnswer current)) this sm c l
              current Hsync Hl Hc Hcurrent Hplain Hterm)
    as (this' & sm' & Heq & Hsync' & Hl' & _ & Hover & Hcurrent' & _).
  destruct (round_over_idle this' Hover) as (Hclick & Htimeout & Hticks).
  eexists this', sm', _.
  split; [unfold Game.handleAnswer; rewrite Hactive, Hcurrent; exact Heq|].
  split; [by apply calculatePoints_value|].
  split; [exact Hsync'|]. split; [exact Hl'|].
  split; [intros Hexact; by rewrite <- (recorded_as_specified _ _ _ _ Hexact)|].
  split; [exact Hover|].
  split; [exact Hcurrent'|]. split; [exact Hclick|]. split; [exact Htimeout|exact Hticks].
Qed.

Lemma happy_round_in_sync : in_sync happy_round
                              (SM.setData "bestStreak" (JNum 4)
                                 (SM.setData "currentStreak" (JNum 4) fresh_store).2).2
                              streak_of_four.
Proof.
  split; [reflexivity|].
  split; [repeat apply setData_keeps_working; exact fresh_store_working|].
  split; [repeat split; vm_compute; reflexivity|]. by repeat split.
Qed.

Lemma happy_round_represents :
  represents (SM.setData "bestStreak" (JNum 4)
                (SM.setData "currentStreak" (JNum 4) fresh_store).2).2 Spec.empty.
Proof. repeat split; vm_compute; reflexivity. Qed.

Lemma handleAnswer_counts_once_witness :
  ∃ this' sm',
    Game.handleAnswer "Feeling joy or pleasure" happy_round = Some this' ∧
    in_sync this' sm' (answered true 12 streak_of_four) ∧
    Game.score this' = 12%Z ∧ Game.streak this' = 5%Z ∧ Game.level this' = 2%Z ∧
    Game.handleAnswer "Feeling joy or pleasure" this' = Some this'.
Proof.
  destruct (handleAnswer_counts_once "Feeling joy or pleasure" happy_round _
              streak_of_four Spec.empty happy happy_round_in_sync happy_round_represents
              empty_consistent eq_refl eq_refl ltac:(vm_compute; reflexivity)
              ltac:(vm_compute; reflexivity))
    as (this' & sm' & points & Heq & Hpoints & Hsync & _ & _ & _ & _ & Hagain & _).
  vm_compute in Hpoints. injection Hpoints as <-.
  change (String.eqb "Feeling joy or pleasure" (WM.correctAnswer happy)) with true in Hsync.
  exists this', sm'. split; [exact Heq|]. split; [exact Hsync|].
  destruct Hsync as (_ & _ & _ & -> & -> & ->).
  split; [reflexivity|]. split; [reflexivity|]. split; [reflexivity|]. apply Hagain.
Defined.

(** ** The timer *)

Lemma set_timeLeft_again (a b : Z) (this : Game.t) :
  Game.set_timeLeft a (Game.set_timeLeft b this) = Game.set_timeLeft a this.
Proof. reflexivity. Qed.

Lemma set_timeLeft_same (this : Game.t) : Game.set_timeLeft (Game.timeLeft this) this = this.
Proof. by destruct this. Qed.

(** While more than [k] seconds are left, [k] callbacks count the time down
    and do nothing else. *)
Lemma ticks_count_down (k : nat) (this : Game.t) :
  Game.timer this = true →
  (Z.of_nat k < Game.timeLeft this)%Z →
  ticks k this = Some (Game.set_timeLeft (Game.timeLeft this - Z.of_nat k) this).
Proof.
  revert this. induction k as [|k IH]; intros this Htimer Hleft.
  { simpl. by rewrite Z.sub_0_r, set_timeLeft_same. }
  cbn [ticks]. unfold Game.tick. rewrite Htimer.
  cbn [Game.timeLeft Game.set_timeLeft].
  destruct (Z.leb_spec (Game.timeLeft this - 1) 0) as [Hle|_]; [lia|].
  cbn [mbind option_bind]. rewrite IH; [|done|simpl; lia].
  rewrite set_timeLeft_again. cbn [Game.timeLeft Game.set_timeLeft].
  do 2 f_equal. lia.
Qed.

(** X27. While a word is on the screen with the timer running (under the
    conditions of X26), the callbacks of the timer only count the seconds
    down until the last one:
    the callback that brings the time left to 0 closes the round and counts
    the word as answered incorrectly, once: the streak goes to 0, score and
    level stay, the word is completed and missed in the ledger, which is
    [recorded] for an incorrect answer, and the ledger of
    [Spec.recordAnswer] where the accuracy rounded from the double
    [(correct / total) * 100] is [round(100 * correct / total)].  Callbacks
    after it do nothing. *)
Theorem timer_times_out_once (this : Game.t) (sm : SM.t) (c : Counters)
    (l : Spec.Ledger) (current : WM.PreparedWord) :
  in_sync this sm c → represents sm l → Spec.consistent l →
  Game.gameActive this = true →
  Game.currentWord this = Some current →
  Game.timer this = true →
  (0 < Game.timeLeft this)%Z →
  inherited (Game.difficulty (Game.settings this)) = false →
  inherited (WM.p_word current) = false →
  (∀ k : nat,
     (Z.of_nat k < Game.timeLeft this)%Z →
     ticks k this = Some (Game.set_timeLeft (Game.timeLeft this - Z.of_nat k) this)) ∧
  ∃ this' sm',
    ticks (Z.to_nat (Game.timeLeft this)) this = Some this' ∧
    in_sync this' sm' (answered false 0 c) ∧
    Game.score this' = Game.score this ∧
    Game.streak this' = 0%Z ∧
    Game.level this' = Game.level this ∧
    represents sm'
      (recorded (WM.p_word current) (Game.difficulty (Game.settings this)) false l) ∧
    (percentage (counted (Game.difficulty (Game.settings this)) false l).1
       (counted (Game.difficulty (Game.settings this)) false l).2
     = round_percent (counted (Game.difficulty (Game.settings this)) false l).1
         (counted (Game.difficulty (Game.settings this)) false l).2 →
     represents sm'
       (Spec.recordAnswer (WM.p_word current) (Game.difficulty (Game.settings this))
          false l)) ∧
    Game.timeLeft this' = 0%Z ∧
    round_over this' ∧
    (∀ k, ticks k this' = Some this').
Proof.
  intros Hsync Hl Hc Hactive Hcurrent Htimer Hleft Hplain Hterm.
  split; [intros k Hk; by apply ticks_count_down|].
  set (last := Game.set_timeLeft 1 this).
  assert (Hbefore : ticks (Z.to_nat (Game.timeLeft this) - 1) this = Some last).
  { rewrite ticks_count_down by (done || lia). unfold last. do 2 f_equal. lia. }
  set (expired := Game.set_timeLeft 0 this).
  assert (Hsync0 : in_sync expired sm c) by exact Hsync.
  destruct (answer_applied false expired sm c l current Hsync0 Hl Hc Hcurrent Hplain Hterm)
    as (this' & sm' & Heq & Hsync' & Hl' & _ & Hover & _ & _ & Hleft' & _).
  destruct (round_over_idle this' Hover) as (_ & _ & Hticks).
  exists this', sm'.
  split.
  { replace (Z.to_nat (Game.timeLeft this))
      with (S (Z.to_nat (Game.timeLeft this) - 1)) by lia.
    assert (Hsplit : ∀ k s, ticks (S k) s = ticks k s ≫= Game.tick).
    { induction k as [|k IH]; intros s.
      - simpl. by destruct (Game.tick s).
      - change (ticks (S (S k)) s) with (Game.tick s ≫= ticks (S k)).
        change (ticks (S k) s) with (Game.tick s ≫= ticks k).
        destruct (Game.tick s) as [s'|]; [|done]. cbn [mbind option_bind]. apply IH. }
    rewrite Hsplit, Hbefore. cbn [mbind option_bind].
    unfold Game.tick, last. cbn [Game.timer Game.set_timeLeft Game.timeLeft].
    rewrite Htimer. change (1 - 1)%Z with 0%Z. change (0 <=? 0)%Z with true.
    rewrite set_timeLeft_again. fold expired.
    unfold Game.handleTimeOut.
    change (Game.gameActive expired) with (Game.gameActive this).
    rewrite Hactive. cbn [negb]. exact Heq. }
  split; [exact Hsync'|].
  destruct Hsync as (_ & _ & _ & Hscore & Hstreak & Hlevel).
  pose proof Hsync' as (_ & _ & _ & Hscore' & Hstreak' & Hlevel').
  unfold answered in Hscore', Hstreak', Hlevel'.
  cbn [c_totalScore c_currentStreak c_level andb] in Hscore', Hstreak', Hlevel'.
  split; [by rewrite Hscore'|]. split; [exact Hstreak'|].
  split; [by rewrite Hlevel'|].
  split; [exact Hl'|].
  split; [intros Hexact; by rewrite <- (recorded_as_specified _ _ _ _ Hexact)|].
  split; [exact Hleft'|]. by split.
Qed.

Lemma timer_times_out_once_witness :
  ∃ this',
    ticks 25 happy_round = Some this' ∧
    Game.streak this' = 0%Z ∧ Game.timeLeft this' = 0%Z ∧ Game.gameActive this' = false.
Proof.
  destruct (timer_times_out_once happy_round _ streak_of_four Spec.empty happy
              happy_round_in_sync happy_round_represents empty_consistent eq_refl eq_refl
              eq_refl ltac:(vm_compute; reflexivity) ltac:(vm_compute; reflexivity)
              ltac:(vm_compute; reflexivity))
    as (_ & this' & sm' & Heq & _ & _ & Hstreak & _ & _ & _ & Hleft & [Hactive _] & _).
  exists this'. split; [exact Heq|]. by repeat split.
Defined.

(** ** The next word *)

(** [loadNextWord] concerns the round and the word manager, not the
    statistics. *)
Lemma loadNextWord_in_sync (random : nat -> Draw) (fetch : string -> WM.Response)
    (this : Game.t) (drawn : nat) (sm : SM.t) (c : Counters) :
  in_sync this sm c →
  in_sync (Game.loadNextWord random fetch this drawn).1 sm c ∧
  Game.settings (Game.loadNextWord random fetch this drawn).1 = Game.settings this ∧
  same_but (WM.cacheKey (Game.difficulty (Game.settings this))
              (Game.category (Game.settings this)))
    (Game.wordManager this)
    (Game.wordManager (Game.loadNextWord random fetch this drawn).1).
Proof.
  intros (Hstorage & Hw & Hr & Hscore & Hstreak & Hlevel).
  unfold Game.loadNextWord.
  pose proof (getNextWord_frame random fetch (Game.difficulty (Game.settings this))
                (Game.category (Game.settings this)) (Game.wordManager this) drawn)
    as Hsame.
  assert (Hcount : ∀ later,
    (WM.getWordCount later (Game.difficulty (Game.settings this))
       (Game.category (Game.settings this))
       (WM.getNextWord random fetch (Game.difficulty (Game.settings this))
          (Game.category (Game.settings this)) (Game.wordManager this) drawn).1.2).2
    = (WM.getNextWord random fetch (Game.difficulty (Game.settings this))
         (Game.category (Game.settings this)) (Game.wordManager this) drawn).1.2).
  { intros later.
    destruct (decide (WM.words (Game.wordManager this)
                        !! WM.cacheKey (Game.difficulty (Game.settings this))
                             (Game.category (Game.settings this)) = None ∧
                      inherited (WM.cacheKey (Game.difficulty (Game.settings this))
                                   (Game.category (Game.settings this))) = true))
      as [[Hnone Hinherited]|Hplain].
    - rewrite getNextWord_inherited by done. cbn [fst snd].
      unfold WM.getWordCount.
      by rewrite (get_inherited _ (WM.words (Game.wordManager this))) by done.
    - destruct (getNextWord_cases random fetch (Game.difficulty (Game.settings this))
                  (Game.category (Game.settings this)) (Game.wordManager this) drawn)
        as (_ & bank & Hbank & _).
      { intros Hnone.
        destruct (inherited (WM.cacheKey (Game.difficulty (Game.settings this))
                               (Game.category (Game.settings this)))); [|done].
        by destruct Hplain. }
      unfold WM.getWordCount. by rewrite !(get_Some _ _ _ Hbank). }
  destruct (WM.getNextWord random fetch _ _ (Game.wordManager this) drawn)
    as [[result wm] drawn'].
  cbn [fst snd] in *.
  assert (Hshipped : WM.storage wm = Some (WM.shipped sm))
    by by apply (proj2 (proj2 (proj2 (proj2 (proj2 Hsame))))).
  assert (Hend : in_sync (Game.showGameEnd fetch (Game.set_wordManager wm this)) sm c ∧
                 Game.settings (Game.showGameEnd fetch (Game.set_wordManager wm this))
                   = Game.settings this ∧
                 same_but (WM.cacheKey (Game.difficulty (Game.settings this))
                             (Game.category (Game.settings this)))
                   (Game.wordManager this)
                   (Game.wordManager
                      (Game.showGameEnd fetch (Game.set_wordManager wm this)))).
  { unfold Game.showGameEnd. cbn [Game.settings Game.set_wordManager Game.wordManager].
    specialize (Hcount fetch).
    destruct (WM.getWordCount fetch _ _ wm) as [count wm']. cbn [snd] in Hcount.
    subst wm'.
    split; [|split; [reflexivity|exact Hsame]].
    split; [exact Hshipped|]. split; [exact Hw|]. split; [exact Hr|].
    split; [exact Hscore|]. split; [exact Hstreak|exact Hlevel]. }
  destruct result as [|message total visitedCount|prepared meta]; try exact Hend.
  cbn [fst].
  split; [|split; [reflexivity|exact Hsame]].
  split; [exact Hshipped|]. split; [exact Hw|]. split; [exact Hr|].
  split; [exact Hscore|]. split; [exact Hstreak|exact Hlevel].
Qed.

(** ** Page loads *)

Lemma number_or_zero (n : Z) : Game.number_or 0 (JNum n) = Some n.
Proof.
  unfold Game.number_or. simpl. destruct (Z.eqb_spec n 0) as [->|]; done.
Qed.

Lemma number_or_nonzero (d n : Z) : n ≠ 0%Z → Game.number_or d (JNum n) = Some n.
Proof.
  intros Hn. unfold Game.number_or. simpl. by destruct (Z.eqb_spec n 0).
Qed.

(** The game that a page load constructs on the storage of an initialised
    store, with its state loaded. *)
Lemma game_reload (sm : SM.t) (c : Counters) (d k : string) :
  working sm → reads_counters sm c →
  truthy (SM.getData "initialized" JNull sm) = true →
  c_level c ≠ 0%Z →
  SM.getPreferences sm = {| SM.pref_difficulty := JStr d; SM.pref_category := JStr k |} →
  ∃ game game',
    Game.constructor (SM.localStorage sm) = Some game ∧
    Game.settings game = {| Game.difficulty := d; Game.category := k |} ∧
    Game.loadGameState game = Some game' ∧
    in_sync game' (SM.constructor (SM.localStorage sm)) c ∧
    Game.settings game' = {| Game.difficulty := d; Game.category := k |} ∧
    Game.gameActive game' = false ∧
    Game.currentWord game' = None ∧
    WM.cycleState (Game.wordManager game') = ∅ ∧
    WM.words (Game.wordManager game') = ∅.
Proof.
  intros Hw Hr Hinit Hlevel Hprefs.
  destruct (constructor_reload sm Hw Hinit) as [Hw' Hreads].
  assert (Hprefs' : SM.getPreferences (SM.constructor (SM.localStorage sm))
                    = {| SM.pref_difficulty := JStr d; SM.pref_category := JStr k |}).
  { rewrite <- Hprefs. unfold SM.getPreferences. by rewrite !Hreads. }
  assert (Hr' : reads_counters (SM.constructor (SM.localStorage sm)) c).
  { unfold reads_counters, SM.getStats in *.
    cbn [SM.totalScore SM.currentStreak SM.bestStreak SM.level SM.totalWords
         SM.correctAnswers] in *.
    by rewrite !Hreads. }
  unfold Game.constructor. rewrite Hprefs'.
  cbn [SM.pref_difficulty SM.pref_category Game.asString mbind option_bind].
  eexists _, _. split; [reflexivity|]. split; [reflexivity|].
  unfold Game.loadGameState, Game.storage.
  cbn [Game.wordManager WM.constructor WM.storage WM.shipped WM.manager fmap
       option_fmap option_map mbind option_bind].
  pose proof Hr' as (H1 & H2 & _ & H4 & _).
  rewrite H1, H2, H4, !number_or_zero, (number_or_nonzero 1 _ Hlevel).
  cbn [mbind option_bind]. split; [reflexivity|].
  split; [|by repeat split].
  split; [reflexivity|]. split; [exact Hw'|]. split; [exact Hr'|]. by repeat split.
Qed.

(** X28. Progress survives a reload.  When the game shows what an
    initialised, working store holds, a page load on that storage constructs
    a game whose settings are the stored preferences and, once
    [loadGameState] has run, whose score, streak and level are those of the
    game before.  The new game has no word on the screen, no bank cached
    and no cycle: every category starts over. *)
Theorem reload_restores_the_game (this : Game.t) (sm : SM.t) (c : Counters)
    (d k : string) :
  in_sync this sm c →
  truthy (SM.getData "initialized" JNull sm) = true →
  c_level c ≠ 0%Z →
  SM.getPreferences sm = {| SM.pref_difficulty := JStr d; SM.pref_category := JStr k |} →
  ∃ game game' sm',
    Game.constructor (SM.localStorage sm) = Some game ∧
    Game.loadGameState game = Some game' ∧
    in_sync game' sm' c ∧
    Game.score game' = Game.score this ∧
    Game.streak game' = Game.streak this ∧
    Game.level game' = Game.level this ∧
    Game.settings game' = {| Game.difficulty := d; Game.category := k |} ∧
    Game.gameActive game' = false ∧
    Game.currentWord game' = None ∧
    WM.cycleState (Game.wordManager game') = ∅ ∧
    WM.words (Game.wordManager game') = ∅.
Proof.
  intros (_ & Hw & Hr & Hscore & Hstreak & Hlevel) Hinit Hnonzero Hprefs.
  destruct (game_reload sm c d k Hw Hr Hinit Hnonzero Hprefs)
    as (game & game' & Hnew & _ & Hload & Hsync & Hsettings & Hactive & Hword & Hcycle
        & Hwords).
  eexists game, game', _. split; [exact Hnew|]. split; [exact Hload|].
  split; [exact Hsync|].
  destruct Hsync as (_ & _ & _ & -> & -> & ->).
  by rewrite Hscore, Hstreak, Hlevel.
Qed.

Lemma seasoned_store_working : working seasoned_store.
Proof.
  apply updatePreferences_reads, setData_keeps_working, fresh_store_working.
Qed.

Lemma seasoned_game_in_sync : in_sync seasoned_game seasoned_store seasoned_counters.
Proof.
  split; [reflexivity|]. split; [exact seasoned_store_working|].
  split; [repeat split; vm_compute; reflexivity|]. by repeat split.
Qed.

Lemma reload_restores_the_game_witness :
  ∃ game game',
    Game.constructor (SM.localStorage seasoned_store) = Some game ∧
    Game.loadGameState game = Some game' ∧
    Game.score game' = 40%Z ∧
    Game.settings game' = {| Game.difficulty := "hard"; Game.category := "business" |}.
Proof.
  destruct (reload_restores_the_game seasoned_game seasoned_store seasoned_counters
              "hard" "business" seasoned_game_in_sync ltac:(vm_compute; reflexivity)
              ltac:(discriminate) ltac:(vm_compute; reflexivity))
    as (game & game' & _ & Hnew & Hload & _ & Hscore & _ & _ & Hsettings & _).
  exists game, game'. by repeat split.
Defined.

(** ** [changeDifficulty] and [changeCategory] *)

(** X29. A change of difficulty or of category is remembered.  Asked for
    the empty name or for the setting already in force, the methods do
    nothing.  Otherwise, when the game shows what a working store holds, the
    new setting is in force afterwards, the other one and score, streak and
    level are as before, and the store holds the new setting as a
    preference: the next page load on an initialised store constructs a game
    with it. *)
Theorem setting_changes_are_remembered (random : nat -> Draw)
    (fetch : string -> WM.Response) (this : Game.t) (drawn : nat) (sm : SM.t)
    (c : Counters) (name : string) :
  in_sync this sm c →
  (name = "" ∨ name = Game.difficulty (Game.settings this) →
   Game.changeDifficulty random fetch name this drawn = Some (this, drawn)) ∧
  (name = "" ∨ name = Game.category (Game.settings this) →
   Game.changeCategory random fetch name this drawn = Some (this, drawn)) ∧
  (name ≠ "" → name ≠ Game.difficulty (Game.settings this) →
   ∃ this' drawn' sm',
     Game.changeDifficulty random fetch name this drawn = Some (this', drawn') ∧
     Game.settings this'
       = {| Game.difficulty := name; Game.category := Game.category (Game.settings this) |} ∧
     in_sync this' sm' c ∧
     SM.pref_difficulty (SM.getPreferences sm') = JStr name ∧
     SM.pref_category (SM.getPreferences sm') = SM.pref_category (SM.getPreferences sm) ∧
     (truthy (SM.getData "initialized" JNull sm) = true →
      SM.pref_category (SM.getPreferences sm) = JStr (Game.category (Game.settings this)) →
      ∃ game, Game.constructor (SM.localStorage sm') = Some game ∧
              Game.settings game = Game.settings this')) ∧
  (name ≠ "" → name ≠ Game.category (Game.settings this) →
   ∃ this' drawn' sm',
     Game.changeCategory random fetch name this drawn = Some (this', drawn') ∧
     Game.settings this'
       = {| Game.difficulty := Game.difficulty (Game.settings this); Game.category := name |} ∧
     in_sync this' sm' c ∧
     SM.pref_category (SM.getPreferences sm') = JStr name ∧
     SM.pref_difficulty (SM.getPreferences sm')
       = SM.pref_difficulty (SM.getPreferences sm) ∧
     (truthy (SM.getData "initialized" JNull sm) = true →
      SM.pref_difficulty (SM.getPreferences sm)
        = JStr (Game.difficulty (Game.settings this)) →
      ∃ game, Game.constructor (SM.localStorage sm') = Some game ∧
              Game.settings game = Game.settings this')).
Proof.
  intros Hsync.
  split.
  { intros [-> | ->]; unfold Game.changeDifficulty.
    - by rewrite (String.eqb_refl ""), orb_true_r.
    - by rewrite String.eqb_refl. }
  split.
  { intros [-> | ->]; unfold Game.changeCategory.
    - by rewrite (String.eqb_refl ""), orb_true_r.
    - by rewrite String.eqb_refl. }
  destruct Hsync as (Hstorage & Hw & Hr & Hscore & Hstreak & Hlevel).
  assert (Hchange : ∀ (key : string) (settings' : Game.Settings),
    let sm' := SM.updatePreferences {[ key := JStr name ]} sm in
    let this1 :=
      Game.set_wordManager
        (WM.resetUsedWords
           (Game.wordManager
              (Game.put_storage sm' (Game.set_settings settings' (Game.clearTimer this)))))
        (Game.put_storage sm' (Game.set_settings settings' (Game.clearTimer this))) in
    key ∈ ["difficulty"; "category"] →
    in_sync (Game.loadNextWord random fetch this1 drawn).1 sm' c ∧
    Game.settings (Game.loadNextWord random fetch this1 drawn).1 = settings' ∧
    (∀ other d, other ≠ key → SM.getData other d sm' = SM.getData other d sm) ∧
    (∀ d, SM.getData key d sm' = JStr name) ∧
    (truthy (SM.getData "initialized" JNull sm) = true →
     truthy (SM.getData "initialized" JNull sm') = true)).
  { intros key settings' sm' this1 Hkey.
    destruct (updatePreferences_reads {[ key := JStr name ]} sm Hw) as [Hw' Hreads].
    assert (Hother : ∀ other d, other ≠ key →
                                SM.getData other d sm' = SM.getData other d sm).
    { intros other d Hne. unfold sm'. rewrite Hreads.
      by rewrite lookup_singleton_ne. }
    assert (Hkeys : key ≠ "totalScore" ∧ key ≠ "currentStreak" ∧ key ≠ "bestStreak" ∧
                    key ≠ "level" ∧ key ≠ "totalWords" ∧ key ≠ "correctAnswers" ∧
                    key ≠ "initialized").
    { repeat (apply elem_of_cons in Hkey as [->|Hkey]; [by repeat split|]).
      by apply elem_of_nil in Hkey. }
    destruct Hkeys as (? & ? & ? & ? & ? & ? & ?).
    assert (Hsync1 : in_sync this1 sm' c).
    { split.
      { unfold this1, Game.put_storage.
        cbn [Game.wordManager Game.set_settings Game.clearTimer Game.set_timer].
        by rewrite Hstorage. }
      split; [exact Hw'|].
      split.
      { unfold reads_counters, SM.getStats in *.
        cbn [SM.totalScore SM.currentStreak SM.bestStreak SM.level SM.totalWords
             SM.correctAnswers] in *.
        by rewrite !Hother by done. }
      unfold this1, Game.put_storage.
      cbn [Game.wordManager Game.set_settings Game.clearTimer Game.set_timer].
      rewrite Hstorage. by repeat split. }
    destruct (loadNextWord_in_sync random fetch this1 drawn sm' c Hsync1)
      as (Hsync' & Hsettings' & _).
    split; [exact Hsync'|].
    split.
    { rewrite Hsettings'. unfold this1, Game.put_storage.
      cbn [Game.wordManager Game.set_settings Game.clearTimer Game.set_timer].
      by rewrite Hstorage. }
    split; [exact Hother|].
    split.
    { intros d. unfold sm'. by rewrite Hreads, lookup_singleton_eq. }
    intros Hinit. by rewrite Hother by done. }
  split.
  - intros Hname Hdiff.
    destruct (Hchange "difficulty"
                {| Game.difficulty := name; Game.category := Game.category (Game.settings this) |}
                ltac:(repeat constructor))
      as (Hsync' & Hsettings' & Hother & Hkey & Hinit').
    eexists _, _, _. split.
    { unfold Game.changeDifficulty.
      rewrite (proj2 (String.eqb_neq _ _)) by done.
      rewrite (proj2 (String.eqb_neq name "")) by done.
      cbn [orb]. unfold Game.storage.
      cbn [Game.wordManager Game.set_settings Game.clearTimer Game.set_timer].
      rewrite Hstorage. cbn [fmap option_fmap option_map WM.manager WM.shipped mbind
                             option_bind].
      rewrite (surjective_pairing (Game.loadNextWord random fetch _ drawn)).
      reflexivity. }
    cbn [fst]. split; [exact Hsettings'|]. split; [exact Hsync'|].
    unfold SM.getPreferences. cbn [SM.pref_difficulty SM.pref_category].
    split; [apply Hkey|]. split; [by apply Hother|].
    intros Hinit Hcategory.
    destruct Hsync' as (_ & Hw' & Hr' & _).
    destruct (constructor_reload _ Hw' (Hinit' Hinit)) as [_ Hreads].
    unfold Game.constructor, SM.getPreferences.
    cbn [SM.pref_difficulty SM.pref_category].
    rewrite !Hreads, Hkey, Hother by done.
    unfold SM.getPreferences in Hcategory. cbn [SM.pref_category] in Hcategory.
    rewrite Hcategory. cbn [Game.asString mbind option_bind].
    eexists. split; [reflexivity|]. symmetry. exact Hsettings'.
  - intros Hname Hdiff.
    destruct (Hchange "category"
                {| Game.difficulty := Game.difficulty (Game.settings this);
                   Game.category := name |}
                ltac:(repeat constructor))
      as (Hsync' & Hsettings' & Hother & Hkey & Hinit').
    eexists _, _, _. split.
    { unfold Game.changeCategory.
      rewrite (proj2 (String.eqb_neq _ _)) by done.
      rewrite (proj2 (String.eqb_neq name "")) by done.
      cbn [orb]. unfold Game.storage.
      cbn [Game.wordManager Game.set_settings Game.clearTimer Game.set_timer].
      rewrite Hstorage. cbn [fmap option_fmap option_map WM.manager WM.shipped mbind
                             option_bind].
      rewrite (surjective_pairing (Game.loadNextWord random fetch _ drawn)).
      reflexivity. }
    cbn [fst]. split; [exact Hsettings'|]. split; [exact Hsync'|].
    unfold SM.getPreferences. cbn [SM.pref_difficulty SM.pref_category].
    split; [apply Hkey|]. split; [by apply Hother|].
    intros Hinit Hdifficulty.
    destruct Hsync' as (_ & Hw' & Hr' & _).
    destruct (constructor_reload _ Hw' (Hinit' Hinit)) as [_ Hreads].
    unfold Game.constructor, SM.getPreferences.
    cbn [SM.pref_difficulty SM.pref_category].
    rewrite !Hreads, Hkey, Hother by done.
    unfold SM.getPreferences in Hdifficulty. cbn [SM.pref_difficulty] in Hdifficulty.
    rewrite Hdifficulty. cbn [Game.asString mbind option_bind].
    eexists. split; [reflexivity|]. symmetry. exact Hsettings'.
Qed.

Lemma setting_changes_are_remembered_witness :
  ∃ this' drawn' sm',
    Game.changeDifficulty always_zero offline "hard" new_game 0 = Some (this', drawn') ∧
    Game.difficulty (Game.settings this') = "hard" ∧
    SM.pref_difficulty (SM.getPreferences sm') = JStr "hard".
Proof.
  destruct (setting_changes_are_remembered always_zero offline new_game 0 fresh_store
              default_counters "hard" new_game_in_sync)
    as (_ & _ & Hchange & _).
  destruct (Hchange ltac:(discriminate) ltac:(discriminate))
    as (this' & drawn' & sm' & Heq & Hsettings & _ & Hpref & _).
  exists this', drawn', sm'. split; [exact Heq|]. split; [by rewrite Hsettings|exact Hpref].
Defined.

(** ** [resetProgress] of the game *)

Lemma resetProgress_represents_empty (sm : SM.t) :
  working sm → represents (SM.resetProgress sm) Spec.empty.
Proof.
  intros Hw. unfold represents, SM.getCompletedWords, SM.getMissedWords,
    SM.getWordAccuracy, SM.getDifficultyStats.
  repeat split; read_default.
Qed.

(** X30. When the game shows what a working store
    holds, [resetProgress] of the game succeeds and leaves score and streak
    at 0 and the level at 1, in the game and in the store, and an empty
    ledger.  It resets nothing else.  The settings of the game stay what
    they were, while the stored preferences go back to easy and general;
    the completed categories stay completed; the cycles of the word manager
    are not reset: those of the other keys are untouched, and a category
    that was at its end is still at its end, so that no new word is served
    and the word on the screen stays the current one. *)
Theorem game_reset_keeps_cycles (random : nat -> Draw) (fetch : string -> WM.Response)
    (this : Game.t) (drawn : nat) (sm : SM.t) (c : Counters) :
  in_sync this sm c →
  ∃ this' drawn' sm',
    Game.resetProgress random fetch this drawn = Some (this', drawn') ∧
    in_sync this' sm' default_counters ∧
    Game.score this' = 0%Z ∧ Game.streak this' = 0%Z ∧ Game.level this' = 1%Z ∧
    represents sm' Spec.empty ∧
    Game.settings this' = Game.settings this ∧
    SM.getPreferences sm'
      = {| SM.pref_difficulty := JStr "easy"; SM.pref_category := JStr "general" |} ∧
    (∀ d, SM.getCompletedCategories d sm' = SM.getCompletedCategories d sm) ∧
    (∀ other,
       other ≠ WM.cacheKey (Game.difficulty (Game.settings this))
                 (Game.category (Game.settings this)) →
       WM.cycleState (Game.wordManager this') !! other
       = WM.cycleState (Game.wordManager this) !! other) ∧
    (∀ bank seen,
       WM.words (Game.wordManager this)
         !! WM.cacheKey (Game.difficulty (Game.settings this))
              (Game.category (Game.settings this)) = Some bank →
       bank ≠ [] →
       WM.cycleState (Game.wordManager this)
         !! WM.cacheKey (Game.difficulty (Game.settings this))
              (Game.category (Game.settings this))
         = Some {| WM.queue := []; WM.visited := seen |} →
       WM.cycleState (Game.wordManager this')
         !! WM.cacheKey (Game.difficulty (Game.settings this))
              (Game.category (Game.settings this))
         = Some {| WM.queue := []; WM.visited := seen |} ∧
       Game.currentWord this' = Game.currentWord this ∧
       Game.gameActive this' = Game.gameActive this ∧
       Game.timer this' = false ∧
       drawn' = drawn).
Proof.
  intros (Hstorage & Hw & Hr & Hscore & Hstreak & Hlevel).
  set (sm' := SM.resetProgress sm).
  set (this1 :=
         Game.clearTimer
           (Game.set_wordManager
              (WM.resetUsedWords
                 (Game.wordManager
                    (Game.set_level 1
                       (Game.set_streak 0 (Game.set_score 0 (Game.put_storage sm' this))))))
              (Game.set_level 1
                 (Game.set_streak 0 (Game.set_score 0 (Game.put_storage sm' this)))))).
  assert (Heq : Game.resetProgress random fetch this drawn
                = Some (Game.loadNextWord random fetch this1 drawn)).
  { unfold Game.resetProgress. rewrite (storage_shipped sm this Hstorage). reflexivity. }
  assert (Hfields : WM.storage (Game.wordManager this1) = Some (WM.shipped sm') ∧
                    Game.settings this1 = Game.settings this ∧
                    WM.words (Game.wordManager this1) = WM.words (Game.wordManager this) ∧
                    WM.cycleState (Game.wordManager this1)
                      = WM.cycleState (Game.wordManager this) ∧
                    Game.currentWord this1 = Game.currentWord this ∧
                    Game.gameActive this1 = Game.gameActive this).
  { unfold this1, Game.put_storage. rewrite Hstorage. by repeat split. }
  destruct Hfields as (Hstorage1 & Hsettings1 & Hwords1 & Hcycle1 & Hword1 & Hactive1).
  assert (Hsync1 : in_sync this1 sm' default_counters).
  { split; [exact Hstorage1|]. split; [by apply resetProgress_working|].
    split; [by apply resetProgress_counters|]. by repeat split. }
  destruct (loadNextWord_in_sync random fetch this1 drawn sm' default_counters Hsync1)
    as (Hsync' & Hsettings' & Hsame).
  rewrite Hsettings1 in Hsame.
  exists (Game.loadNextWord random fetch this1 drawn).1,
         (Game.loadNextWord random fetch this1 drawn).2, sm'.
  split; [by rewrite Heq, <- surjective_pairing|].
  split; [exact Hsync'|].
  pose proof Hsync' as (_ & _ & _ & -> & -> & ->).
  split; [done|]. split; [done|]. split; [done|].
  split; [by apply resetProgress_represents_empty|].
  split; [by rewrite Hsettings'|].
  split.
  { unfold SM.getPreferences, sm'. f_equal; read_default. }
  split.
  { intros d. unfold SM.getCompletedCategories, sm', SM.resetProgress.
    apply getData_setAll_ne, (proj1 (completion_keys_not_default d "")). }
  split.
  { intros other Hother. destruct Hsame as (_ & Hcycles & _).
    by rewrite Hcycles, Hcycle1. }
  intros bank seen Hbank Hne Hcycle.
  assert (Hbank1 : WM.words (Game.wordManager this1)
                     !! WM.cacheKey (Game.difficulty (Game.settings this1))
                          (Game.category (Game.settings this1)) = Some bank)
    by by rewrite Hsettings1, Hwords1.
  assert (Hcycle1' : WM.cycleState (Game.wordManager this1)
                       !! WM.cacheKey (Game.difficulty (Game.settings this1))
                            (Game.category (Game.settings this1))
                     = Some {| WM.queue := []; WM.visited := seen |})
    by by rewrite Hsettings1, Hcycle1.
  unfold Game.loadNextWord.
  rewrite (getNextWord_exhausted random fetch _ _ (Game.wordManager this1) drawn bank seen
             Hbank1 Hne Hcycle1').
  unfold endOfCategory, Game.showGameEnd.
  cbn [Game.settings Game.set_wordManager Game.wordManager].
  unfold WM.getWordCount. rewrite !(get_Some _ _ _ Hbank1). cbn [fst snd].
  cbn [Game.clearTimer Game.set_timer Game.wordManager Game.set_wordManager
       Game.currentWord Game.gameActive Game.timer].
  rewrite <- Hsettings1. by repeat split.
Qed.

Lemma finished_game_in_sync : in_sync finished_game fresh_store default_counters.
Proof.
  split; [vm_compute; reflexivity|]. split; [exact fresh_store_working|].
  split; [exact fresh_store_reads_defaults|]. by repeat split.
Qed.

Lemma game_reset_keeps_cycles_witness :
  ∃ this' sm',
    Game.resetProgress always_zero offline finished_game 7 = Some (this', 7) ∧
    in_sync this' sm' default_counters ∧
    Game.currentWord this' = None.
Proof.
  destruct (game_reset_keeps_cycles always_zero offline finished_game 7 fresh_store
              default_counters finished_game_in_sync)
    as (this' & drawn' & sm' & Heq & Hsync & _ & _ & _ & _ & _ & _ & _ & _ & Hend).
  destruct (Hend (WM.sample_bank) {[ "Happy"; "Brave" ]}
              ltac:(vm_compute; reflexivity) ltac:(discriminate)
              ltac:(vm_compute; reflexivity))
    as (_ & Hword & _ & _ & ->).
  exists this', sm'. split; [exact Heq|]. split; [exact Hsync|]. by rewrite Hword.
Defined.
